(** * CatalogForge export pipeline: a shallow embedding of
      [worker/src/pipeline.ts] and [worker/src/index.ts]

    The development follows the pipeline stage by stage.  Pure helpers
    ([formatPrice], [clamp01], [resolveOverlayStyle], [buildProductRecord],
    [buildGroupedItems]) are Rocq functions; code that talks to the job
    store, the network or the byte store runs in a small state-and-exception
    monad over an explicit [World].  The workers of [downloadCovers], which
    run side by side, are tasks that an event loop interleaves at their
    [await]s in an order the environment chooses.  JavaScript numbers are
    idealised as exact rationals plus [NaN] and the two infinities. *)

From Stdlib Require Import String Ascii List ZArith QArith Qround Bool Lia Arith.
From Stdlib Require Import Permutation Sorted Lqa.
Import ListNotations.

Local Open Scope string_scope.
Local Open Scope list_scope.

(** Template literals are concatenations; [s ^^ t] is string append. *)
Local Infix "^^" := String.append (at level 60, right associativity).

(* ===================================================================== *)
(** * Part I.  The embedding                                              *)
(* ===================================================================== *)

(** ** JavaScript values used by the pipeline *)

(** Truthiness of a string: only the empty string is falsy. *)
Definition truthyStr (s : string) : bool :=
  match s with
  | EmptyString => false
  | String _ _ => true
  end.

(** Truthiness of a [string | null] value. *)
Definition truthyOpt (o : option string) : bool :=
  match o with
  | Some s => truthyStr s
  | None => false
  end.

(** [a ?? b] on [string | null | undefined]. *)
Definition nullish {A : Type} (o : option A) (d : A) : A :=
  match o with
  | Some a => a
  | None => d
  end.

(** ** Data model *)

(** One row of a variant table: [{ title: string; price: string | null }]. *)
Record VariantRow := mkVariantRow {
  vr_title : string;
  vr_price : option string
}.

(** [ProductRecord["price"]]:
    [string | { min; max } | { variants: [...] } | null]. *)
Inductive Price :=
| PriceNull
| PriceScalar (value : string)
| PriceRange (min max : string)
| PriceTable (variants : list VariantRow).

(** ** Price formatting *)

(** [export function formatPrice(price, currencyPrefix?)]. *)
Definition formatPrice (price : Price) (currencyPrefix : option string)
  : option string :=
  let prefix := nullish currencyPrefix "$" in
  match price with
  | PriceNull => None
  | PriceScalar value =>
      if truthyStr value then Some (prefix ^^ value) else None
  | PriceRange min max =>
      Some (prefix ^^ min ^^ " - " ^^ prefix ^^ max)
  | PriceTable variants =>
      match variants with
      | [] => None
      | first :: _ =>
          match vr_price first with
          | Some p => if truthyStr p then Some (prefix ^^ p) else None
          | None => None
          end
      end
  end.

(** [function formatPriceValue(value, currencyPrefix?)]. *)
Definition formatPriceValue (value : option string)
  (currencyPrefix : option string) : option string :=
  match value with
  | Some v => if truthyStr v then Some (nullish currencyPrefix "$" ^^ v) else None
  | None => None
  end.

(** ** Numbers

    A JavaScript [number] is modelled by its exact value: a rational, or one
    of the three non-finite values.  Rounding error of the double format is
    not modelled. *)
Inductive JsNum :=
| JsNaN
| JsNegInf
| JsFin (q : Q)
| JsPosInf.

(** [Math.round]: the closest integer, ties towards plus infinity. *)
Definition Math_round (q : Q) : Z := Qfloor (q + (1 # 2)).

(** [Math.min] and [Math.max] on two finite numbers. *)
Definition Qmin2 (a b : Q) : Q := if Qle_bool a b then a else b.
Definition Qmax2 (a b : Q) : Q := if Qle_bool a b then b else a.

(** [function clamp01(value)]: [NaN] goes to 0, everything else is cut to
    the unit interval. *)
Definition clamp01 (value : JsNum) : Q :=
  match value with
  | JsNaN => 0
  | JsNegInf => Qmin2 0 1
  | JsFin q => Qmin2 (Qmax2 q 0) 1
  | JsPosInf => 1
  end.

(** ** Price overlay settings *)

(** [ExportSettings["priceOverlay"]["rect"]]. *)
Record OverlayRect := mkOverlayRect {
  rect_x : JsNum;
  rect_y : JsNum;
  rect_width : JsNum;
  rect_height : JsNum
}.

(** [ExportSettings["priceOverlay"]]. *)
Record PriceOverlay := mkPriceOverlay {
  po_enabled : option bool;
  po_rect : option OverlayRect;
  po_backgroundColor : option string;
  po_backgroundOpacity : option JsNum;
  po_textColor : option string;
  po_currencyPrefix : option string
}.

(** The value returned by [resolveOverlayStyle]. *)
Record OverlayStyle := mkOverlayStyle {
  os_x : Z;
  os_y : Z;
  os_width : Z;
  os_height : Z;
  os_backgroundColor : string;
  os_backgroundOpacity : Q;
  os_textColor : string
}.

(** [overlay?.rect?.f ?? d]. *)
Definition rectField (overlay : option PriceOverlay)
  (f : OverlayRect -> JsNum) (d : Q) : JsNum :=
  match overlay with
  | Some o =>
      match po_rect o with
      | Some r => f r
      | None => JsFin d
      end
  | None => JsFin d
  end.

(** [overlay?.f ?? d]. *)
Definition overlayField {A : Type} (overlay : option PriceOverlay)
  (f : PriceOverlay -> option A) (d : A) : A :=
  match overlay with
  | Some o => nullish (f o) d
  | None => d
  end.

(** [function resolveOverlayStyle(overlay, imageWidth, imageHeight)]. *)
Definition resolveOverlayStyle (overlay : option PriceOverlay)
  (imageWidth imageHeight : Z) : OverlayStyle :=
  let widthRatio := clamp01 (rectField overlay rect_width (88 # 100)) in
  let heightRatio := clamp01 (rectField overlay rect_height (2 # 10)) in
  let xRatio := clamp01 (rectField overlay rect_x (6 # 100)) in
  let yRatio := clamp01 (rectField overlay rect_y (74 # 100)) in
  let width := Math_round (inject_Z imageWidth * widthRatio) in
  let height := Math_round (inject_Z imageHeight * heightRatio) in
  let x := Math_round (Qmin2 (Qmax2 0 (inject_Z imageWidth * xRatio))
                             (inject_Z (imageWidth - width))) in
  let y := Math_round (Qmin2 (Qmax2 0 (inject_Z imageHeight * yRatio))
                             (inject_Z (imageHeight - height))) in
  {| os_x := x;
     os_y := y;
     os_width := width;
     os_height := height;
     os_backgroundColor := overlayField overlay po_backgroundColor "#000000";
     os_backgroundOpacity :=
       clamp01 (overlayField overlay po_backgroundOpacity (JsFin (55 # 100)));
     os_textColor := overlayField overlay po_textColor "#ffffff" |}.

(** ** Export settings and product records *)

Inductive ScopeType := ALL_PRODUCTS | COLLECTIONS | FILTERS | PRODUCTS.
Inductive PricingMode := DEFAULT_VARIANT_PRICE | MIN_MAX_RANGE | VARIANT_TABLE.
Inductive LayoutType := GRID | ONE_PER_PAGE.
Inductive Grouping := NONE | COLLECTION | VENDOR | PRODUCT_TYPE.
Inductive SortOrder := COLLECTION_ORDER | TITLE_ASC | CREATED_DESC | UPDATED_DESC.
Inductive PageSize := A4 | LETTER.
Inductive WatermarkOpacity := LIGHT | MEDIUM | HEAVY.

(** [ExportSettings["filters"]]. *)
Record Filters := mkFilters {
  f_vendor : option (list string);
  f_productType : option (list string);
  f_tag : option (list string)
}.

(** [type ExportSettings]; every field is optional.  [gridColumns] is
    declared as [2 | 3 | 4]; the embedding keeps it a natural number and the
    theorems say which values they cover. *)
Record ExportSettings := mkExportSettings {
  scopeType : option ScopeType;
  includeDrafts : option bool;
  pricingMode : option PricingMode;
  currencyPrefix : option string;
  layoutType : option LayoutType;
  gridColumns : option nat;
  grouping : option Grouping;
  sortOrder : option SortOrder;
  pageSize : option PageSize;
  watermarkEnabled : option bool;
  watermarkText : option string;
  watermarkOpacity : option WatermarkOpacity;
  priceOverlay : option PriceOverlay;
  productIds : option (list string);
  collectionIds : option (list string);
  filters : option Filters
}.

(** The settings object [{}]. *)
Definition defaultSettings : ExportSettings :=
  {| scopeType := None; includeDrafts := None; pricingMode := None;
     currencyPrefix := None; layoutType := None; gridColumns := None;
     grouping := None; sortOrder := None; pageSize := None;
     watermarkEnabled := None; watermarkText := None; watermarkOpacity := None;
     priceOverlay := None; productIds := None; collectionIds := None;
     filters := None |}.

(** [{ id: string; title: string }]. *)
Record CollectionRef := mkCollectionRef {
  col_id : string;
  col_title : string
}.

(** [type ProductRecord]. *)
Record ProductRecord := mkProductRecord {
  productId : string;
  title : option string;
  handle : option string;
  vendor : option string;
  productType : option string;
  status : option string;
  coverUrl : option string;
  createdAt : option string;
  updatedAt : option string;
  collections : list CollectionRef;
  localCoverPath : option string;
  coverFileName : option string;
  price : Price
}.

(** An item of the grouped sequence the layout engine consumes. *)
Inductive GroupedItem :=
| ItemHeader (title : string)
| ItemProduct (record : ProductRecord).

Definition isHeader (item : GroupedItem) : bool :=
  match item with
  | ItemHeader _ => true
  | ItemProduct _ => false
  end.

(** ** Grouping *)

(** [function selectCollectionTitle(record, settings)]. *)
Definition selectCollectionTitle (record : ProductRecord)
  (settings : ExportSettings) : option string :=
  match collections record with
  | [] => None
  | first :: _ =>
      let fallback := Some (col_title first) in
      match collectionIds settings with
      | Some ((_ :: _) as ids) =>
          match find (fun c => existsb (String.eqb (col_id c)) ids)
                     (collections record) with
          | Some m => Some (col_title m)
          | None => fallback
          end
      | _ => fallback
      end
  end.

(** [bucket = grouped.get(key) ?? []; bucket.push(record);
    grouped.set(key, bucket)] on a [Map], which keeps keys in first-insertion
    order. *)
Fixpoint bucketPush (key : string) (record : ProductRecord)
  (grouped : list (string * list ProductRecord))
  : list (string * list ProductRecord) :=
  match grouped with
  | [] => [(key, [record])]
  | (k, bucket) :: rest =>
      if String.eqb k key then (k, bucket ++ [record]) :: rest
      else (k, bucket) :: bucketPush key record rest
  end.

Definition groupKey (g : Grouping) (settings : ExportSettings)
  (record : ProductRecord) : string :=
  match g with
  | VENDOR => nullish (vendor record) "Unassigned"
  | PRODUCT_TYPE => nullish (productType record) "Unassigned"
  | _ => nullish (selectCollectionTitle record settings) "Unassigned"
  end.

(** [function buildGroupedItems(records, settings)]. *)
Definition buildGroupedItems (records : list ProductRecord)
  (settings : ExportSettings) : list GroupedItem :=
  match nullish (grouping settings) NONE with
  | NONE => map ItemProduct records
  | g =>
      let grouped :=
        fold_left (fun acc record => bucketPush (groupKey g settings record) record acc)
                  records [] in
      flat_map (fun '(title, group) => ItemHeader title :: map ItemProduct group)
               grouped
  end.

(** ** Results of code that can throw *)

Inductive Result (A : Type) :=
| Ok (a : A)
| Throw (message : string).
Arguments Ok {A} a.
Arguments Throw {A} message.

(** ** PDF layout

    A page is the list of drawing-helper calls made on it, in call order.
    [drawOnePerPage] and [drawGridCell] are kept as single calls carrying
    their arguments.  Both go through [drawImageOrPlaceholder], which reads
    the cover file outside its [try]: when the record has a cover path that
    cannot be read, the call throws and [buildPdf] rejects. *)
Inductive DrawCall :=
| CallWatermarkText (text : string) (opacity : Q)
| CallHeaderPage (title : string)
| CallOnePerPage (record : ProductRecord)
| CallGridCell (record : ProductRecord) (x y width height : Q).

Record Page := mkPage {
  page_width : Z;
  page_height : Z;
  page_calls : list DrawCall
}.

Definition isCellCall (c : DrawCall) : bool :=
  match c with
  | CallOnePerPage _ | CallGridCell _ _ _ _ _ => true
  | _ => false
  end.

(** [{ text: string; opacity: number } | null]. *)
Record Watermark := mkWatermark {
  wm_text : string;
  wm_opacity : Q
}.

Definition draw (page : Page) (c : DrawCall) : Page :=
  {| page_width := page_width page;
     page_height := page_height page;
     page_calls := page_calls page ++ [c] |}.

(** [function drawWatermark(page, watermark, width, height, font)]. *)
Definition drawWatermark (page : Page) (watermark : option Watermark) : Page :=
  match watermark with
  | None => page
  | Some w =>
      if truthyStr (wm_text w)
      then draw page (CallWatermarkText (wm_text w) (wm_opacity w))
      else page
  end.

(** [function drawHeaderPage(page, title, font, pageWidth, pageHeight)]. *)
Definition drawHeaderPage (page : Page) (title : string) : Page :=
  draw page (CallHeaderPage title).

Section Layout.

(** Whether [fsPromises.readFile] succeeds on a storage path. *)
Variable readable : string -> bool.

(** The part of [drawImageOrPlaceholder] that can throw. *)
Definition coverReadFails (record : ProductRecord) : bool :=
  match localCoverPath record with
  | Some path => truthyStr path && negb (readable path)
  | None => false
  end.

Definition readError : string := "ENOENT: no such file or directory".

(** [async function drawOnePerPage(params)]. *)
Definition drawOnePerPage (page : Page) (record : ProductRecord)
  : Result Page :=
  if coverReadFails record then Throw readError
  else Ok (draw page (CallOnePerPage record)).

(** [async function drawGridCell(params)]. *)
Definition drawGridCell (page : Page) (record : ProductRecord)
  (x y width height : Q) : Result Page :=
  if coverReadFails record then Throw readError
  else Ok (draw page (CallGridCell record x y width height)).

Variable pageWidth pageHeight : Z.
Variable watermark : option Watermark.

(** [pdf.addPage([pageWidth, pageHeight])]. *)
Definition addPage : Page := mkPage pageWidth pageHeight [].

(** The [ONE_PER_PAGE] branch of [buildPdf]: the [for ... of] loop over
    the grouped items, returning the pages added to the document. *)
Fixpoint layoutOnePerPage (groupedItems : list GroupedItem) (pdf : list Page)
  : Result (list Page) :=
  match groupedItems with
  | [] => Ok pdf
  | item :: rest =>
      let page := drawWatermark addPage watermark in
      match item with
      | ItemHeader title =>
          layoutOnePerPage rest (pdf ++ [drawHeaderPage page title])
      | ItemProduct record =>
          match drawOnePerPage page record with
          | Ok page' => layoutOnePerPage rest (pdf ++ [page'])
          | Throw e => Throw e
          end
      end
  end.

Variable groupedItems : list GroupedItem.
Variable columns : nat.

Definition rows : nat := 3.
Definition cellWidth : Q := inject_Z pageWidth / inject_Z (Z.of_nat columns).
Definition cellHeight : Q := inject_Z pageHeight / inject_Z (Z.of_nat rows).

(** The inner [for (col ...)] loop; [n] counts the iterations left, so the
    loop starts with [n = columns] and [col = 0].  Both [break]s leave
    this loop only. *)
Fixpoint gridColLoop (n col row index : nat) (page : Page)
  : Result (nat * Page) :=
  match n with
  | O => Ok (index, page)
  | S n' =>
      if (List.length groupedItems <=? index)%nat then Ok (index, page)
      else
        match nth_error groupedItems index with
        | None => Ok (index, page)
        | Some (ItemHeader _) => Ok (index, page)
        | Some (ItemProduct record) =>
            let x := inject_Z (Z.of_nat col) * cellWidth in
            let y := inject_Z pageHeight
                     - inject_Z (Z.of_nat (row + 1)%nat) * cellHeight in
            match drawGridCell page record x y cellWidth cellHeight with
            | Ok page' => gridColLoop n' (col + 1)%nat row (index + 1)%nat page'
            | Throw e => Throw e
            end
        end
  end.

(** The outer [for (row ...)] loop, started with [n = rows], [row = 0]. *)
Fixpoint gridRowLoop (n row index : nat) (page : Page)
  : Result (nat * Page) :=
  match n with
  | O => Ok (index, page)
  | S n' =>
      match gridColLoop columns 0%nat row index page with
      | Ok (index', page') => gridRowLoop n' (row + 1)%nat index' page'
      | Throw e => Throw e
      end
  end.

(** The [while (index < groupedItems.length)] loop of the [GRID] branch.
    [None] means the fuel ran out before the loop ended. *)
Fixpoint layoutGrid (fuel index : nat) (pdf : list Page)
  : option (Result (list Page)) :=
  if (index <? List.length groupedItems)%nat then
    match fuel with
    | O => None
    | S fuel' =>
        let page := drawWatermark addPage watermark in
        match nth_error groupedItems index with
        | Some (ItemHeader title) =>
            layoutGrid fuel' (index + 1)%nat (pdf ++ [drawHeaderPage page title])
        | _ =>
            match gridRowLoop rows 0%nat index page with
            | Ok (index', page') => layoutGrid fuel' index' (pdf ++ [page'])
            | Throw e => Some (Throw e)
            end
        end
    end
  else Some (Ok pdf).

End Layout.

(** The [watermark] value computed by [buildPdf]. *)
Definition watermarkOf (settings : ExportSettings) : option Watermark :=
  match watermarkEnabled settings with
  | Some true =>
      Some {| wm_text := nullish (watermarkText settings) "";
              wm_opacity :=
                match watermarkOpacity settings with
                | Some HEAVY => 35 # 100
                | Some MEDIUM => 2 # 10
                | _ => 12 # 100
                end |}
  | _ => None
  end.

Definition pageDims (settings : ExportSettings) : Z * Z :=
  match nullish (pageSize settings) A4 with
  | LETTER => (612, 792)%Z
  | A4 => (595, 842)%Z
  end.

(** The layout part of [buildPdf], from the grouped items on: the pages of
    the document that is then saved. *)
Definition renderPages (readable : string -> bool) (fuel : nat)
  (settings : ExportSettings) (groupedItems : list GroupedItem)
  : option (Result (list Page)) :=
  let '(pageWidth, pageHeight) := pageDims settings in
  let watermark := watermarkOf settings in
  match nullish (layoutType settings) GRID with
  | ONE_PER_PAGE =>
      Some (layoutOnePerPage readable pageWidth pageHeight watermark groupedItems [])
  | GRID =>
      layoutGrid readable pageWidth pageHeight watermark groupedItems
                 (nullish (gridColumns settings) 3%nat) fuel 0%nat []
  end.

(** [async function buildPdf(params)], up to the pages of the document. *)
Definition buildPdf (readable : string -> bool) (fuel : nat)
  (records : list ProductRecord) (settings : ExportSettings)
  : option (Result (list Page)) :=
  renderPages readable fuel settings (buildGroupedItems records settings).

(** ** Observations on pages

    What a page shows, read off its calls: the records of its product
    cells, the titles of its header calls and its watermark texts. *)
Definition cellRecordsOfCall (c : DrawCall) : list ProductRecord :=
  match c with
  | CallOnePerPage r => [r]
  | CallGridCell r _ _ _ _ => [r]
  | _ => []
  end.

Definition headerTitlesOfCall (c : DrawCall) : list string :=
  match c with
  | CallHeaderPage t => [t]
  | _ => []
  end.

Definition watermarkTextsOfCall (c : DrawCall) : list string :=
  match c with
  | CallWatermarkText t _ => [t]
  | _ => []
  end.

Definition cellRecords (p : Page) : list ProductRecord :=
  flat_map cellRecordsOfCall (page_calls p).

Definition headerTitles (p : Page) : list string :=
  flat_map headerTitlesOfCall (page_calls p).

Definition watermarkTexts (p : Page) : list string :=
  flat_map watermarkTextsOfCall (page_calls p).

(** Every cover file named by a product item can be read. *)
Definition coversReadable (readable : string -> bool)
  (items : list GroupedItem) : Prop :=
  Forall (fun item =>
            match item with
            | ItemProduct r => coverReadFails readable r = false
            | ItemHeader _ => True
            end) items.

(** Moving a loop result [k] items to the right. *)
Definition shiftIndex (k : nat) (r : Result (nat * Page)) : Result (nat * Page) :=
  match r with
  | Ok (i, p) => Ok ((k + i)%nat, p)
  | Throw e => Throw e
  end.

(** Pages added in front of a layout result. *)
Definition prependPages (pdf : list Page) (r : option (Result (list Page)))
  : option (Result (list Page)) :=
  match r with
  | Some (Ok pages) => Some (Ok (pdf ++ pages))
  | other => other
  end.

(** A list that is empty or begins with a header: what follows a complete
    section. *)
Definition startsSection (items : list GroupedItem) : Prop :=
  match items with
  | [] => True
  | item :: _ => isHeader item = true
  end.

(** A list that is empty or ends with a header. *)
Definition endsWithHeader (items : list GroupedItem) : Prop :=
  items = [] \/ exists items' t, items = items' ++ [ItemHeader t].

(** [page'] is [page] with one more product cell for each of [recs], in
    order, and nothing else new. *)
Definition extendsBy (page page' : Page) (recs : list ProductRecord) : Prop :=
  cellRecords page' = cellRecords page ++ recs
  /\ headerTitles page' = headerTitles page
  /\ watermarkTexts page' = watermarkTexts page.

(** [ceil (n / d)] on natural numbers. *)
Definition ceilDiv (n d : nat) : nat := ((n + d - 1) / d)%nat.

(** A page that shows exactly the given item: its title and no product
    cell for a header, one cell and no title for a product. *)
Definition showsItem (item : GroupedItem) (page : Page) : Prop :=
  match item with
  | ItemHeader t => headerTitles page = [t] /\ cellRecords page = []
  | ItemProduct r => headerTitles page = [] /\ cellRecords page = [r]
  end.

(** The same settings with [watermarkEnabled] replaced. *)
Definition setWatermarkEnabled (enabled : option bool) (s : ExportSettings)
  : ExportSettings :=
  {| scopeType := scopeType s;
     includeDrafts := includeDrafts s;
     pricingMode := pricingMode s;
     currencyPrefix := currencyPrefix s;
     layoutType := layoutType s;
     gridColumns := gridColumns s;
     grouping := grouping s;
     sortOrder := sortOrder s;
     pageSize := pageSize s;
     watermarkEnabled := enabled;
     watermarkText := watermarkText s;
     watermarkOpacity := watermarkOpacity s;
     priceOverlay := priceOverlay s;
     productIds := productIds s;
     collectionIds := collectionIds s;
     filters := filters s |}.

(** A page without any watermark text. *)
Definition unmarked (p : Page) : Prop := watermarkTexts p = [].

(** ** Product accumulators and the pricing resolver *)

(** [type ProductVariant].  The id is [None] when a bulk line carries none:
    the code reads it with [record.id as string] and never looks at it
    again. *)
Record ProductVariant := mkProductVariant {
  pv_id : option string;
  pv_title : string;
  pv_price : option string
}.

(** [type ProductAccumulator].  The optional scalar fields are [None] when
    unset or null. *)
Record ProductAccumulator := mkProductAccumulator {
  acc_id : string;
  acc_title : option string;
  acc_handle : option string;
  acc_vendor : option string;
  acc_productType : option string;
  acc_status : option string;
  acc_featuredImageUrl : option string;
  acc_createdAt : option string;
  acc_updatedAt : option string;
  acc_collections : list CollectionRef;
  acc_imageUrls : list string;
  acc_variants : list ProductVariant
}.

(** [Math.min(a, b)] and [Math.max(a, b)]: [NaN] is absorbing. *)
Definition Math_min2 (a b : JsNum) : JsNum :=
  match a, b with
  | JsNaN, _ | _, JsNaN => JsNaN
  | JsNegInf, _ | _, JsNegInf => JsNegInf
  | JsPosInf, x | x, JsPosInf => x
  | JsFin p, JsFin q => JsFin (Qmin2 p q)
  end.

Definition Math_max2 (a b : JsNum) : JsNum :=
  match a, b with
  | JsNaN, _ | _, JsNaN => JsNaN
  | JsPosInf, _ | _, JsPosInf => JsPosInf
  | JsNegInf, x | x, JsNegInf => x
  | JsFin p, JsFin q => JsFin (Qmax2 p q)
  end.

(** [Math.min(...values)] and [Math.max(...values)]; without arguments they
    are plus and minus infinity. *)
Definition Math_min (values : list JsNum) : JsNum :=
  fold_left Math_min2 values JsPosInf.

Definition Math_max (values : list JsNum) : JsNum :=
  fold_left Math_max2 values JsNegInf.

(** [variants.map((variant) => variant.price).filter(Boolean)]: the prices
    that are neither null nor the empty string. *)
Definition truthyPrices (variants : list ProductVariant) : list string :=
  flat_map (fun v => match pv_price v with
                     | Some p => if truthyStr p then [p] else []
                     | None => []
                     end) variants.

(** The variant prices that are not null. *)
Definition nonNullPrices (variants : list ProductVariant) : list string :=
  flat_map (fun v => match pv_price v with
                     | Some p => [p]
                     | None => []
                     end) variants.

Section PricingResolver.

(** The built-in conversions [Number(value)] and [String(value)]. *)
Variable toNumber : string -> JsNum.
Variable toString : JsNum -> string.

(** The [price] computed by [buildProductRecord]. *)
Definition resolvePrice (product : ProductAccumulator)
  (settings : ExportSettings) : Price :=
  let variants := acc_variants product in
  match nullish (pricingMode settings) DEFAULT_VARIANT_PRICE with
  | DEFAULT_VARIANT_PRICE =>
      match variants with
      | defaultVariant :: _ =>
          match pv_price defaultVariant with
          | Some p => PriceScalar p
          | None => PriceNull
          end
      | [] => PriceNull
      end
  | MIN_MAX_RANGE =>
      let prices := truthyPrices variants in
      match prices with
      | [] => PriceNull
      | _ :: _ =>
          let numeric := map toNumber prices in
          let min := Math_min numeric in
          let max := Math_max numeric in
          PriceRange (toString min) (toString max)
      end
  | VARIANT_TABLE =>
      PriceTable (map (fun v => mkVariantRow (pv_title v) (pv_price v)) variants)
  end.

(** [function buildProductRecord(product, settings)]. *)
Definition buildProductRecord (product : ProductAccumulator)
  (settings : ExportSettings) : ProductRecord :=
  let coverUrl :=
    match acc_featuredImageUrl product with
    | Some u => Some u
    | None => hd_error (acc_imageUrls product)
    end in
  {| productId := acc_id product;
     title := acc_title product;
     handle := acc_handle product;
     vendor := acc_vendor product;
     productType := acc_productType product;
     status := acc_status product;
     coverUrl := coverUrl;
     createdAt := acc_createdAt product;
     updatedAt := acc_updatedAt product;
     collections := acc_collections product;
     localCoverPath := None;
     coverFileName := None;
     price := resolvePrice product settings |}.

End PricingResolver.

(** *** A reference instance of the two conversions on decimal literals

    [decimalToNumber] is [Number] on literals of the form
    [sign digits . digits] (sign, dot and one of the two digit groups being
    optional) and on the empty string, which it maps to 0; other strings,
    which [Number] may still accept (exponents, hexadecimal, surrounding
    blanks), are not covered and come out as [NaN] here.  [decimalToString]
    is [String] on [NaN], the infinities and finite numbers with a short
    terminating decimal expansion.  Both serve the worked examples only: the
    theorems hold for every pair of conversions. *)
Definition digitValue (ch : ascii) : option Z :=
  let n := Z.of_nat (nat_of_ascii ch) in
  if ((48 <=? n) && (n <=? 57))%Z then Some (n - 48)%Z else None.

(** The digits of [s] read as a number in base ten, with their count. *)
Fixpoint readDigits (s : string) (value : Z) (count : nat) : option (Z * nat) :=
  match s with
  | EmptyString => Some (value, count)
  | String ch rest =>
      match digitValue ch with
      | Some d => readDigits rest (10 * value + d)%Z (S count)
      | None => None
      end
  end.

(** The part of [s] before the first dot, and the part after it if any. *)
Fixpoint splitAtDot (s : string) : string * option string :=
  match s with
  | EmptyString => (EmptyString, None)
  | String ch rest =>
      if Ascii.eqb ch "."%char then (EmptyString, Some rest)
      else let '(a, b) := splitAtDot rest in (String ch a, b)
  end.

Definition decimalMagnitude (s : string) : option Q :=
  let '(whole, frac) := splitAtDot s in
  match readDigits whole 0 0, frac with
  | Some (w, S _), None => Some (inject_Z w)
  | Some (w, nw), Some f =>
      match readDigits f 0 0 with
      | Some (v, nf) =>
          match (nw + nf)%nat with
          | O => None
          | S _ => Some (Qred (inject_Z w + Qmake v (Z.to_pos (10 ^ Z.of_nat nf))))
          end
      | None => None
      end
  | _, _ => None
  end.

Definition decimalToNumber (s : string) : JsNum :=
  match s with
  | EmptyString => JsFin 0
  | String "-"%char rest =>
      match decimalMagnitude rest with
      | Some q => JsFin (Qred (- q))
      | None => JsNaN
      end
  | String "+"%char rest =>
      match decimalMagnitude rest with
      | Some q => JsFin q
      | None => JsNaN
      end
  | _ =>
      match decimalMagnitude s with
      | Some q => JsFin q
      | None => JsNaN
      end
  end.

Definition digitChar (d : Z) : ascii := ascii_of_nat (Z.to_nat (48 + d)).

(** The digits of a non-negative integer, most significant first. *)
Fixpoint naturalDigits (fuel : nat) (n : Z) (acc : string) : string :=
  match fuel with
  | O => acc
  | S fuel' =>
      let acc' := String (digitChar (n mod 10)) acc in
      if (n <? 10)%Z then acc' else naturalDigits fuel' (n / 10) acc'
  end.

(** The digits after the dot of [num / den], for [0 <= num < den]. *)
Fixpoint fractionDigits (fuel : nat) (num den : Z) : string :=
  match fuel with
  | O => EmptyString
  | S fuel' =>
      if (num =? 0)%Z then EmptyString
      else String (digitChar ((10 * num) / den))
                  (fractionDigits fuel' ((10 * num) mod den) den)
  end.

Definition decimalToString (v : JsNum) : string :=
  match v with
  | JsNaN => "NaN"
  | JsPosInf => "Infinity"
  | JsNegInf => "-Infinity"
  | JsFin q =>
      let num := Z.abs (Qnum q) in
      let den := Z.pos (Qden q) in
      let whole := naturalDigits 400 (num / den) EmptyString in
      let frac := fractionDigits 400 (num mod den) den in
      let sign := if (Qnum q <? 0)%Z then "-" else "" in
      match frac with
      | EmptyString => sign ^^ whole
      | _ => sign ^^ whole ^^ "." ^^ frac
      end
  end.

(** Every value of the list is a finite number. *)
Definition allFinite (values : list JsNum) : Prop :=
  forall v, In v values -> exists q, v = JsFin q.

(** ** Bulk results: the line-delimited record set

    A JSON field as the parser reads it: absent, null, or a string. *)
Inductive JsonField :=
| FieldAbsent
| FieldNull
| FieldStr (s : string).

(** Truthiness of a field. *)
Definition fieldTruthy (f : JsonField) : bool :=
  match f with
  | FieldStr s => truthyStr s
  | _ => false
  end.

(** [(record.f as string) ?? null]. *)
Definition fieldOrNull (f : JsonField) : option string :=
  match f with
  | FieldStr s => Some s
  | _ => None
  end.

(** [record.f as string], for a field known to be truthy. *)
Definition fieldStr (f : JsonField) : string :=
  match f with
  | FieldStr s => s
  | _ => ""
  end.

(** One parsed line.  [r_featuredImageUrl] is [record.featuredImage?.url]
    and [r_firstImageUrl] is [record.images?.nodes?.[0]?.url]. *)
Record BulkRecord := mkBulkRecord {
  r_parentId : JsonField;
  r_id : JsonField;
  r_title : JsonField;
  r_handle : JsonField;
  r_vendor : JsonField;
  r_productType : JsonField;
  r_status : JsonField;
  r_createdAt : JsonField;
  r_updatedAt : JsonField;
  r_featuredImageUrl : JsonField;
  r_firstImageUrl : JsonField;
  r_price : JsonField;
  r_url : JsonField
}.

(** A line of the result file: empty, a JSON object, or text on which
    [JSON.parse] throws. *)
Inductive BulkLine :=
| LineBlank
| LineRecord (r : BulkRecord)
| LineMalformed.

(** [new Map<string, ProductAccumulator>()]: keys in first-insertion
    order. *)
Definition AccMap := list (string * ProductAccumulator).

Fixpoint mapGet (k : string) (m : AccMap) : option ProductAccumulator :=
  match m with
  | [] => None
  | (k', v) :: rest => if String.eqb k' k then Some v else mapGet k rest
  end.

(** [products.set(k, v)]: an existing key keeps its place. *)
Fixpoint mapSet (k : string) (v : ProductAccumulator) (m : AccMap) : AccMap :=
  match m with
  | [] => [(k, v)]
  | (k', v') :: rest =>
      if String.eqb k' k then (k', v) :: rest else (k', v') :: mapSet k v rest
  end.

(** [{ id, collections: [], imageUrls: [], variants: [] }]. *)
Definition freshAccumulator (id : string) : ProductAccumulator :=
  {| acc_id := id; acc_title := None; acc_handle := None; acc_vendor := None;
     acc_productType := None; acc_status := None; acc_featuredImageUrl := None;
     acc_createdAt := None; acc_updatedAt := None;
     acc_collections := []; acc_imageUrls := []; acc_variants := [] |}.

(** [products.get(id) ?? { id, ... }]. *)
Definition getOrFresh (id : string) (m : AccMap) : ProductAccumulator :=
  nullish (mapGet id m) (freshAccumulator id).

(** [product.variants.push(v)]. *)
Definition pushVariant (v : ProductVariant) (a : ProductAccumulator)
  : ProductAccumulator :=
  {| acc_id := acc_id a; acc_title := acc_title a; acc_handle := acc_handle a;
     acc_vendor := acc_vendor a; acc_productType := acc_productType a;
     acc_status := acc_status a; acc_featuredImageUrl := acc_featuredImageUrl a;
     acc_createdAt := acc_createdAt a; acc_updatedAt := acc_updatedAt a;
     acc_collections := acc_collections a; acc_imageUrls := acc_imageUrls a;
     acc_variants := acc_variants a ++ [v] |}.

(** [product.imageUrls.push(url)]. *)
Definition pushImageUrl (url : string) (a : ProductAccumulator)
  : ProductAccumulator :=
  {| acc_id := acc_id a; acc_title := acc_title a; acc_handle := acc_handle a;
     acc_vendor := acc_vendor a; acc_productType := acc_productType a;
     acc_status := acc_status a; acc_featuredImageUrl := acc_featuredImageUrl a;
     acc_createdAt := acc_createdAt a; acc_updatedAt := acc_updatedAt a;
     acc_collections := acc_collections a; acc_imageUrls := acc_imageUrls a ++ [url];
     acc_variants := acc_variants a |}.

(** [product.collections.push(c)]. *)
Definition pushCollection (c : CollectionRef) (a : ProductAccumulator)
  : ProductAccumulator :=
  {| acc_id := acc_id a; acc_title := acc_title a; acc_handle := acc_handle a;
     acc_vendor := acc_vendor a; acc_productType := acc_productType a;
     acc_status := acc_status a; acc_featuredImageUrl := acc_featuredImageUrl a;
     acc_createdAt := acc_createdAt a; acc_updatedAt := acc_updatedAt a;
     acc_collections := acc_collections a ++ [c]; acc_imageUrls := acc_imageUrls a;
     acc_variants := acc_variants a |}.

(** The assignments of the top-level branch: [product.title = ...] up to
    [product.featuredImageUrl = ...]. *)
Definition assignTopLevel (r : BulkRecord) (a : ProductAccumulator)
  : ProductAccumulator :=
  {| acc_id := acc_id a;
     acc_title := fieldOrNull (r_title r);
     acc_handle := fieldOrNull (r_handle r);
     acc_vendor := fieldOrNull (r_vendor r);
     acc_productType := fieldOrNull (r_productType r);
     acc_status := fieldOrNull (r_status r);
     acc_featuredImageUrl := fieldOrNull (r_featuredImageUrl r);
     acc_createdAt := fieldOrNull (r_createdAt r);
     acc_updatedAt := fieldOrNull (r_updatedAt r);
     acc_collections := acc_collections a; acc_imageUrls := acc_imageUrls a;
     acc_variants := acc_variants a |}.

(** [String(record.id).includes("Collection")]. *)
Definition includesCollection (s : string) : bool :=
  match String.index 0 "Collection" s with
  | Some _ => true
  | None => false
  end.

Definition variantOfRecord (r : BulkRecord) : ProductVariant :=
  {| pv_id := fieldOrNull (r_id r);
     pv_title := nullish (fieldOrNull (r_title r)) "";
     pv_price := fieldOrNull (r_price r) |}.

Definition isAbsent (f : JsonField) : bool :=
  match f with
  | FieldAbsent => true
  | _ => false
  end.

(** The body of the [for await] loop of [parseBulkResults] for one parsed
    record. *)
Definition processRecord (record : BulkRecord) (products : AccMap) : AccMap :=
  let parentId := r_parentId record in
  if negb (fieldTruthy parentId) && fieldTruthy (r_id record) then
    let id := fieldStr (r_id record) in
    let product := assignTopLevel record (getOrFresh id products) in
    let product :=
      if fieldTruthy (r_firstImageUrl record)
      then pushImageUrl (fieldStr (r_firstImageUrl record)) product
      else product in
    mapSet id product products
  else if fieldTruthy parentId && negb (isAbsent (r_price record)) then
    let product := getOrFresh (fieldStr parentId) products in
    mapSet (fieldStr parentId) (pushVariant (variantOfRecord record) product) products
  else
    let products :=
      if fieldTruthy parentId && fieldTruthy (r_url record) then
        let product := getOrFresh (fieldStr parentId) products in
        mapSet (fieldStr parentId)
               (pushImageUrl (fieldStr (r_url record)) product) products
      else products in
    if fieldTruthy parentId && fieldTruthy (r_title record)
       && fieldTruthy (r_id record) && includesCollection (fieldStr (r_id record))
    then
      let product := getOrFresh (fieldStr parentId) products in
      mapSet (fieldStr parentId)
             (pushCollection (mkCollectionRef (fieldStr (r_id record))
                                              (fieldStr (r_title record)))
                             product) products
    else products.

Definition parseError : string := "Unexpected token in JSON".

(** The [for await (const line of rl)] loop. *)
Fixpoint parseLines (lines : list BulkLine) (products : AccMap) : Result AccMap :=
  match lines with
  | [] => Ok products
  | LineBlank :: rest => parseLines rest products
  | LineMalformed :: _ => Throw parseError
  | LineRecord record :: rest => parseLines rest (processRecord record products)
  end.

(** [Array.from(products.values())]. *)
Definition mapValues (m : AccMap) : list ProductAccumulator := map snd m.

(** The reconstruction part of [parseBulkResults], from the lines of the
    downloaded file to the returned array. *)
Definition accumulateLines (lines : list BulkLine) : Result (list ProductAccumulator) :=
  match parseLines lines [] with
  | Ok products => Ok (mapValues products)
  | Throw e => Throw e
  end.

(** *** The reconstruction seen from one product id

    Which branch a record takes, which accumulator it works on and what it
    adds to it.  These restate [processRecord] for the proofs. *)
Definition isTopLevel (r : BulkRecord) : bool :=
  negb (fieldTruthy (r_parentId r)) && fieldTruthy (r_id r).

Definition isVariantLine (r : BulkRecord) : bool :=
  negb (isTopLevel r) && fieldTruthy (r_parentId r) && negb (isAbsent (r_price r)).

Definition isImageLine (r : BulkRecord) : bool :=
  negb (isTopLevel r) && negb (isVariantLine r)
  && fieldTruthy (r_parentId r) && fieldTruthy (r_url r).

Definition isCollectionLine (r : BulkRecord) : bool :=
  negb (isTopLevel r) && negb (isVariantLine r)
  && fieldTruthy (r_parentId r) && fieldTruthy (r_title r)
  && fieldTruthy (r_id r) && includesCollection (fieldStr (r_id r)).

(** The id of the accumulator a record is attached to, if it is attached at
    all. *)
Definition targetOf (r : BulkRecord) : option string :=
  if isTopLevel r then Some (fieldStr (r_id r))
  else if isVariantLine r || isImageLine r || isCollectionLine r
       then Some (fieldStr (r_parentId r))
       else None.

Definition variantsOfRecord (r : BulkRecord) : list ProductVariant :=
  if isVariantLine r then [variantOfRecord r] else [].

Definition imagesOfRecord (r : BulkRecord) : list string :=
  if isTopLevel r
  then (if fieldTruthy (r_firstImageUrl r) then [fieldStr (r_firstImageUrl r)] else [])
  else if isImageLine r then [fieldStr (r_url r)] else [].

Definition collectionsOfRecord (r : BulkRecord) : list CollectionRef :=
  if isCollectionLine r
  then [mkCollectionRef (fieldStr (r_id r)) (fieldStr (r_title r))]
  else [].

(** [a] with more entries at the end of its three lists. *)
Definition appendLists (vs : list ProductVariant) (us : list string)
  (cs : list CollectionRef) (a : ProductAccumulator) : ProductAccumulator :=
  {| acc_id := acc_id a; acc_title := acc_title a; acc_handle := acc_handle a;
     acc_vendor := acc_vendor a; acc_productType := acc_productType a;
     acc_status := acc_status a; acc_featuredImageUrl := acc_featuredImageUrl a;
     acc_createdAt := acc_createdAt a; acc_updatedAt := acc_updatedAt a;
     acc_collections := acc_collections a ++ cs;
     acc_imageUrls := acc_imageUrls a ++ us;
     acc_variants := acc_variants a ++ vs |}.

(** What a record does to the accumulator it is attached to. *)
Definition effectOf (r : BulkRecord) (a : ProductAccumulator) : ProductAccumulator :=
  appendLists (variantsOfRecord r) (imagesOfRecord r) (collectionsOfRecord r)
              (if isTopLevel r then assignTopLevel r a else a).

Definition touches (k : string) (r : BulkRecord) : bool :=
  match targetOf r with
  | Some k' => String.eqb k' k
  | None => false
  end.

(** The effect of a record on the entry of key [k]. *)
Definition applyRecord (k : string) (o : option ProductAccumulator)
  (r : BulkRecord) : option ProductAccumulator :=
  if touches k r then Some (effectOf r (nullish o (freshAccumulator k))) else o.

(** The parsed records of the lines, in order. *)
Definition recordsOf (lines : list BulkLine) : list BulkRecord :=
  flat_map (fun line => match line with
                        | LineRecord r => [r]
                        | _ => []
                        end) lines.

Definition isMalformed (line : BulkLine) : bool :=
  match line with
  | LineMalformed => true
  | _ => false
  end.

(** The ids of the top-level records, in order, with repetitions. *)
Definition topIdsOf (rs : list BulkRecord) : list string :=
  flat_map (fun r => if isTopLevel r then [fieldStr (r_id r)] else []) rs.

Definition topLevelIds (lines : list BulkLine) : list string :=
  topIdsOf (recordsOf lines).

(** The scalar fields of the entry of key [k] after the records [rs]. *)
Definition headerOf (k : string) (rs : list BulkRecord) (a : ProductAccumulator)
  : ProductAccumulator :=
  fold_left (fun a r => if touches k r && isTopLevel r then assignTopLevel r a else a)
            rs a.

Definition variantsFor (k : string) (rs : list BulkRecord) : list ProductVariant :=
  flat_map (fun r => if touches k r then variantsOfRecord r else []) rs.

Definition imagesFor (k : string) (rs : list BulkRecord) : list string :=
  flat_map (fun r => if touches k r then imagesOfRecord r else []) rs.

Definition collectionsFor (k : string) (rs : list BulkRecord) : list CollectionRef :=
  flat_map (fun r => if touches k r then collectionsOfRecord r else []) rs.

(** Two accumulators that agree on the id and on every scalar field and
    hold the same variants, image URLs and collections, each list up to the
    order of its entries. *)
Definition sameUpToOrder (a b : ProductAccumulator) : Prop :=
  acc_id a = acc_id b
  /\ acc_title a = acc_title b
  /\ acc_handle a = acc_handle b
  /\ acc_vendor a = acc_vendor b
  /\ acc_productType a = acc_productType b
  /\ acc_status a = acc_status b
  /\ acc_featuredImageUrl a = acc_featuredImageUrl b
  /\ acc_createdAt a = acc_createdAt b
  /\ acc_updatedAt a = acc_updatedAt b
  /\ Permutation (acc_variants a) (acc_variants b)
  /\ Permutation (acc_imageUrls a) (acc_imageUrls b)
  /\ Permutation (acc_collections a) (acc_collections b).

(** Every entry of the map is filed under its own id. *)
Definition wellKeyed (m : AccMap) : Prop :=
  forall k a, In (k, a) m -> acc_id a = k.

(** The entry of key [k] after the records [rs] that touch it. *)
Definition accFold (k : string) (rs : list BulkRecord) (a : ProductAccumulator)
  : ProductAccumulator :=
  fold_left (fun a r => if touches k r then effectOf r a else a) rs a.

Definition processRecords (rs : list BulkRecord) (m : AccMap) : AccMap :=
  fold_left (fun m r => processRecord r m) rs m.

(** *** Sample lines *)

Definition blankRecord : BulkRecord :=
  {| r_parentId := FieldAbsent; r_id := FieldAbsent; r_title := FieldAbsent;
     r_handle := FieldAbsent; r_vendor := FieldAbsent; r_productType := FieldAbsent;
     r_status := FieldAbsent; r_createdAt := FieldAbsent; r_updatedAt := FieldAbsent;
     r_featuredImageUrl := FieldAbsent; r_firstImageUrl := FieldAbsent;
     r_price := FieldAbsent; r_url := FieldAbsent |}.

Definition productLine (id ttl : string) : BulkLine :=
  LineRecord
    {| r_parentId := FieldAbsent; r_id := FieldStr id; r_title := FieldStr ttl;
       r_handle := FieldStr ttl; r_vendor := FieldStr "Acme"; r_productType := FieldNull;
       r_status := FieldStr "ACTIVE"; r_createdAt := FieldAbsent; r_updatedAt := FieldAbsent;
       r_featuredImageUrl := FieldAbsent; r_firstImageUrl := FieldAbsent;
       r_price := FieldAbsent; r_url := FieldAbsent |}.

Definition variantLine (parent id ttl amount : string) : BulkLine :=
  LineRecord
    {| r_parentId := FieldStr parent; r_id := FieldStr id; r_title := FieldStr ttl;
       r_handle := FieldAbsent; r_vendor := FieldAbsent; r_productType := FieldAbsent;
       r_status := FieldAbsent; r_createdAt := FieldAbsent; r_updatedAt := FieldAbsent;
       r_featuredImageUrl := FieldAbsent; r_firstImageUrl := FieldAbsent;
       r_price := FieldStr amount; r_url := FieldAbsent |}.

(** A child line ahead of its product, and the same lines with the product
    first. *)
Definition sampleLines : list BulkLine :=
  [ variantLine "p1" "v1" "Small" "5.00";
    productLine "p1" "Mug";
    LineBlank;
    variantLine "p2" "v3" "One size" "9.50";
    productLine "p2" "Plate" ].

Definition sampleLinesReordered : list BulkLine :=
  [ productLine "p2" "Plate";
    variantLine "p2" "v3" "One size" "9.50";
    LineBlank;
    productLine "p1" "Mug";
    variantLine "p1" "v1" "Small" "5.00" ].

(** Two variants of one product, in both orders. *)
Definition twoVariants : list BulkLine :=
  [ variantLine "p1" "v1" "Small" "5.00"; variantLine "p1" "v2" "Large" "7.00" ].

Definition twoVariantsSwapped : list BulkLine :=
  [ variantLine "p1" "v2" "Large" "7.00"; variantLine "p1" "v1" "Small" "5.00" ].

(** ** The selection predicate *)

Definition quoteChar : ascii := ascii_of_nat 34.
Definition quoteStr : string := String quoteChar EmptyString.
Definition backslashChar : ascii := ascii_of_nat 92.
Definition backslashStr : string := String backslashChar EmptyString.

(** [value.replace(/c/g, by)] for a single character [c]. *)
Fixpoint replaceChar (c : ascii) (by_ : string) (value : string) : string :=
  match value with
  | EmptyString => EmptyString
  | String ch rest =>
      if Ascii.eqb ch c then by_ ^^ replaceChar c by_ rest
      else String ch (replaceChar c by_ rest)
  end.

(** [function escapeQuery(value)]. *)
Definition escapeQuery (value : string) : string :=
  replaceChar quoteChar (backslashStr ^^ quoteStr)
    (replaceChar backslashChar (backslashStr ^^ backslashStr) value).

(** [values.join(sep)]. *)
Fixpoint join (sep : string) (values : list string) : string :=
  match values with
  | [] => ""
  | [v] => v
  | v :: rest => v ^^ sep ^^ join sep rest
  end.

Definition isDigit (ch : ascii) : bool :=
  match digitValue ch with
  | Some _ => true
  | None => false
  end.

(** The longest run of digits at the front of [s]. *)
Fixpoint takeDigits (s : string) : string :=
  match s with
  | String ch rest => if isDigit ch then String ch (takeDigits rest) else EmptyString
  | EmptyString => EmptyString
  end.

(** [s] without the prefix [p], when it has it. *)
Fixpoint dropPrefix (p s : string) : option string :=
  match p, s with
  | EmptyString, _ => Some s
  | String a p', String b s' => if Ascii.eqb a b then dropPrefix p' s' else None
  | String _ _, EmptyString => None
  end.

(** [/gid:\/\/shopify\/Product\/(\d+)/.exec(value)?.[1] ?? null]: the digits
    after the leftmost occurrence of the prefix that is followed by a
    digit. *)
Fixpoint extractLegacyProductId (value : string) : option string :=
  let here :=
    match dropPrefix "gid://shopify/Product/" value with
    | Some rest =>
        match takeDigits rest with
        | EmptyString => None
        | digits => Some digits
        end
    | None => None
    end in
  match here with
  | Some digits => Some digits
  | None =>
      match value with
      | String _ rest => extractLegacyProductId rest
      | EmptyString => None
      end
  end.

(** [function buildOrClause(field, values)]. *)
Definition buildOrClause (field : string) (values : option (list string))
  : option string :=
  match values with
  | None | Some [] => None
  | Some values =>
      let escaped :=
        map (fun value => field ^^ ":" ^^ quoteStr ^^ escapeQuery value ^^ quoteStr)
            values in
      Some ("(" ^^ join " OR " escaped ^^ ")")
  end.

Definition optionToList {A : Type} (o : option A) : list A :=
  match o with
  | Some a => [a]
  | None => []
  end.

Definition isScope (settings : ExportSettings) (scope : ScopeType) : bool :=
  match scopeType settings, scope with
  | Some ALL_PRODUCTS, ALL_PRODUCTS | Some COLLECTIONS, COLLECTIONS
  | Some FILTERS, FILTERS | Some PRODUCTS, PRODUCTS => true
  | _, _ => false
  end.

(** [function buildProductQuery(settings, includeDrafts)]. *)
Definition buildProductQuery (settings : ExportSettings) (includeDrafts : bool)
  : string :=
  let statusClause :=
    if includeDrafts then "(status:active OR status:draft)" else "status:active" in
  let collectionClause :=
    match isScope settings COLLECTIONS, collectionIds settings with
    | true, Some ((_ :: _) as ids) =>
        ["(" ^^ join " OR " (map (fun id => "collection_id:" ^^ escapeQuery id) ids) ^^ ")"]
    | _, _ => []
    end in
  let productClause :=
    match isScope settings PRODUCTS, productIds settings with
    | true, Some ((_ :: _) as ids) =>
        ["(" ^^ join " OR "
                 (map (fun id => "id:" ^^ nullish (extractLegacyProductId id)
                                                (escapeQuery id)) ids) ^^ ")"]
    | _, _ => []
    end in
  let filterClauses :=
    match isScope settings FILTERS, filters settings with
    | true, Some f =>
        optionToList (buildOrClause "vendor" (f_vendor f))
        ++ optionToList (buildOrClause "product_type" (f_productType f))
        ++ optionToList (buildOrClause "tag" (f_tag f))
    | _, _ => []
    end in
  join " AND " ([statusClause] ++ collectionClause ++ productClause ++ filterClauses).

(** [function shouldIncludeCollections(settings)]. *)
Definition shouldIncludeCollections (settings : ExportSettings) : bool :=
  match grouping settings, scopeType settings with
  | Some COLLECTION, _ => true
  | _, Some COLLECTIONS => true
  | _, _ => false
  end.

(** The two holes of the query text of [buildBulkQuery]: the selection
    predicate and whether the collections block is included. *)
Record BulkQuery := mkBulkQuery {
  bq_scopeQuery : string;
  bq_withCollections : bool
}.

(** [function buildBulkQuery(settings)]. *)
Definition buildBulkQuery (settings : ExportSettings) : BulkQuery :=
  let includeDrafts := nullish (includeDrafts settings) false in
  {| bq_scopeQuery := buildProductQuery settings includeDrafts;
     bq_withCollections := shouldIncludeCollections settings |}.

(** ** The job store *)

Inductive JobStatus := QUEUED | RUNNING | COMPLETED | FAILED | PARTIAL.

(** [countsJson]; a field is [None] when the JSON object lacks it. *)
Record Counts := mkCounts {
  productsTotal : option Z;
  productsProcessed : option Z;
  imagesDownloaded : option Z;
  imagesFailed : option Z
}.

(** The row of one job, with the domain of its shop. *)
Record Job := mkJob {
  job_id : string;
  job_shopDomain : string;
  job_settingsJson : option ExportSettings;
  job_status : JobStatus;
  job_progressPercent : Z;
  job_currentStep : option string;
  job_countsJson : option Counts;
  job_errorSummary : option string;
  job_startedAt : option Z;
  job_finishedAt : option Z
}.

(** The [data] of a [prisma.job.update]: the fields it sets. *)
Record JobUpdate := mkJobUpdate {
  u_status : option JobStatus;
  u_progressPercent : option Z;
  u_currentStep : option string;
  u_countsJson : option Counts;
  u_errorSummary : option (option string);
  u_startedAt : option Z;
  u_finishedAt : option Z
}.

Definition noUpdate : JobUpdate :=
  {| u_status := None; u_progressPercent := None; u_currentStep := None;
     u_countsJson := None; u_errorSummary := None; u_startedAt := None;
     u_finishedAt := None |}.

Definition applyUpdate (u : JobUpdate) (j : Job) : Job :=
  {| job_id := job_id j;
     job_shopDomain := job_shopDomain j;
     job_settingsJson := job_settingsJson j;
     job_status := nullish (u_status u) (job_status j);
     job_progressPercent := nullish (u_progressPercent u) (job_progressPercent j);
     job_currentStep :=
       match u_currentStep u with Some s => Some s | None => job_currentStep j end;
     job_countsJson :=
       match u_countsJson u with Some c => Some c | None => job_countsJson j end;
     job_errorSummary := nullish (u_errorSummary u) (job_errorSummary j);
     job_startedAt :=
       match u_startedAt u with Some t => Some t | None => job_startedAt j end;
     job_finishedAt :=
       match u_finishedAt u with Some t => Some t | None => job_finishedAt j end |}.

Inductive IssueType := MISSING_COVER | IMAGE_DOWNLOAD_FAILED | PRODUCT_SKIPPED.
Inductive Severity := WARN | ERROR.

Inductive IssueDetails :=
| DetailsReason (reason : string)
| DetailsUrl (url : string).

(** A row of [jobIssue]. *)
Record JobIssue := mkJobIssue {
  issue_jobId : string;
  issue_severity : Severity;
  issue_type : IssueType;
  issue_productId : string;
  issue_productHandle : option string;
  issue_detailsJson : option IssueDetails
}.

Inductive JobFileType := PDF | IMAGES_ZIP | MANIFEST.

(** A row of [jobFile]. *)
Record JobFile := mkJobFile {
  file_jobId : string;
  file_type : JobFileType;
  file_storageKey : string;
  file_contentType : string;
  file_sizeBytes : Z;
  file_expiresAt : Z
}.

(** The [console.info] and [console.warn] calls of the pipeline. *)
Inductive ConsoleEvent :=
| LogBulkStart
| LogBulkComplete (products : nat)
| LogBulkFailed (error : string)
| LogFallbackComplete (products : nat)
| LogImagesComplete (total : nat) (failures : bool)
| LogPdfComplete (sizeBytes : Z)
| LogZipComplete (sizeBytes : Z)
| LogZipImageFailed (productId : string) (error : string).

(** ** The catalog API and the network *)

(** [createGraphqlClient(shop, accessToken)]. *)
Record GraphqlClient := mkGraphqlClient {
  gc_shop : string;
  gc_accessToken : string
}.

(** The three queries the pipeline sends, by the holes of their text. *)
Inductive GqlRequest :=
| ReqBulkRun (query : BulkQuery)
| ReqBulkPoll (bulkId : string)
| ReqProductsPage (scopeQuery : string) (withCollections : bool)
                  (cursor : option string).

(** [body.data.bulkOperationRunQuery]. *)
Record RunPayload := mkRunPayload {
  run_bulkOperationId : option string;
  run_userErrors : list string
}.

(** [body.data.node]. *)
Record BulkNode := mkBulkNode {
  node_status : option string;
  node_url : option string
}.

(** A product node of a page of the paginated query. *)
Record PageProduct := mkPageProduct {
  pp_id : string;
  pp_title : option string;
  pp_handle : option string;
  pp_vendor : option string;
  pp_productType : option string;
  pp_status : option string;
  pp_createdAt : option string;
  pp_updatedAt : option string;
  pp_featuredImageUrl : option string;
  pp_imageUrls : option (list (option string));
  pp_variants : option (list ProductVariant);
  pp_collections : option (list CollectionRef)
}.

Record PageEdge := mkPageEdge {
  edge_cursor : string;
  edge_node : PageProduct
}.

(** [body.data.products]. *)
Record ProductsPayload := mkProductsPayload {
  page_edges : list PageEdge;
  page_hasNextPage : option bool
}.

(** [response.body.data], by the three fields the pipeline reads. *)
Record GqlBody := mkGqlBody {
  body_bulkOperationRunQuery : option RunPayload;
  body_node : option BulkNode;
  body_products : option ProductsPayload
}.

(** What [client.query] does: it throws (network error or a response that
    is not ok) or resolves with a body. *)
Inductive GqlOutcome :=
| GqlThrows (message : string)
| GqlResponds (body : GqlBody).

(** A response of [fetch].  [resp_bytes] is [None] when reading the body
    with [arrayBuffer()] rejects; [resp_lines] is [None] when the response
    has no body, and otherwise holds the lines the reader yields. *)
Record FetchResponse := mkFetchResponse {
  resp_ok : bool;
  resp_contentType : option string;
  resp_bytes : option string;
  resp_lines : option (list BulkLine)
}.

Inductive FetchOutcome :=
| FetchFails
| FetchResponds (response : FetchResponse).

Record Session := mkSession {
  session_shop : string;
  session_accessToken : string
}.

(** The outside world.  Every external call takes the next tick of the
    run, and the answer may depend on the tick and on what is asked.
    [env_schedule] tells which of the pending calls settles at the n-th
    turn of the event loop that runs tasks side by side. *)
Record Env := mkEnv {
  env_gql : nat -> GraphqlClient -> GqlRequest -> GqlOutcome;
  env_gqlLatencyMs : nat -> N;
  env_timerSlackMs : nat -> N;
  env_fetch : nat -> string -> FetchOutcome;
  env_dbFails : nat -> bool;
  env_storageFails : nat -> bool;
  env_session : string -> option Session;
  env_zipFails : nat -> bool;
  env_schedule : nat -> nat
}.

(** ** The world and the monad of the pipeline *)

Record World := mkWorld {
  w_job : option Job;
  w_updates : list JobUpdate;
  w_issues : list JobIssue;
  w_files : list JobFile;
  w_console : list ConsoleEvent;
  w_requests : list GqlRequest;
  w_storage : list (string * string);
  w_now : Z;
  w_tick : nat
}.

(** How a computation ends: it returns, it throws, or the fuel of one of
    its loops runs out. *)
Inductive Outcome (A : Type) :=
| Returned (a : A)
| Thrown (message : string)
| OutOfFuel.
Arguments Returned {A} a.
Arguments Thrown {A} message.
Arguments OutOfFuel {A}.

Definition M (A : Type) : Type := World -> Outcome A * World.

Definition ret {A : Type} (a : A) : M A := fun w => (Returned a, w).

Definition throw {A : Type} (message : string) : M A :=
  fun w => (Thrown message, w).

Definition outOfFuel {A : Type} : M A := fun w => (OutOfFuel, w).

Definition bind {A B : Type} (m : M A) (k : A -> M B) : M B :=
  fun w =>
    match m w with
    | (Returned a, w') => k a w'
    | (Thrown e, w') => (Thrown e, w')
    | (OutOfFuel, w') => (OutOfFuel, w')
    end.

(** [try { m } catch (error) { handler(error) }]. *)
Definition tryCatch {A : Type} (m : M A) (handler : string -> M A) : M A :=
  fun w =>
    match m w with
    | (Thrown e, w') => handler e w'
    | other => other
    end.

Declare Scope pipeline_scope.
Delimit Scope pipeline_scope with pipeline.
Notation "x <- m ;; k" := (bind m (fun x => k))
  (at level 61, m at next level, right associativity) : pipeline_scope.
Notation "m ;;; k" := (bind m (fun _ => k))
  (at level 61, right associativity) : pipeline_scope.
Local Open Scope pipeline_scope.

Definition setJob (j : option Job) (w : World) : World :=
  {| w_job := j; w_updates := w_updates w; w_issues := w_issues w;
     w_files := w_files w; w_console := w_console w; w_requests := w_requests w;
     w_storage := w_storage w; w_now := w_now w; w_tick := w_tick w |}.

Definition logUpdate (u : JobUpdate) (w : World) : World :=
  {| w_job := w_job w; w_updates := w_updates w ++ [u]; w_issues := w_issues w;
     w_files := w_files w; w_console := w_console w; w_requests := w_requests w;
     w_storage := w_storage w; w_now := w_now w; w_tick := w_tick w |}.

Definition addIssue (i : JobIssue) (w : World) : World :=
  {| w_job := w_job w; w_updates := w_updates w; w_issues := w_issues w ++ [i];
     w_files := w_files w; w_console := w_console w; w_requests := w_requests w;
     w_storage := w_storage w; w_now := w_now w; w_tick := w_tick w |}.

Definition addFile (f : JobFile) (w : World) : World :=
  {| w_job := w_job w; w_updates := w_updates w; w_issues := w_issues w;
     w_files := w_files w ++ [f]; w_console := w_console w;
     w_requests := w_requests w; w_storage := w_storage w; w_now := w_now w;
     w_tick := w_tick w |}.

Definition addConsole (e : ConsoleEvent) (w : World) : World :=
  {| w_job := w_job w; w_updates := w_updates w; w_issues := w_issues w;
     w_files := w_files w; w_console := w_console w ++ [e];
     w_requests := w_requests w; w_storage := w_storage w; w_now := w_now w;
     w_tick := w_tick w |}.

Definition addRequest (r : GqlRequest) (w : World) : World :=
  {| w_job := w_job w; w_updates := w_updates w; w_issues := w_issues w;
     w_files := w_files w; w_console := w_console w;
     w_requests := w_requests w ++ [r]; w_storage := w_storage w;
     w_now := w_now w; w_tick := w_tick w |}.

Definition putStorage (key bytes : string) (w : World) : World :=
  {| w_job := w_job w; w_updates := w_updates w; w_issues := w_issues w;
     w_files := w_files w; w_console := w_console w; w_requests := w_requests w;
     w_storage := (key, bytes) :: w_storage w; w_now := w_now w;
     w_tick := w_tick w |}.

Definition advanceClock (ms : Z) (w : World) : World :=
  {| w_job := w_job w; w_updates := w_updates w; w_issues := w_issues w;
     w_files := w_files w; w_console := w_console w; w_requests := w_requests w;
     w_storage := w_storage w; w_now := (w_now w + ms)%Z; w_tick := w_tick w |}.

Definition nextTickWorld (w : World) : World :=
  {| w_job := w_job w; w_updates := w_updates w; w_issues := w_issues w;
     w_files := w_files w; w_console := w_console w; w_requests := w_requests w;
     w_storage := w_storage w; w_now := w_now w; w_tick := S (w_tick w) |}.

(** The tick of the next external call. *)
Definition nextTick : M nat := fun w => (Returned (w_tick w), nextTickWorld w).

Definition consoleLog (e : ConsoleEvent) : M unit :=
  fun w => (Returned tt, addConsole e w).

(** [Date.now()]. *)
Definition dateNow : M Z := fun w => (Returned (w_now w), w).

Definition dbError : string := "Prisma request failed".
Definition notFoundError : string := "Record to update not found".
Definition storageError : string := "Storage write failed".
Definition networkError : string := "fetch failed".
Definition bodyError : string := "body stream failed".

(** [response.arrayBuffer()]. *)
Definition arrayBuffer (response : FetchResponse) : M string :=
  match resp_bytes response with
  | Some bytes => ret bytes
  | None => throw bodyError
  end.

(** ** Asynchronous functions that run side by side

    An [async] function whose runs interleave with those of others is a
    tree of what it does next.  It is settled ([Resolve], [Reject]); or it
    reads or writes the variables it shares with the others ([Get], [Put]);
    or it stands at an [await] of an external call [op] and goes on with
    [k] on the result of the call, with [h] on what the call throws.
    Between two [await]s it runs without interruption.  [Stall] stands for
    a loop whose fuel ran out. *)
Inductive Task (V A : Type) : Type :=
| Resolve (a : A)
| Reject (message : string)
| Stall
| Get (k : V -> Task V A)
| Put (s : V) (next : Task V A)
| Await (B : Type) (op : M B) (k : B -> Task V A) (h : string -> Task V A).
Arguments Resolve {V A} a.
Arguments Reject {V A} message.
Arguments Stall {V A}.
Arguments Get {V A} k.
Arguments Put {V A} s next.
Arguments Await {V A B} op k h.

Fixpoint taskBind {V A B : Type} (t : Task V A) (k : A -> Task V B) : Task V B :=
  match t with
  | Resolve a => k a
  | Reject e => Reject e
  | Stall => Stall
  | Get g => Get (fun s => taskBind (g s) k)
  | Put s next => Put s (taskBind next k)
  | Await op g h => Await op (fun b => taskBind (g b) k) (fun e => taskBind (h e) k)
  end.

(** [try { t } catch { handler }]. *)
Fixpoint taskCatch {V A : Type} (t : Task V A) (handler : string -> Task V A)
  : Task V A :=
  match t with
  | Resolve a => Resolve a
  | Reject e => handler e
  | Stall => Stall
  | Get g => Get (fun s => taskCatch (g s) handler)
  | Put s next => Put s (taskCatch next handler)
  | Await op g h =>
      Await op (fun b => taskCatch (g b) handler) (fun e => taskCatch (h e) handler)
  end.

(** [await op]. *)
Definition await {V B : Type} (op : M B) : Task V B := Await op Resolve Reject.

(** A shared variable read, and the shared variables changed. *)
Definition gets {V B : Type} (f : V -> B) : Task V B := Get (fun s => Resolve (f s)).

Definition modify {V : Type} (f : V -> V) : Task V unit :=
  Get (fun s => Put (f s) (Resolve tt)).

Declare Scope task_scope.
Delimit Scope task_scope with task.
Notation "x <- t ;; k" := (taskBind t (fun x => k))
  (at level 61, t at next level, right associativity) : task_scope.
Notation "t ;;; k" := (taskBind t (fun _ => k))
  (at level 61, right associativity) : task_scope.

(** The task run on to its next [await], or to its end. *)
Fixpoint settle {V A : Type} (t : Task V A) (s : V) : V * Task V A :=
  match t with
  | Get k => settle (k s) s
  | Put s' next => settle next s'
  | other => (s, other)
  end.

(** One turn of the event loop on a task: the call it awaits settles, and
    the task runs on to its next [await]. *)
Definition resume {V A : Type} (t : Task V A) (s : V) : M (V * Task V A) :=
  match t with
  | Await op k h =>
      fun w =>
        match op w with
        | (Returned b, w') => (Returned (settle (k b) s), w')
        | (Thrown e, w') => (Returned (settle (h e) s), w')
        | (OutOfFuel, w') => (OutOfFuel, w')
        end
  | other => ret (s, other)
  end.

(** A task run alone: each call it awaits settles before anything else
    happens. *)
Fixpoint runTask {V A : Type} (t : Task V A) (s : V) : M (V * A) :=
  match t with
  | Resolve a => ret (s, a)
  | Reject e => throw e
  | Stall => outOfFuel
  | Get k => runTask (k s) s
  | Put s' next => runTask next s'
  | Await op k h =>
      fun w =>
        match op w with
        | (Returned b, w') => runTask (k b) s w'
        | (Thrown e, w') => runTask (h e) s w'
        | (OutOfFuel, w') => (OutOfFuel, w')
        end
  end.

(** A task that stands at an [await] or at its end. *)
Definition isSettled {V A : Type} (t : Task V A) : bool :=
  match t with
  | Get _ => false
  | Put _ _ => false
  | _ => true
  end.

(** [tasks.map(start)]: the tasks are started one after the other, each
    running on to its first [await]. *)
Fixpoint startAll {V A : Type} (tasks : list (Task V A)) (s : V)
  : V * list (Task V A) :=
  match tasks with
  | [] => (s, [])
  | t :: rest =>
      let '(s1, t') := settle t s in
      let '(s2, rest') := startAll rest s1 in
      (s2, t' :: rest')
  end.

Definition isPending {V A : Type} (t : Task V A) : bool :=
  match t with
  | Await _ _ _ => true
  | _ => false
  end.

Definition isStalled {V A : Type} (t : Task V A) : bool :=
  match t with
  | Stall => true
  | _ => false
  end.

Fixpoint firstRejection {V A : Type} (tasks : list (Task V A)) : option string :=
  match tasks with
  | [] => None
  | Reject e :: _ => Some e
  | _ :: rest => firstRejection rest
  end.

(** The positions of the tasks that stand at an [await], from [from] on. *)
Fixpoint pendingFrom {V A : Type} (from : nat) (tasks : list (Task V A)) : list nat :=
  match tasks with
  | [] => []
  | t :: rest =>
      if isPending t then from :: pendingFrom (S from) rest
      else pendingFrom (S from) rest
  end.

Fixpoint replaceNth {A : Type} (n : nat) (x : A) (l : list A) : list A :=
  match l, n with
  | [], _ => []
  | _ :: rest, O => x :: rest
  | y :: rest, S n' => y :: replaceNth n' x rest
  end.

Section Pipeline.

Variable env : Env.

(** [prisma.job.findUnique({ where: { id } })]. *)
Definition jobFindUnique (id : string) : M (option Job) :=
  t <- nextTick ;;
  if env_dbFails env t then throw dbError
  else fun w =>
         (Returned (match w_job w with
                    | Some j => if String.eqb (job_id j) id then Some j else None
                    | None => None
                    end), w).

(** [prisma.job.update({ where: { id }, data })]. *)
Definition jobUpdate (id : string) (data : JobUpdate) : M unit :=
  t <- nextTick ;;
  if env_dbFails env t then throw dbError
  else fun w =>
         match w_job w with
         | Some j =>
             if String.eqb (job_id j) id
             then (Returned tt, logUpdate data (setJob (Some (applyUpdate data j)) w))
             else (Thrown notFoundError, w)
         | None => (Thrown notFoundError, w)
         end.

(** [prisma.jobIssue.create({ data })]. *)
Definition jobIssueCreate (data : JobIssue) : M unit :=
  t <- nextTick ;;
  if env_dbFails env t then throw dbError
  else fun w => (Returned tt, addIssue data w).

(** [prisma.jobFile.create({ data })]. *)
Definition jobFileCreate (data : JobFile) : M JobFile :=
  t <- nextTick ;;
  if env_dbFails env t then throw dbError
  else fun w => (Returned data, addFile data w).

(** [sessionStorage.loadSession(sessionId)]. *)
Definition loadSession (sessionId : string) : M (option Session) :=
  ret (env_session env sessionId).

(** [localStorageAdapter.write(key, bytes)]. *)
Definition storageWrite (key bytes : string) : M string :=
  t <- nextTick ;;
  if env_storageFails env t then throw storageError
  else fun w => (Returned key, putStorage key bytes w).

(** [client.query({ data })]: the request is sent, time passes, and the
    call throws or resolves with the body. *)
Definition clientQuery (client : GraphqlClient) (request : GqlRequest) : M GqlBody :=
  t <- nextTick ;;
  fun w =>
    let w' := advanceClock (Z.of_N (env_gqlLatencyMs env t)) (addRequest request w) in
    match env_gql env t client request with
    | GqlThrows e => (Thrown e, w')
    | GqlResponds body => (Returned body, w')
    end.

(** [fetch(url)]. *)
Definition fetchUrl (url : string) : M FetchResponse :=
  t <- nextTick ;;
  match env_fetch env t url with
  | FetchFails => throw networkError
  | FetchResponds response => ret response
  end.

(** [await new Promise((resolve) => setTimeout(resolve, ms))]: at least
    [ms] milliseconds pass. *)
Definition sleep (ms : Z) : M unit :=
  t <- nextTick ;;
  fun w => (Returned tt, advanceClock (ms + Z.of_N (env_timerSlackMs env t)) w).

(** ** Product extraction *)

Definition bulkPollIntervalMs : Z := 2000.
Definition bulkMaxWaitMs : Z := 10 * 60 * 1000.
Definition retentionDays : Z := 30.

Definition typeErrorNull : string := "Cannot read properties of null".

(** [async function startBulkOperation(client, query)]. *)
Definition startBulkOperation (client : GraphqlClient) (query : BulkQuery)
  : M string :=
  response <- clientQuery client (ReqBulkRun query) ;;
  match body_bulkOperationRunQuery response with
  | None => throw "Bulk operation failed to start"
  | Some payload =>
      match run_userErrors payload with
      | _ :: _ =>
          let message := join ", " (run_userErrors payload) in
          throw (if truthyStr message then message
                 else "Bulk operation failed to start")
      | [] =>
          match run_bulkOperationId payload with
          | Some id => ret id
          | None => throw typeErrorNull
          end
      end
  end.

(** The [for (;;)] loop of [waitForBulkResult]. *)
Fixpoint waitLoop (fuel : nat) (client : GraphqlClient) (bulkId : string)
  (startedAt : Z) : M string :=
  match fuel with
  | O => outOfFuel
  | S fuel' =>
      now <- dateNow ;;
      if (bulkMaxWaitMs <? now - startedAt)%Z
      then throw "Bulk operation timed out"
      else
        response <- clientQuery client (ReqBulkPoll bulkId) ;;
        match body_node response with
        | None => throw "Bulk operation missing"
        | Some node =>
            let completed :=
              match node_status node with
              | Some st => String.eqb st "COMPLETED"
              | None => false
              end in
            if completed && truthyOpt (node_url node)
            then ret (nullish (node_url node) "")
            else
              match node_status node with
              | Some st =>
                  if String.eqb st "FAILED" || String.eqb st "CANCELED"
                  then throw ("Bulk operation " ^^ st)
                  else sleep bulkPollIntervalMs ;;; waitLoop fuel' client bulkId startedAt
              | None =>
                  sleep bulkPollIntervalMs ;;; waitLoop fuel' client bulkId startedAt
              end
        end
  end.

(** [async function waitForBulkResult(client, bulkId)]. *)
Definition waitForBulkResult (fuel : nat) (client : GraphqlClient)
  (bulkId : string) : M string :=
  startedAt <- dateNow ;;
  waitLoop fuel client bulkId startedAt.

(** Rounds of the polling loop after which the 10 minutes are over. *)
Definition bulkWaitFuel : nat := 302.

(** [async function parseBulkResults(url)]. *)
Definition parseBulkResults (url : string) : M (list ProductAccumulator) :=
  response <- fetchUrl url ;;
  match resp_ok response, resp_lines response with
  | true, Some lines =>
      match accumulateLines lines with
      | Ok products => ret products
      | Throw e => throw e
      end
  | _, _ => throw "Failed to download bulk results"
  end.

(** The accumulator built from one node of a page. *)
Definition accumulatorOfNode (node : PageProduct) : ProductAccumulator :=
  {| acc_id := pp_id node;
     acc_title := pp_title node;
     acc_handle := pp_handle node;
     acc_vendor := pp_vendor node;
     acc_productType := pp_productType node;
     acc_status := pp_status node;
     acc_featuredImageUrl := pp_featuredImageUrl node;
     acc_createdAt := pp_createdAt node;
     acc_updatedAt := pp_updatedAt node;
     acc_collections := nullish (pp_collections node) [];
     acc_imageUrls :=
       match pp_imageUrls node with
       | Some urls =>
           flat_map (fun u => if truthyOpt u then optionToList u else []) urls
       | None => []
       end;
     acc_variants := nullish (pp_variants node) [] |}.

(** The [while (hasNext)] loop of [fetchProductsPaginated]. *)
Fixpoint paginateLoop (fuel : nat) (client : GraphqlClient)
  (scopeQuery : string) (withCollections : bool)
  (cursor : option string) (products : list ProductAccumulator)
  : M (list ProductAccumulator) :=
  match fuel with
  | O => outOfFuel
  | S fuel' =>
      response <- clientQuery client (ReqProductsPage scopeQuery withCollections cursor) ;;
      match body_products response with
      | None => ret products
      | Some payload =>
          let products' :=
            products ++ map (fun edge => accumulatorOfNode (edge_node edge))
                            (page_edges payload) in
          let cursor' :=
            fold_left (fun _ edge => Some (edge_cursor edge)) (page_edges payload) cursor in
          if nullish (page_hasNextPage payload) false
          then paginateLoop fuel' client scopeQuery withCollections cursor' products'
          else ret products'
      end
  end.

(** [async function fetchProductsPaginated(client, settings)]. *)
Definition fetchProductsPaginated (fuel : nat) (client : GraphqlClient)
  (settings : ExportSettings) : M (list ProductAccumulator) :=
  let includeDrafts := nullish (includeDrafts settings) false in
  let scopeQuery := buildProductQuery settings includeDrafts in
  paginateLoop fuel client scopeQuery (shouldIncludeCollections settings) None [].

(** The [try] block of the extraction stage of [runCatalogJob]. *)
Definition bulkExtraction (client : GraphqlClient) (query : BulkQuery)
  : M (list ProductAccumulator) :=
  consoleLog LogBulkStart ;;;
  bulkId <- startBulkOperation client query ;;
  resultUrl <- waitForBulkResult bulkWaitFuel client bulkId ;;
  products <- parseBulkResults resultUrl ;;
  consoleLog (LogBulkComplete (List.length products)) ;;;
  ret products.

(** The update of the [catch] block. *)
Definition fallbackStepUpdate : JobUpdate :=
  {| u_status := None; u_progressPercent := None;
     u_currentStep := Some "Collecting products (fallback)";
     u_countsJson := None; u_errorSummary := None; u_startedAt := None;
     u_finishedAt := None |}.

(** Its [catch] block. *)
Definition fallbackExtraction (fuel : nat) (jobId : string)
  (client : GraphqlClient) (settings : ExportSettings) (error : string)
  : M (list ProductAccumulator) :=
  consoleLog (LogBulkFailed error) ;;;
  jobUpdate jobId fallbackStepUpdate ;;;
  products <- fetchProductsPaginated fuel client settings ;;
  consoleLog (LogFallbackComplete (List.length products)) ;;;
  ret products.

(** The extraction stage: [try { bulk } catch (error) { fallback }]. *)
Definition collectProducts (fuel : nat) (jobId : string)
  (client : GraphqlClient) (settings : ExportSettings)
  : M (list ProductAccumulator) :=
  tryCatch (bulkExtraction client (buildBulkQuery settings))
           (fallbackExtraction fuel jobId client settings).

(** ** Sorting *)

(** [String.prototype.localeCompare]: negative, zero or positive. *)
Variable localeCompare : string -> string -> Z.

(** One step of a stable sort: [x] goes behind everything that does not
    compare greater than it. *)
Fixpoint insertSorted {A : Type} (cmp : A -> A -> Z) (x : A) (sorted : list A)
  : list A :=
  match sorted with
  | [] => [x]
  | y :: rest =>
      if (0 <? cmp y x)%Z then x :: y :: rest
      else y :: insertSorted cmp x rest
  end.

(** [array.sort(cmp)], which is stable. *)
Definition stableSort {A : Type} (cmp : A -> A -> Z) (l : list A) : list A :=
  fold_left (fun sorted x => insertSorted cmp x sorted) l [].

(** [function sortRecords(records, settings)]. *)
Definition sortRecords (records : list ProductRecord) (settings : ExportSettings)
  : list ProductRecord :=
  match nullish (sortOrder settings) TITLE_ASC with
  | TITLE_ASC =>
      stableSort (fun a b => localeCompare (nullish (title a) "") (nullish (title b) ""))
                 records
  | CREATED_DESC =>
      stableSort (fun a b => localeCompare (nullish (createdAt b) "")
                                           (nullish (createdAt a) ""))
                 records
  | UPDATED_DESC =>
      stableSort (fun a b => localeCompare (nullish (updatedAt b) "")
                                           (nullish (updatedAt a) ""))
                 records
  | COLLECTION_ORDER => records
  end.

(** ** Image acquisition *)

(** [async function createIssue(prisma, jobId, params)]. *)
Definition createIssue {V : Type} (jobId : string) (type : IssueType)
  (productId : string) (productHandle : option string) (details : IssueDetails)
  : Task V unit :=
  await (jobIssueCreate
           {| issue_jobId := jobId; issue_severity := WARN; issue_type := type;
              issue_productId := productId; issue_productHandle := productHandle;
              issue_detailsJson := Some details |}).

Definition orZero (o : option Z) : Z := nullish o 0%Z.

(** [async function incrementCounts(prisma, jobId, delta)]: the counts are
    read, the deltas added, and the whole object written back, with an
    [await] at the read and one at the write. *)
Definition incrementCounts {V : Type} (jobId : string) (delta : Counts)
  : Task V unit :=
  (job <- await (jobFindUnique jobId) ;;
   let counts :=
     match job with
     | Some j => nullish (job_countsJson j) (mkCounts None None None None)
     | None => mkCounts None None None None
     end in
   let updated :=
     {| productsTotal := Some (orZero (productsTotal counts));
        productsProcessed :=
          Some (orZero (productsProcessed counts) + orZero (productsProcessed delta))%Z;
        imagesDownloaded :=
          Some (orZero (imagesDownloaded counts) + orZero (imagesDownloaded delta))%Z;
        imagesFailed :=
          Some (orZero (imagesFailed counts) + orZero (imagesFailed delta))%Z |} in
   await (jobUpdate jobId
            {| u_status := None; u_progressPercent := None; u_currentStep := None;
               u_countsJson := Some updated; u_errorSummary := None;
               u_startedAt := None; u_finishedAt := None |}))%task.

(** [value.includes(needle)]. *)
Definition includes (needle value : string) : bool :=
  match String.index 0 needle value with
  | Some _ => true
  | None => false
  end.

(** [{ bytes, extension }]. *)
Record Download := mkDownload {
  dl_bytes : string;
  dl_extension : option string
}.

(** How a round of the [for] loop of [downloadWithRetry] ends: with a
    [return], or by going to the next round. *)
Inductive Round :=
| RoundReturns (result : option Download)
| RoundContinues.

(** The [for] loop of [downloadWithRetry]; [remaining] counts the rounds
    left, so the loop starts with [remaining = attempts], [attempt = 0]. *)
Fixpoint retryLoop {V : Type} (remaining attempt attempts : nat) (url : string)
  : Task V (option Download) :=
  match remaining with
  | O => Resolve None
  | S remaining' =>
      (round <-
         taskCatch
           (response <- await (fetchUrl url) ;;
            if negb (resp_ok response) then Resolve RoundContinues
            else
              let contentType := nullish (resp_contentType response) "" in
              let extension :=
                if includes "png" contentType then Some "png"
                else if includes "jpeg" contentType then Some "jpg"
                else None in
              bytes <- await (arrayBuffer response) ;;
              Resolve (RoundReturns (Some (mkDownload bytes extension))))
           (fun _ =>
              if Nat.eqb attempt (attempts - 1) then Resolve (RoundReturns None)
              else Resolve RoundContinues) ;;
       match round with
       | RoundReturns result => Resolve result
       | RoundContinues => retryLoop remaining' (attempt + 1) attempts url
       end)%task
  end.

(** [async function downloadWithRetry(url, attempts)]. *)
Definition downloadWithRetry {V : Type} (url : string) (attempts : nat)
  : Task V (option Download) :=
  retryLoop attempts 0 attempts url.

Definition withCover (record : ProductRecord) (path fileName : string)
  : ProductRecord :=
  {| productId := productId record; title := title record;
     handle := handle record; vendor := vendor record;
     productType := productType record; status := status record;
     coverUrl := coverUrl record; createdAt := createdAt record;
     updatedAt := updatedAt record; collections := collections record;
     localCoverPath := Some path; coverFileName := Some fileName;
     price := price record |}.

Definition failedDelta : Counts :=
  {| productsTotal := None; productsProcessed := Some 1%Z;
     imagesDownloaded := None; imagesFailed := Some 1%Z |}.

Definition downloadedDelta : Counts :=
  {| productsTotal := None; productsProcessed := Some 1%Z;
     imagesDownloaded := Some 1%Z; imagesFailed := None |}.

(** The variables the workers of [downloadCovers] share: [queue], the
    records of [params.records], which the queue holds by reference (here
    with their position), and [hasFailures]. *)
Record Shared := mkShared {
  sh_queue : list (nat * ProductRecord);
  sh_records : list ProductRecord;
  sh_hasFailures : bool
}.

Definition setQueue (queue : list (nat * ProductRecord)) (sh : Shared) : Shared :=
  {| sh_queue := queue; sh_records := sh_records sh;
     sh_hasFailures := sh_hasFailures sh |}.

Definition setHasFailures (flag : bool) (sh : Shared) : Shared :=
  {| sh_queue := sh_queue sh; sh_records := sh_records sh;
     sh_hasFailures := flag |}.

Definition setRecord (index : nat) (record : ProductRecord) (sh : Shared) : Shared :=
  {| sh_queue := sh_queue sh;
     sh_records := replaceNth index record (sh_records sh);
     sh_hasFailures := sh_hasFailures sh |}.

(** The body of the worker loop of [downloadCovers] for the record taken
    off the queue, which stands at [index] in [params.records]. *)
Definition processCover (jobId : string) (index : nat) (record : ProductRecord)
  : Task Shared unit :=
  (if negb (truthyOpt (coverUrl record)) then
     modify (setHasFailures true) ;;;
     createIssue jobId MISSING_COVER (productId record) (handle record)
                 (DetailsReason "No cover image found") ;;;
     incrementCounts jobId failedDelta
   else
     let url := nullish (coverUrl record) "" in
     result <- downloadWithRetry url 3 ;;
     match result with
     | None =>
         modify (setHasFailures true) ;;;
         createIssue jobId IMAGE_DOWNLOAD_FAILED (productId record)
                     (handle record) (DetailsUrl url) ;;;
         incrementCounts jobId failedDelta
     | Some download =>
         let extension := nullish (dl_extension download) "jpg" in
         let safeHandle := nullish (handle record) (productId record) in
         let relativePath :=
           "jobs/" ^^ jobId ^^ "/images/products/" ^^ safeHandle
           ^^ "/cover." ^^ extension in
         await (storageWrite relativePath (dl_bytes download)) ;;;
         modify (setRecord index
                   (withCover record relativePath
                      ("images/" ^^ safeHandle ^^ "." ^^ extension))) ;;;
         incrementCounts jobId downloadedDelta
     end)%task.

(** One worker of [downloadCovers]: the [while (queue.length)] loop, whose
    rounds [fuel] bounds. *)
Fixpoint worker (fuel : nat) (jobId : string) : Task Shared unit :=
  match fuel with
  | O => Stall
  | S fuel' =>
      (queue <- gets sh_queue ;;
       match queue with
       | [] => Resolve tt
       | (index, record) :: rest =>
           modify (setQueue rest) ;;;
           processCover jobId index record ;;;
           worker fuel' jobId
       end)%task
  end.

(** [await Promise.all(tasks)] with the event loop that gets the tasks
    there, from its turn [turn] on: it throws what the first rejected task
    threw; else, while tasks stand at an [await], one of the pending calls
    settles and its task runs on; it returns when all tasks are fulfilled.
    What the other tasks still do after a rejection is not followed. *)
Fixpoint promiseAll {V A : Type} (fuel turn : nat) (tasks : list (Task V A))
  (s : V) : M V :=
  match firstRejection tasks with
  | Some e => throw e
  | None =>
      if existsb isStalled tasks then outOfFuel
      else
        match pendingFrom 0 tasks with
        | [] => ret s
        | first :: others =>
            match fuel with
            | O => outOfFuel
            | S fuel' =>
                let chosen :=
                  nth (env_schedule env turn mod List.length (first :: others))
                      (first :: others) first in
                step <- resume (nth chosen tasks Stall) s ;;
                promiseAll fuel' (S turn) (replaceNth chosen (snd step) tasks)
                           (fst step)
            end
        end
  end.

Definition concurrency : nat := 5.

(** [async function downloadCovers(params)]: [{ records, hasFailures }].
    A record takes at most nine [await]s, which bounds the turns of the
    event loop. *)
Definition downloadCovers (records : list ProductRecord) (jobId : string)
  : M (list ProductRecord * bool) :=
  jobUpdate jobId
    {| u_status := None; u_progressPercent := None; u_currentStep := None;
       u_countsJson :=
         Some {| productsTotal := Some (Z.of_nat (List.length records));
                 productsProcessed := Some 0%Z;
                 imagesDownloaded := Some 0%Z;
                 imagesFailed := Some 0%Z |};
       u_errorSummary := None; u_startedAt := None; u_finishedAt := None |} ;;;
  let queue := combine (seq 0 (List.length records)) records in
  let started :=
    startAll (repeat (worker (S (List.length records)) jobId) concurrency)
             (mkShared queue records false) in
  shared <- promiseAll (9 * List.length records) 0 (snd started) (fst started) ;;
  ret (sh_records shared, sh_hasFailures shared).

(** The external calls of a worker all satisfy [P]. *)
Definition workerCalls (P : forall B : Type, M B -> Prop) : Prop :=
  (forall data, P _ (jobIssueCreate data))
  /\ (forall id, P _ (jobFindUnique id))
  /\ (forall id u, u_progressPercent u = None -> u_status u = None ->
                   P _ (jobUpdate id u))
  /\ (forall url, P _ (fetchUrl url))
  /\ (forall response, P _ (arrayBuffer response))
  /\ (forall key bytes, P _ (storageWrite key bytes)).

(** ** Overlay compositor *)

(** [function fitFontSize(text, baseFontSize, maxWidth)]. *)
Definition fitFontSize (text : string) (baseFontSize maxWidth : Z) : Z :=
  let length := match String.length text with O => 1%nat | n => n end in
  let estimatedWidth :=
    inject_Z baseFontSize * inject_Z (Z.of_nat length) * (6 # 10) in
  if Qle_bool estimatedWidth (inject_Z maxWidth) then baseFontSize
  else
    let scaled := Qfloor (inject_Z baseFontSize * (inject_Z maxWidth / estimatedWidth)) in
    Z.max 10 scaled.

(** The arguments of [buildPriceOverlaySvg]. *)
Record OverlaySvg := mkOverlaySvg {
  svg_width : Z;
  svg_height : Z;
  svg_style : OverlayStyle;
  svg_fontSize : Z;
  svg_priceText : string
}.

(** [sharp(bytes).metadata()]: the width and the height, where known. *)
Variable imageMetadata : string -> Result (option Z * option Z).

(** [image.composite([{ input: svg }])] encoded as PNG ([true]) or JPEG. *)
Variable composite : string -> OverlaySvg -> bool -> Result string.

Definition toLowerChar (ch : ascii) : ascii :=
  let n := nat_of_ascii ch in
  if ((65 <=? n) && (n <=? 90))%nat then ascii_of_nat (n + 32) else ch.

Fixpoint toLowerCase (s : string) : string :=
  match s with
  | EmptyString => EmptyString
  | String ch rest => String (toLowerChar ch) (toLowerCase rest)
  end.

(** [async function applyPriceOverlay(params)]. *)
Definition applyPriceOverlay (bytes : string) (priceText : option string)
  (extension : string) (overlay : option PriceOverlay) : Result string :=
  let enabled :=
    match overlay with
    | Some o => match po_enabled o with Some true => true | _ => false end
    | None => false
    end in
  if negb (truthyOpt priceText) || negb enabled then Ok bytes
  else
    match imageMetadata bytes with
    | Throw e => Throw e
    | Ok (mw, mh) =>
        let width := nullish mw 800%Z in
        let height := nullish mh 800%Z in
        let resolved := resolveOverlayStyle overlay width height in
        let baseFontSize :=
          Math_round (Qmax2 12 (inject_Z (os_height resolved) * (1 # 2))) in
        let text := nullish priceText "" in
        let fontSize := fitFontSize text baseFontSize (os_width resolved) in
        composite bytes
                  {| svg_width := width; svg_height := height;
                     svg_style := resolved; svg_fontSize := fontSize;
                     svg_priceText := text |}
                  (String.eqb (toLowerCase extension) ".png")
    end.

(** ** Archive builder *)

(** The text from the last dot of [s] on, if [s] has a dot. *)
Fixpoint fromLastDot (s : string) : option string :=
  match s with
  | EmptyString => None
  | String ch rest =>
      match fromLastDot rest with
      | Some suffix => Some suffix
      | None => if Ascii.eqb ch "."%char then Some s else None
      end
  end.

(** [path.extname(p)], for paths whose last segment has a name before its
    last dot. *)
Definition extname (p : string) : string :=
  match fromLastDot p with
  | Some suffix => if includes "/" suffix then "" else suffix
  | None => ""
  end.

(** [new Archive(...).finalize()] on the appended entries: the bytes of the
    file. *)
Variable zipArchive : list (string * string) -> string.

Definition storageRead (key : string) (w : World) : option string :=
  match find (fun entry => String.eqb (fst entry) key) (w_storage w) with
  | Some entry => Some (snd entry)
  | None => None
  end.

Definition readErrorOf (key : string) : string :=
  "ENOENT: no such file or directory, open " ^^ key.

(** [localStorageAdapter.read(key)] inside a [try]: [None] when it
    throws. *)
Definition storageTryRead (key : string) : M (option string) :=
  fun w => (Returned (storageRead key w), w).

(** Which keys of the byte store can be read at this point. *)
Definition storageReadable : M (string -> bool) :=
  fun w => (Returned (fun key => match storageRead key w with
                                  | Some _ => true
                                  | None => false
                                  end), w).

(** The write stream of the archive file. *)
Definition fileWrite (key bytes : string) : M unit :=
  fun w => (Returned tt, putStorage key bytes w).

(** The [for ... of] loop of [buildImagesZip]: the entries appended so
    far. *)
Fixpoint zipEntries (jobId : string) (settings : ExportSettings)
  (records : list ProductRecord) (entries : list (string * string))
  : M (list (string * string)) :=
  match records with
  | [] => ret entries
  | record :: rest =>
      match localCoverPath record, coverFileName record with
      | Some path, Some name =>
          if truthyStr path && truthyStr name then
            source <- storageTryRead path ;;
            let attempt : Result string :=
              match source with
              | None => Throw (readErrorOf path)
              | Some sourceBytes =>
                  let prefix :=
                    match priceOverlay settings with
                    | Some o =>
                        match po_currencyPrefix o with
                        | Some p => Some p
                        | None => currencyPrefix settings
                        end
                    | None => currencyPrefix settings
                    end in
                  applyPriceOverlay sourceBytes (formatPrice (price record) prefix)
                                    (extname path) (priceOverlay settings)
              end in
            match attempt with
            | Ok outputBytes =>
                zipEntries jobId settings rest (entries ++ [(name, outputBytes)])
            | Throw e =>
                consoleLog (LogZipImageFailed (productId record) e) ;;;
                zipEntries jobId settings rest entries
            end
          else zipEntries jobId settings rest entries
      | _, _ => zipEntries jobId settings rest entries
      end
  end.

(** [{ storageKey, sizeBytes }]. *)
Record StoredFile := mkStoredFile {
  sf_storageKey : string;
  sf_sizeBytes : Z
}.

Definition zipError : string := "Archive could not be written".

(** [async function buildImagesZip(params)]. *)
Definition buildImagesZip (jobId : string) (records : list ProductRecord)
  (manifestKey : option string) (settings : ExportSettings) : M StoredFile :=
  let zipRelative := "jobs/" ^^ jobId ^^ "/images.zip" in
  entries <- zipEntries jobId settings records [] ;;
  manifest <- (match manifestKey with
               | Some key => if truthyStr key then storageTryRead key else ret None
               | None => ret None
               end) ;;
  let manifestEntry :=
    match manifest with
    | Some bytes => [("manifest.json", bytes)]
    | None => []
    end in
  t <- nextTick ;;
  if env_zipFails env t then throw zipError
  else
    let bytes :=
      zipArchive (entries ++ manifestEntry
                  ++ [("README.txt", "CatalogForge - cover images only.")]) in
    fileWrite zipRelative bytes ;;;
    ret {| sf_storageKey := zipRelative;
           sf_sizeBytes := Z.of_nat (String.length bytes) |}.

(** ** PDF file *)

(** [pdf.save()]. *)
Variable savePdf : list Page -> string.

(** [async function buildPdf(params)]: the pages are laid out, the document
    is saved and written to the byte store.  A cover file can be read when
    the store holds it. *)
Definition buildPdfFile (fuel : nat) (jobId : string)
  (records : list ProductRecord) (settings : ExportSettings) : M StoredFile :=
  readable <- storageReadable ;;
  match buildPdf readable fuel records settings with
  | None => outOfFuel
  | Some (Throw e) => throw e
  | Some (Ok pages) =>
      let pdfBytes := savePdf pages in
      let pdfPath := "jobs/" ^^ jobId ^^ "/catalog.pdf" in
      storageWrite pdfPath pdfBytes ;;;
      ret {| sf_storageKey := pdfPath;
             sf_sizeBytes := Z.of_nat (String.length pdfBytes) |}
  end.

(** ** Job orchestrator *)

Variable toNumber : string -> JsNum.
Variable toString : JsNum -> string.

(** The manifest object. *)
Record Manifest := mkManifest {
  mf_jobId : string;
  mf_shopDomain : string;
  mf_generatedAt : Z;
  mf_settings : ExportSettings;
  mf_products : list ProductRecord
}.

(** [JSON.stringify(manifest, null, 2)]. *)
Variable stringifyManifest : Manifest -> string.

(** [function addDays(date, days)], a day taken as 24 hours. *)
Definition addDays (date days : Z) : Z := (date + days * 86400000)%Z.

(** [function createGraphqlClient(shop, accessToken)]. *)
Definition createGraphqlClient (shop accessToken : string) : GraphqlClient :=
  mkGraphqlClient shop accessToken.

Definition progressUpdate (percent : Z) (step : string) : JobUpdate :=
  {| u_status := None; u_progressPercent := Some percent;
     u_currentStep := Some step; u_countsJson := None; u_errorSummary := None;
     u_startedAt := None; u_finishedAt := None |}.

(** [export async function runCatalogJob(params)].  [fuel] bounds the
    pagination loop of the fallback and the page loop of the grid layout. *)
Definition runCatalogJob (fuel : nat) (jobId : string) : M unit :=
  found <- jobFindUnique jobId ;;
  match found with
  | None => throw "Job not found"
  | Some job =>
      let shopDomain := job_shopDomain job in
      let settings := nullish (job_settingsJson job) defaultSettings in
      session <- loadSession ("offline_" ^^ shopDomain) ;;
      match session with
      | None => throw ("Missing offline session for " ^^ shopDomain)
      | Some session =>
          let client :=
            createGraphqlClient (session_shop session) (session_accessToken session) in
          startedAt <- dateNow ;;
          jobUpdate (job_id job)
            {| u_status := Some RUNNING; u_progressPercent := Some 5%Z;
               u_currentStep := Some "Collecting products";
               u_countsJson := None; u_errorSummary := Some None;
               u_startedAt := Some startedAt; u_finishedAt := None |} ;;;
          products <- collectProducts fuel (job_id job) client settings ;;
          let records := map (fun product => buildProductRecord toNumber toString product settings)
                             products in
          let sortedRecords := sortRecords records settings in
          jobUpdate (job_id job)
            {| u_status := None; u_progressPercent := Some 35%Z;
               u_currentStep := Some "Downloading cover images";
               u_countsJson :=
                 Some {| productsTotal := Some (Z.of_nat (List.length sortedRecords));
                         productsProcessed := Some 0%Z;
                         imagesDownloaded := None; imagesFailed := None |};
               u_errorSummary := None; u_startedAt := None; u_finishedAt := None |} ;;;
          imageResult <- downloadCovers sortedRecords (job_id job) ;;
          consoleLog (LogImagesComplete (List.length sortedRecords) (snd imageResult)) ;;;
          generatedAt <- dateNow ;;
          let manifest :=
            {| mf_jobId := job_id job; mf_shopDomain := shopDomain;
               mf_generatedAt := generatedAt; mf_settings := settings;
               mf_products := fst imageResult |} in
          let manifestBuffer := stringifyManifest manifest in
          let manifestPath := "jobs/" ^^ job_id job ^^ "/manifest.json" in
          storedKey <- storageWrite manifestPath manifestBuffer ;;
          now1 <- dateNow ;;
          manifestFile <-
            jobFileCreate
              {| file_jobId := job_id job; file_type := MANIFEST;
                 file_storageKey := storedKey;
                 file_contentType := "application/json";
                 file_sizeBytes := Z.of_nat (String.length manifestBuffer);
                 file_expiresAt := addDays now1 retentionDays |} ;;
          jobUpdate (job_id job) (progressUpdate 70 "Building PDF") ;;;
          pdfPath <- buildPdfFile fuel (job_id job) (fst imageResult) settings ;;
          consoleLog (LogPdfComplete (sf_sizeBytes pdfPath)) ;;;
          now2 <- dateNow ;;
          jobFileCreate
            {| file_jobId := job_id job; file_type := PDF;
               file_storageKey := sf_storageKey pdfPath;
               file_contentType := "application/pdf";
               file_sizeBytes := sf_sizeBytes pdfPath;
               file_expiresAt := addDays now2 retentionDays |} ;;;
          jobUpdate (job_id job) (progressUpdate 85 "Packaging ZIP") ;;;
          zipPath <- buildImagesZip (job_id job) (fst imageResult)
                                    (Some (file_storageKey manifestFile)) settings ;;
          consoleLog (LogZipComplete (sf_sizeBytes zipPath)) ;;;
          now3 <- dateNow ;;
          jobFileCreate
            {| file_jobId := job_id job; file_type := IMAGES_ZIP;
               file_storageKey := sf_storageKey zipPath;
               file_contentType := "application/zip";
               file_sizeBytes := sf_sizeBytes zipPath;
               file_expiresAt := addDays now3 retentionDays |} ;;;
          finishedAt <- dateNow ;;
          jobUpdate (job_id job)
            {| u_status := Some (if snd imageResult then PARTIAL else COMPLETED);
               u_progressPercent := Some 100%Z;
               u_currentStep := Some "Completed";
               u_countsJson := None; u_errorSummary := None;
               u_startedAt := None; u_finishedAt := Some finishedAt |}
      end
  end.

(** ** The worker ([worker/src/index.ts]) *)

(** The processor given to [new Worker(...)]: [job.data.jobId] is [None]
    when the message carries no job id. *)
Definition processor (fuel : nat) (dataJobId : option string) : M unit :=
  match dataJobId with
  | Some jobId =>
      if truthyStr jobId then runCatalogJob fuel jobId
      else throw "Missing jobId"
  | None => throw "Missing jobId"
  end.

(** [worker.on("failed", async (job, err) => ...)]; the queue calls it with
    the message and the error when the processor throws. *)
Definition onFailed (job : option (option string)) (err : string) : M unit :=
  match job with
  | None => ret tt
  | Some dataJobId =>
      finishedAt <- dateNow ;;
      jobUpdate (nullish dataJobId "")
        {| u_status := Some FAILED; u_progressPercent := None;
           u_currentStep := None; u_countsJson := None;
           u_errorSummary := Some (Some err);
           u_startedAt := None; u_finishedAt := Some finishedAt |}
  end.

(** One message handled by the worker: the processor runs, and the failed
    handler runs when it throws. *)
Definition handleMessage (fuel : nat) (dataJobId : option string) : M unit :=
  tryCatch (processor fuel dataJobId) (onFailed (Some dataJobId)).

End Pipeline.

(** ** What a run leaves behind

    The progress writes, the status writes and the [images_complete] log
    lines among the updates and console lines of a run. *)
Definition progressWrites (us : list JobUpdate) : list (Z * option string) :=
  flat_map (fun u => match u_progressPercent u with
                     | Some percent => [(percent, u_currentStep u)]
                     | None => []
                     end) us.

Definition statusWrites (us : list JobUpdate) : list JobStatus :=
  flat_map (fun u => optionToList (u_status u)) us.

Definition imagesCompleteEvents (evs : list ConsoleEvent) : list (nat * bool) :=
  flat_map (fun e => match e with
                     | LogImagesComplete total failures => [(total, failures)]
                     | _ => []
                     end) evs.

(** The job row after the updates [us], in order. *)
Definition applyAll (us : list JobUpdate) (j : Job) : Job :=
  fold_left (fun j u => applyUpdate u j) us j.

Definition isReturned {A : Type} (o : Outcome A) : bool :=
  match o with
  | Returned _ => true
  | _ => false
  end.

(** [w'] is [w] after the updates [us] and the console lines [evs]: both
    logs grew by them, the job row took the updates, and without a job row
    there were no updates. *)
Definition extends (w w' : World) (us : list JobUpdate) (evs : list ConsoleEvent)
  : Prop :=
  w_updates w' = w_updates w ++ us
  /\ w_console w' = w_console w ++ evs
  /\ w_job w' = option_map (applyAll us) (w_job w)
  /\ (w_job w = None -> us = []).

(** A computation all of whose runs leave writes and log lines satisfying
    [P]; the first argument of [P] tells whether the run returned. *)
Definition observes {A : Type} (m : M A)
  (P : bool -> list (Z * option string) -> list JobStatus -> list (nat * bool) -> Prop)
  : Prop :=
  forall w, exists us evs,
    extends w (snd (m w)) us evs
    /\ P (isReturned (fst (m w))) (progressWrites us) (statusWrites us)
         (imagesCompleteEvents evs).

(** A computation that writes no progress, no status and logs no
    [images_complete]. *)
Definition silent {A : Type} (m : M A) : Prop :=
  observes m (fun _ ps ss es => ps = [] /\ ss = [] /\ es = []).

(** A task each of whose awaited calls satisfies [P]. *)
Fixpoint awaitsOnly (P : forall B : Type, M B -> Prop) {V A : Type}
  (t : Task V A) : Prop :=
  match t with
  | Resolve _ => True
  | Reject _ => True
  | Stall => True
  | Get k => forall s, awaitsOnly P (k s)
  | Put _ next => awaitsOnly P next
  | Await op k h =>
      P _ op /\ (forall b, awaitsOnly P (k b)) /\ (forall e, awaitsOnly P (h e))
  end.

(** The five checkpoints with their step labels. *)
Definition checkpoints : list (Z * option string) :=
  [ (5%Z, Some "Collecting products");
    (35%Z, Some "Downloading cover images");
    (70%Z, Some "Building PDF");
    (85%Z, Some "Packaging ZIP");
    (100%Z, Some "Completed") ].

Definition prefixOf {A : Type} (p l : list A) : Prop := exists rest, l = p ++ rest.

(** What every run of [runCatalogJob] leaves: progress writes that are an
    initial part of the checkpoints, no status FAILED, and, when the run
    returns, all five checkpoints, one [images_complete] line and the two
    status writes RUNNING and then PARTIAL or COMPLETED by its [failures]
    flag. *)
Definition runSummary (returned : bool) (ps : list (Z * option string))
  (ss : list JobStatus) (es : list (nat * bool)) : Prop :=
  prefixOf ps checkpoints
  /\ Forall (fun st => st <> FAILED) ss
  /\ (returned = true ->
      ps = checkpoints
      /\ exists total hasFailures,
           es = [(total, hasFailures)]
           /\ ss = [RUNNING; if hasFailures then PARTIAL else COMPLETED]).

(** A fetch attempt that [downloadWithRetry] counts as failed: the call
    throws, the response is not ok, or reading its body throws. *)
Definition attemptFails (outcome : FetchOutcome) : bool :=
  match outcome with
  | FetchFails => true
  | FetchResponds response =>
      negb (resp_ok response)
      || match resp_bytes response with Some _ => false | None => true end
  end.

(** A count of the job row, 0 when it is not there. *)
Definition countOf (field : Counts -> option Z) (w : World) : Z :=
  match w_job w with
  | Some j =>
      match job_countsJson j with
      | Some counts => orZero (field counts)
      | None => 0%Z
      end
  | None => 0%Z
  end.

(** A computation none of whose runs is cut short by its fuel. *)
Definition ends {A : Type} (m : M A) : Prop :=
  forall w, fst (m w) <> OutOfFuel.

(** A task that touches no shared variable and gets to its end within [n]
    [await]s. *)
Fixpoint awaitsAtMost {V A : Type} (n : nat) (t : Task V A) {struct t} : Prop :=
  match t with
  | Resolve _ => True
  | Reject _ => True
  | Stall => False
  | Get _ => False
  | Put _ _ => False
  | Await _ k h =>
      match n with
      | O => False
      | S n' => (forall b, awaitsAtMost n' (k b)) /\ (forall e, awaitsAtMost n' (h e))
      end
  end.

Definition queued (s : Shared) : nat := List.length (sh_queue s).

(** The [await]s a worker can afford: from the shared variables [s], and
    with whatever queue, not longer, it finds when it resumes, the task
    gets to its end within [c] [await]s and nine more for each record it
    takes off the queue, and its loop does not run out of fuel. *)
Fixpoint affords {A : Type} (t : Task Shared A) (c : nat) (s : Shared)
  {struct t} : Prop :=
  match t with
  | Resolve _ => True
  | Reject _ => True
  | Stall => False
  | Get k => affords (k s) c s
  | Put s' next =>
      (queued s' <= queued s)%nat
      /\ affords next (c + 9 * (queued s - queued s')) s'
  | Await _ k h =>
      match c with
      | O => False
      | S c' =>
          forall s', (queued s' <= queued s)%nat ->
                     (forall b, affords (k b) c' s') /\ (forall e, affords (h e) c' s')
      end
  end.



(** ** Sample data for the worked examples *)

Definition sampleRecord (id : string) : ProductRecord :=
  {| productId := id; title := Some id; handle := Some id;
     vendor := Some "Acme"; productType := None; status := Some "ACTIVE";
     coverUrl := None; createdAt := None; updatedAt := None;
     collections := []; localCoverPath := None; coverFileName := None;
     price := PriceScalar "19.99" |}.

Definition sampleRun : list ProductRecord :=
  map sampleRecord ["p1"; "p2"; "p3"; "p4"; "p5"; "p6"; "p7"].

(** A header, a run of seven products, a second header and one product. *)
Definition sampleItems : list GroupedItem :=
  [ItemHeader "A"] ++ map ItemProduct sampleRun
  ++ [ItemHeader "B"; ItemProduct (sampleRecord "p8")].

(** [GRID] with two columns. *)
Definition sampleGridSettings : ExportSettings :=
  {| scopeType := None; includeDrafts := None; pricingMode := None;
     currencyPrefix := None; layoutType := Some GRID; gridColumns := Some 2%nat;
     grouping := Some VENDOR; sortOrder := None; pageSize := None;
     watermarkEnabled := None; watermarkText := None; watermarkOpacity := None;
     priceOverlay := None; productIds := None; collectionIds := None;
     filters := None |}.

(** The watermark switched on with an empty text. *)
Definition sampleBlankWatermark : ExportSettings :=
  {| scopeType := None; includeDrafts := None; pricingMode := None;
     currencyPrefix := None; layoutType := Some ONE_PER_PAGE; gridColumns := None;
     grouping := Some VENDOR; sortOrder := None; pageSize := Some LETTER;
     watermarkEnabled := Some true; watermarkText := Some "";
     watermarkOpacity := Some HEAVY;
     priceOverlay := None; productIds := None; collectionIds := None;
     filters := None |}.

Definition sampleRangeSettings : ExportSettings :=
  {| scopeType := None; includeDrafts := None; pricingMode := Some MIN_MAX_RANGE;
     currencyPrefix := None; layoutType := None; gridColumns := None;
     grouping := None; sortOrder := None; pageSize := None;
     watermarkEnabled := None; watermarkText := None; watermarkOpacity := None;
     priceOverlay := None; productIds := None; collectionIds := None;
     filters := None |}.

Definition sampleAccumulator : ProductAccumulator :=
  {| acc_id := "gid://shopify/Product/1"; acc_title := Some "Mug";
     acc_handle := Some "mug"; acc_vendor := Some "Acme";
     acc_productType := None; acc_status := Some "ACTIVE";
     acc_featuredImageUrl := None; acc_createdAt := None; acc_updatedAt := None;
     acc_collections := []; acc_imageUrls := ["https://cdn.example/mug.png"];
     acc_variants :=
       [ mkProductVariant (Some "v1") "Small" (Some "19.99");
         mkProductVariant (Some "v2") "Sample" None;
         mkProductVariant (Some "v3") "Mini" (Some "5.00");
         mkProductVariant (Some "v4") "Medium" (Some "12.5") ] |}.

(** Accumulators with a variant whose price is the empty string. *)
Definition withVariants (variants : list ProductVariant) : ProductAccumulator :=
  {| acc_id := "gid://shopify/Product/2"; acc_title := Some "Plate";
     acc_handle := Some "plate"; acc_vendor := Some "Acme";
     acc_productType := None; acc_status := Some "ACTIVE";
     acc_featuredImageUrl := None; acc_createdAt := None; acc_updatedAt := None;
     acc_collections := []; acc_imageUrls := []; acc_variants := variants |}.

Definition emptyPriceAccumulator : ProductAccumulator :=
  withVariants [mkProductVariant (Some "v1") "Default" (Some "")].

Definition emptyAndFiveAccumulator : ProductAccumulator :=
  withVariants [ mkProductVariant (Some "v1") "Default" (Some "");
                 mkProductVariant (Some "v2") "Large" (Some "5") ].

Definition allReadable : string -> bool := fun _ => true.

(** *** A sample shop

    Two products: a mug with a cover image and two variants, and a plate
    without any image. *)
Definition coverLine (parent url : string) : BulkLine :=
  LineRecord
    {| r_parentId := FieldStr parent; r_id := FieldAbsent; r_title := FieldAbsent;
       r_handle := FieldAbsent; r_vendor := FieldAbsent; r_productType := FieldAbsent;
       r_status := FieldAbsent; r_createdAt := FieldAbsent; r_updatedAt := FieldAbsent;
       r_featuredImageUrl := FieldAbsent; r_firstImageUrl := FieldAbsent;
       r_price := FieldAbsent; r_url := FieldStr url |}.

Definition shopLines : list BulkLine :=
  [ productLine "p1" "Mug";
    variantLine "p1" "v1" "Small" "5.00";
    variantLine "p1" "v2" "Large" "7.50";
    coverLine "p1" "https://cdn.example/mug.png";
    productLine "p2" "Plate";
    variantLine "p2" "v3" "One size" "9.50" ].

Definition nodeOf (id ttl : string) (cover : option string) (amount : string)
  : PageProduct :=
  {| pp_id := id; pp_title := Some ttl; pp_handle := Some ttl;
     pp_vendor := Some "Acme"; pp_productType := None; pp_status := Some "ACTIVE";
     pp_createdAt := None; pp_updatedAt := None; pp_featuredImageUrl := cover;
     pp_imageUrls := Some []; 
     pp_variants := Some [mkProductVariant (Some (id ^^ "-v")) "Default" (Some amount)];
     pp_collections := None |}.

Definition emptyBody : GqlBody :=
  {| body_bulkOperationRunQuery := None; body_node := None; body_products := None |}.

(** The catalog API: the bulk operation starts and every poll answers with
    [pollStatus]; the paginated query has one page. *)
Definition shopGql (pollStatus : string) (t : nat) (client : GraphqlClient)
  (request : GqlRequest) : GqlOutcome :=
  match request with
  | ReqBulkRun _ =>
      GqlResponds
        {| body_bulkOperationRunQuery :=
             Some (mkRunPayload (Some "gid://shopify/BulkOperation/1") []);
           body_node := None; body_products := None |}
  | ReqBulkPoll _ =>
      GqlResponds
        {| body_bulkOperationRunQuery := None;
           body_node := Some (mkBulkNode (Some pollStatus)
                                         (Some "https://bulk.example/result.jsonl"));
           body_products := None |}
  | ReqProductsPage _ _ _ =>
      GqlResponds
        {| body_bulkOperationRunQuery := None; body_node := None;
           body_products :=
             Some {| page_edges :=
                       [ mkPageEdge "c1" (nodeOf "p1" "Mug"
                                                 (Some "https://cdn.example/mug.png") "5.00");
                         mkPageEdge "c2" (nodeOf "p3" "Bowl"
                                                 (Some "https://cdn.example/bowl.jpg") "3.25") ];
                     page_hasNextPage := Some false |} |}
  end.

(** The network: the result file can be fetched at any time, the two
    covers from tick [coverFailures] on; before that tick a cover fetch
    fails. *)
Definition shopFetch (coverFailures : nat) (t : nat) (url : string) : FetchOutcome :=
  if String.eqb url "https://bulk.example/result.jsonl" then
    FetchResponds (mkFetchResponse true (Some "application/jsonl") None (Some shopLines))
  else if (t <? coverFailures)%nat then FetchFails
  else if String.eqb url "https://cdn.example/mug.png" then
    FetchResponds (mkFetchResponse true (Some "image/png") (Some "PNG-bytes") None)
  else if String.eqb url "https://cdn.example/bowl.jpg" then
    FetchResponds (mkFetchResponse true (Some "image/jpeg") (Some "JPEG-bytes") None)
  else FetchResponds (mkFetchResponse false None None None).

Definition shopEnv (pollStatus : string) (coverFailures : nat) : Env :=
  {| env_gql := shopGql pollStatus;
     env_gqlLatencyMs := fun _ => 120%N;
     env_timerSlackMs := fun _ => 3%N;
     env_fetch := shopFetch coverFailures;
     env_dbFails := fun _ => false;
     env_storageFails := fun _ => false;
     env_session := fun _ => Some (mkSession "demo.myshopify.com" "token");
     env_zipFails := fun _ => false;
     env_schedule := fun _ => 0%nat |}.

Definition shopJob (settings : ExportSettings) : Job :=
  {| job_id := "job1"; job_shopDomain := "demo.myshopify.com";
     job_settingsJson := Some settings; job_status := QUEUED;
     job_progressPercent := 0; job_currentStep := None; job_countsJson := None;
     job_errorSummary := None; job_startedAt := None; job_finishedAt := None |}.

Definition shopWorld (settings : ExportSettings) : World :=
  {| w_job := Some (shopJob settings); w_updates := []; w_issues := [];
     w_files := []; w_console := []; w_requests := []; w_storage := [];
     w_now := 1700000000000; w_tick := 0 |}.

(** Stand-ins for the library calls of a run. *)
Definition byteCompare (a b : string) : Z :=
  match String.compare a b with
  | Lt => (-1)%Z
  | Eq => 0%Z
  | Gt => 1%Z
  end.

Definition shopMetadata (bytes : string) : Result (option Z * option Z) :=
  Ok (Some 640%Z, Some 480%Z).

Definition shopComposite (bytes : string) (svg : OverlaySvg) (png : bool)
  : Result string := Ok bytes.

Definition shopZip (entries : list (string * string)) : string :=
  join "," (map fst entries).

Definition shopSavePdf (pages : list Page) : string :=
  join "" (map (fun _ => "P") pages).

Definition shopStringify (m : Manifest) : string :=
  join "," (map productId (mf_products m)).

Definition shopRun (pollStatus : string) (coverFailures : nat)
  (settings : ExportSettings) : Outcome unit * World :=
  runCatalogJob (shopEnv pollStatus coverFailures) byteCompare
                shopMetadata shopComposite shopZip shopSavePdf
                decimalToNumber decimalToString shopStringify
                20 "job1" (shopWorld settings).

(** The same shop without an offline session. *)
Definition noSessionEnv : Env :=
  {| env_gql := shopGql "COMPLETED";
     env_gqlLatencyMs := fun _ => 120%N;
     env_timerSlackMs := fun _ => 3%N;
     env_fetch := shopFetch 0;
     env_dbFails := fun _ => false;
     env_storageFails := fun _ => false;
     env_session := fun _ => None;
     env_zipFails := fun _ => false;
     env_schedule := fun _ => 0%nat |}.


Definition mugRecord : ProductRecord :=
  {| productId := "p1"; title := Some "Mug"; handle := Some "mug";
     vendor := Some "Acme"; productType := None; status := Some "ACTIVE";
     coverUrl := Some "https://cdn.example/mug.png"; createdAt := None;
     updatedAt := None; collections := []; localCoverPath := None;
     coverFileName := None; price := PriceScalar "5.00" |}.

Definition bowlRecord : ProductRecord :=
  {| productId := "p3"; title := Some "Bowl"; handle := Some "bowl";
     vendor := Some "Acme"; productType := None; status := Some "ACTIVE";
     coverUrl := Some "https://cdn.example/bowl.jpg"; createdAt := None;
     updatedAt := None; collections := []; localCoverPath := None;
     coverFileName := None; price := PriceScalar "3.25" |}.

(** The shop with an event loop on which the pending calls settle in
    turn. *)
Definition turnsShopEnv (pollStatus : string) (coverFailures : nat) : Env :=
  {| env_gql := shopGql pollStatus;
     env_gqlLatencyMs := fun _ => 120%N;
     env_timerSlackMs := fun _ => 3%N;
     env_fetch := shopFetch coverFailures;
     env_dbFails := fun _ => false;
     env_storageFails := fun _ => false;
     env_session := fun _ => Some (mkSession "demo.myshopify.com" "token");
     env_zipFails := fun _ => false;
     env_schedule := fun turn => turn |}.

(** The same on a network whose cover fetches fail before tick 5. *)
Definition turnsEnv : Env := turnsShopEnv "COMPLETED" 5.

(** [downloadCovers] on the mug and the bowl.  The update that resets the
    counts takes tick 0; the two workers then fetch in turn, the mug at the
    ticks 1, 3 and 5, the bowl at the ticks 2, 4 and 6. *)
Definition turnsRun : Outcome (list ProductRecord * bool) * World :=
  downloadCovers turnsEnv [mugRecord; bowlRecord] "job1"
                 (shopWorld sampleGridSettings).

(** Records for the examples of grouping and sorting. *)
Definition vendorRecord (id vendorName : string) : ProductRecord :=
  {| productId := id; title := Some id; handle := None;
     vendor := Some vendorName; productType := None; status := None;
     coverUrl := None; createdAt := None; updatedAt := None;
     collections := []; localCoverPath := None; coverFileName := None;
     price := PriceNull |}.

Definition collectedRecord (refs : list CollectionRef) : ProductRecord :=
  {| productId := "p1"; title := None; handle := None;
     vendor := None; productType := None; status := None;
     coverUrl := None; createdAt := None; updatedAt := None;
     collections := refs; localCoverPath := None; coverFileName := None;
     price := PriceNull |}.

Definition withGrouping (g : Grouping) : ExportSettings :=
  {| scopeType := None; includeDrafts := None; pricingMode := None;
     currencyPrefix := None; layoutType := None; gridColumns := None;
     grouping := Some g; sortOrder := None; pageSize := None;
     watermarkEnabled := None; watermarkText := None; watermarkOpacity := None;
     priceOverlay := None; productIds := None; collectionIds := None;
     filters := None |}.

Definition withCollectionIds (ids : list string) : ExportSettings :=
  {| scopeType := None; includeDrafts := None; pricingMode := None;
     currencyPrefix := None; layoutType := None; gridColumns := None;
     grouping := Some COLLECTION; sortOrder := None; pageSize := None;
     watermarkEnabled := None; watermarkText := None; watermarkOpacity := None;
     priceOverlay := None; productIds := None; collectionIds := Some ids;
     filters := None |}.

(** What the examples of whole runs compare: the outcome, the final status
    and counts, the progress writes, the issue types and the console. *)
Definition runDigest (run : Outcome unit * World) :=
  (fst run,
   option_map job_status (w_job (snd run)),
   option_map job_countsJson (w_job (snd run)),
   progressWrites (w_updates (snd run)),
   map issue_type (w_issues (snd run)),
   w_console (snd run)).

(** ** Notions for the further properties

    Helpers of the pipeline the stages above leave out, and the notions
    in which the properties of Part II are stated. *)

(** How a reader of the search syntax would undo [escapeQuery]: a backslash
    gives way to the character behind it. *)
Fixpoint unescapeQuery (s : string) : string :=
  match s with
  | EmptyString => EmptyString
  | String a rest =>
      if Ascii.eqb a backslashChar then
        match rest with
        | String b rest' => String b (unescapeQuery rest')
        | EmptyString => String a EmptyString
        end
      else String a (unescapeQuery rest)
  end.

(** Whether [s] has a double quote that no backslash before it escapes. *)
Fixpoint hasBareQuote (s : string) : bool :=
  match s with
  | EmptyString => false
  | String a rest =>
      if Ascii.eqb a backslashChar then
        match rest with
        | String _ rest' => hasBareQuote rest'
        | EmptyString => false
        end
      else if Ascii.eqb a quoteChar then true
      else hasBareQuote rest
  end.

Definition gidPrefix : string := "gid://shopify/Product/".

(** Whether the scope of the settings comes with a selection that restricts
    the products: collection ids for COLLECTIONS, product ids for PRODUCTS,
    a vendor, product type or tag for FILTERS. *)
Definition nonEmptyList {A : Type} (o : option (list A)) : bool :=
  match o with
  | Some (_ :: _) => true
  | _ => false
  end.

Definition restrictsProducts (settings : ExportSettings) : bool :=
  match scopeType settings with
  | Some COLLECTIONS => nonEmptyList (collectionIds settings)
  | Some PRODUCTS => nonEmptyList (productIds settings)
  | Some FILTERS =>
      match filters settings with
      | Some f =>
          nonEmptyList (f_vendor f) || nonEmptyList (f_productType f)
          || nonEmptyList (f_tag f)
      | None => false
      end
  | _ => false
  end.

(** [variants[0]?.price ?? null]. *)
Definition firstVariantPrice (product : ProductAccumulator) : option string :=
  match acc_variants product with
  | v :: _ => pv_price v
  | [] => None
  end.

(** The product records among grouped items, in order. *)
Definition productsOf (items : list GroupedItem) : list ProductRecord :=
  flat_map (fun item => match item with
                        | ItemProduct r => [r]
                        | ItemHeader _ => []
                        end) items.

(** The keys of a list in the order of their first appearance. *)
Definition firstSeen (keys : list string) : list string :=
  fold_left (fun seen k => if existsb (String.eqb k) seen then seen else seen ++ [k])
            keys [].

(** The section of the title [t]: the header and the records with that key. *)
Definition sectionOf (key : ProductRecord -> string) (records : list ProductRecord)
  (t : string) : list GroupedItem :=
  ItemHeader t :: map ItemProduct (filter (fun r => String.eqb (key r) t) records).

(** The width [fitFontSize] estimates for a text at a font size. *)
Definition estimatedWidth (text : string) (fontSize : Z) : Q :=
  inject_Z fontSize * inject_Z (Z.of_nat (Nat.max 1 (String.length text))) * (6 # 10).

(** The buckets after the records [seen]: one for each title, holding the
    records of that key. *)
Definition bucketsOf (key : ProductRecord -> string) (seen : list ProductRecord)
  (titles : list string) : list (string * list ProductRecord) :=
  map (fun t => (t, filter (fun r => String.eqb (key r) t) seen)) titles.

(** The comparator [sortRecords] hands to [sort] for the sort order of the
    settings; for COLLECTION_ORDER, where nothing is sorted, every pair
    compares equal. *)
Definition recordCompare (localeCompare : string -> string -> Z)
  (settings : ExportSettings) (a b : ProductRecord) : Z :=
  match nullish (sortOrder settings) TITLE_ASC with
  | TITLE_ASC => localeCompare (nullish (title a) "") (nullish (title b) "")
  | CREATED_DESC => localeCompare (nullish (createdAt b) "") (nullish (createdAt a) "")
  | UPDATED_DESC => localeCompare (nullish (updatedAt b) "") (nullish (updatedAt a) "")
  | COLLECTION_ORDER => 0%Z
  end.

(** A comparator by length, for the examples. *)
Definition lengthCompare (a b : string) : Z :=
  (Z.of_nat (String.length a) - Z.of_nat (String.length b))%Z.

(** [function escapeSvgText(value)]: five replacements, one after the
    other, the ampersand first. *)
Definition escapeSvgText (value : string) : string :=
  replaceChar "'"%char "&apos;"
    (replaceChar quoteChar "&quot;"
       (replaceChar ">"%char "&gt;"
          (replaceChar "<"%char "&lt;"
             (replaceChar "&"%char "&amp;" value)))).

(** The five characters [escapeSvgText] replaces. *)
Definition isSvgSpecial (ch : ascii) : bool :=
  Ascii.eqb ch "&"%char || Ascii.eqb ch "<"%char || Ascii.eqb ch ">"%char
  || Ascii.eqb ch quoteChar || Ascii.eqb ch "'"%char.

(** The character an entity name stands for, with what follows the name. *)
Definition readEntity (s : string) : option (ascii * string) :=
  match dropPrefix "amp;" s with
  | Some rest => Some ("&"%char, rest)
  | None =>
  match dropPrefix "lt;" s with
  | Some rest => Some ("<"%char, rest)
  | None =>
  match dropPrefix "gt;" s with
  | Some rest => Some (">"%char, rest)
  | None =>
  match dropPrefix "quot;" s with
  | Some rest => Some (quoteChar, rest)
  | None =>
  match dropPrefix "apos;" s with
  | Some rest => Some ("'"%char, rest)
  | None => None
  end end end end end.

(** How an XML reader decodes character data: an ampersand with one of
    the five entity names after it gives the character of that name;
    [skip] counts the characters of a name still to be passed over. *)
Fixpoint unescapeSvgFrom (skip : nat) (s : string) : string :=
  match s with
  | EmptyString => EmptyString
  | String ch rest =>
      match skip with
      | S skip' => unescapeSvgFrom skip' rest
      | O =>
          if Ascii.eqb ch "&"%char then
            match readEntity rest with
            | Some (decoded, after) =>
                String decoded
                       (unescapeSvgFrom (String.length rest - String.length after) rest)
            | None => String ch (unescapeSvgFrom 0 rest)
            end
          else String ch (unescapeSvgFrom 0 rest)
      end
  end.

Definition unescapeSvgText (s : string) : string := unescapeSvgFrom 0 s.

(** The value of a hexadecimal digit. *)
Definition hexDigitValue (ch : ascii) : option Z :=
  let n := Z.of_nat (nat_of_ascii ch) in
  if ((48 <=? n) && (n <=? 57))%Z then Some (n - 48)%Z
  else if ((97 <=? n) && (n <=? 102))%Z then Some (n - 87)%Z
  else if ((65 <=? n) && (n <=? 70))%Z then Some (n - 55)%Z
  else None.

(** The values of the characters of [s] when all are hexadecimal digits. *)
Fixpoint hexDigits (s : string) : option (list Z) :=
  match s with
  | EmptyString => Some []
  | String ch rest =>
      match hexDigitValue ch, hexDigits rest with
      | Some d, Some ds => Some (d :: ds)
      | _, _ => None
      end
  end.

(** [value.replace(/^#/, "")]. *)
Definition stripHash (value : string) : string :=
  match value with
  | String ch rest => if Ascii.eqb ch "#"%char then rest else value
  | EmptyString => value
  end.

(** [Number.parseInt(digits, 16)] on hexadecimal digits. *)
Definition parseHex (digits : list Z) : Z :=
  fold_left (fun value d => value * 16 + d)%Z digits 0%Z.

(** [{ r, g, b }]. *)
Record Rgb := mkRgb {
  rgb_r : Z;
  rgb_g : Z;
  rgb_b : Z
}.

(** [function hexToRgb(hex)]; [trim] is [String.prototype.trim]. *)
Definition hexToRgb (trim : string -> string) (hex : string) : option Rgb :=
  let normalized := stripHash (trim hex) in
  match hexDigits normalized with
  | Some digits =>
      if (List.length digits =? 3)%nat || (List.length digits =? 6)%nat then
        let expanded :=
          if (List.length digits =? 3)%nat then flat_map (fun d => [d; d]) digits
          else digits in
        let intVal := parseHex expanded in
        Some {| rgb_r := Z.land (Z.shiftr intVal 16) 255;
                rgb_g := Z.land (Z.shiftr intVal 8) 255;
                rgb_b := Z.land intVal 255 |}
      else None
  | None => None
  end.

(** What [escapeSvgText] puts for one character. *)
Definition escapeSvgChar (ch : ascii) : string :=
  if Ascii.eqb ch "&"%char then "&amp;"
  else if Ascii.eqb ch "<"%char then "&lt;"
  else if Ascii.eqb ch ">"%char then "&gt;"
  else if Ascii.eqb ch quoteChar then "&quot;"
  else if Ascii.eqb ch "'"%char then "&apos;"
  else String ch EmptyString.

(** Whether [s] is character data an XML reader takes as text: it has none
    of the characters for markup and quoting, and each ampersand starts one
    of the five entities. *)
Fixpoint isSvgTextData (s : string) : bool :=
  match s with
  | EmptyString => true
  | String ch rest =>
      if Ascii.eqb ch "&"%char then
        match readEntity rest with
        | Some _ => isSvgTextData rest
        | None => false
        end
      else negb (isSvgSpecial ch) && isSvgTextData rest
  end.

(** The call [buildPdf] makes for the [k]-th cell of a grid page of [c]
    columns, counted from 0 row by row from the top left. *)
Definition gridCellCall (pw ph : Z) (c : nat) (r : ProductRecord) (k : nat)
  : DrawCall :=
  CallGridCell r
    (inject_Z (Z.of_nat (k mod c)) * cellWidth pw c)
    (inject_Z ph - inject_Z (Z.of_nat (k / c + 1)) * cellHeight ph)
    (cellWidth pw c) (cellHeight ph).

(** The calls for the cells [from], [from + 1], ... holding [recs]. *)
Fixpoint gridCellCalls (pw ph : Z) (c : nat) (from : nat)
  (recs : list ProductRecord) : list DrawCall :=
  match recs with
  | [] => []
  | r :: rest => gridCellCall pw ph c r from :: gridCellCalls pw ph c (S from) rest
  end.

(** What [drawWatermark] draws. *)
Definition watermarkCalls (wm : option Watermark) : list DrawCall :=
  match wm with
  | Some w =>
      if truthyStr (wm_text w) then [CallWatermarkText (wm_text w) (wm_opacity w)]
      else []
  | None => []
  end.

(** The grouped item a call shows. *)
Definition itemsOfCall (call : DrawCall) : list GroupedItem :=
  match call with
  | CallHeaderPage t => [ItemHeader t]
  | CallOnePerPage r => [ItemProduct r]
  | CallGridCell r _ _ _ _ => [ItemProduct r]
  | CallWatermarkText _ _ => []
  end.

Definition pageItems (p : Page) : list GroupedItem :=
  flat_map itemsOfCall (page_calls p).

(** A page of the grid layout: the watermark, then a header title or up to
    [3 * c] cells, each at its place. *)
Definition isGridPage (pw ph : Z) (wm : option Watermark) (c : nat) (p : Page)
  : Prop :=
  page_width p = pw /\ page_height p = ph
  /\ ((exists t, page_calls p = watermarkCalls wm ++ [CallHeaderPage t])
      \/ (exists recs,
            (List.length recs <= 3 * c)%nat /\ ((0 < c)%nat -> recs <> [])
            /\ page_calls p = watermarkCalls wm ++ gridCellCalls pw ph c 0 recs)).

(** A page of the layout with one item per page. *)
Definition isSinglePage (pw ph : Z) (wm : option Watermark) (p : Page) : Prop :=
  page_width p = pw /\ page_height p = ph
  /\ ((exists t, page_calls p = watermarkCalls wm ++ [CallHeaderPage t])
      \/ (exists r, page_calls p = watermarkCalls wm ++ [CallOnePerPage r])).

(** Whether a product stands at position [j] of the items. *)
Definition atProduct (items : list GroupedItem) (j : nat) : bool :=
  match nth_error items j with
  | Some (ItemProduct _) => true
  | _ => false
  end.

(** A product item whose cover file cannot be read. *)
Definition hasUnreadableCover (readable : string -> bool)
  (items : list GroupedItem) : Prop :=
  exists r, In (ItemProduct r) items /\ coverReadFails readable r = true.

(** The shape of a page by the layout of the settings. *)
Definition isPageOf (settings : ExportSettings) (p : Page) : Prop :=
  let wm := watermarkOf settings in
  match nullish (layoutType settings) GRID with
  | ONE_PER_PAGE => isSinglePage (fst (pageDims settings)) (snd (pageDims settings)) wm p
  | GRID =>
      isGridPage (fst (pageDims settings)) (snd (pageDims settings)) wm
                 (nullish (gridColumns settings) 3%nat) p
  end.



(** The pages of a layout result, none when it is not there. *)
Definition pagesOrNone (result : option (Result (list Page))) : list Page :=
  match result with
  | Some (Ok pages) => pages
  | _ => []
  end.

(** The mug with its cover stored. *)
Definition storedMug : ProductRecord :=
  withCover mugRecord "jobs/job1/images/products/mug/cover.png" "images/mug.png".

Definition noneReadable : string -> bool := fun _ => false.

(** The grid settings with the watermark DRAFT. *)
Definition sampleDraftWatermark : ExportSettings :=
  {| scopeType := None; includeDrafts := None; pricingMode := None;
     currencyPrefix := None; layoutType := Some GRID; gridColumns := Some 2%nat;
     grouping := Some VENDOR; sortOrder := None; pageSize := None;
     watermarkEnabled := Some true; watermarkText := Some "DRAFT";
     watermarkOpacity := Some MEDIUM;
     priceOverlay := None; productIds := None; collectionIds := None;
     filters := None |}.

(* ===================================================================== *)
(** * Part II.  Properties                                                *)
(* ===================================================================== *)

(** C5: with the currency prefix "$", passed explicitly or left to its
    default, [formatPrice] maps the scalar price "19.99" to "$19.99", the
    range {min "10", max "25"} to "$10 - $25", a variant table whose first
    row has price "5.00" to "$5.00" whatever the first row's title and the
    remaining rows are, and the null price to null.  Being a Rocq function
    of its two arguments, [formatPrice] is pure and deterministic. *)
Theorem formatPrice_examples :
  forall prefix : option string,
    prefix = Some "$" \/ prefix = None ->
    formatPrice (PriceScalar "19.99") prefix = Some "$19.99"
    /\ formatPrice (PriceRange "10" "25") prefix = Some "$10 - $25"
    /\ (forall (title : string) (rest : list VariantRow),
          formatPrice (PriceTable (mkVariantRow title (Some "5.00") :: rest)) prefix
          = Some "$5.00")
    /\ formatPrice PriceNull prefix = None.
Proof.
  intros prefix [-> | ->]; repeat split; intros; reflexivity.
Qed.

Lemma formatPrice_examples_witness :
  (Some "$" = Some "$" \/ Some "$" = @None string)
  /\ formatPrice (PriceScalar "19.99") (Some "$") = Some "$19.99"
  /\ formatPrice (PriceRange "10" "25") (Some "$") = Some "$10 - $25"
  /\ (forall (title : string) (rest : list VariantRow),
        formatPrice (PriceTable (mkVariantRow title (Some "5.00") :: rest)) (Some "$")
        = Some "$5.00")
  /\ formatPrice PriceNull (Some "$") = None.
Proof.
  split; [left; reflexivity|].
  apply (formatPrice_examples (Some "$")). left. reflexivity.
Defined.

(** ** Overlay rectangle *)

Lemma Qmin2_le_l a b : Qmin2 a b <= a.
Proof.
  unfold Qmin2. destruct (Qle_bool a b) eqn:E.
  - apply Qle_refl.
  - apply Qlt_le_weak, Qnot_le_lt. intro H.
    apply Qle_bool_iff in H. congruence.
Qed.

Lemma Qmin2_le_r a b : Qmin2 a b <= b.
Proof.
  unfold Qmin2. destruct (Qle_bool a b) eqn:E.
  - now apply Qle_bool_iff.
  - apply Qle_refl.
Qed.

Lemma Qmin2_glb a b c : c <= a -> c <= b -> c <= Qmin2 a b.
Proof. unfold Qmin2. now destruct (Qle_bool a b). Qed.

Lemma Qmax2_ge_l a b : a <= Qmax2 a b.
Proof.
  unfold Qmax2. destruct (Qle_bool a b) eqn:E.
  - now apply Qle_bool_iff.
  - apply Qle_refl.
Qed.

Lemma Qmax2_ge_r a b : b <= Qmax2 a b.
Proof.
  unfold Qmax2. destruct (Qle_bool a b) eqn:E.
  - apply Qle_refl.
  - apply Qlt_le_weak, Qnot_le_lt. intro H.
    apply Qle_bool_iff in H. congruence.
Qed.

(** [clamp01] lands in the unit interval for every input. *)
Lemma clamp01_range v : 0 <= clamp01 v /\ clamp01 v <= 1.
Proof.
  destruct v as [| |q|]; cbn [clamp01].
  - split; [apply Qle_refl | discriminate].
  - split; [apply Qmin2_glb; [apply Qle_refl | discriminate] | apply Qmin2_le_r].
  - split.
    + apply Qmin2_glb; [apply Qmax2_ge_r | discriminate].
    + apply Qmin2_le_r.
  - split; [discriminate | apply Qle_refl].
Qed.

(** [Math.round] is monotone and fixes the integers. *)
Lemma Math_round_mono a b : a <= b -> (Math_round a <= Math_round b)%Z.
Proof.
  intro H. unfold Math_round. apply Qfloor_resp_le.
  apply Qplus_le_compat; [exact H | apply Qle_refl].
Qed.

Lemma Math_round_Z z : Math_round (inject_Z z) = z.
Proof.
  unfold Math_round, Qfloor, Qplus, inject_Z. cbn [Qnum Qden].
  change (Z.pos (1 * 2)) with 2%Z.
  symmetry. apply (Z.div_unique_pos _ 2 z 1); lia.
Qed.

(** A value cut from above by an integer rounds to at most that integer. *)
Lemma Math_round_min_le a k : (Math_round (Qmin2 a (inject_Z k)) <= k)%Z.
Proof.
  rewrite <- (Math_round_Z k) at 2. apply Math_round_mono, Qmin2_le_r.
Qed.

Lemma Math_round_nonneg a : 0 <= a -> (0 <= Math_round a)%Z.
Proof.
  intro H. change 0%Z with (Math_round (inject_Z 0)) at 1.
  now apply Math_round_mono.
Qed.

(** Scaling a side by a ratio of the unit interval stays within the side. *)
Lemma scaled_side_range (side : Z) (ratio : Q) :
  (0 < side)%Z -> 0 <= ratio -> ratio <= 1 ->
  (0 <= Math_round (inject_Z side * ratio) <= side)%Z.
Proof.
  intros Hs H0 H1.
  assert (Hq : 0 <= inject_Z side).
  { change 0 with (inject_Z 0). rewrite <- Zle_Qle. lia. }
  split.
  - apply Math_round_nonneg. now apply Qmult_le_0_compat.
  - rewrite <- (Math_round_Z side) at 2. apply Math_round_mono.
    rewrite <- (Qmult_1_r (inject_Z side)) at 2.
    rewrite !(Qmult_comm (inject_Z side)).
    now apply Qmult_le_compat_r.
Qed.

(** An offset is cut to [0, side - extent] before rounding. *)
Lemma offset_range (side extent : Z) (a : Q) :
  (0 <= extent <= side)%Z ->
  (0 <= Math_round (Qmin2 (Qmax2 0 a) (inject_Z (side - extent)))
   <= side - extent)%Z.
Proof.
  intro H. split.
  - apply Math_round_nonneg, Qmin2_glb.
    + apply Qmax2_ge_l.
    + change 0 with (inject_Z 0). rewrite <- Zle_Qle. lia.
  - apply Math_round_min_le.
Qed.

(** C4: for every overlay rectangle, whatever its four ratios are
    (negative, above 1, NaN or infinite), and every image with positive
    integer width and height, the pixel rectangle of [resolveOverlayStyle]
    lies inside the image: x >= 0, y >= 0, x + width <= imageWidth and
    y + height <= imageHeight. *)
Theorem resolveOverlayStyle_within_image :
  forall (overlay : option PriceOverlay) (imageWidth imageHeight : Z),
    (0 < imageWidth)%Z -> (0 < imageHeight)%Z ->
    let r := resolveOverlayStyle overlay imageWidth imageHeight in
    (0 <= os_x r)%Z /\ (0 <= os_y r)%Z
    /\ (os_x r + os_width r <= imageWidth)%Z
    /\ (os_y r + os_height r <= imageHeight)%Z.
Proof.
  intros overlay W H HW HH. cbn [resolveOverlayStyle os_x os_y os_width os_height].
  set (wr := clamp01 (rectField overlay rect_width (88 # 100))).
  set (hr := clamp01 (rectField overlay rect_height (2 # 10))).
  destruct (clamp01_range (rectField overlay rect_width (88 # 100))) as [w0 w1].
  destruct (clamp01_range (rectField overlay rect_height (2 # 10))) as [h0 h1].
  pose proof (scaled_side_range W wr HW w0 w1) as Hw.
  pose proof (scaled_side_range H hr HH h0 h1) as Hh.
  pose proof (offset_range W _ (inject_Z W * clamp01 (rectField overlay rect_x (6 # 100))) Hw) as Hx.
  pose proof (offset_range H _ (inject_Z H * clamp01 (rectField overlay rect_y (74 # 100))) Hh) as Hy.
  lia.
Qed.

Lemma resolveOverlayStyle_within_image_witness :
  let overlay :=
    Some (mkPriceOverlay (Some true)
            (Some (mkOverlayRect (JsFin (-3 # 4)) (JsFin (9 # 5))
                                 (JsFin (7 # 3)) JsNaN))
            None None None None) in
  let r := resolveOverlayStyle overlay 640 480 in
  (0 < 640)%Z /\ (0 < 480)%Z /\
  (0 <= os_x r)%Z /\ (0 <= os_y r)%Z
  /\ (os_x r + os_width r <= 640)%Z
  /\ (os_y r + os_height r <= 480)%Z.
Proof.
  intros overlay r.
  split; [lia | split; [lia |]].
  apply (resolveOverlayStyle_within_image overlay 640 480); lia.
Defined.

(** ** List facts used by the layout proofs *)

Lemma skipn_nth_error_cons {A} (l : list A) i x :
  nth_error l i = Some x -> skipn i l = x :: skipn (S i) l.
Proof.
  revert i. induction l as [|a l IH]; intros [|i]; cbn; try discriminate.
  - now intros [= ->].
  - intro H. now rewrite (IH i H).
Qed.

Lemma firstn_skipn_split {A} (l : list A) i j k :
  (i <= j)%nat -> (j <= k)%nat ->
  firstn (k - i) (skipn i l)
  = firstn (j - i) (skipn i l) ++ firstn (k - j) (skipn j l).
Proof.
  intros Hij Hjk.
  replace (k - i)%nat with ((j - i) + (k - j))%nat by lia.
  replace (skipn j l) with (skipn (j - i) (skipn i l))
    by (rewrite skipn_skipn; f_equal; lia).
  generalize (skipn i l) as m. generalize (j - i)%nat as a.
  induction a as [|a IH]; intros [|x m]; cbn; try reflexivity.
  - now rewrite firstn_nil.
  - now rewrite IH.
Qed.

Lemma ceilDiv_0 d : ceilDiv 0 d = 0%nat.
Proof.
  unfold ceilDiv. destruct d as [|d]; [reflexivity|].
  apply Nat.div_small. lia.
Qed.

Lemma ceilDiv_step m d :
  (0 < d)%nat -> (0 < m)%nat -> ceilDiv m d = S (ceilDiv (m - d) d).
Proof.
  intros Hd Hm. unfold ceilDiv.
  destruct (Nat.le_gt_cases m d) as [Hle|Hgt].
  - replace (m - d)%nat with 0%nat by lia. cbn [Nat.add].
    rewrite (Nat.div_small (d - 1) d) by lia.
    symmetry. apply (Nat.div_unique _ d 1 (m - 1)); lia.
  - replace (m + d - 1)%nat with ((m - d + d - 1) + 1 * d)%nat by lia.
    rewrite Nat.div_add by lia. lia.
Qed.

Lemma ceilDiv_Qceiling n d :
  (0 < d)%nat ->
  Z.of_nat (ceilDiv n d)
  = Qceiling (inject_Z (Z.of_nat n) / inject_Z (Z.of_nat d)).
Proof.
  intro Hd. unfold Qceiling.
  assert (E : - (inject_Z (Z.of_nat n) / inject_Z (Z.of_nat d))
              == inject_Z (- Z.of_nat n) / inject_Z (Z.of_nat d)).
  { rewrite inject_Z_opp. unfold Qdiv. ring. }
  rewrite E, <- Zdiv_Qdiv. unfold ceilDiv.
  rewrite Nat2Z.inj_div, Nat2Z.inj_sub, Nat2Z.inj_add by lia.
  set (N := Z.of_nat n). set (D := Z.of_nat d).
  assert (HD : (0 < D)%Z) by (unfold D; lia).
  pose proof (Z.div_mod (- N) D ltac:(lia)) as Hdm.
  pose proof (Z.mod_pos_bound (- N) D HD) as Hr.
  symmetry. apply (Z.div_unique _ D _ (D - 1 - (- N) mod D)); [lia|].
  change (Z.of_nat 1) with 1%Z. lia.
Qed.

(** ** PDF layout: the grid loops *)

Section GridFacts.

Variable readable : string -> bool.
Variables pw ph : Z.
Variable wm : option Watermark.
Variable c : nat.

(** The loops at index [length pre + i] of [pre ++ post] do what they do
    at index [i] of [post]. *)
Lemma gridColLoop_shift pre post n col row i page :
  gridColLoop readable pw ph (pre ++ post) c n col row (List.length pre + i) page
  = shiftIndex (List.length pre)
      (gridColLoop readable pw ph post c n col row i page).
Proof.
  revert col i page. induction n as [|n IH]; intros col i page; cbn [gridColLoop].
  - reflexivity.
  - rewrite length_app.
    replace (List.length pre + List.length post <=? List.length pre + i)%nat
      with (List.length post <=? i)%nat
      by (destruct (Nat.leb_spec (List.length post) i);
          symmetry; [apply Nat.leb_le | apply Nat.leb_gt]; lia).
    destruct (List.length post <=? i)%nat; [reflexivity|].
    rewrite nth_error_app2 by lia.
    replace (List.length pre + i - List.length pre)%nat with i by lia.
    destruct (nth_error post i) as [[t|r]|]; try reflexivity.
    destruct (drawGridCell readable page r _ _ _ _); [|reflexivity].
    replace (List.length pre + i + 1)%nat with (List.length pre + (i + 1))%nat by lia.
    apply IH.
Qed.

Lemma gridRowLoop_shift pre post n row i page :
  gridRowLoop readable pw ph (pre ++ post) c n row (List.length pre + i) page
  = shiftIndex (List.length pre)
      (gridRowLoop readable pw ph post c n row i page).
Proof.
  revert row i page. induction n as [|n IH]; intros row i page; cbn [gridRowLoop].
  - reflexivity.
  - rewrite gridColLoop_shift.
    destruct (gridColLoop readable pw ph post c c 0 row i page) as [[i' p']|e];
      cbn [shiftIndex]; [apply IH | reflexivity].
Qed.

Lemma layoutGrid_shift pre post fuel i pdf :
  layoutGrid readable pw ph wm (pre ++ post) c fuel (List.length pre + i) pdf
  = layoutGrid readable pw ph wm post c fuel i pdf.
Proof.
  revert i pdf. induction fuel as [|fuel IH]; intros i pdf; cbn [layoutGrid];
    rewrite length_app;
    replace (List.length pre + i <? List.length pre + List.length post)%nat
      with (i <? List.length post)%nat
      by (destruct (Nat.ltb_spec i (List.length post));
          symmetry; [apply Nat.ltb_lt | apply Nat.ltb_ge]; lia);
    destruct (i <? List.length post)%nat; try reflexivity.
  rewrite nth_error_app2 by lia.
  replace (List.length pre + i - List.length pre)%nat with i by lia.
  rewrite gridRowLoop_shift.
  destruct (nth_error post i) as [[t|r]|].
  - replace (List.length pre + i + 1)%nat with (List.length pre + (i + 1))%nat by lia.
    apply IH.
  - destruct (gridRowLoop readable pw ph post c rows 0 i _) as [[i' p']|e];
      cbn [shiftIndex]; [apply IH | reflexivity].
  - destruct (gridRowLoop readable pw ph post c rows 0 i _) as [[i' p']|e];
      cbn [shiftIndex]; [apply IH | reflexivity].
Qed.

(** The loops never move the index backwards nor past the end. *)
Lemma gridColLoop_bounds items n col row i page i' page' :
  gridColLoop readable pw ph items c n col row i page = Ok (i', page') ->
  (i <= i' /\ i' <= i + n /\ (i <= List.length items -> i' <= List.length items))%nat.
Proof.
  revert col i page. induction n as [|n IH]; intros col i page; cbn [gridColLoop].
  - intros [= <- <-]. lia.
  - destruct (Nat.leb_spec (List.length items) i) as [Hle|Hlt].
    + intros [= <- <-]. lia.
    + destruct (nth_error items i) as [[t|r]|]; try (intros [= <- <-]; lia).
      destruct (drawGridCell readable page r _ _ _ _); [|discriminate].
      intro H. apply IH in H. lia.
Qed.

Lemma gridRowLoop_bounds items n row i page i' page' :
  gridRowLoop readable pw ph items c n row i page = Ok (i', page') ->
  (i <= i' /\ i' <= i + n * c /\ (i <= List.length items -> i' <= List.length items))%nat.
Proof.
  revert row i page. induction n as [|n IH]; intros row i page; cbn [gridRowLoop].
  - intros [= <- <-]. lia.
  - destruct (gridColLoop readable pw ph items c c 0 row i page) as [[i1 p1]|e] eqn:E;
      [|discriminate].
    apply gridColLoop_bounds in E. intro H. apply IH in H. lia.
Qed.

(** Up to the end of a complete section the loops do not look at what
    follows it. *)
Lemma gridColLoop_prefix pre post n col row i page :
  startsSection post -> (i <= List.length pre)%nat ->
  gridColLoop readable pw ph (pre ++ post) c n col row i page
  = gridColLoop readable pw ph pre c n col row i page.
Proof.
  intros Hpost. revert col i page.
  induction n as [|n IH]; intros col i page Hi; cbn [gridColLoop]; [reflexivity|].
  rewrite length_app.
  destruct (Nat.leb_spec (List.length pre) i) as [Hle|Hlt].
  - assert (i = List.length pre) as -> by lia.
    destruct post as [|item post'].
    + cbn [List.length]. rewrite Nat.add_0_r, Nat.leb_refl. reflexivity.
    + replace (List.length pre + List.length (item :: post') <=? List.length pre)%nat
        with false by (symmetry; apply Nat.leb_gt; cbn [List.length]; lia).
      rewrite nth_error_app2, Nat.sub_diag by lia. cbn [nth_error].
      cbn [startsSection] in Hpost. destruct item; [reflexivity | discriminate].
  - replace (List.length pre + List.length post <=? i)%nat
      with false by (symmetry; apply Nat.leb_gt; lia).
    rewrite nth_error_app1 by lia.
    destruct (nth_error pre i) as [[t|r]|]; try reflexivity.
    destruct (drawGridCell readable page r _ _ _ _); [|reflexivity].
    apply IH. lia.
Qed.

Lemma gridRowLoop_prefix pre post n row i page :
  startsSection post -> (i <= List.length pre)%nat ->
  gridRowLoop readable pw ph (pre ++ post) c n row i page
  = gridRowLoop readable pw ph pre c n row i page.
Proof.
  intros Hpost. revert row i page.
  induction n as [|n IH]; intros row i page Hi; cbn [gridRowLoop]; [reflexivity|].
  rewrite gridColLoop_prefix by assumption.
  destruct (gridColLoop readable pw ph pre c c 0 row i page) as [[i1 p1]|e] eqn:E;
    [|reflexivity].
  apply IH. apply gridColLoop_bounds in E. lia.
Qed.

(** More fuel does not change a result. *)
Lemma layoutGrid_fuel_mono items fuel fuel' i pdf R :
  (fuel <= fuel')%nat ->
  layoutGrid readable pw ph wm items c fuel i pdf = Some R ->
  layoutGrid readable pw ph wm items c fuel' i pdf = Some R.
Proof.
  revert fuel' i pdf. induction fuel as [|fuel IH]; intros fuel' i pdf Hle.
  - cbn [layoutGrid]. destruct (i <? List.length items)%nat eqn:E; [discriminate|].
    intros [= <-]. destruct fuel'; cbn [layoutGrid]; rewrite E; reflexivity.
  - destruct fuel' as [|fuel']; [lia|]. cbn [layoutGrid].
    destruct (i <? List.length items)%nat; [|trivial].
    destruct (nth_error items i) as [[t|r]|].
    + apply IH. lia.
    + destruct (gridRowLoop readable pw ph items c rows 0 i _) as [[i1 p1]|e];
        [apply IH; lia | trivial].
    + destruct (gridRowLoop readable pw ph items c rows 0 i _) as [[i1 p1]|e];
        [apply IH; lia | trivial].
Qed.

(** Pages already in the document are carried along unchanged. *)
Lemma layoutGrid_acc items fuel i pdf :
  layoutGrid readable pw ph wm items c fuel i pdf
  = prependPages pdf (layoutGrid readable pw ph wm items c fuel i []).
Proof.
  revert i pdf. induction fuel as [|fuel IH]; intros i pdf; cbn [layoutGrid].
  - destruct (i <? List.length items)%nat; cbn [prependPages];
      [reflexivity | now rewrite app_nil_r].
  - destruct (i <? List.length items)%nat; cbn [prependPages];
      [| now rewrite app_nil_r].
    assert (step : forall j page,
               layoutGrid readable pw ph wm items c fuel j (pdf ++ [page])
               = prependPages pdf
                   (layoutGrid readable pw ph wm items c fuel j ([] ++ [page]))).
    { intros j page. rewrite (IH j (pdf ++ [page])), (IH j ([] ++ [page])).
      destruct (layoutGrid readable pw ph wm items c fuel j []) as [[pages|e]|];
        cbn [prependPages]; try reflexivity.
      now rewrite app_assoc. }
    destruct (nth_error items i) as [[t|r]|].
    + apply step.
    + destruct (gridRowLoop readable pw ph items c rows 0 i _) as [[i1 p1]|e];
        [apply step | reflexivity].
    + destruct (gridRowLoop readable pw ph items c rows 0 i _) as [[i1 p1]|e];
        [apply step | reflexivity].
Qed.

(** The pages of a complete section prefix come out first, and the loop
    then stands at the start of what follows. *)
Lemma layoutGrid_prefix pre post f1 f2 i pdf P R :
  startsSection post -> (i <= List.length pre)%nat ->
  layoutGrid readable pw ph wm pre c f1 i pdf = Some (Ok P) ->
  layoutGrid readable pw ph wm (pre ++ post) c f2 (List.length pre) P = Some R ->
  layoutGrid readable pw ph wm (pre ++ post) c (f1 + f2) i pdf = Some R.
Proof.
  intros Hpost. revert i pdf.
  induction f1 as [|f1 IH]; intros i pdf Hi Hpre Hrest.
  - cbn [layoutGrid] in Hpre.
    destruct (Nat.ltb_spec i (List.length pre)); [discriminate|].
    injection Hpre as <-. assert (i = List.length pre) as -> by lia.
    exact Hrest.
  - cbn [layoutGrid] in Hpre.
    destruct (Nat.ltb_spec i (List.length pre)) as [Hlt|Hge].
    + cbn [Nat.add layoutGrid]. rewrite length_app.
      replace (i <? List.length pre + List.length post)%nat with true
        by (symmetry; apply Nat.ltb_lt; lia).
      rewrite nth_error_app1 by lia.
      rewrite gridRowLoop_prefix by (assumption || lia).
      destruct (nth_error pre i) as [[t|r]|].
      * apply IH; [lia | assumption | assumption].
      * destruct (gridRowLoop readable pw ph pre c rows 0 i _) as [[i1 p1]|e] eqn:E;
          [|discriminate].
        apply gridRowLoop_bounds in E.
        apply IH; [lia | assumption | assumption].
      * destruct (gridRowLoop readable pw ph pre c rows 0 i _) as [[i1 p1]|e] eqn:E;
          [|discriminate].
        apply gridRowLoop_bounds in E.
        apply IH; [lia | assumption | assumption].
    + injection Hpre as <-. assert (i = List.length pre) as -> by lia.
      apply (layoutGrid_fuel_mono _ f2); [lia | exact Hrest].
Qed.

Lemma extendsBy_refl page : extendsBy page page [].
Proof. unfold extendsBy. now rewrite app_nil_r. Qed.

Lemma extendsBy_cell page r x y w h page' recs :
  extendsBy (draw page (CallGridCell r x y w h)) page' recs ->
  extendsBy page page' (r :: recs).
Proof.
  unfold extendsBy, cellRecords, headerTitles, watermarkTexts.
  cbn [draw page_calls]. rewrite !flat_map_app. cbn [flat_map
    cellRecordsOfCall headerTitlesOfCall watermarkTextsOfCall].
  rewrite !app_nil_r, <- !app_assoc. now cbn [app].
Qed.

Lemma extendsBy_trans p1 p2 p3 r1 r2 :
  extendsBy p1 p2 r1 -> extendsBy p2 p3 r2 -> extendsBy p1 p3 (r1 ++ r2).
Proof.
  unfold extendsBy. intros (a1 & b1 & c1) (a2 & b2 & c2).
  rewrite a2, a1, b2, b1, c2, c1, app_assoc. auto.
Qed.

Lemma coversReadable_nth items i r :
  coversReadable readable items ->
  nth_error items i = Some (ItemProduct r) ->
  coverReadFails readable r = false.
Proof.
  intros H E. unfold coversReadable in H. rewrite Forall_forall in H.
  exact (H _ (nth_error_In _ _ E)).
Qed.

(** What the column loop does when every cover can be read: it adds the
    product items from [i] on as cells and stops after [n] of them, or
    earlier at a header or at the end of the items. *)
Lemma gridColLoop_spec items n col row i page :
  coversReadable readable items -> (i <= List.length items)%nat ->
  exists i' page' recs,
    gridColLoop readable pw ph items c n col row i page = Ok (i', page')
    /\ (i <= i' <= List.length items)%nat
    /\ firstn (i' - i) (skipn i items) = map ItemProduct recs
    /\ extendsBy page page' recs
    /\ (i' = (i + n)%nat \/ startsSection (skipn i' items)).
Proof.
  intros Hread. revert col i page.
  induction n as [|n IH]; intros col i page Hi; cbn [gridColLoop].
  - exists i, page, []. rewrite Nat.sub_diag. cbn [firstn map].
    split; [reflexivity | split; [lia | split; [reflexivity | split]]];
      [apply extendsBy_refl | left; lia].
  - destruct (Nat.leb_spec (List.length items) i) as [Hle|Hlt].
    + exists i, page, []. rewrite Nat.sub_diag. cbn [firstn map].
      split; [reflexivity | split; [lia | split; [reflexivity | split]]];
        [apply extendsBy_refl | right].
      rewrite skipn_all2 by lia. exact I.
    + destruct (nth_error items i) as [[t|r]|] eqn:E.
      * exists i, page, []. rewrite Nat.sub_diag. cbn [firstn map].
        split; [reflexivity | split; [lia | split; [reflexivity | split]]];
          [apply extendsBy_refl | right].
        rewrite (skipn_nth_error_cons _ _ _ E). reflexivity.
      * unfold drawGridCell. rewrite (coversReadable_nth _ _ _ Hread E).
        destruct (IH (col + 1)%nat (i + 1)%nat
                    (draw page (CallGridCell r
                       (inject_Z (Z.of_nat col) * cellWidth pw c)
                       (inject_Z ph - inject_Z (Z.of_nat (row + 1)) * cellHeight ph)
                       (cellWidth pw c) (cellHeight ph))))
          as (i' & page' & recs & Hrun & Hb & Hitems & Hext & Hstop); [lia|].
        exists i', page', (r :: recs). rewrite Hrun.
        split; [reflexivity | split; [lia | split; [ | split]]].
        -- replace (i' - i)%nat with (S (i' - (i + 1)))%nat by lia.
           rewrite (skipn_nth_error_cons _ _ _ E). cbn [firstn map].
           f_equal. now rewrite <- Hitems, Nat.add_1_r.
        -- eapply extendsBy_cell, Hext.
        -- destruct Hstop; [left; lia | now right].
      * apply nth_error_None in E. lia.
Qed.

(** Nothing but headers or the end stops a section early: once the items
    from [i] on start a section, the loops add nothing more. *)
Lemma startsSection_no_products items i i' recs :
  startsSection (skipn i items) -> (i <= i')%nat ->
  firstn (i' - i) (skipn i items) = map ItemProduct recs ->
  (i' <= List.length items)%nat ->
  i' = i /\ recs = [].
Proof.
  intros Hs Hle Hf Hlen.
  destruct (skipn i items) as [|item rest] eqn:E.
  - assert (List.length (skipn i items) = 0%nat) as Hl by now rewrite E.
    rewrite length_skipn in Hl. assert (i' = i) as -> by lia.
    rewrite Nat.sub_diag in Hf. destruct recs; [auto | discriminate].
  - destruct (i' - i)%nat as [|k] eqn:Ek.
    + destruct recs; [split; [lia | reflexivity] | discriminate].
    + cbn [firstn] in Hf. destruct recs as [|r recs]; [discriminate|].
      cbn [map] in Hf. injection Hf as -> _. discriminate Hs.
Qed.

Lemma gridRowLoop_spec items n row i page :
  coversReadable readable items -> (i <= List.length items)%nat ->
  exists i' page' recs,
    gridRowLoop readable pw ph items c n row i page = Ok (i', page')
    /\ (i <= i' <= List.length items)%nat
    /\ firstn (i' - i) (skipn i items) = map ItemProduct recs
    /\ extendsBy page page' recs
    /\ (i' = (i + n * c)%nat \/ startsSection (skipn i' items)).
Proof.
  intros Hread. revert row i page.
  induction n as [|n IH]; intros row i page Hi; cbn [gridRowLoop].
  - exists i, page, []. rewrite Nat.sub_diag. cbn [firstn map].
    split; [reflexivity | split; [lia | split; [reflexivity | split]]];
      [apply extendsBy_refl | left; lia].
  - destruct (gridColLoop_spec items c 0%nat row i page Hread Hi)
      as (i1 & p1 & r1 & Hrun1 & Hb1 & Hitems1 & Hext1 & Hstop1).
    rewrite Hrun1.
    destruct (IH (row + 1)%nat i1 p1)
      as (i2 & p2 & r2 & Hrun2 & Hb2 & Hitems2 & Hext2 & Hstop2); [lia|].
    exists i2, p2, (r1 ++ r2). rewrite Hrun2.
    split; [reflexivity | split; [lia | split; [ | split]]].
    + rewrite (firstn_skipn_split items i i1 i2) by lia.
      now rewrite Hitems1, Hitems2, map_app.
    + eapply extendsBy_trans; eassumption.
    + destruct Hstop1 as [-> | Hs1].
      * destruct Hstop2 as [-> | Hs2]; [left; cbn; lia | now right].
      * destruct (startsSection_no_products items i1 i2 r2 Hs1) as [-> _];
          try assumption; try lia.
        now right.
Qed.

Lemma fresh_page_empty :
  cellRecords (drawWatermark (addPage pw ph) wm) = []
  /\ headerTitles (drawWatermark (addPage pw ph) wm) = [].
Proof.
  unfold drawWatermark. destruct wm as [w|]; [|split; reflexivity].
  destruct (truthyStr (wm_text w)); split; reflexivity.
Qed.

Lemma header_page_shows t :
  headerTitles (drawHeaderPage (drawWatermark (addPage pw ph) wm) t) = [t]
  /\ cellRecords (drawHeaderPage (drawWatermark (addPage pw ph) wm) t) = [].
Proof.
  destruct fresh_page_empty as [Hc Hh].
  unfold drawHeaderPage, headerTitles, cellRecords in *. cbn [draw page_calls].
  rewrite !flat_map_app, Hc, Hh. split; reflexivity.
Qed.

Hypothesis columns_positive : (0 < c)%nat.

(** A page of product cells takes at least one item. *)
Lemma gridRowLoop_progress items i page r :
  coversReadable readable items ->
  nth_error items i = Some (ItemProduct r) ->
  exists i' page' recs,
    gridRowLoop readable pw ph items c rows 0 i page = Ok (i', page')
    /\ (i < i' <= List.length items)%nat /\ (i' <= i + rows * c)%nat
    /\ firstn (i' - i) (skipn i items) = map ItemProduct recs
    /\ extendsBy page page' recs
    /\ (i' = (i + rows * c)%nat \/ startsSection (skipn i' items)).
Proof.
  intros Hread E.
  assert (Hi : (i < List.length items)%nat)
    by (apply nth_error_Some; congruence).
  destruct (gridRowLoop_spec items rows 0%nat i page Hread)
    as (i' & page' & recs & Hrun & Hb & Hitems & Hext & Hstop); [lia|].
  exists i', page', recs.
  pose proof (gridRowLoop_bounds _ _ _ _ _ _ _ Hrun) as Hub.
  repeat (split; try assumption); try lia.
  destruct Hstop as [-> | Hs]; [unfold rows; lia|].
  destruct (Nat.eq_dec i' i) as [-> | Hne]; [|lia].
  rewrite (skipn_nth_error_cons _ _ _ E) in Hs. discriminate Hs.
Qed.

(** With a positive column count and readable covers the grid layout ends
    within [length items] rounds and returns its pages. *)
Lemma layoutGrid_total items fuel i pdf :
  coversReadable readable items ->
  (i <= List.length items)%nat -> (List.length items - i <= fuel)%nat ->
  exists P, layoutGrid readable pw ph wm items c fuel i pdf = Some (Ok P).
Proof.
  intros Hread. revert i pdf.
  induction fuel as [|fuel IH]; intros i pdf Hi Hfuel; cbn [layoutGrid];
    destruct (Nat.ltb_spec i (List.length items)) as [Hlt|Hge];
    try (eexists; reflexivity); [lia|].
  destruct (nth_error items i) as [[t|r]|] eqn:E.
  - apply IH; lia.
  - destruct (gridRowLoop_progress items i (drawWatermark (addPage pw ph) wm) r Hread E)
      as (i' & page' & recs & Hrun & Hb & _).
    rewrite Hrun. apply IH; lia.
  - apply nth_error_None in E. lia.
Qed.

(** A header at the front of the items gets the first page to itself. *)
Lemma layoutGrid_header t post fuel :
  layoutGrid readable pw ph wm (ItemHeader t :: post) c (S fuel) 0 []
  = prependPages [drawHeaderPage (drawWatermark (addPage pw ph) wm) t]
      (layoutGrid readable pw ph wm post c fuel 0 []).
Proof.
  cbn [layoutGrid List.length Nat.ltb Nat.leb nth_error Nat.add app].
  change (ItemHeader t :: post) with ([ItemHeader t] ++ post).
  change 1%nat with (List.length [ItemHeader t] + 0)%nat.
  rewrite layoutGrid_shift. apply layoutGrid_acc.
Qed.

(** The pages of a complete section prefix followed by the pages of the
    rest are the pages of the whole. *)
Lemma layoutGrid_app pre post f1 f2 P1 P2 :
  startsSection post ->
  layoutGrid readable pw ph wm pre c f1 0 [] = Some (Ok P1) ->
  layoutGrid readable pw ph wm post c f2 0 [] = Some (Ok P2) ->
  layoutGrid readable pw ph wm (pre ++ post) c (f1 + f2) 0 [] = Some (Ok (P1 ++ P2)).
Proof.
  intros Hpost H1 H2.
  apply (layoutGrid_prefix pre post f1 f2 0%nat [] P1); [assumption | lia | assumption |].
  rewrite <- (Nat.add_0_r (List.length pre)), layoutGrid_shift, layoutGrid_acc, H2.
  reflexivity.
Qed.

(** A run of [n] product items is laid out on [ceil (n / (rows * c))]
    pages of product cells only, in order, nothing lost or repeated. *)
Lemma layoutGrid_run rs fuel i pdf :
  coversReadable readable (map ItemProduct rs) ->
  (i <= List.length rs)%nat -> (List.length rs - i <= fuel)%nat ->
  exists P,
    layoutGrid readable pw ph wm (map ItemProduct rs) c fuel i pdf = Some (Ok (pdf ++ P))
    /\ List.length P = ceilDiv (List.length rs - i) (rows * c)
    /\ flat_map cellRecords P = skipn i rs
    /\ Forall (fun p => headerTitles p = []) P.
Proof.
  intros Hread. revert i pdf.
  induction fuel as [|fuel IH]; intros i pdf Hi Hfuel; cbn [layoutGrid];
    rewrite length_map;
    destruct (Nat.ltb_spec i (List.length rs)) as [Hlt|Hge];
    try (exists []; rewrite app_nil_r, skipn_all2 by lia;
         replace (List.length rs - i)%nat with 0%nat by lia;
         rewrite ceilDiv_0; repeat split; constructor); [lia|].
  destruct (nth_error rs i) as [r|] eqn:Er;
    [|apply nth_error_None in Er; lia].
  assert (E : nth_error (map ItemProduct rs) i = Some (ItemProduct r))
    by (rewrite nth_error_map, Er; reflexivity).
  rewrite E.
  destruct (gridRowLoop_progress _ i (drawWatermark (addPage pw ph) wm) r Hread E)
    as (i' & page' & recs & Hrun & Hb & Hub & Hitems & Hext & Hstop).
  rewrite Hrun. rewrite length_map in Hb.
  destruct (IH i' (pdf ++ [page'])) as (P' & HP' & Hlen & Hcells & Hhead); try lia.
  exists (page' :: P'). rewrite HP', <- app_assoc. cbn [app].
  assert (Hi' : i' = (i + rows * c)%nat \/ i' = List.length rs).
  { destruct Hstop as [-> | Hs]; [now left | right].
    rewrite skipn_map in Hs.
    destruct (skipn i' rs) as [|x rest] eqn:Es; [|discriminate Hs].
    assert (Hl : List.length (skipn i' rs) = 0%nat) by now rewrite Es.
    rewrite length_skipn in Hl. lia. }
  rewrite skipn_map, firstn_map in Hitems.
  assert (Hrecs : recs = firstn (i' - i) (skipn i rs)).
  { clear - Hitems. revert Hitems. generalize (firstn (i' - i) (skipn i rs)).
    induction recs as [|a recs IHr]; intros [|b l]; cbn; try discriminate; auto.
    intros [= -> H]. f_equal. now apply IHr. }
  destruct Hext as (Hc & Hh & _). destruct fresh_page_empty as [Hc0 Hh0].
  rewrite Hc0 in Hc. rewrite Hh0 in Hh. cbn [app] in Hc.
  split; [reflexivity | split; [ | split]].
  - cbn [List.length]. rewrite Hlen.
    rewrite (ceilDiv_step (List.length rs - i) (rows * c)) by (unfold rows; lia).
    do 2 f_equal. destruct Hi' as [-> | ->]; lia.
  - cbn [flat_map]. rewrite Hc, Hcells, Hrecs.
    replace (skipn i' rs) with (skipn (i' - i) (skipn i rs))
      by (rewrite skipn_skipn; f_equal; lia).
    apply firstn_skipn.
  - constructor; assumption.
Qed.

(** The result does not depend on the fuel that produced it. *)
Lemma layoutGrid_deterministic items f1 f2 R1 R2 :
  layoutGrid readable pw ph wm items c f1 0 [] = Some R1 ->
  layoutGrid readable pw ph wm items c f2 0 [] = Some R2 ->
  R1 = R2.
Proof.
  intros H1 H2.
  apply (layoutGrid_fuel_mono _ _ (Nat.max f1 f2)) in H1; [|lia].
  apply (layoutGrid_fuel_mono _ _ (Nat.max f1 f2)) in H2; [|lia].
  congruence.
Qed.

Lemma layoutGrid_nil fuel : layoutGrid readable pw ph wm [] c fuel 0 [] = Some (Ok []).
Proof. destruct fuel; reflexivity. Qed.

(** The same after a prefix that ends with a header. *)
Lemma layoutGrid_app_header pre post f1 f2 P1 P2 :
  coversReadable readable pre -> endsWithHeader pre ->
  layoutGrid readable pw ph wm pre c f1 0 [] = Some (Ok P1) ->
  layoutGrid readable pw ph wm post c f2 0 [] = Some (Ok P2) ->
  exists f,
    layoutGrid readable pw ph wm (pre ++ post) c f 0 [] = Some (Ok (P1 ++ P2)).
Proof.
  intros Hread [-> | (pre' & t & ->)] H1 H2.
  - rewrite layoutGrid_nil in H1. injection H1 as <-. now exists f2.
  - apply Forall_app in Hread. destruct Hread as [Hread' _].
    destruct (layoutGrid_total pre' (List.length pre') 0%nat [] Hread') as [P' HP'];
      try lia.
    pose proof (layoutGrid_header t [] 0) as Hone.
    rewrite layoutGrid_nil in Hone. cbn [prependPages app] in Hone.
    pose proof (layoutGrid_app pre' [ItemHeader t] _ _ _ _ eq_refl HP' Hone) as Hpre.
    pose proof (layoutGrid_deterministic _ _ _ _ _ H1 Hpre) as [= ->].
    pose proof (layoutGrid_header t post f2) as Hrest.
    rewrite H2 in Hrest. cbn [prependPages app] in Hrest.
    pose proof (layoutGrid_app pre' (ItemHeader t :: post) _ _ _ _ eq_refl HP' Hrest)
      as Hall.
    eexists. rewrite <- !app_assoc. cbn [app]. exact Hall.
Qed.

End GridFacts.

(** ** PDF layout: one item per page *)

Section OnePerPageFacts.

Variable readable : string -> bool.
Variables pw ph : Z.
Variable wm : option Watermark.

Lemma layoutOnePerPage_spec items pdf :
  coversReadable readable items ->
  exists P,
    layoutOnePerPage readable pw ph wm items pdf = Ok (pdf ++ P)
    /\ Forall2 showsItem items P.
Proof.
  intro Hread. revert pdf.
  induction Hread as [|item items Hitem _ IH]; intro pdf; cbn [layoutOnePerPage].
  - exists []. rewrite app_nil_r. split; [reflexivity | constructor].
  - destruct (fresh_page_empty pw ph wm) as [Hc Hh].
    destruct item as [t|r].
    + destruct (IH (pdf ++ [drawHeaderPage (drawWatermark (addPage pw ph) wm) t]))
        as (P & HP & Hall).
      eexists (_ :: P). rewrite HP, <- app_assoc. split; [reflexivity|].
      constructor; [apply header_page_shows | assumption].
    + unfold drawOnePerPage. rewrite Hitem.
      destruct (IH (pdf ++ [draw (drawWatermark (addPage pw ph) wm) (CallOnePerPage r)]))
        as (P & HP & Hall).
      eexists (_ :: P). rewrite HP, <- app_assoc. split; [reflexivity|].
      constructor; [|assumption].
      unfold showsItem, headerTitles, cellRecords in *. cbn [draw page_calls].
      rewrite !flat_map_app, Hc, Hh. split; reflexivity.
Qed.

End OnePerPageFacts.

(** ** PDF layout: the watermark *)

Section WatermarkFacts.

Variable readable : string -> bool.
Variables pw ph : Z.

(** A watermark whose text is empty draws like no watermark at all. *)
Lemma drawWatermark_blank page w :
  truthyStr (wm_text w) = false ->
  drawWatermark page (Some w) = drawWatermark page None.
Proof. intro H. cbn [drawWatermark]. now rewrite H. Qed.

Variables w1 w2 : option Watermark.
Hypothesis same_draw : forall page, drawWatermark page w1 = drawWatermark page w2.

Lemma layoutOnePerPage_watermark_ext items pdf :
  layoutOnePerPage readable pw ph w1 items pdf
  = layoutOnePerPage readable pw ph w2 items pdf.
Proof.
  revert pdf. induction items as [|item items IH]; intro pdf;
    cbn [layoutOnePerPage]; [reflexivity|].
  rewrite same_draw. destruct item as [t|r]; [apply IH|].
  destruct (drawOnePerPage readable _ r); [apply IH | reflexivity].
Qed.

Lemma layoutGrid_watermark_ext items c fuel i pdf :
  layoutGrid readable pw ph w1 items c fuel i pdf
  = layoutGrid readable pw ph w2 items c fuel i pdf.
Proof.
  revert i pdf. induction fuel as [|fuel IH]; intros i pdf;
    cbn [layoutGrid]; [reflexivity|].
  rewrite same_draw. destruct (i <? List.length items)%nat; [|reflexivity].
  destruct (nth_error items i) as [[t|r]|]; try apply IH;
    destruct (gridRowLoop readable pw ph items c rows 0 i _) as [[i' p']|e];
    try apply IH; reflexivity.
Qed.

End WatermarkFacts.

Section NoWatermarkFacts.

Variable readable : string -> bool.
Variables pw ph : Z.

Lemma unmarked_draw page call :
  unmarked page -> watermarkTextsOfCall call = [] -> unmarked (draw page call).
Proof.
  unfold unmarked, watermarkTexts. cbn [draw page_calls]. intros H Hc.
  rewrite flat_map_app, H. cbn [flat_map]. now rewrite Hc.
Qed.

Lemma unmarked_fresh : unmarked (drawWatermark (addPage pw ph) None).
Proof. reflexivity. Qed.

Lemma layoutOnePerPage_unmarked items pdf pages :
  Forall unmarked pdf ->
  layoutOnePerPage readable pw ph None items pdf = Ok pages ->
  Forall unmarked pages.
Proof.
  revert pdf. induction items as [|item items IH]; intros pdf Hpdf;
    cbn [layoutOnePerPage].
  - now intros [= <-].
  - destruct item as [t|r].
    + apply IH. apply Forall_app. split; [assumption|].
      constructor; [|constructor].
      apply unmarked_draw; [apply unmarked_fresh | reflexivity].
    + unfold drawOnePerPage. destruct (coverReadFails readable r); [discriminate|].
      apply IH. apply Forall_app. split; [assumption|].
      constructor; [|constructor].
      apply unmarked_draw; [apply unmarked_fresh | reflexivity].
Qed.

Lemma gridColLoop_unmarked items c n col row i page i' page' :
  unmarked page ->
  gridColLoop readable pw ph items c n col row i page = Ok (i', page') ->
  unmarked page'.
Proof.
  revert col i page. induction n as [|n IH]; intros col i page Hp;
    cbn [gridColLoop].
  - now intros [= _ <-].
  - destruct (List.length items <=? i)%nat; [now intros [= _ <-]|].
    destruct (nth_error items i) as [[t|r]|]; try now intros [= _ <-].
    unfold drawGridCell. destruct (coverReadFails readable r); [discriminate|].
    apply IH. apply unmarked_draw; [assumption | reflexivity].
Qed.

Lemma gridRowLoop_unmarked items c n row i page i' page' :
  unmarked page ->
  gridRowLoop readable pw ph items c n row i page = Ok (i', page') ->
  unmarked page'.
Proof.
  revert row i page. induction n as [|n IH]; intros row i page Hp;
    cbn [gridRowLoop].
  - now intros [= _ <-].
  - destruct (gridColLoop readable pw ph items c c 0 row i page) as [[i1 p1]|e] eqn:E;
      [|discriminate].
    apply IH. eapply gridColLoop_unmarked; eassumption.
Qed.

Lemma layoutGrid_unmarked items c fuel i pdf pages :
  Forall unmarked pdf ->
  layoutGrid readable pw ph None items c fuel i pdf = Some (Ok pages) ->
  Forall unmarked pages.
Proof.
  revert i pdf. induction fuel as [|fuel IH]; intros i pdf Hpdf;
    cbn [layoutGrid]; destruct (i <? List.length items)%nat;
    try discriminate; try now intros [= <-].
  assert (Hhead : forall t,
             Forall unmarked (pdf ++ [drawHeaderPage (drawWatermark (addPage pw ph) None) t])).
  { intro t. apply Forall_app. split; [assumption|].
    constructor; [|constructor].
    apply unmarked_draw; [apply unmarked_fresh | reflexivity]. }
  assert (Hcells : forall i' p',
             gridRowLoop readable pw ph items c rows 0 i
               (drawWatermark (addPage pw ph) None) = Ok (i', p') ->
             Forall unmarked (pdf ++ [p'])).
  { intros i' p' E. apply Forall_app. split; [assumption|].
    constructor; [|constructor].
    eapply gridRowLoop_unmarked; [apply unmarked_fresh | exact E]. }
  destruct (nth_error items i) as [[t|r]|].
  - apply IH, Hhead.
  - destruct (gridRowLoop readable pw ph items c rows 0 i _) as [[i' p']|e] eqn:E;
      [|discriminate].
    apply IH. now apply (Hcells i').
  - destruct (gridRowLoop readable pw ph items c rows 0 i _) as [[i' p']|e] eqn:E;
      [|discriminate].
    apply IH. now apply (Hcells i').
Qed.

End NoWatermarkFacts.

(** ** Selection predicate *)

Example buildProductQuery_products :
  buildProductQuery
    {| scopeType := Some PRODUCTS; includeDrafts := Some true; pricingMode := None;
       currencyPrefix := None; layoutType := None; gridColumns := None;
       grouping := None; sortOrder := None; pageSize := None;
       watermarkEnabled := None; watermarkText := None; watermarkOpacity := None;
       priceOverlay := None;
       productIds := Some ["gid://shopify/Product/42"; "handle-7"];
       collectionIds := None; filters := None |} true
  = "(status:active OR status:draft) AND (id:42 OR id:handle-7)".
Proof. reflexivity. Qed.

(** ** Bulk results *)

(** *** The insertion-ordered map *)

Lemma mapGet_mapSet k k' v m :
  mapGet k (mapSet k' v m) = if String.eqb k' k then Some v else mapGet k m.
Proof.
  induction m as [|[k0 v0] m IH]; cbn [mapSet mapGet].
  - reflexivity.
  - destruct (String.eqb k0 k') eqn:E0; cbn [mapGet].
    + apply String.eqb_eq in E0. subst k0.
      destruct (String.eqb k' k); reflexivity.
    + destruct (String.eqb k0 k) eqn:E1; [|exact IH].
      apply String.eqb_eq in E1. subst k0.
      now rewrite String.eqb_sym, E0.
Qed.

Lemma mapSet_mapSet k v1 v2 m : mapSet k v2 (mapSet k v1 m) = mapSet k v2 m.
Proof.
  induction m as [|[k0 v0] m IH]; cbn [mapSet].
  - now rewrite String.eqb_refl.
  - destruct (String.eqb k0 k) eqn:E; cbn [mapSet]; rewrite E;
      [reflexivity | now rewrite IH].
Qed.

Lemma mapSet_keys k v m :
  map fst (mapSet k v m)
  = if existsb (String.eqb k) (map fst m) then map fst m else map fst m ++ [k].
Proof.
  induction m as [|[k0 v0] m IH]; cbn [mapSet map fst existsb app]; [reflexivity|].
  rewrite (String.eqb_sym k k0).
  destruct (String.eqb k0 k); cbn [map fst orb]; [reflexivity|].
  rewrite IH. now destruct (existsb (String.eqb k) (map fst m)).
Qed.

Lemma mapSet_NoDup k v m : NoDup (map fst m) -> NoDup (map fst (mapSet k v m)).
Proof.
  intro H. rewrite mapSet_keys.
  destruct (existsb (String.eqb k) (map fst m)) eqn:E; [exact H|].
  apply NoDup_app; [exact H | constructor; [intros [] | constructor] |].
  intros x Hx [<- | []].
  assert (existsb (String.eqb k) (map fst m) = true); [|congruence].
  apply existsb_exists. exists k. split; [exact Hx | apply String.eqb_refl].
Qed.

Lemma mapGet_In k a m : mapGet k m = Some a -> In (k, a) m.
Proof.
  induction m as [|[k0 v0] m IH]; cbn [mapGet]; [discriminate|].
  destruct (String.eqb k0 k) eqn:E.
  - apply String.eqb_eq in E. intros [= ->]. subst. now left.
  - intro H. right. auto.
Qed.

Lemma In_mapGet k a m : NoDup (map fst m) -> In (k, a) m -> mapGet k m = Some a.
Proof.
  induction m as [|[k0 v0] m IH]; cbn [mapGet map fst]; [intros _ []|].
  intros Hnd [[= -> ->] | Hin].
  - now rewrite String.eqb_refl.
  - inversion Hnd as [|? ? Hnot Hnd']; subst.
    destruct (String.eqb k0 k) eqn:E; [|auto].
    apply String.eqb_eq in E. subst k0. exfalso. apply Hnot.
    change k with (fst (k, a)). now apply in_map.
Qed.

Lemma mapSet_wellKeyed k v m :
  acc_id v = k -> wellKeyed m -> wellKeyed (mapSet k v m).
Proof.
  intros Hv Hm k1 a1 Hin.
  induction m as [|[k0 v0] m IH]; cbn [mapSet] in Hin.
  - destruct Hin as [[= <- <-] | []]. exact Hv.
  - assert (Hm' : wellKeyed m) by (intros x y Hxy; apply Hm; now right).
    destruct (String.eqb k0 k) eqn:E.
    + apply String.eqb_eq in E. subst k0.
      destruct Hin as [[= <- <-] | Hin]; [exact Hv | apply Hm; now right].
    + destruct Hin as [[= <- <-] | Hin]; [apply Hm; now left | now apply IH].
Qed.

(** *** One record *)

Lemma appendLists_nil a : appendLists [] [] [] a = a.
Proof. destruct a. unfold appendLists. cbn. now rewrite !app_nil_r. Qed.

Lemma pushVariant_appendLists v a : pushVariant v a = appendLists [v] [] [] a.
Proof. destruct a. unfold appendLists, pushVariant. cbn. now rewrite !app_nil_r. Qed.

Lemma pushImageUrl_appendLists u a : pushImageUrl u a = appendLists [] [u] [] a.
Proof. destruct a. unfold appendLists, pushImageUrl. cbn. now rewrite !app_nil_r. Qed.

Lemma pushCollection_appendLists c a : pushCollection c a = appendLists [] [] [c] a.
Proof. destruct a. unfold appendLists, pushCollection. cbn. now rewrite !app_nil_r. Qed.

Lemma appendLists_appendLists v1 u1 c1 v2 u2 c2 a :
  appendLists v2 u2 c2 (appendLists v1 u1 c1 a)
  = appendLists (v1 ++ v2) (u1 ++ u2) (c1 ++ c2) a.
Proof. unfold appendLists. cbn. now rewrite !app_assoc. Qed.

Lemma getOrFresh_mapSet k v m : getOrFresh k (mapSet k v m) = v.
Proof. unfold getOrFresh. now rewrite mapGet_mapSet, String.eqb_refl. Qed.

(** [processRecord] is one upsert on the target of the record. *)
Lemma processRecord_upsert r m :
  processRecord r m
  = match targetOf r with
    | Some k => mapSet k (effectOf r (getOrFresh k m)) m
    | None => m
    end.
Proof.
  unfold processRecord, targetOf, effectOf, variantsOfRecord, imagesOfRecord,
    collectionsOfRecord, isCollectionLine, isImageLine, isVariantLine, isTopLevel.
  destruct (fieldTruthy (r_parentId r)) eqn:Ep; cbn [negb andb orb].
  - destruct (isAbsent (r_price r)); cbn [negb andb orb].
    + destruct (fieldTruthy (r_url r)); cbn [andb orb];
        destruct (fieldTruthy (r_title r)); cbn [andb orb];
        try (destruct (fieldTruthy (r_id r)); cbn [andb orb];
             try destruct (includesCollection (fieldStr (r_id r))); cbn [andb orb]);
        rewrite ?getOrFresh_mapSet, ?mapSet_mapSet,
          ?pushImageUrl_appendLists, ?pushCollection_appendLists,
          ?appendLists_appendLists; reflexivity.
    + now rewrite pushVariant_appendLists.
  - destruct (fieldTruthy (r_id r)); cbn [negb andb orb]; [|reflexivity].
    destruct (fieldTruthy (r_firstImageUrl r));
      rewrite ?pushImageUrl_appendLists, ?appendLists_nil; reflexivity.
Qed.

Lemma mapGet_processRecord k r m :
  mapGet k (processRecord r m) = applyRecord k (mapGet k m) r.
Proof.
  rewrite processRecord_upsert. unfold applyRecord, touches.
  destruct (targetOf r) as [k'|]; [|reflexivity].
  rewrite mapGet_mapSet. destruct (String.eqb k' k) eqn:E; [|reflexivity].
  apply String.eqb_eq in E. now subst.
Qed.

Example accumulateLines_child_first :
  accumulateLines [ variantLine "p1" "v1" "Small" "5.00";
                    productLine "p1" "Mug";
                    variantLine "p1" "v2" "Large" "7.00" ]
  = Ok [ {| acc_id := "p1"; acc_title := Some "Mug"; acc_handle := Some "Mug";
            acc_vendor := Some "Acme"; acc_productType := None;
            acc_status := Some "ACTIVE"; acc_featuredImageUrl := None;
            acc_createdAt := None; acc_updatedAt := None;
            acc_collections := []; acc_imageUrls := [];
            acc_variants := [ mkProductVariant (Some "v1") "Small" (Some "5.00");
                              mkProductVariant (Some "v2") "Large" (Some "7.00") ] |} ].
Proof. reflexivity. Qed.

(** *** The loop over the lines *)

Lemma parseLines_records lines m :
  existsb isMalformed lines = false ->
  parseLines lines m = Ok (processRecords (recordsOf lines) m).
Proof.
  revert m. induction lines as [|[|r|] lines IH]; intros m H;
    cbn [parseLines recordsOf flat_map app existsb isMalformed orb] in *.
  - reflexivity.
  - now apply IH.
  - now apply IH.
  - discriminate.
Qed.

Lemma parseLines_malformed lines m :
  existsb isMalformed lines = true -> parseLines lines m = Throw parseError.
Proof.
  revert m. induction lines as [|[|r|] lines IH]; intros m H;
    cbn [parseLines existsb isMalformed orb] in *; auto; discriminate.
Qed.

Lemma effectOf_id r a : acc_id (effectOf r a) = acc_id a.
Proof. unfold effectOf. now destruct (isTopLevel r). Qed.

Lemma processRecord_invariant r m :
  NoDup (map fst m) /\ wellKeyed m ->
  NoDup (map fst (processRecord r m)) /\ wellKeyed (processRecord r m).
Proof.
  intros [Hnd Hwk]. rewrite processRecord_upsert.
  destruct (targetOf r) as [k|]; [|now split].
  split; [now apply mapSet_NoDup|].
  apply mapSet_wellKeyed; [|assumption].
  rewrite effectOf_id. unfold getOrFresh.
  destruct (mapGet k m) as [a|] eqn:E; [|reflexivity].
  cbn [nullish]. apply Hwk. now apply mapGet_In.
Qed.

Lemma processRecords_invariant rs m :
  NoDup (map fst m) /\ wellKeyed m ->
  NoDup (map fst (processRecords rs m)) /\ wellKeyed (processRecords rs m).
Proof.
  revert m. induction rs as [|r rs IH]; intros m H; [exact H|].
  apply IH, processRecord_invariant, H.
Qed.

Lemma mapGet_processRecords k rs m :
  mapGet k (processRecords rs m) = fold_left (applyRecord k) rs (mapGet k m).
Proof.
  revert m. induction rs as [|r rs IH]; intro m; [reflexivity|].
  cbn [processRecords fold_left]. fold (processRecords rs (processRecord r m)).
  now rewrite IH, mapGet_processRecord.
Qed.

(** *** The entry of one key *)

Lemma applyRecord_fold_some k rs a :
  fold_left (applyRecord k) rs (Some a) = Some (accFold k rs a).
Proof.
  revert a. induction rs as [|r rs IH]; intro a; [reflexivity|].
  cbn [fold_left accFold]. unfold applyRecord at 2.
  destruct (touches k r); apply IH.
Qed.

Lemma applyRecord_fold k rs o :
  fold_left (applyRecord k) rs o
  = if existsb (touches k) rs
    then Some (accFold k rs (nullish o (freshAccumulator k)))
    else o.
Proof.
  destruct o as [a|].
  - rewrite applyRecord_fold_some. destruct (existsb (touches k) rs) eqn:E; [reflexivity|].
    f_equal. clear - E. revert a. induction rs as [|r rs IH]; intro a; [reflexivity|].
    cbn [existsb] in E. apply orb_false_iff in E. destruct E as [E1 E2].
    cbn [accFold fold_left]. rewrite E1. now apply IH.
  - induction rs as [|r rs IH]; [reflexivity|].
    cbn [fold_left existsb]. unfold applyRecord at 2.
    destruct (touches k r) eqn:E; cbn [orb nullish].
    + rewrite applyRecord_fold_some. cbn [accFold fold_left]. now rewrite E.
    + rewrite IH. destruct (existsb (touches k) rs); [|reflexivity].
      cbn [accFold fold_left nullish]. now rewrite E.
Qed.

Lemma headerOf_appendLists k rs vs us cs a :
  headerOf k rs (appendLists vs us cs a) = appendLists vs us cs (headerOf k rs a).
Proof.
  revert a. induction rs as [|r rs IH]; intro a; [reflexivity|].
  cbn [headerOf fold_left].
  destruct (touches k r && isTopLevel r); [|apply IH].
  change (assignTopLevel r (appendLists vs us cs a))
    with (appendLists vs us cs (assignTopLevel r a)).
  apply IH.
Qed.

(** The entry of key [k]: the scalar fields of the last top-level record
    for [k], and everything the records for [k] pushed, in line order. *)
Lemma accFold_cons k r rs a :
  accFold k (r :: rs) a = accFold k rs (if touches k r then effectOf r a else a).
Proof. reflexivity. Qed.

Lemma headerOf_cons k r rs a :
  headerOf k (r :: rs) a
  = headerOf k rs (if touches k r && isTopLevel r then assignTopLevel r a else a).
Proof. reflexivity. Qed.

Lemma accFold_normal_form k rs a :
  accFold k rs a
  = appendLists (variantsFor k rs) (imagesFor k rs) (collectionsFor k rs)
                (headerOf k rs a).
Proof.
  revert a. induction rs as [|r rs IH]; intro a.
  - cbn. now rewrite appendLists_nil.
  - rewrite accFold_cons, headerOf_cons, IH.
    unfold variantsFor, imagesFor, collectionsFor. cbn [flat_map].
    destruct (touches k r); cbn [andb app]; [|reflexivity].
    unfold effectOf.
    now rewrite headerOf_appendLists, appendLists_appendLists.
Qed.

(** *** Arrival order *)

Lemma touches_top k r :
  touches k r && isTopLevel r = true -> fieldStr (r_id r) = k.
Proof.
  unfold touches, targetOf. destruct (isTopLevel r); rewrite ?andb_false_r;
    [|discriminate].
  rewrite andb_true_r. apply String.eqb_eq.
Qed.

(** With one top-level line per product at most, the scalar fields do not
    depend on the order of the records. *)
Lemma headerOf_perm k rs rs' :
  Permutation rs rs' -> NoDup (topIdsOf rs) ->
  forall a, headerOf k rs a = headerOf k rs' a.
Proof.
  induction 1 as [|x l l' Hperm IH|x y l|l l' l'' H1 IH1 H2 IH2]; intros Hnd a.
  - reflexivity.
  - rewrite !headerOf_cons. apply IH.
    unfold topIdsOf in Hnd. cbn [flat_map] in Hnd.
    now apply NoDup_app_remove_l in Hnd.
  - rewrite !headerOf_cons. f_equal.
    destruct (touches k x && isTopLevel x) eqn:Ex;
      destruct (touches k y && isTopLevel y) eqn:Ey; try reflexivity.
    exfalso. pose proof (touches_top _ _ Ex) as Hx. pose proof (touches_top _ _ Ey) as Hy.
    apply andb_prop in Ex, Ey. destruct Ex as [_ Tx]. destruct Ey as [_ Ty].
    unfold topIdsOf in Hnd. cbn [flat_map] in Hnd. rewrite Tx, Ty, Hx, Hy in Hnd.
    cbn [app] in Hnd. inversion Hnd as [|? ? Hnot _]. apply Hnot. now left.
  - rewrite IH1 by assumption. apply IH2.
    eapply Permutation_NoDup; [|exact Hnd].
    unfold topIdsOf. now apply Permutation_flat_map.
Qed.

Lemma accFold_perm k rs rs' a :
  Permutation rs rs' -> NoDup (topIdsOf rs) ->
  sameUpToOrder (accFold k rs a) (accFold k rs' a).
Proof.
  intros Hperm Hnd. rewrite !accFold_normal_form.
  rewrite (headerOf_perm k rs rs' Hperm Hnd a).
  unfold sameUpToOrder, appendLists. cbn.
  repeat split; try reflexivity; apply Permutation_app_head;
    unfold variantsFor, imagesFor, collectionsFor; now apply Permutation_flat_map.
Qed.

Lemma existsb_perm {A} (f : A -> bool) l l' :
  Permutation l l' -> existsb f l = existsb f l'.
Proof.
  intro H. destruct (existsb f l) eqn:E; symmetry.
  - apply existsb_exists in E. destruct E as (x & Hx & Hf).
    apply existsb_exists. exists x. split; [eapply Permutation_in; eassumption | assumption].
  - destruct (existsb f l') eqn:E'; [|reflexivity].
    apply existsb_exists in E'. destruct E' as (x & Hx & Hf).
    assert (existsb f l = true); [|congruence].
    apply existsb_exists. exists x.
    split; [eapply Permutation_in; [apply Permutation_sym|]; eassumption | assumption].
Qed.

Lemma In_recordsOf r lines : In (LineRecord r) lines <-> In r (recordsOf lines).
Proof.
  unfold recordsOf. rewrite in_flat_map. split.
  - intro H. exists (LineRecord r). split; [assumption | now left].
  - intros (line & Hin & Hr). destruct line; try destruct Hr as [-> | []]; try easy.
Qed.

(** The entries of the map built from the records [rs]. *)
Lemma processRecords_entries rs a :
  In a (mapValues (processRecords rs [])) <->
  exists k, existsb (touches k) rs = true /\ a = accFold k rs (freshAccumulator k).
Proof.
  destruct (processRecords_invariant rs []) as [Hnd Hwk];
    [split; [constructor | intros ? ? []]|].
  assert (Hget : forall k, mapGet k (processRecords rs [])
                           = if existsb (touches k) rs
                             then Some (accFold k rs (freshAccumulator k)) else None).
  { intro k. now rewrite mapGet_processRecords, applyRecord_fold. }
  unfold mapValues. rewrite in_map_iff. split.
  - intros ([k a'] & <- & Hin). exists k. cbn [snd].
    apply (In_mapGet _ _ _ Hnd) in Hin. rewrite Hget in Hin.
    destruct (existsb (touches k) rs); [|discriminate].
    injection Hin as <-. auto.
  - intros (k & Hex & ->). exists (k, accFold k rs (freshAccumulator k)).
    split; [reflexivity|]. apply mapGet_In. now rewrite Hget, Hex.
Qed.

Lemma accFold_id k rs a : acc_id (accFold k rs a) = acc_id a.
Proof.
  revert a. induction rs as [|r rs IH]; intro a; [reflexivity|].
  rewrite accFold_cons, IH. destruct (touches k r); [apply effectOf_id | reflexivity].
Qed.

(** A record that is attached to [k] leaves what it carries in the entry
    of [k]. *)
Lemma accFold_contains k rs a r :
  In r rs -> targetOf r = Some k ->
  incl (variantsOfRecord r) (acc_variants (accFold k rs a))
  /\ incl (imagesOfRecord r) (acc_imageUrls (accFold k rs a))
  /\ incl (collectionsOfRecord r) (acc_collections (accFold k rs a)).
Proof.
  intros Hin Ht. rewrite accFold_normal_form. unfold appendLists. cbn.
  assert (Htouch : touches k r = true)
    by (unfold touches; rewrite Ht; apply String.eqb_refl).
  repeat split; intros x Hx; apply in_or_app; right;
    unfold variantsFor, imagesFor, collectionsFor; apply in_flat_map;
    exists r; rewrite Htouch; auto.
Qed.

(** *** The claim *)

Lemma wellKeyed_ids m : wellKeyed m -> map acc_id (mapValues m) = map fst m.
Proof.
  unfold mapValues. induction m as [|[k a] m IH]; intro H; [reflexivity|].
  cbn [map fst snd]. rewrite (H k a (or_introl eq_refl)). f_equal.
  apply IH. intros x y Hxy. apply H. now right.
Qed.

Lemma child_target r :
  isVariantLine r || isImageLine r || isCollectionLine r = true ->
  targetOf r = Some (fieldStr (r_parentId r)).
Proof.
  unfold targetOf, isVariantLine, isImageLine, isCollectionLine.
  destruct (isTopLevel r); cbn [negb andb orb]; [discriminate|].
  now intros ->.
Qed.

Lemma imagesOfRecord_image r :
  isImageLine r = true -> imagesOfRecord r = [fieldStr (r_url r)].
Proof.
  intro H. unfold imagesOfRecord. destruct (isTopLevel r) eqn:E.
  - unfold isImageLine in H. rewrite E in H. discriminate.
  - now rewrite H.
Qed.

(** A child record is found in the accumulator of its parent id. *)
Lemma child_attached rs r :
  In r rs -> isVariantLine r || isImageLine r || isCollectionLine r = true ->
  exists a, In a (mapValues (processRecords rs []))
            /\ acc_id a = fieldStr (r_parentId r)
            /\ incl (variantsOfRecord r) (acc_variants a)
            /\ incl (imagesOfRecord r) (acc_imageUrls a)
            /\ incl (collectionsOfRecord r) (acc_collections a).
Proof.
  intros Hin Hchild. pose proof (child_target r Hchild) as Ht.
  set (k := fieldStr (r_parentId r)) in *.
  exists (accFold k rs (freshAccumulator k)).
  split; [|split; [now rewrite accFold_id | now apply accFold_contains]].
  apply processRecords_entries. exists k. split; [|reflexivity].
  apply existsb_exists. exists r. split; [assumption|].
  unfold touches. rewrite Ht. apply String.eqb_refl.
Qed.

(** C6, as the code has it: for every result stream whose lines are empty
    or parse, the reconstruction returns at most one accumulator per product
    id; every variant, image and collection line is attached to the
    accumulator of its [__parentId], wherever its parent's top-level line
    stands; and, when no product id has two top-level lines, every other
    arrival order of the lines gives the same accumulators up to the order
    of the entries inside each accumulator's variant, image URL and
    collection lists. *)
Theorem accumulateLines_upsert_by_id :
  forall lines : list BulkLine,
    existsb isMalformed lines = false ->
    exists accs,
      accumulateLines lines = Ok accs
      /\ NoDup (map acc_id accs)
      /\ (forall r, In (LineRecord r) lines -> isVariantLine r = true ->
            exists a, In a accs /\ acc_id a = fieldStr (r_parentId r)
                      /\ In (variantOfRecord r) (acc_variants a))
      /\ (forall r, In (LineRecord r) lines -> isImageLine r = true ->
            exists a, In a accs /\ acc_id a = fieldStr (r_parentId r)
                      /\ In (fieldStr (r_url r)) (acc_imageUrls a))
      /\ (forall r, In (LineRecord r) lines -> isCollectionLine r = true ->
            exists a, In a accs /\ acc_id a = fieldStr (r_parentId r)
                      /\ In (mkCollectionRef (fieldStr (r_id r)) (fieldStr (r_title r)))
                            (acc_collections a))
      /\ (forall lines',
            Permutation lines lines' -> NoDup (topLevelIds lines) ->
            exists accs',
              accumulateLines lines' = Ok accs'
              /\ (forall a, In a accs -> exists b, In b accs' /\ sameUpToOrder a b)
              /\ (forall b, In b accs' -> exists a, In a accs /\ sameUpToOrder a b)).
Proof.
  intros lines Hwf. unfold accumulateLines. rewrite (parseLines_records _ _ Hwf).
  set (rs := recordsOf lines).
  eexists. split; [reflexivity|].
  destruct (processRecords_invariant rs []) as [Hnd Hwk];
    [split; [constructor | intros ? ? []]|].
  split; [now rewrite wellKeyed_ids|].
  split; [|split; [|split]].
  - intros r Hin Hv. apply In_recordsOf in Hin.
    destruct (child_attached rs r Hin) as (a & Ha & Hid & Hvs & _);
      [now rewrite Hv|].
    exists a. split; [assumption | split; [assumption|]].
    apply Hvs. unfold variantsOfRecord. rewrite Hv. now left.
  - intros r Hin Hi. apply In_recordsOf in Hin.
    destruct (child_attached rs r Hin) as (a & Ha & Hid & _ & His & _);
      [rewrite Hi; apply orb_true_iff; left; apply orb_true_r|].
    exists a. split; [assumption | split; [assumption|]].
    apply His. rewrite (imagesOfRecord_image r Hi). now left.
  - intros r Hin Hc. apply In_recordsOf in Hin.
    destruct (child_attached rs r Hin) as (a & Ha & Hid & _ & _ & Hcs);
      [rewrite Hc; apply orb_true_r|].
    exists a. split; [assumption | split; [assumption|]].
    apply Hcs. unfold collectionsOfRecord. rewrite Hc. now left.
  - intros lines' Hperm Htop.
    assert (Hwf' : existsb isMalformed lines' = false)
      by now rewrite <- (existsb_perm _ _ _ Hperm).
    rewrite (parseLines_records _ _ Hwf').
    set (rs' := recordsOf lines').
    assert (Hrs : Permutation rs rs')
      by (unfold rs, rs', recordsOf; now apply Permutation_flat_map).
    eexists. split; [reflexivity|]. split.
    + intros a Ha. apply processRecords_entries in Ha. destruct Ha as (k & Hex & ->).
      exists (accFold k rs' (freshAccumulator k)). split.
      * apply processRecords_entries. exists k.
        split; [now rewrite <- (existsb_perm _ _ _ Hrs) | reflexivity].
      * now apply accFold_perm.
    + intros b Hb. apply processRecords_entries in Hb. destruct Hb as (k & Hex & ->).
      exists (accFold k rs (freshAccumulator k)). split.
      * apply processRecords_entries. exists k.
        split; [now rewrite (existsb_perm _ _ _ Hrs) | reflexivity].
      * now apply accFold_perm.
Qed.

Lemma accumulateLines_upsert_by_id_witness :
  existsb isMalformed sampleLines = false
  /\ exists accs,
       accumulateLines sampleLines = Ok accs
       /\ NoDup (map acc_id accs)
       /\ exists accs',
            accumulateLines sampleLinesReordered = Ok accs'
            /\ (forall a, In a accs -> exists b, In b accs' /\ sameUpToOrder a b).
Proof.
  split; [reflexivity|].
  destruct (accumulateLines_upsert_by_id sampleLines eq_refl)
    as (accs & Hrun & Hnd & _ & _ & _ & Hperm).
  exists accs. split; [exact Hrun | split; [exact Hnd|]].
  destruct (Hperm sampleLinesReordered) as (accs' & Hrun' & Hab & _).
  - exact (Permutation_rev sampleLines).
  - repeat constructor; cbn; intuition discriminate.
  - exists accs'. split; assumption.
Defined.

(** The claim as stated, that the accumulators are the same for every
    arrival order, fails: two variant lines of one product, swapped, give
    accumulators whose variant lists differ, and with them the first
    variant, from which DEFAULT_VARIANT_PRICE takes the price. *)
Lemma accumulateLines_order_matters :
  Permutation twoVariants twoVariantsSwapped
  /\ exists a a',
       accumulateLines twoVariants = Ok [a]
       /\ accumulateLines twoVariantsSwapped = Ok [a']
       /\ ~ In a [a']
       /\ resolvePrice decimalToNumber decimalToString a defaultSettings
          = PriceScalar "5.00"
       /\ resolvePrice decimalToNumber decimalToString a' defaultSettings
          = PriceScalar "7.00".
Proof.
  split; [apply perm_swap|].
  eexists. eexists.
  split; [reflexivity | split; [reflexivity | split; [|split; reflexivity]]].
  intros [H | []]. discriminate H.
Qed.

(** ** Pricing resolver *)

Example decimalToNumber_1999 : decimalToNumber "19.99" = JsFin (1999 # 100).
Proof. reflexivity. Qed.

Example decimalToString_roundtrip :
  map (fun s => decimalToString (decimalToNumber s))
      ["19.99"; "5.00"; "12.5"; "-0.50"; "7"; "+10"; ".5"; "5."; "1200.10"]
  = ["19.99"; "5"; "12.5"; "-0.5"; "7"; "10"; "0.5"; "5"; "1200.1"].
Proof. vm_compute. reflexivity. Qed.

Lemma Qmin2_cases a b : Qmin2 a b = a \/ Qmin2 a b = b.
Proof. unfold Qmin2. destruct (Qle_bool a b); auto. Qed.

Lemma Qmax2_cases a b : Qmax2 a b = a \/ Qmax2 a b = b.
Proof. unfold Qmax2. destruct (Qle_bool a b); auto. Qed.

(** Folding [Math.min] over finite numbers returns the least of them. *)
Lemma fold_Math_min2_finite values a :
  allFinite values ->
  exists lo,
    fold_left Math_min2 values (JsFin a) = JsFin lo
    /\ (lo = a \/ In (JsFin lo) values)
    /\ lo <= a
    /\ (forall q, In (JsFin q) values -> lo <= q).
Proof.
  revert a. induction values as [|v values IH]; intros a Hfin.
  - exists a. cbn. repeat split; auto using Qle_refl. intros q [].
  - destruct (Hfin v (or_introl eq_refl)) as [q ->].
    destruct (IH (Qmin2 a q) (fun v H => Hfin v (or_intror H)))
      as (lo & Hfold & Hin & Hle & Hall).
    exists lo. cbn [fold_left Math_min2]. rewrite Hfold.
    split; [reflexivity | split; [ | split]].
    + destruct Hin as [-> | Hin]; [|right; now right].
      destruct (Qmin2_cases a q) as [-> | ->]; [now left | right; now left].
    + eapply Qle_trans; [exact Hle | apply Qmin2_le_l].
    + intros q' [[= <-] | Hq'].
      * eapply Qle_trans; [exact Hle | apply Qmin2_le_r].
      * now apply Hall.
Qed.

Lemma fold_Math_max2_finite values a :
  allFinite values ->
  exists hi,
    fold_left Math_max2 values (JsFin a) = JsFin hi
    /\ (hi = a \/ In (JsFin hi) values)
    /\ a <= hi
    /\ (forall q, In (JsFin q) values -> q <= hi).
Proof.
  revert a. induction values as [|v values IH]; intros a Hfin.
  - exists a. cbn. repeat split; auto using Qle_refl. intros q [].
  - destruct (Hfin v (or_introl eq_refl)) as [q ->].
    destruct (IH (Qmax2 a q) (fun v H => Hfin v (or_intror H)))
      as (hi & Hfold & Hin & Hle & Hall).
    exists hi. cbn [fold_left Math_max2]. rewrite Hfold.
    split; [reflexivity | split; [ | split]].
    + destruct Hin as [-> | Hin]; [|right; now right].
      destruct (Qmax2_cases a q) as [-> | ->]; [now left | right; now left].
    + eapply Qle_trans; [apply Qmax2_ge_l | exact Hle].
    + intros q' [[= <-] | Hq'].
      * eapply Qle_trans; [apply Qmax2_ge_r | exact Hle].
      * now apply Hall.
Qed.

(** [Math.min] and [Math.max] of a non-empty list of finite numbers are
    its least and greatest elements. *)
Lemma Math_min_finite v values :
  allFinite (v :: values) ->
  exists lo, Math_min (v :: values) = JsFin lo
             /\ In (JsFin lo) (v :: values)
             /\ (forall q, In (JsFin q) (v :: values) -> lo <= q).
Proof.
  intro Hfin. destruct (Hfin v (or_introl eq_refl)) as [a ->].
  destruct (fold_Math_min2_finite values a (fun v H => Hfin v (or_intror H)))
    as (lo & Hfold & Hin & Hle & Hall).
  exists lo. unfold Math_min. cbn [fold_left Math_min2]. rewrite Hfold.
  split; [reflexivity | split].
  - destruct Hin as [-> | Hin]; [now left | now right].
  - intros q [[= <-] | Hq]; [exact Hle | now apply Hall].
Qed.

Lemma Math_max_finite v values :
  allFinite (v :: values) ->
  exists hi, Math_max (v :: values) = JsFin hi
             /\ In (JsFin hi) (v :: values)
             /\ (forall q, In (JsFin q) (v :: values) -> q <= hi).
Proof.
  intro Hfin. destruct (Hfin v (or_introl eq_refl)) as [a ->].
  destruct (fold_Math_max2_finite values a (fun v H => Hfin v (or_intror H)))
    as (hi & Hfold & Hin & Hle & Hall).
  exists hi. unfold Math_max. cbn [fold_left Math_max2]. rewrite Hfold.
  split; [reflexivity | split].
  - destruct Hin as [-> | Hin]; [now left | now right].
  - intros q [[= <-] | Hq]; [exact Hle | now apply Hall].
Qed.

(** [filter(Boolean)] keeps the prices that are neither null nor empty. *)
Lemma truthyPrices_spec variants p :
  In p (truthyPrices variants) <-> In p (nonNullPrices variants) /\ p <> "".
Proof.
  induction variants as [|v variants IH]; [cbn; tauto|].
  cbn [truthyPrices nonNullPrices flat_map].
  fold (truthyPrices variants). fold (nonNullPrices variants).
  destruct (pv_price v) as [q|]; cbn [app]; [|exact IH].
  destruct q as [|ch q]; cbn [truthyStr app In]; rewrite IH.
  - split; [tauto|]. intros [[<- | H] Hne]; [congruence | tauto].
  - split; [intros [<- | H]; [split; [now left | discriminate] | tauto] | tauto].
Qed.

(** C8, as the code has it: in pricing mode MIN_MAX_RANGE, for every
    product accumulator, the prices taken are the variant prices that are
    neither null nor the empty string.  When there is none the record's
    price is null.  Otherwise, when each of them is a decimal number (a
    string that [Number] maps to a finite number), the record's price is the
    range {min, max} whose two strings are [String] applied to the least and
    to the greatest of the parsed prices. *)
Theorem buildProductRecord_min_max_range :
  forall (toNumber : string -> JsNum) (toString : JsNum -> string)
         (product : ProductAccumulator) (settings : ExportSettings),
    pricingMode settings = Some MIN_MAX_RANGE ->
    let prices := truthyPrices (acc_variants product) in
    let record := buildProductRecord toNumber toString product settings in
    (forall p, In p prices <->
               In p (nonNullPrices (acc_variants product)) /\ p <> "")
    /\ (prices = [] -> price record = PriceNull)
    /\ (prices <> [] ->
        (forall p, In p prices -> exists q, toNumber p = JsFin q) ->
        exists lo hi,
          price record = PriceRange (toString (JsFin lo)) (toString (JsFin hi))
          /\ In (JsFin lo) (map toNumber prices)
          /\ In (JsFin hi) (map toNumber prices)
          /\ (forall p q, In p prices -> toNumber p = JsFin q -> lo <= q /\ q <= hi)).
Proof.
  intros toNumber toString product settings Hmode prices record.
  subst record. cbn [buildProductRecord price]. unfold resolvePrice.
  rewrite Hmode. cbn [nullish]. fold prices. split; [|split].
  - intro p. subst prices. apply truthyPrices_spec.
  - intros ->. reflexivity.
  - intros Hne Hdec.
    destruct prices as [|p l] eqn:E; [congruence|].
    assert (Hfin : allFinite (map toNumber (p :: l))).
    { intros v Hv. apply in_map_iff in Hv. destruct Hv as (s & <- & Hs).
      apply (Hdec s Hs). }
    destruct (Math_min_finite (toNumber p) (map toNumber l) Hfin)
      as (lo & Hlo & Hloin & Hlole).
    destruct (Math_max_finite (toNumber p) (map toNumber l) Hfin)
      as (hi & Hhi & Hhiin & Hhile).
    exists lo, hi. cbv zeta. cbn [map]. rewrite Hlo, Hhi.
    split; [reflexivity | split; [assumption | split; [assumption|]]].
    intros s q Hs Hq. split.
    + apply Hlole. rewrite <- Hq. change (In (toNumber s) (map toNumber (p :: l))).
      now apply in_map.
    + apply Hhile. rewrite <- Hq. change (In (toNumber s) (map toNumber (p :: l))).
      now apply in_map.
Qed.

Example sampleAccumulator_range :
  price (buildProductRecord decimalToNumber decimalToString
           sampleAccumulator sampleRangeSettings)
  = PriceRange "5" "19.99".
Proof. vm_compute. reflexivity. Qed.

Lemma buildProductRecord_min_max_range_witness :
  pricingMode sampleRangeSettings = Some MIN_MAX_RANGE
  /\ truthyPrices (acc_variants sampleAccumulator) <> []
  /\ (forall p, In p (truthyPrices (acc_variants sampleAccumulator)) ->
                exists q, decimalToNumber p = JsFin q)
  /\ exists lo hi,
       price (buildProductRecord decimalToNumber decimalToString
                sampleAccumulator sampleRangeSettings)
       = PriceRange (decimalToString (JsFin lo)) (decimalToString (JsFin hi))
       /\ In (JsFin lo) (map decimalToNumber (truthyPrices (acc_variants sampleAccumulator)))
       /\ In (JsFin hi) (map decimalToNumber (truthyPrices (acc_variants sampleAccumulator)))
       /\ (forall p q, In p (truthyPrices (acc_variants sampleAccumulator)) ->
                       decimalToNumber p = JsFin q -> lo <= q /\ q <= hi).
Proof.
  assert (Hdec : forall p, In p (truthyPrices (acc_variants sampleAccumulator)) ->
                           exists q, decimalToNumber p = JsFin q).
  { intros p [<- | [<- | [<- | []]]]; eexists; reflexivity. }
  split; [reflexivity | split; [discriminate | split; [exact Hdec|]]].
  apply (buildProductRecord_min_max_range decimalToNumber decimalToString
           sampleAccumulator sampleRangeSettings eq_refl);
    [discriminate | exact Hdec].
Defined.

(** The claim as stated, which takes all non-null prices, fails on a price
    that is the empty string: it is not null, and [Number] parses it as 0,
    yet [filter(Boolean)] drops it.  Alone it leaves the record without a
    price although the accumulator has a non-null price; next to "5" it
    gives the range {5, 5}, not the range {0, 5} of the parsed non-null
    prices. *)
Lemma buildProductRecord_empty_price_dropped :
  pricingMode sampleRangeSettings = Some MIN_MAX_RANGE
  /\ nonNullPrices (acc_variants emptyPriceAccumulator) <> []
  /\ price (buildProductRecord decimalToNumber decimalToString
              emptyPriceAccumulator sampleRangeSettings) = PriceNull
  /\ map decimalToNumber (nonNullPrices (acc_variants emptyAndFiveAccumulator))
     = [JsFin 0; JsFin 5]
  /\ price (buildProductRecord decimalToNumber decimalToString
              emptyAndFiveAccumulator sampleRangeSettings)
     = PriceRange "5" "5"
  /\ decimalToString (JsFin 0) = "0".
Proof. repeat split. discriminate. Qed.

(** ** The monad: what computations leave behind *)

Lemma extends_refl w : extends w w [] [].
Proof.
  unfold extends. rewrite !app_nil_r. repeat split.
  destruct (w_job w); reflexivity.
Qed.

Lemma extends_still w w' :
  w_updates w' = w_updates w -> w_console w' = w_console w -> w_job w' = w_job w ->
  extends w w' [] [].
Proof.
  intros Hu Hc Hj. unfold extends. rewrite Hu, Hc, Hj, !app_nil_r.
  repeat split. destruct (w_job w); reflexivity.
Qed.

Lemma applyAll_app us1 us2 j : applyAll (us1 ++ us2) j = applyAll us2 (applyAll us1 j).
Proof. unfold applyAll. apply fold_left_app. Qed.

Lemma extends_trans w1 w2 w3 us1 evs1 us2 evs2 :
  extends w1 w2 us1 evs1 -> extends w2 w3 us2 evs2 ->
  extends w1 w3 (us1 ++ us2) (evs1 ++ evs2).
Proof.
  unfold extends. intros (a1 & b1 & c1 & d1) (a2 & b2 & c2 & d2).
  rewrite a2, a1, b2, b1, c2, c1, !app_assoc. repeat split.
  - destruct (w_job w1); cbn [option_map]; [|reflexivity].
    now rewrite applyAll_app.
  - intro Hnone. rewrite (d1 Hnone), d2; [reflexivity|].
    rewrite c1, Hnone. reflexivity.
Qed.

Lemma progressWrites_app us1 us2 :
  progressWrites (us1 ++ us2) = progressWrites us1 ++ progressWrites us2.
Proof. apply flat_map_app. Qed.

Lemma statusWrites_app us1 us2 :
  statusWrites (us1 ++ us2) = statusWrites us1 ++ statusWrites us2.
Proof. apply flat_map_app. Qed.

Lemma imagesCompleteEvents_app evs1 evs2 :
  imagesCompleteEvents (evs1 ++ evs2)
  = imagesCompleteEvents evs1 ++ imagesCompleteEvents evs2.
Proof. apply flat_map_app. Qed.

Lemma observes_weaken {A} (m : M A) (P Q : _ -> _ -> _ -> _ -> Prop) :
  observes m P -> (forall b ps ss es, P b ps ss es -> Q b ps ss es) -> observes m Q.
Proof.
  intros H HPQ w. destruct (H w) as (us & evs & Hext & HP).
  exists us, evs. auto.
Qed.

(** After a silent computation the writes are those of what follows. *)
Lemma observes_bind_silent {A B} (m : M A) (k : A -> M B) P :
  silent m -> P false [] [] [] -> (forall a, observes (k a) P) ->
  observes (bind m k) P.
Proof.
  intros Hm Hfail Hk w. unfold bind.
  destruct (Hm w) as (us & evs & Hext & Hp & Hs & He).
  destruct (m w) as [[a|e|] w1] eqn:E; cbn [fst snd] in *.
  - destruct (Hk a w1) as (us2 & evs2 & Hext2 & HP2).
    exists (us ++ us2), (evs ++ evs2).
    split; [eapply extends_trans; eassumption|].
    now rewrite progressWrites_app, statusWrites_app, imagesCompleteEvents_app,
      Hp, Hs, He.
  - exists us, evs. split; [assumption|]. now rewrite Hp, Hs, He.
  - exists us, evs. split; [assumption|]. now rewrite Hp, Hs, He.
Qed.

Lemma silent_bind {A B} (m : M A) (k : A -> M B) :
  silent m -> (forall a, silent (k a)) -> silent (bind m k).
Proof. intros Hm Hk. apply observes_bind_silent; auto. Qed.

Lemma silent_tryCatch {A} (m : M A) (handler : string -> M A) :
  silent m -> (forall e, silent (handler e)) -> silent (tryCatch m handler).
Proof.
  intros Hm Hh w. unfold tryCatch.
  destruct (Hm w) as (us & evs & Hext & Hp & Hs & He).
  destruct (m w) as [[a|e|] w1] eqn:E; cbn [fst snd] in *;
    try (exists us, evs; now split).
  destruct (Hh e w1) as (us2 & evs2 & Hext2 & Hp2 & Hs2 & He2).
  exists (us ++ us2), (evs ++ evs2).
  split; [eapply extends_trans; eassumption|].
  now rewrite progressWrites_app, statusWrites_app, imagesCompleteEvents_app,
    Hp, Hs, He, Hp2, Hs2, He2.
Qed.

(** A computation that leaves the two logs and the job row alone. *)
Lemma silent_still {A} (m : M A) :
  (forall w, w_updates (snd (m w)) = w_updates w
             /\ w_console (snd (m w)) = w_console w
             /\ w_job (snd (m w)) = w_job w) ->
  silent m.
Proof.
  intros H w. destruct (H w) as (Hu & Hc & Hj). exists [], [].
  split; [|auto]. now apply extends_still.
Qed.

Lemma silent_ret {A} (a : A) : silent (ret a).
Proof. apply silent_still. intro w. auto. Qed.

Lemma observes_throw {A} e (P : _ -> _ -> _ -> _ -> Prop) :
  P false [] [] [] -> observes (@throw A e) P.
Proof. intros HP w. exists [], []. split; [apply extends_refl | exact HP]. Qed.

Lemma silent_throw {A} e : silent (@throw A e).
Proof. apply silent_still. intro w. auto. Qed.

Lemma silent_outOfFuel {A} : silent (@outOfFuel A).
Proof. apply silent_still. intro w. auto. Qed.

Lemma silent_nextTick : silent nextTick.
Proof. apply silent_still. intro w. auto. Qed.

Lemma silent_dateNow : silent dateNow.
Proof. apply silent_still. intro w. auto. Qed.

(** A console line other than [images_complete]. *)
Lemma silent_consoleLog e :
  imagesCompleteEvents [e] = [] -> silent (consoleLog e).
Proof.
  intros He w. exists [], [e]. split; [|auto].
  unfold extends, consoleLog. cbn. rewrite app_nil_r. repeat split.
  destruct (w_job w); reflexivity.
Qed.

Lemma observes_bind {A B} (m : M A) (k : A -> M B) (P Q : _ -> _ -> _ -> _ -> Prop) :
  observes m Q ->
  (forall ps ss es, Q false ps ss es -> P false ps ss es) ->
  (forall a, observes (k a)
               (fun b ps2 ss2 es2 =>
                  forall ps1 ss1 es1, Q true ps1 ss1 es1 ->
                                      P b (ps1 ++ ps2) (ss1 ++ ss2) (es1 ++ es2))) ->
  observes (bind m k) P.
Proof.
  intros Hm Hfail Hk w. unfold bind.
  destruct (Hm w) as (us & evs & Hext & HQ).
  destruct (m w) as [[a|e|] w1] eqn:E; cbn [fst snd isReturned] in *.
  - destruct (Hk a w1) as (us2 & evs2 & Hext2 & HP2).
    exists (us ++ us2), (evs ++ evs2).
    split; [eapply extends_trans; eassumption|].
    rewrite progressWrites_app, statusWrites_app, imagesCompleteEvents_app.
    now apply HP2.
  - exists us, evs. split; [assumption|]. now apply Hfail.
  - exists us, evs. split; [assumption|]. now apply Hfail.
Qed.

(** The status of the job row is the last status written. *)
Lemma applyAll_status us j ss st :
  statusWrites us = ss ++ [st] -> job_status (applyAll us j) = st.
Proof.
  revert ss. induction us as [|u us IH] using rev_ind; intros ss H.
  - destruct ss; discriminate.
  - rewrite applyAll_app. cbn [applyAll fold_left applyUpdate job_status].
    rewrite statusWrites_app in H. cbn in H. rewrite app_nil_r in H.
    destruct (u_status u) as [st'|]; cbn [optionToList nullish] in *.
    + apply app_inj_tail in H. now destruct H.
    + rewrite app_nil_r in H. now apply (IH ss).
Qed.

Lemma applyAll_errorSummary u j :
  job_errorSummary (applyUpdate u j) = nullish (u_errorSummary u) (job_errorSummary j).
Proof. reflexivity. Qed.

Lemma StronglySorted_prefix {A} (R : A -> A -> Prop) (p l : list A) :
  prefixOf p l -> StronglySorted R l -> StronglySorted R p.
Proof.
  intros [rest ->]. induction p as [|a p IH]; intro H; [constructor|].
  cbn [app] in H. apply StronglySorted_inv in H. destruct H as [Hs Hall].
  constructor; [now apply IH|].
  apply Forall_app in Hall. tauto.
Qed.

Lemma prefixOf_map {A B} (f : A -> B) p l :
  prefixOf p l -> prefixOf (map f p) (map f l).
Proof. intros [rest ->]. exists (map f rest). apply map_app. Qed.

Lemma checkpoints_sorted : StronglySorted Z.le (map fst checkpoints).
Proof. cbn. repeat constructor; lia. Qed.

Section PipelineFacts.

Variable env : Env.

(** *** The primitives *)

Lemma silent_jobFindUnique id : silent (jobFindUnique env id).
Proof.
  apply silent_bind; [apply silent_nextTick|]. intro t.
  destruct (env_dbFails env t); [apply silent_throw|].
  apply silent_still. intro w. auto.
Qed.

Lemma silent_jobIssueCreate data : silent (jobIssueCreate env data).
Proof.
  apply silent_bind; [apply silent_nextTick|]. intro t.
  destruct (env_dbFails env t); [apply silent_throw|].
  apply silent_still. intro w. auto.
Qed.

Lemma silent_jobFileCreate data : silent (jobFileCreate env data).
Proof.
  apply silent_bind; [apply silent_nextTick|]. intro t.
  destruct (env_dbFails env t); [apply silent_throw|].
  apply silent_still. intro w. auto.
Qed.

Lemma silent_loadSession sessionId : silent (loadSession env sessionId).
Proof. apply silent_ret. Qed.

Lemma silent_storageWrite key bytes : silent (storageWrite env key bytes).
Proof.
  apply silent_bind; [apply silent_nextTick|]. intro t.
  destruct (env_storageFails env t); [apply silent_throw|].
  apply silent_still. intro w. auto.
Qed.

Lemma silent_clientQuery client request : silent (clientQuery env client request).
Proof.
  apply silent_bind; [apply silent_nextTick|]. intro t.
  apply silent_still. intro w.
  destruct (env_gql env t client request); auto.
Qed.

Lemma silent_fetchUrl url : silent (fetchUrl env url).
Proof.
  apply silent_bind; [apply silent_nextTick|]. intro t.
  destruct (env_fetch env t url); [apply silent_throw | apply silent_ret].
Qed.

Lemma silent_sleep ms : silent (sleep env ms).
Proof.
  apply silent_bind; [apply silent_nextTick|]. intro t.
  apply silent_still. intro w. auto.
Qed.

(** What one [prisma.job.update] leaves: its data when it succeeds, nothing
    when it throws. *)
Lemma observes_jobUpdate id u :
  observes (jobUpdate env id u)
           (fun b ps ss es =>
              es = []
              /\ (if b then ps = progressWrites [u] /\ ss = statusWrites [u]
                  else ps = [] /\ ss = [])).
Proof.
  intro w. unfold jobUpdate, bind, nextTick.
  destruct (env_dbFails env (w_tick w)).
  - exists [], []. split; [|cbn; auto]. now apply extends_still.
  - cbn [nextTickWorld w_job].
    destruct (w_job w) as [j|] eqn:Ej.
    + destruct (String.eqb (job_id j) id).
      * exists [u], []. split; [|cbn; auto].
        unfold extends. cbn. rewrite Ej, app_nil_r. repeat split. discriminate.
      * exists [], []. split; [|cbn; auto]. now apply extends_still.
    + exists [], []. split; [|cbn; auto]. now apply extends_still.
Qed.

(** An update that sets neither the progress nor the status. *)
Lemma silent_jobUpdate id u :
  u_progressPercent u = None -> u_status u = None -> silent (jobUpdate env id u).
Proof.
  intros Hp Hs. eapply observes_weaken; [apply observes_jobUpdate|].
  intros b ps ss es (-> & H).
  unfold progressWrites, statusWrites in H. cbn in H. rewrite Hp, Hs in H. cbn in H.
  destruct b; destruct H as [-> ->]; auto.
Qed.

(** After an update, the writes are its own followed by those of what
    follows. *)
Lemma observes_bind_jobUpdate {B} id u (k : unit -> M B) P :
  P false [] [] [] ->
  observes (k tt) (fun b ps ss es =>
                     P b (progressWrites [u] ++ ps) (statusWrites [u] ++ ss) es) ->
  observes (bind (jobUpdate env id u) k) P.
Proof.
  intros Hfail Hk.
  eapply observes_bind; [apply observes_jobUpdate | |].
  - cbn. intros ps ss es (-> & -> & ->). exact Hfail.
  - intros []. eapply observes_weaken; [exact Hk|].
    cbn. intros b ps ss es HP ps1 ss1 es1 (-> & -> & ->). exact HP.
Qed.

Lemma observes_bind_consoleLog {B} e (k : unit -> M B) P :
  observes (k tt) (fun b ps ss es => P b ps ss (imagesCompleteEvents [e] ++ es)) ->
  observes (bind (consoleLog e) k) P.
Proof.
  intros Hk w. unfold bind, consoleLog.
  destruct (Hk (addConsole e w)) as (us & evs & (Hu & Hc & Hj & Hn) & HP).
  exists us, (e :: evs). split.
  - unfold extends. rewrite Hu, Hc. cbn. rewrite <- app_assoc. auto.
  - change (e :: evs) with ([e] ++ evs). now rewrite imagesCompleteEvents_app.
Qed.

(** *** The stages *)

Lemma silent_storageTryRead key : silent (storageTryRead key).
Proof. apply silent_still. intro w. auto. Qed.

Lemma silent_storageReadable : silent storageReadable.
Proof. apply silent_still. intro w. auto. Qed.

Lemma silent_fileWrite key bytes : silent (fileWrite key bytes).
Proof. apply silent_still. intro w. auto. Qed.

Ltac silence :=
  repeat first
    [ apply silent_ret | apply silent_throw | apply silent_outOfFuel
    | apply silent_nextTick | apply silent_dateNow
    | apply silent_jobFindUnique | apply silent_jobIssueCreate
    | apply silent_jobFileCreate | apply silent_loadSession
    | apply silent_storageWrite | apply silent_clientQuery
    | apply silent_fetchUrl | apply silent_sleep
    | apply silent_storageTryRead | apply silent_storageReadable
    | apply silent_fileWrite
    | apply silent_consoleLog; reflexivity
    | apply silent_jobUpdate; reflexivity
    | assumption
    | apply silent_bind; [|intro]
    | match goal with
      | |- silent (match ?x with _ => _ end) => destruct x
      | |- silent (let _ := _ in _) => cbv zeta
      end ].

Lemma silent_startBulkOperation client query :
  silent (startBulkOperation env client query).
Proof. unfold startBulkOperation. silence. Qed.

Lemma silent_waitLoop fuel client bulkId startedAt :
  silent (waitLoop env fuel client bulkId startedAt).
Proof.
  induction fuel as [|fuel IH]; cbn [waitLoop]; [apply silent_outOfFuel|].
  silence.
Qed.

Lemma silent_waitForBulkResult fuel client bulkId :
  silent (waitForBulkResult env fuel client bulkId).
Proof.
  unfold waitForBulkResult. apply silent_bind; [apply silent_dateNow|].
  intro. apply silent_waitLoop.
Qed.

Lemma silent_parseBulkResults url : silent (parseBulkResults env url).
Proof. unfold parseBulkResults. silence. Qed.

Lemma silent_paginateLoop fuel client scopeQuery withCollections cursor products :
  silent (paginateLoop env fuel client scopeQuery withCollections cursor products).
Proof.
  revert cursor products.
  induction fuel as [|fuel IH]; intros cursor products; cbn [paginateLoop];
    [apply silent_outOfFuel|].
  apply silent_bind; [apply silent_clientQuery|]. intro response.
  destruct (body_products response) as [payload|]; [|apply silent_ret].
  cbv zeta. destruct (nullish (page_hasNextPage payload) false);
    [apply IH | apply silent_ret].
Qed.

Lemma silent_collectProducts fuel jobId client settings :
  silent (collectProducts env fuel jobId client settings).
Proof.
  unfold collectProducts. apply silent_tryCatch.
  - unfold bulkExtraction.
    pose proof silent_startBulkOperation. pose proof silent_waitForBulkResult.
    pose proof silent_parseBulkResults.
    apply silent_bind; [apply silent_consoleLog; reflexivity | intro].
    apply silent_bind; [apply silent_startBulkOperation | intro].
    apply silent_bind; [apply silent_waitForBulkResult | intro].
    apply silent_bind; [apply silent_parseBulkResults | intro].
    silence.
  - intro e. unfold fallbackExtraction, fetchProductsPaginated.
    apply silent_bind; [apply silent_consoleLog; reflexivity | intro].
    apply silent_bind; [apply silent_jobUpdate; reflexivity | intro].
    apply silent_bind; [apply silent_paginateLoop | intro].
    silence.
Qed.

(** *** The workers of the download stage *)

Lemma awaitsOnly_bind P {V A B} (t : Task V A) (k : A -> Task V B) :
  awaitsOnly P t -> (forall a, awaitsOnly P (k a)) -> awaitsOnly P (taskBind t k).
Proof.
  intros Ht Hk. induction t as [a|e| |g IH|s next IH|C op g IHg h IHh];
    cbn [taskBind awaitsOnly] in *; auto.
  destruct Ht as (Hop & Hg & Hh). auto.
Qed.

Lemma awaitsOnly_catch P {V A} (t : Task V A) (handler : string -> Task V A) :
  awaitsOnly P t -> (forall e, awaitsOnly P (handler e)) ->
  awaitsOnly P (taskCatch t handler).
Proof.
  intros Ht Hh. induction t as [a|e| |g IH|s next IH|C op g IHg h IHh];
    cbn [taskCatch awaitsOnly] in *; auto.
  destruct Ht as (Hop & Hg & Hh'). auto.
Qed.

Lemma awaitsOnly_await (P : forall B : Type, M B -> Prop) {V B} (op : M B) :
  P B op -> awaitsOnly P (@await V B op).
Proof. intro H. cbn. auto. Qed.

Lemma awaitsOnly_settle P {V A} (t : Task V A) (s : V) :
  awaitsOnly P t -> awaitsOnly P (snd (settle t s)).
Proof.
  revert s. induction t as [a|e| |g IH|s' next IH|C op g IHg h IHh];
    intros s Ht; cbn [settle snd awaitsOnly] in *; auto.
Qed.

Lemma awaitsOnly_startAll P {V A} (tasks : list (Task V A)) (s : V) :
  Forall (awaitsOnly P) tasks -> Forall (awaitsOnly P) (snd (startAll tasks s)).
Proof.
  revert s. induction tasks as [|t tasks IH]; intros s Hall; cbn [startAll].
  - constructor.
  - pose proof (awaitsOnly_settle P t s (Forall_inv Hall)) as Ht.
    destruct (settle t s) as [s1 t']. specialize (IH s1 (Forall_inv_tail Hall)).
    destruct (startAll tasks s1) as [s2 rest']. cbn [snd] in *. now constructor.
Qed.

Lemma Forall_replaceNth {A} (P : A -> Prop) n x (l : list A) :
  P x -> Forall P l -> Forall P (replaceNth n x l).
Proof.
  intros Hx Hl. revert n. induction Hl as [|y l Hy Hl IH]; intro n; cbn [replaceNth].
  - destruct n; constructor.
  - destruct n; constructor; auto.
Qed.

Lemma Forall_nth_default {A} (P : A -> Prop) n d (l : list A) :
  P d -> Forall P l -> P (nth n l d).
Proof.
  intros Hd Hl. revert n. induction Hl as [|y l Hy Hl IH]; intro n; destruct n; cbn; auto.
Qed.

(** A turn of the event loop on a task that awaits only silent calls is
    silent, and so is what follows if it is on every such task. *)
Lemma silent_bind_resume {V A B} (t : Task V A) (s : V) (k : V * Task V A -> M B) :
  awaitsOnly (@silent) t ->
  (forall turn, awaitsOnly (@silent) (snd turn) -> silent (k turn)) ->
  silent (bind (resume t s) k).
Proof.
  intros Ht Hk.
  destruct t as [a|e| |g|s' next|C op g h];
    try (apply silent_bind; [apply silent_ret | intro; apply silent_ret]);
    try (intro w; unfold bind, resume, ret; apply Hk; exact Ht).
  cbn [awaitsOnly] in Ht. destruct Ht as (Hop & Hg & Hh).
  intro w. unfold bind, resume.
  destruct (Hop w) as (us & evs & Hext & Hp & Hs & He).
  destruct (op w) as [[b|e|] w1]; cbn [fst snd] in *.
  - destruct (Hk (settle (g b) s) (awaitsOnly_settle _ _ _ (Hg b)) w1)
      as (us2 & evs2 & Hext2 & Hp2 & Hs2 & He2).
    exists (us ++ us2), (evs ++ evs2).
    split; [eapply extends_trans; eassumption|].
    rewrite progressWrites_app, statusWrites_app, imagesCompleteEvents_app.
    rewrite Hp, Hs, He, Hp2, Hs2, He2. auto.
  - destruct (Hk (settle (h e) s) (awaitsOnly_settle _ _ _ (Hh e)) w1)
      as (us2 & evs2 & Hext2 & Hp2 & Hs2 & He2).
    exists (us ++ us2), (evs ++ evs2).
    split; [eapply extends_trans; eassumption|].
    rewrite progressWrites_app, statusWrites_app, imagesCompleteEvents_app.
    rewrite Hp, Hs, He, Hp2, Hs2, He2. auto.
  - exists us, evs. auto.
Qed.

Lemma silent_promiseAll {V A} fuel turn (tasks : list (Task V A)) (s : V) :
  Forall (awaitsOnly (@silent)) tasks -> silent (promiseAll env fuel turn tasks s).
Proof.
  revert turn tasks s. induction fuel as [|fuel IH]; intros turn tasks s Hall;
    cbn [promiseAll];
    (destruct (firstRejection tasks); [apply silent_throw|]);
    (destruct (existsb isStalled tasks); [apply silent_outOfFuel|]);
    (destruct (pendingFrom 0 tasks) as [|first others]; [apply silent_ret|]).
  - apply silent_outOfFuel.
  - cbv zeta. apply silent_bind_resume.
    + apply Forall_nth_default; [exact I | exact Hall].
    + intros step Hstep. apply IH. now apply Forall_replaceNth.
Qed.

Lemma awaitsOnly_processCover (P : forall B : Type, M B -> Prop) jobId index record :
  workerCalls env P -> awaitsOnly P (processCover env jobId index record).
Proof.
  intros (Hissue & Hfind & Hupdate & Hfetch & Hbody & Hwrite).
  assert (Hcreate : forall type productId productHandle details,
             awaitsOnly P (@createIssue env Shared jobId type productId
                                        productHandle details))
    by (intros; apply awaitsOnly_await, Hissue).
  assert (Hcounts : forall delta,
             awaitsOnly P (@incrementCounts env Shared jobId delta)).
  { intro delta. unfold incrementCounts. apply awaitsOnly_bind.
    - apply awaitsOnly_await, Hfind.
    - intro job. apply awaitsOnly_await. now apply Hupdate. }
  assert (Hretry : forall url remaining attempt attempts,
             awaitsOnly P (@retryLoop env Shared remaining attempt attempts url)).
  { intros url remaining. induction remaining as [|remaining IH];
      intros attempt attempts; cbn [retryLoop]; [exact I|].
    apply awaitsOnly_bind.
    - apply awaitsOnly_catch.
      + apply awaitsOnly_bind; [apply awaitsOnly_await, Hfetch|].
        intro response. destruct (negb (resp_ok response)); [exact I|].
        cbv zeta. apply awaitsOnly_bind; [apply awaitsOnly_await, Hbody|].
        intro bytes. exact I.
      + intro e. destruct (attempt =? attempts - 1)%nat; exact I.
    - intros [result|]; [exact I | apply IH]. }
  unfold processCover. destruct (negb (truthyOpt (coverUrl record))).
  - apply awaitsOnly_bind; [intro; exact I | intros _].
    apply awaitsOnly_bind; [apply Hcreate | intros _]. apply Hcounts.
  - cbv zeta. apply awaitsOnly_bind; [apply Hretry|].
    intros [download|].
    + apply awaitsOnly_bind; [apply awaitsOnly_await, Hwrite | intros _].
      apply awaitsOnly_bind; [intro; exact I | intros _]. apply Hcounts.
    + apply awaitsOnly_bind; [intro; exact I | intros _].
      apply awaitsOnly_bind; [apply Hcreate | intros _]. apply Hcounts.
Qed.

Lemma awaitsOnly_worker (P : forall B : Type, M B -> Prop) fuel jobId :
  workerCalls env P -> awaitsOnly P (worker env fuel jobId).
Proof.
  intro Hcalls. induction fuel as [|fuel IH]; cbn [worker]; [exact I|].
  apply awaitsOnly_bind; [intro; exact I|].
  intros [|[index record] rest]; [exact I|].
  apply awaitsOnly_bind; [intro; exact I | intros _].
  apply awaitsOnly_bind; [now apply awaitsOnly_processCover | intros _]. exact IH.
Qed.

Lemma silent_arrayBuffer response : silent (arrayBuffer response).
Proof.
  unfold arrayBuffer. destruct (resp_bytes response);
    [apply silent_ret | apply silent_throw].
Qed.

Lemma silent_workerCalls : workerCalls env (@silent).
Proof.
  repeat split; intros.
  - apply silent_jobIssueCreate.
  - apply silent_jobFindUnique.
  - now apply silent_jobUpdate.
  - apply silent_fetchUrl.
  - apply silent_arrayBuffer.
  - apply silent_storageWrite.
Qed.

Lemma silent_downloadCovers records jobId : silent (downloadCovers env records jobId).
Proof.
  unfold downloadCovers.
  apply silent_bind; [apply silent_jobUpdate; reflexivity | intro].
  cbv zeta. apply silent_bind; [|intro; apply silent_ret].
  apply silent_promiseAll, awaitsOnly_startAll.
  apply Forall_forall. intros t Ht. apply repeat_spec in Ht. subst t.
  apply awaitsOnly_worker, silent_workerCalls.
Qed.

(** *** The archive, the PDF file and the whole run *)

Variable localeCompare : string -> string -> Z.
Variable imageMetadata : string -> Result (option Z * option Z).
Variable composite : string -> OverlaySvg -> bool -> Result string.
Variable zipArchive : list (string * string) -> string.
Variable savePdf : list Page -> string.
Variable toNumber : string -> JsNum.
Variable toString : JsNum -> string.
Variable stringifyManifest : Manifest -> string.

Lemma silent_zipEntries jobId settings records entries :
  silent (zipEntries imageMetadata composite jobId settings records entries).
Proof.
  revert entries. induction records as [|record records IH]; intro entries;
    cbn [zipEntries]; [apply silent_ret|].
  destruct (localCoverPath record) as [path|]; [|apply IH].
  destruct (coverFileName record) as [name|]; [|apply IH].
  destruct (truthyStr path && truthyStr name); [|apply IH].
  apply silent_bind; [apply silent_storageTryRead | intro source].
  cbv zeta. match goal with |- silent (match ?x with _ => _ end) => destruct x end.
  - apply IH.
  - apply silent_bind; [apply silent_consoleLog; reflexivity | intro]. apply IH.
Qed.

Lemma silent_buildImagesZip jobId records manifestKey settings :
  silent (buildImagesZip env imageMetadata composite zipArchive
                         jobId records manifestKey settings).
Proof.
  unfold buildImagesZip. cbv zeta.
  apply silent_bind; [apply silent_zipEntries | intro entries].
  apply silent_bind.
  - destruct manifestKey as [key|]; [|apply silent_ret].
    destruct (truthyStr key); [apply silent_storageTryRead | apply silent_ret].
  - intro manifest. silence.
Qed.

Lemma silent_buildPdfFile fuel jobId records settings :
  silent (buildPdfFile env savePdf fuel jobId records settings).
Proof. unfold buildPdfFile. silence. Qed.

Ltac summary_stop :=
  unfold runSummary; cbn;
  split; [eexists; reflexivity
         | split; [repeat constructor; discriminate | discriminate]].

(** Every run of [runCatalogJob], returned, thrown or cut short, leaves
    what [runSummary] says. *)
Lemma runCatalogJob_observed fuel jobId :
  observes (runCatalogJob env localeCompare imageMetadata composite zipArchive
                          savePdf toNumber toString stringifyManifest fuel jobId)
           runSummary.
Proof.
  unfold runCatalogJob.
  apply observes_bind_silent; [apply silent_jobFindUnique | summary_stop |].
  intros [job|]; [|apply observes_throw; summary_stop].
  cbv zeta.
  apply observes_bind_silent; [apply silent_loadSession | summary_stop |].
  intros [session|]; [|apply observes_throw; summary_stop].
  apply observes_bind_silent; [apply silent_dateNow | summary_stop |]. intro startedAt.
  apply observes_bind_jobUpdate; [summary_stop|].
  apply observes_bind_silent; [apply silent_collectProducts | summary_stop |].
  intro products.
  apply observes_bind_jobUpdate; [summary_stop|].
  apply observes_bind_silent; [apply silent_downloadCovers | summary_stop |].
  intro imageResult.
  apply observes_bind_consoleLog.
  apply observes_bind_silent; [apply silent_dateNow | summary_stop |]. intro generatedAt.
  apply observes_bind_silent; [apply silent_storageWrite | summary_stop |]. intro storedKey.
  apply observes_bind_silent; [apply silent_dateNow | summary_stop |]. intro now1.
  apply observes_bind_silent; [apply silent_jobFileCreate | summary_stop |].
  intro manifestFile.
  apply observes_bind_jobUpdate; [summary_stop|].
  apply observes_bind_silent; [apply silent_buildPdfFile | summary_stop |]. intro pdfPath.
  apply observes_bind_silent; [apply silent_consoleLog; reflexivity | summary_stop |].
  intros _.
  apply observes_bind_silent; [apply silent_dateNow | summary_stop |]. intro now2.
  apply observes_bind_silent; [apply silent_jobFileCreate | summary_stop |]. intros _.
  apply observes_bind_jobUpdate; [summary_stop|].
  apply observes_bind_silent; [apply silent_buildImagesZip | summary_stop |]. intro zipPath.
  apply observes_bind_silent; [apply silent_consoleLog; reflexivity | summary_stop |].
  intros _.
  apply observes_bind_silent; [apply silent_dateNow | summary_stop |]. intro now3.
  apply observes_bind_silent; [apply silent_jobFileCreate | summary_stop |]. intros _.
  apply observes_bind_silent; [apply silent_dateNow | summary_stop |]. intro finishedAt.
  eapply observes_weaken; [apply observes_jobUpdate|].
  intros b ps ss es (-> & H). destruct b; destruct H as [-> ->].
  - unfold runSummary. cbn.
    split; [exists []; reflexivity|].
    split; [repeat constructor; try discriminate; destruct (snd imageResult); discriminate|].
    intros _. split; [reflexivity|]. eexists. eexists. split; reflexivity.
  - summary_stop.
Qed.

(** C9: in every run of [runCatalogJob], however it ends, the progress
    writes added to the job are an initial part of the sequence 5, 35, 70,
    85, 100, each with its step label, hence non-decreasing; a run that
    returns has written all five. *)
Theorem runCatalogJob_progress_checkpoints :
  forall (fuel : nat) (jobId : string) (w : World),
    let run := runCatalogJob env localeCompare imageMetadata composite zipArchive
                             savePdf toNumber toString stringifyManifest
                             fuel jobId w in
    exists us,
      w_updates (snd run) = w_updates w ++ us
      /\ prefixOf (progressWrites us) checkpoints
      /\ StronglySorted Z.le (map fst (progressWrites us))
      /\ (isReturned (fst run) = true -> progressWrites us = checkpoints).
Proof.
  intros fuel jobId w run.
  destruct (runCatalogJob_observed fuel jobId w)
    as (us & evs & (Hu & _) & Hpre & _ & Hret).
  exists us. split; [exact Hu | split; [exact Hpre | split]].
  - eapply StronglySorted_prefix; [|apply checkpoints_sorted].
    now apply prefixOf_map.
  - intro Hb. now apply Hret.
Qed.

(** C1: in every run of [runCatalogJob] no status FAILED is written.  A run
    that returns leaves the job with status PARTIAL if the [failures] flag
    the image stage reported (the one logged with [images_complete]) is
    true and COMPLETED if it is false.  When the run throws, the worker's
    failed handler runs on the world the run left, and, the job store
    working, sets status FAILED with the error as summary. *)
Theorem runCatalogJob_terminal_status :
  forall (fuel : nat) (jobId : string) (w : World),
    let run := runCatalogJob env localeCompare imageMetadata composite zipArchive
                             savePdf toNumber toString stringifyManifest
                             fuel jobId w in
    let handled := handleMessage env localeCompare imageMetadata composite zipArchive
                                 savePdf toNumber toString stringifyManifest
                                 fuel (Some jobId) w in
    exists us evs,
      extends w (snd run) us evs
      /\ Forall (fun st => st <> FAILED) (statusWrites us)
      /\ (isReturned (fst run) = true ->
          exists total hasFailures job',
            imagesCompleteEvents evs = [(total, hasFailures)]
            /\ w_job (snd run) = Some job'
            /\ job_status job' = (if hasFailures then PARTIAL else COMPLETED))
      /\ (truthyStr jobId = true -> isReturned (fst run) = true -> handled = run)
      /\ (forall e job,
            fst run = Thrown e -> truthyStr jobId = true ->
            w_job (snd run) = Some job -> job_id job = jobId ->
            env_dbFails env (w_tick (snd run)) = false ->
            exists job',
              fst handled = Returned tt
              /\ w_job (snd handled) = Some job'
              /\ job_status job' = FAILED
              /\ job_errorSummary job' = Some e).
Proof.
  intros fuel jobId w run handled.
  destruct (runCatalogJob_observed fuel jobId w)
    as (us & evs & Hext & Hpre & Hst & Hret).
  exists us, evs. split; [exact Hext | split; [exact Hst | split; [|split]]].
  - intro Hb. destruct (Hret Hb) as (_ & total & h & Hes & Hss).
    destruct Hext as (_ & _ & Hjob & Hnone).
    destruct (w_job w) as [j|] eqn:Ej.
    + exists total, h, (applyAll us j).
      split; [exact Hes | split; [exact Hjob|]].
      apply (applyAll_status us j [RUNNING]). exact Hss.
    + rewrite (Hnone eq_refl) in Hss. discriminate.
  - intros Htruthy Hb. subst handled. unfold handleMessage, tryCatch, processor.
    rewrite Htruthy. fold run.
    destruct run as [[[]|e|] w1]; try reflexivity. discriminate.
  - intros e job He Htruthy Hjob Hid Hdb.
    subst handled. unfold handleMessage, tryCatch, processor.
    destruct jobId as [|ch rest]; [discriminate|]. cbn [truthyStr]. fold run.
    destruct run as [[[]|e'|] w1] eqn:Erun; cbn [fst snd] in *; try discriminate.
    injection He as ->.
    unfold onFailed, jobUpdate, dateNow, nextTick, bind. cbn [nullish].
    rewrite Hdb. cbn [nextTickWorld w_job]. rewrite Hjob, Hid, String.eqb_refl.
    eexists. cbn. repeat split.
Qed.

(** *** Extraction: the bulk attempt ends, and its failure is caught *)












(** *** Extraction: the requests of the fallback *)








(** *** Image acquisition: the event loop ends *)

Local Open Scope nat_scope.

Lemma affords_mono {A} (t : Task Shared A) c c' s :
  affords t c s -> c <= c' -> affords t c' s.
Proof.
  revert c c' s. induction t as [a|e| |g IH|s0 next IH|C op g IHg h IHh];
    intros c c' s Ht Hle; cbn [affords awaitsAtMost taskBind taskCatch] in *;
    auto; try contradiction.
  - eapply IH; eassumption.
  - destruct Ht as [Hq Hnext]. split; [exact Hq|].
    eapply IH; [exact Hnext | lia].
  - destruct c as [|c0]; [exfalso; exact Ht|]. destruct c' as [|c0']; [lia|].
    intros s' Hs'. destruct (Ht s' Hs') as [Hk Hh]. split.
    + intro b. eapply IHg; [apply Hk | lia].
    + intro e. eapply IHh; [apply Hh | lia].
Qed.

Lemma awaitsAtMost_mono {V A} (t : Task V A) n n' :
  awaitsAtMost n t -> n <= n' -> awaitsAtMost n' t.
Proof.
  revert n n'. induction t as [a|e| |g IH|s0 next IH|C op g IHg h IHh];
    intros n n' Ht Hle; cbn [affords awaitsAtMost taskBind taskCatch] in *;
    auto; try contradiction.
  destruct n as [|n0]; [exfalso; exact Ht|]. destruct n' as [|n0']; [lia|].
  destruct Ht as [Hk Hh]. split.
  - intro b. eapply IHg; [apply Hk | lia].
  - intro e. eapply IHh; [apply Hh | lia].
Qed.

Lemma awaitsAtMost_bind {V A B} (t : Task V A) (k : A -> Task V B) n m :
  awaitsAtMost n t -> (forall a, awaitsAtMost m (k a)) ->
  awaitsAtMost (n + m) (taskBind t k).
Proof.
  revert n. induction t as [a|e| |g IH|s0 next IH|C op g IHg h IHh];
    intros n Ht Hk; cbn [affords awaitsAtMost taskBind taskCatch] in *;
    auto; try contradiction.
  - eapply awaitsAtMost_mono; [apply Hk | lia].
  - destruct n as [|n0]; [exfalso; exact Ht|]. cbn [Nat.add].
    destruct Ht as [Hg Hh]. split; intro; [apply IHg | apply IHh]; auto.
Qed.

Lemma awaitsAtMost_catch {V A} (t : Task V A) (handler : string -> Task V A) n m :
  awaitsAtMost n t -> (forall e, awaitsAtMost m (handler e)) ->
  awaitsAtMost (n + m) (taskCatch t handler).
Proof.
  revert n. induction t as [a|e| |g IH|s0 next IH|C op g IHg h IHh];
    intros n Ht Hh'; cbn [affords awaitsAtMost taskBind taskCatch] in *;
    auto; try contradiction.
  - eapply awaitsAtMost_mono; [apply Hh' | lia].
  - destruct n as [|n0]; [exfalso; exact Ht|]. cbn [Nat.add].
    destruct Ht as [Hg Hh]. split; intro; [apply IHg | apply IHh]; auto.
Qed.

Lemma awaitsAtMost_await {V B} (op : M B) : awaitsAtMost 1 (@await V B op).
Proof. cbn. auto. Qed.

Lemma affords_bind {A B} (t : Task Shared A) (k : A -> Task Shared B) n c c' s :
  awaitsAtMost n t -> n + c <= c' ->
  (forall a s', queued s' <= queued s -> affords (k a) c s') ->
  affords (taskBind t k) c' s.
Proof.
  revert n c' s. induction t as [a|e| |g IH|s0 next IH|C op g IHg h IHh];
    intros n c' s Ht Hle Hk; cbn [affords awaitsAtMost taskBind taskCatch] in *; auto;
    try contradiction.
  - eapply affords_mono; [apply Hk; lia | lia].
  - destruct n as [|n0]; [exfalso; exact Ht|]. destruct c' as [|c0']; [lia|].
    destruct Ht as [Hg Hh]. intros s' Hs'. split; intro.
    + eapply IHg; [apply Hg | | ]; [lia|]. intros a s'' Hs''. apply Hk. lia.
    + eapply IHh; [apply Hh | | ]; [lia|]. intros a s'' Hs''. apply Hk. lia.
Qed.

Lemma affords_modify {B} (f : Shared -> Shared) (k : unit -> Task Shared B) c s :
  queued (f s) <= queued s ->
  affords (k tt) (c + 9 * (queued s - queued (f s))) (f s) ->
  affords (taskBind (modify f) k) c s.
Proof. intros Hq Hk. cbn. auto. Qed.

Lemma atMost_createIssue {V} jobId type productId productHandle details :
  awaitsAtMost 1 (@createIssue env V jobId type productId productHandle details).
Proof. apply awaitsAtMost_await. Qed.

Lemma atMost_incrementCounts {V} jobId delta :
  awaitsAtMost 2 (@incrementCounts env V jobId delta).
Proof.
  unfold incrementCounts. apply (awaitsAtMost_bind _ _ 1 1).
  - apply awaitsAtMost_await.
  - intro. apply awaitsAtMost_await.
Qed.

Lemma atMost_retryLoop {V} remaining attempt attempts url :
  awaitsAtMost (2 * remaining) (@retryLoop env V remaining attempt attempts url).
Proof.
  revert attempt. induction remaining as [|remaining IH]; intro attempt;
    cbn [retryLoop]; [exact I|].
  replace (2 * S remaining) with (2 + 2 * remaining) by lia.
  apply awaitsAtMost_bind.
  - apply (awaitsAtMost_catch _ _ 2 0).
    + apply (awaitsAtMost_bind _ _ 1 1); [apply awaitsAtMost_await|].
      intro response. destruct (negb (resp_ok response)); [exact I|].
      cbv zeta. apply (awaitsAtMost_bind _ _ 1 0); [apply awaitsAtMost_await|].
      intro. exact I.
    + intro e. destruct (attempt =? attempts - 1); exact I.
  - intros [result|]; [exact I | apply IH].
Qed.

Lemma affords_of_atMost {A} (t : Task Shared A) n s :
  awaitsAtMost n t -> affords t n s.
Proof.
  revert n s. induction t as [a|e| |g IH|s0 next IH|C op g IHg h IHh];
    intros n s Ht; cbn [affords awaitsAtMost taskBind taskCatch] in *;
    auto; try contradiction.
  destruct n as [|n0]; [exact Ht|]. destruct Ht as [Hg Hh].
  intros s' _. split; intro; [apply IHg | apply IHh]; auto.
Qed.

Lemma affords_then {A B} (t : Task Shared A) (k : A -> Task Shared B) c c2 s :
  affords t c s ->
  (forall a s', queued s' <= queued s -> affords (k a) c2 s') ->
  affords (taskBind t k) (c + c2) s.
Proof.
  revert c s. induction t as [a|e| |g IH|s0 next IH|C op g IHg h IHh];
    intros c s Ht Hk; cbn [affords awaitsAtMost taskBind taskCatch] in *;
    auto; try contradiction.
  - eapply affords_mono; [apply Hk; lia | lia].
  - destruct Ht as [Hq Hnext]. split; [exact Hq|].
    replace (c + c2 + 9 * (queued s - queued s0))
      with (c + 9 * (queued s - queued s0) + c2) by lia.
    apply IH; [exact Hnext|]. intros a s' Hs'. apply Hk. lia.
  - destruct c as [|c0]; [contradiction|]. cbn [Nat.add].
    intros s' Hs'. destruct (Ht s' Hs') as [Hg Hh]. split; intro.
    + apply IHg; [apply Hg|]. intros a s'' Hs''. apply Hk. lia.
    + apply IHh; [apply Hh|]. intros a s'' Hs''. apply Hk. lia.
Qed.

Lemma affords_processCover jobId index record s :
  affords (processCover env jobId index record) 9 s.
Proof.
  unfold processCover. destruct (negb (truthyOpt (coverUrl record))).
  - apply affords_modify; [reflexivity|].
    replace (9 + 9 * (queued s - queued (setHasFailures true s))) with 9
      by (unfold queued, setHasFailures; cbn [sh_queue]; lia).
    apply (affords_bind _ _ 1 2); [apply atMost_createIssue | lia |].
    intros _ s2 Hs2. apply affords_of_atMost, atMost_incrementCounts.
  - cbv zeta. apply (affords_bind _ _ 6 3); [apply (atMost_retryLoop 3) | lia |].
    intros [download|] s2 Hs2.
    + apply (affords_bind _ _ 1 2); [apply awaitsAtMost_await | lia |].
      intros _ s3 Hs3. apply affords_modify; [reflexivity|].
      replace (2 + 9 * (queued s3 - queued (setRecord index _ s3))) with 2
        by (unfold queued, setRecord; cbn [sh_queue]; lia).
      apply affords_of_atMost, atMost_incrementCounts.
    + apply affords_modify; [reflexivity|].
      replace (3 + 9 * (queued s2 - queued (setHasFailures true s2))) with 3
        by (unfold queued, setHasFailures; cbn [sh_queue]; lia).
      apply (affords_bind _ _ 1 2); [apply atMost_createIssue | lia |].
      intros _ s3 Hs3. apply affords_of_atMost, atMost_incrementCounts.
Qed.

Lemma affords_worker fuel jobId s :
  queued s < fuel -> affords (worker env fuel jobId) 0 s.
Proof.
  revert s. induction fuel as [|fuel IH]; intros s Hq; [lia|].
  cbn [worker taskBind gets affords].
  unfold queued in Hq.
  destruct (sh_queue s) as [|[index record] rest] eqn:Eq; [exact I|].
  cbn [List.length] in Hq.
  apply affords_modify.
  - unfold queued, setQueue. cbn [sh_queue]. rewrite Eq. cbn [List.length]. lia.
  - replace (0 + 9 * (queued s - queued (setQueue rest s))) with (9 + 0)
      by (unfold queued, setQueue; cbn [sh_queue]; rewrite Eq; cbn [List.length]; lia).
    apply affords_then; [apply affords_processCover|].
    intros _ s' Hs'. apply IH.
    unfold queued, setQueue in *. cbn [sh_queue] in Hs'. lia.
Qed.

Lemma settle_settled {V A} (t : Task V A) (s : V) :
  isSettled (snd (settle t s)) = true.
Proof.
  revert s. induction t as [a|e| |g IH|s0 next IH|C op g IHg h IHh];
    intro s; cbn [settle snd isSettled]; auto.
Qed.

Lemma affords_settle {A} (t : Task Shared A) c s :
  affords t c s ->
  exists c',
    affords (snd (settle t s)) c' (fst (settle t s))
    /\ c' + 9 * queued (fst (settle t s)) <= c + 9 * queued s
    /\ queued (fst (settle t s)) <= queued s.
Proof.
  revert c s. induction t as [a|e| |g IH|s0 next IH|C op g IHg h IHh];
    intros c s Ht; cbn [settle fst snd];
    try (exists c; split; [exact Ht | split; lia]).
  - apply IH. exact Ht.
  - cbn [affords] in Ht. destruct Ht as [Hq Hnext].
    destruct (IH _ _ Hnext) as (c' & Hc' & Hle & Hq').
    exists c'. split; [exact Hc' | split; lia].
Qed.

Lemma affords_shrink {A} (t : Task Shared A) c s s' :
  isSettled t = true -> affords t c s -> queued s' <= queued s -> affords t c s'.
Proof.
  intros Hset Ht Hq. destruct t as [a|e| |g|s0 next|C op g h];
    cbn [isSettled affords] in *; try discriminate; auto.
  destruct c as [|c0]; [exact Ht|].
  intros s'' Hs''. apply Ht. lia.
Qed.

Lemma pendingFrom_spec {V A} (tasks : list (Task V A)) from i :
  In i (pendingFrom from tasks) ->
  from <= i /\ exists t, nth_error tasks (i - from) = Some t /\ isPending t = true.
Proof.
  revert from. induction tasks as [|t tasks IH]; intros from Hin;
    cbn [pendingFrom] in Hin; [contradiction|].
  assert (Hrest : In i (pendingFrom (S from) tasks) ->
                  from <= i /\ exists t0, nth_error (t :: tasks) (i - from) = Some t0
                                          /\ isPending t0 = true).
  { intro H. destruct (IH _ H) as (Hle & t0 & Hnth & Hp). split; [lia|].
    exists t0. split; [|exact Hp].
    replace (i - from) with (S (i - S from)) by lia. exact Hnth. }
  destruct (isPending t) eqn:Ep; [|now apply Hrest].
  destruct Hin as [<- | Hin]; [|now apply Hrest].
  split; [lia|]. exists t. rewrite Nat.sub_diag. auto.
Qed.

Lemma chosen_in (l : list nat) first x :
  In (nth (x mod List.length (first :: l)) (first :: l) first) (first :: l).
Proof. apply nth_In. apply Nat.mod_upper_bound. cbn. lia. Qed.

Lemma list_sum_replaceNth i c c' (cs : list nat) :
  nth_error cs i = Some c ->
  list_sum (replaceNth i c' cs) + c = list_sum cs + c'.
Proof.
  revert i. induction cs as [|x cs IH]; intros i Hnth.
  - destruct i; discriminate.
  - destruct i as [|i]; cbn [nth_error replaceNth] in *.
    + injection Hnth as ->.
      change (c' + list_sum cs + c = c + list_sum cs + c'). lia.
    + specialize (IH i Hnth).
      change (x + list_sum (replaceNth i c' cs) + c = x + list_sum cs + c'). lia.
Qed.

Lemma Forall2_replaceNth {X Y} (R : X -> Y -> Prop) i x y l1 l2 :
  Forall2 R l1 l2 -> R x y -> Forall2 R (replaceNth i x l1) (replaceNth i y l2).
Proof.
  intros H Hxy. revert i. induction H as [|a b l1 l2 Hab H IH]; intro i;
    cbn [replaceNth]; [destruct i; constructor|].
  destruct i; constructor; auto.
Qed.

Lemma Forall2_nth_error {X Y} (R : X -> Y -> Prop) i x l1 l2 :
  Forall2 R l1 l2 -> nth_error l1 i = Some x ->
  exists y, nth_error l2 i = Some y /\ R x y.
Proof.
  intro H. revert i. induction H as [|a b l1 l2 Hab H IH]; intros i Hnth.
  - destruct i; discriminate.
  - destruct i as [|i]; cbn [nth_error] in *.
    + injection Hnth as ->. eauto.
    + apply IH. exact Hnth.
Qed.

Lemma no_stall {A} (tasks : list (Task Shared A)) cs s :
  Forall2 (fun t c => isSettled t = true /\ affords t c s) tasks cs ->
  existsb isStalled tasks = false.
Proof.
  induction 1 as [|t c tasks cs [_ Ht] H IH]; cbn [existsb]; [reflexivity|].
  rewrite IH, orb_false_r. destruct t; cbn in *; auto. contradiction.
Qed.

(** With its budget covered by the fuel, the event loop does not run out
    of it. *)
Lemma promiseAll_ends {A} fuel turn (tasks : list (Task Shared A)) cs s w :
  Forall (awaitsOnly (@ends)) tasks ->
  Forall2 (fun t c => isSettled t = true /\ affords t c s) tasks cs ->
  list_sum cs + 9 * queued s <= fuel ->
  fst (promiseAll env fuel turn tasks s w) <> OutOfFuel.
Proof.
  revert turn tasks cs s w.
  induction fuel as [|fuel IH]; intros turn tasks cs s w Hends Hinv Hfuel;
    cbn [promiseAll];
    (destruct (firstRejection tasks); [discriminate|]);
    rewrite (no_stall _ _ _ Hinv);
    (destruct (pendingFrom 0 tasks) as [|first others] eqn:Ep; [discriminate|]).
  - exfalso.
    assert (Hin : In first (pendingFrom 0 tasks)) by (rewrite Ep; now left).
    destruct (pendingFrom_spec _ _ _ Hin) as (_ & t & Hnth & Hpend).
    destruct (Forall2_nth_error _ _ _ _ _ Hinv Hnth) as (c & Hc & _ & Hafford).
    pose proof (list_sum_replaceNth _ _ 0 _ Hc) as Hsum.
    destruct t; try discriminate. cbn [affords] in Hafford.
    destruct c; [exact Hafford | lia].
  - cbv zeta.
    set (chosen := nth _ (first :: others) first).
    assert (Hin : In chosen (pendingFrom 0 tasks))
      by (rewrite Ep; apply chosen_in).
    destruct (pendingFrom_spec _ _ _ Hin) as (_ & t & Hnth & Hpend).
    rewrite Nat.sub_0_r in Hnth.
    rewrite (nth_error_nth _ _ Stall Hnth).
    destruct (Forall2_nth_error _ _ _ _ _ Hinv Hnth) as (c & Hc & _ & Hafford).
    pose proof (proj1 (Forall_forall _ _) Hends t (nth_error_In _ _ Hnth)) as Hquiet.
    destruct t as [a|e| |g|s0 next|C op g h]; try discriminate.
    cbn [affords awaitsOnly] in Hafford, Hquiet.
    destruct Hquiet as (Hop & Hg & Hh).
    destruct c as [|c0]; [contradiction|].
    destruct (Hafford s (Nat.le_refl _)) as [Hk Hhandler].
    unfold bind, resume. specialize (Hop w).
    destruct (op w) as [[b|e|] w1]; cbn [fst] in Hop; [| |congruence].
    + destruct (affords_settle _ _ _ (Hk b)) as (c' & Hc' & Hle & Hq).
      cbn [fst snd].
      apply (IH _ _ (replaceNth chosen c' cs)).
      * apply Forall_replaceNth; [apply awaitsOnly_settle, Hg | exact Hends].
      * apply Forall2_replaceNth.
        -- eapply Forall2_impl; [|exact Hinv]. cbn beta.
           intros t c [Hset Ht]. split; [exact Hset|].
           eapply affords_shrink; eassumption.
        -- split; [apply settle_settled | exact Hc'].
      * pose proof (list_sum_replaceNth _ _ c' _ Hc). lia.
    + destruct (affords_settle _ _ _ (Hhandler e)) as (c' & Hc' & Hle & Hq).
      cbn [fst snd].
      apply (IH _ _ (replaceNth chosen c' cs)).
      * apply Forall_replaceNth; [apply awaitsOnly_settle, Hh | exact Hends].
      * apply Forall2_replaceNth.
        -- eapply Forall2_impl; [|exact Hinv]. cbn beta.
           intros t c [Hset Ht]. split; [exact Hset|].
           eapply affords_shrink; eassumption.
        -- split; [apply settle_settled | exact Hc'].
      * pose proof (list_sum_replaceNth _ _ c' _ Hc). lia.
Qed.


Lemma ends_workerCalls : workerCalls env (@ends).
Proof.
  unfold workerCalls, ends, jobIssueCreate, jobFindUnique, jobUpdate, fetchUrl,
    arrayBuffer, storageWrite, bind, nextTick, throw, ret.
  repeat split; intros; cbn beta.
  - destruct (env_dbFails env (w_tick w)); discriminate.
  - destruct (env_dbFails env (w_tick w)); discriminate.
  - destruct (env_dbFails env (w_tick w)); [discriminate|].
    destruct (w_job (nextTickWorld w)) as [j|]; [|discriminate].
    destruct (String.eqb (job_id j) id); discriminate.
  - destruct (env_fetch env (w_tick w) url); discriminate.
  - destruct (resp_bytes response); discriminate.
  - destruct (env_storageFails env (w_tick w)); discriminate.
Qed.

Lemma startAll_budget {A} (tasks : list (Task Shared A)) s :
  Forall (fun t => forall s', queued s' <= queued s -> affords t 0 s') tasks ->
  exists cs,
    Forall2 (fun t c => isSettled t = true /\ affords t c (fst (startAll tasks s)))
            (snd (startAll tasks s)) cs
    /\ list_sum cs + 9 * queued (fst (startAll tasks s)) <= 9 * queued s
    /\ queued (fst (startAll tasks s)) <= queued s.
Proof.
  revert s. induction tasks as [|t tasks IH]; intros s Hall; cbn [startAll].
  - exists []. cbn. split; [constructor | lia].
  - destruct (affords_settle t 0 s (Forall_inv Hall s (Nat.le_refl _)))
      as (c & Hc & Hle & Hq).
    pose proof (settle_settled t s) as Hset.
    destruct (settle t s) as [s1 t']. cbn [fst snd] in *.
    destruct (IH s1) as (cs & Hcs & Hsum & Hq2).
    { eapply Forall_impl; [|exact (Forall_inv_tail Hall)]. cbn beta.
      intros t0 Ht0 s' Hs'. apply Ht0. lia. }
    destruct (startAll tasks s1) as [s2 rest']. cbn [fst snd] in *.
    exists (c :: cs). split; [|change (list_sum (c :: cs)) with (c + list_sum cs); lia].
    constructor; [|exact Hcs].
    split; [exact Hset|]. eapply affords_shrink; eassumption.
Qed.

Lemma ends_downloadCovers records jobId : ends (downloadCovers env records jobId).
Proof.
  unfold downloadCovers. intro w. unfold bind at 1.
  pose proof (proj1 (proj2 (proj2 ends_workerCalls)) jobId) as Hupdate.
  match goal with
  | |- context [jobUpdate env jobId ?u w] =>
      specialize (Hupdate u eq_refl eq_refl w);
      destruct (jobUpdate env jobId u w) as [[[]|e|] w0]
  end; cbn [fst] in *; [|discriminate|congruence].
  cbv zeta. unfold bind.
  set (s0 := mkShared _ records false).
  set (tasks := repeat _ concurrency).
  destruct (startAll_budget tasks s0) as (cs & Hcs & Hsum & _).
  { apply Forall_forall. intros t Ht. apply repeat_spec in Ht. subst t.
    intros s' Hs'. apply affords_worker.
    unfold queued, s0 in *. cbn [sh_queue] in Hs'.
    rewrite length_combine, length_seq, Nat.min_id in Hs'. lia. }
  assert (Hq0 : queued s0 = List.length records).
  { unfold queued, s0. cbn [sh_queue].
    now rewrite length_combine, length_seq, Nat.min_id. }
  pose proof (promiseAll_ends (9 * List.length records) 0
                (snd (startAll tasks s0)) cs (fst (startAll tasks s0)) w0) as Hend.
  destruct (promiseAll env (9 * List.length records) 0 (snd (startAll tasks s0))
              (fst (startAll tasks s0)) w0) as [[s1|e|] w1];
    cbn [fst] in *; try discriminate.
  exfalso. apply Hend; [| exact Hcs | lia | reflexivity].
  apply awaitsOnly_startAll.
  apply Forall_forall. intros t Ht. apply repeat_spec in Ht. subst t.
  apply awaitsOnly_worker, ends_workerCalls.
Qed.


Lemma runTask_settle {V A} (t : Task V A) (s : V) :
  runTask (snd (settle t s)) (fst (settle t s)) = runTask t s.
Proof.
  revert s. induction t as [a|e| |g IH|s0 next IH|C op g IHg h IHh];
    intro s; cbn [settle fst snd runTask]; auto.
Qed.

Lemma runTask_bind {V A B} (t : Task V A) (k : A -> Task V B) s w :
  runTask (taskBind t k) s w
  = match runTask t s w with
    | (Returned r, w') => runTask (k (snd r)) (fst r) w'
    | (Thrown e, w') => (Thrown e, w')
    | (OutOfFuel, w') => (OutOfFuel, w')
    end.
Proof.
  revert s w. induction t as [a|e| |g IH|s0 next IH|C op g IHg h IHh];
    intros s w; cbn [taskBind runTask]; auto.
  destruct (op w) as [[b|e|] w1]; auto.
Qed.

Lemma idle_firstRejection {V A} (a : A) n :
  firstRejection (repeat (@Resolve V A a) n) = None.
Proof. induction n; cbn; auto. Qed.

Lemma idle_isStalled {V A} (a : A) n :
  existsb isStalled (repeat (@Resolve V A a) n) = false.
Proof. induction n; cbn; auto. Qed.

Lemma idle_pendingFrom {V A} (a : A) n from :
  pendingFrom from (repeat (@Resolve V A a) n) = [].
Proof. revert from. induction n; intro from; cbn; auto. Qed.

(** With one task among fulfilled ones, the event loop runs that task
    alone. *)
Lemma promiseAll_alone {V A} fuel turn (t : Task V A) a n s w :
  isSettled t = true ->
  fst (promiseAll env fuel turn (t :: repeat (Resolve a) n) s w) <> OutOfFuel ->
  promiseAll env fuel turn (t :: repeat (Resolve a) n) s w
  = bind (runTask t s) (fun r => ret (fst r)) w.
Proof.
  revert turn t s w. induction fuel as [|fuel IH]; intros turn t s w Hset;
    destruct t as [a0|e| |g|s0 next|C op g h]; try discriminate;
    cbn [promiseAll firstRejection existsb isStalled pendingFrom isPending orb];
    rewrite ?idle_firstRejection, ?idle_isStalled, ?idle_pendingFrom;
    intro Hend; try reflexivity; try (exfalso; apply Hend; reflexivity).
  cbv zeta in *. cbn [List.length] in *. rewrite Nat.mod_1_r in *.
  cbn [nth replaceNth] in *.
  unfold bind at 1 in Hend. unfold bind at 1. unfold resume in *.
  unfold bind at 1. cbn [runTask].
  destruct (op w) as [[b|e|] w1]; cbn [fst snd] in *; try reflexivity.
  - rewrite IH; [|apply settle_settled | exact Hend].
    unfold bind. now rewrite runTask_settle.
  - rewrite IH; [|apply settle_settled | exact Hend].
    unfold bind. now rewrite runTask_settle.
Qed.


(** *** A record processed alone *)

Lemma retryLoop_failed {V} remaining attempt attempts url (s : V) w :
  (S remaining + attempt = attempts)%nat ->
  attemptFails (env_fetch env (w_tick w) url) = true ->
  runTask (retryLoop env (S remaining) attempt attempts url) s w
  = runTask (retryLoop env remaining (attempt + 1) attempts url) s (nextTickWorld w).
Proof.
  intros Hinv Hfail. cbn [retryLoop taskBind taskCatch await runTask].
  unfold fetchUrl, bind, nextTick.
  assert (Hlast : remaining = 0%nat ->
                  (Returned (s, @None Download), nextTickWorld w)
                  = runTask (retryLoop env remaining (attempt + 1) attempts url) s
                            (nextTickWorld w))
    by (intros ->; reflexivity).
  destruct (env_fetch env (w_tick w) url) as [|response]; cbn [attemptFails] in Hfail.
  - cbn [throw taskCatch taskBind runTask].
    destruct (Nat.eqb_spec attempt (attempts - 1)); cbn [taskBind runTask];
      [apply Hlast; lia | reflexivity].
  - cbn [ret taskCatch taskBind runTask].
    destruct (resp_ok response); cbn [negb orb] in *;
      cbn [taskCatch taskBind runTask]; [|reflexivity].
    unfold arrayBuffer.
    destruct (resp_bytes response); [discriminate|].
    cbn [throw taskCatch taskBind runTask].
    destruct (Nat.eqb_spec attempt (attempts - 1)); cbn [taskBind runTask];
      [apply Hlast; lia | reflexivity].
Qed.

Lemma retryLoop_succeeded {V} remaining attempt attempts url (s : V) w :
  attemptFails (env_fetch env (w_tick w) url) = false ->
  exists download,
    runTask (retryLoop env (S remaining) attempt attempts url) s w
    = (Returned (s, Some download), nextTickWorld w).
Proof.
  intro Hok. cbn [retryLoop taskBind taskCatch await runTask].
  unfold fetchUrl, bind, nextTick.
  destruct (env_fetch env (w_tick w) url) as [|response]; cbn [attemptFails] in Hok;
    [discriminate|].
  cbn [ret taskCatch taskBind runTask].
  destruct (resp_ok response); cbn [negb orb] in *; [|discriminate].
  cbn [taskCatch taskBind runTask]. unfold arrayBuffer.
  destruct (resp_bytes response) as [bytes|]; [|discriminate].
  cbn [ret taskCatch taskBind runTask].
  eexists. reflexivity.
Qed.

Hypothesis job_store_works : forall t, env_dbFails env t = false.
Hypothesis byte_store_works : forall t, env_storageFails env t = false.

(** [incrementCounts] run alone on a job that is there adds the deltas. *)
Lemma incrementCounts_adds {V} jobId delta job (s : V) w :
  w_job w = Some job -> job_id job = jobId ->
  exists w',
    runTask (incrementCounts env jobId delta) s w = (Returned (s, tt), w')
    /\ w_issues w' = w_issues w
    /\ countOf productsProcessed w'
       = (countOf productsProcessed w + orZero (productsProcessed delta))%Z
    /\ countOf imagesDownloaded w'
       = (countOf imagesDownloaded w + orZero (imagesDownloaded delta))%Z
    /\ countOf imagesFailed w'
       = (countOf imagesFailed w + orZero (imagesFailed delta))%Z.
Proof.
  intros Hjob Hid.
  unfold incrementCounts. cbn [taskBind await runTask].
  unfold jobFindUnique, jobUpdate, nextTick, bind.
  rewrite job_store_works. cbn beta iota. cbn [nextTickWorld w_tick w_job].
  rewrite Hjob, Hid, String.eqb_refl. cbn [taskBind runTask].
  rewrite job_store_works.
  cbn [nextTickWorld w_tick w_job]. rewrite Hjob, Hid, String.eqb_refl.
  cbn [taskBind runTask ret].
  eexists. split; [reflexivity|]. unfold countOf.
  cbn [logUpdate setJob w_job w_issues applyUpdate job_countsJson job_id
       u_countsJson nextTickWorld].
  rewrite Hjob.
  split; [reflexivity|].
  cbn [productsProcessed imagesDownloaded imagesFailed orZero nullish].
  destruct (job_countsJson job); repeat split.
Qed.

(** A record with a cover URL that is processed alone, the job store and
    the byte store working.  When the first two fetch
    attempts fail (the call throws, the response is not ok, or its body
    cannot be read): if the third succeeds, no issue is recorded, the record
    gets its cover, and imagesDownloaded and productsProcessed each grow by
    one; if the third fails too, exactly one IMAGE_DOWNLOAD_FAILED issue is
    recorded for the record, the flag is raised, and imagesFailed and
    productsProcessed each grow by one. *)
Lemma processCover_alone jobId index record url job s w :
  coverUrl record = Some url -> truthyStr url = true ->
  w_job w = Some job -> job_id job = jobId ->
  attemptFails (env_fetch env (w_tick w) url) = true ->
  attemptFails (env_fetch env (w_tick w + 1) url) = true ->
  (attemptFails (env_fetch env (w_tick w + 2) url) = false ->
   exists path name w',
     runTask (processCover env jobId index record) s w
     = (Returned (setRecord index (withCover record path name) s, tt), w')
     /\ w_issues w' = w_issues w
     /\ countOf imagesDownloaded w' = (countOf imagesDownloaded w + 1)%Z
     /\ countOf productsProcessed w' = (countOf productsProcessed w + 1)%Z
     /\ countOf imagesFailed w' = countOf imagesFailed w)
  /\ (attemptFails (env_fetch env (w_tick w + 2) url) = true ->
      exists issue w',
        runTask (processCover env jobId index record) s w
        = (Returned (setHasFailures true s, tt), w')
        /\ w_issues w' = (w_issues w ++ [issue])%list
        /\ issue_type issue = IMAGE_DOWNLOAD_FAILED
        /\ issue_productId issue = productId record
        /\ countOf imagesFailed w' = (countOf imagesFailed w + 1)%Z
        /\ countOf productsProcessed w' = (countOf productsProcessed w + 1)%Z
        /\ countOf imagesDownloaded w' = countOf imagesDownloaded w).
Proof.
  intros Hurl Htruthy Hjob Hid Hf0 Hf1.
  set (w1 := nextTickWorld w). set (w2 := nextTickWorld w1).
  set (w3 := nextTickWorld w2).
  assert (Hloop : forall s0 : Shared,
             runTask (retryLoop env 3 0 3 url) s0 w
             = runTask (retryLoop env 1 2 3 url) s0 w2).
  { intro s0.
    rewrite (retryLoop_failed 2 0 3 url s0 w) by (reflexivity || assumption).
    apply (retryLoop_failed 1 1 3 url s0 w1); [reflexivity|].
    cbn [w1 nextTickWorld w_tick]. now rewrite <- Nat.add_1_r. }
  assert (Htick : w_tick w2 = (w_tick w + 2)%nat) by (cbn; lia).
  unfold processCover. rewrite Hurl. cbn [truthyOpt nullish]. rewrite Htruthy.
  cbn [negb]. unfold downloadWithRetry.
  split; intro Hthird; rewrite runTask_bind, Hloop.
  - destruct (retryLoop_succeeded 0 2 3 url s w2) as [download ->];
      [now rewrite Htick|].
    fold w3. cbn [fst snd]. cbv zeta.
    rewrite runTask_bind. cbn [await runTask].
    unfold storageWrite, nextTick, bind at 1.
    rewrite byte_store_works. cbn beta iota. cbn [runTask ret fst snd].
    rewrite runTask_bind. cbn [modify runTask ret fst snd].
    set (w4 := putStorage _ _ _).
    destruct (incrementCounts_adds jobId downloadedDelta job
                (setRecord index
                   (withCover record
                      ("jobs/" ^^ jobId ^^ "/images/products/"
                       ^^ nullish (handle record) (productId record)
                       ^^ "/cover." ^^ nullish (dl_extension download) "jpg")
                      ("images/" ^^ nullish (handle record) (productId record)
                       ^^ "." ^^ nullish (dl_extension download) "jpg")) s) w4)
      as (w5 & Hrun & Hissues & Hp & Hd & Hfl); [exact Hjob | exact Hid|].
    rewrite Hrun.
    eexists. eexists. exists w5. split; [reflexivity|].
    split; [exact Hissues|]. rewrite Hd, Hp, Hfl. cbn [orZero nullish downloadedDelta
      productsProcessed imagesDownloaded imagesFailed].
    repeat split. apply Z.add_0_r.
  - rewrite (retryLoop_failed 0 2 3 url s w2) by (reflexivity || now rewrite Htick).
    cbn [retryLoop runTask ret fst snd]. fold w3.
    rewrite runTask_bind. cbn [modify runTask ret fst snd].
    rewrite runTask_bind. unfold createIssue. cbn [await runTask].
    unfold jobIssueCreate, nextTick, bind at 1.
    rewrite job_store_works. cbn beta iota. cbn [runTask ret fst snd].
    set (w4 := addIssue _ _).
    destruct (incrementCounts_adds jobId failedDelta job (setHasFailures true s) w4)
      as (w5 & Hrun & Hissues & Hp & Hd & Hfl); [exact Hjob | exact Hid|].
    rewrite Hrun.
    eexists. exists w5. split; [reflexivity|].
    split; [rewrite Hissues; reflexivity|].
    rewrite Hd, Hp, Hfl. cbn [orZero nullish failedDelta
      productsProcessed imagesDownloaded imagesFailed issue_type issue_productId].
    repeat split. apply Z.add_0_r.
Qed.


Lemma startAll_cons {V A} (t : Task V A) rest s :
  startAll (t :: rest) s
  = (fst (startAll rest (fst (settle t s))),
     snd (settle t s) :: snd (startAll rest (fst (settle t s)))).
Proof.
  cbn [startAll]. destruct (settle t s) as [s1 t']. cbn [fst snd].
  now destruct (startAll rest s1).
Qed.

Lemma startAll_repeat {V A} (t : Task V A) a n s :
  settle t s = (s, Resolve a) ->
  startAll (repeat t n) s = (s, repeat (Resolve a) n).
Proof.
  intro Ht. induction n as [|n IH]; [reflexivity|].
  cbn [repeat]. rewrite startAll_cons, Ht. cbn [fst snd]. now rewrite IH.
Qed.

Lemma startAll_idle fuel jobId n s :
  sh_queue s = [] ->
  startAll (repeat (worker env (S fuel) jobId) n) s = (s, repeat (Resolve tt) n).
Proof.
  intro Hq. apply startAll_repeat.
  cbn [worker taskBind gets settle]. now rewrite Hq.
Qed.

Lemma settle_processCover {B} jobId index record url (k : unit -> Task Shared B) s :
  coverUrl record = Some url -> truthyStr url = true ->
  fst (settle (taskBind (processCover env jobId index record) k) s) = s.
Proof.
  intros Hurl Htruthy. unfold processCover. rewrite Hurl.
  cbn [truthyOpt nullish]. rewrite Htruthy. reflexivity.
Qed.

Lemma jobUpdate_returns id u job w :
  w_job w = Some job -> job_id job = id ->
  jobUpdate env id u w
  = (Returned tt, logUpdate u (setJob (Some (applyUpdate u job)) (nextTickWorld w))).
Proof.
  intros Hjob Hid. unfold jobUpdate, bind, nextTick.
  rewrite job_store_works. cbn [nextTickWorld w_job].
  now rewrite Hjob, Hid, String.eqb_refl.
Qed.

(** The same of [downloadCovers] on a single record. *)
Lemma downloadCovers_single_record jobId record url job w :
  coverUrl record = Some url -> truthyStr url = true ->
  w_job w = Some job -> job_id job = jobId ->
  attemptFails (env_fetch env (w_tick w + 1) url) = true ->
  attemptFails (env_fetch env (w_tick w + 2) url) = true ->
  (attemptFails (env_fetch env (w_tick w + 3) url) = false ->
   exists path name w',
     downloadCovers env [record] jobId w
     = (Returned ([withCover record path name], false), w')
     /\ w_issues w' = w_issues w
     /\ countOf imagesDownloaded w' = 1%Z
     /\ countOf productsProcessed w' = 1%Z
     /\ countOf imagesFailed w' = 0%Z)
  /\ (attemptFails (env_fetch env (w_tick w + 3) url) = true ->
      exists issue w',
        downloadCovers env [record] jobId w = (Returned ([record], true), w')
        /\ w_issues w' = (w_issues w ++ [issue])%list
        /\ issue_type issue = IMAGE_DOWNLOAD_FAILED
        /\ issue_productId issue = productId record
        /\ countOf imagesFailed w' = 1%Z
        /\ countOf productsProcessed w' = 1%Z
        /\ countOf imagesDownloaded w' = 0%Z).
Proof.
  intros Hurl Htruthy Hjob Hid Hf1 Hf2.
  set (s1 := setQueue [] (mkShared [(0%nat, record)] [record] false)).
  set (task := taskBind (processCover env jobId 0 record)
                        (fun _ => worker env 1 jobId)).
  assert (Hmain : exists job0 w0,
             w_job w0 = Some job0 /\ job_id job0 = jobId
             /\ w_tick w0 = (w_tick w + 1)%nat
             /\ w_issues w0 = w_issues w
             /\ countOf imagesDownloaded w0 = 0%Z
             /\ countOf productsProcessed w0 = 0%Z
             /\ countOf imagesFailed w0 = 0%Z
             /\ downloadCovers env [record] jobId w
                = bind (runTask task s1)
                       (fun r => ret (sh_records (fst r), sh_hasFailures (fst r))) w0).
  { pose proof (ends_downloadCovers [record] jobId w) as Hends.
    unfold downloadCovers in *. unfold bind at 1 in Hends. unfold bind at 1.
    rewrite (jobUpdate_returns _ _ job) in * by assumption.
    set (w0 := logUpdate _ _) in *.
    exists (applyUpdate
              {| u_status := None; u_progressPercent := None; u_currentStep := None;
                 u_countsJson :=
                   Some {| productsTotal := Some (Z.of_nat (List.length [record]));
                           productsProcessed := Some 0%Z;
                           imagesDownloaded := Some 0%Z;
                           imagesFailed := Some 0%Z |};
                 u_errorSummary := None; u_startedAt := None;
                 u_finishedAt := None |} job), w0.
    split; [reflexivity|]. split; [exact Hid|].
    split; [cbn; lia|]. do 4 (split; [reflexivity|]).
    clearbody w0. cbv zeta in *.
    cbn [List.length seq combine concurrency repeat] in *.
    set (s0 := mkShared [(0%nat, record)] [record] false) in *.
    assert (Hstart : startAll (worker env 2 jobId :: repeat (worker env 2 jobId) 4) s0
                     = (s1, snd (settle task s1) :: repeat (Resolve tt) 4)).
    { rewrite startAll_cons.
      change (settle (worker env 2 jobId) s0) with (settle task s1).
      unfold task. rewrite (settle_processCover _ _ _ url) by assumption.
      now rewrite startAll_idle. }
    change (worker env 2 jobId
            :: worker env 2 jobId :: worker env 2 jobId :: worker env 2 jobId
            :: [worker env 2 jobId])
      with (worker env 2 jobId :: repeat (worker env 2 jobId) 4) in *.
    rewrite Hstart in *. cbn [fst snd] in *.
    unfold bind at 1 in Hends. unfold bind at 1.
    rewrite promiseAll_alone; [|apply settle_settled|].
    2:{ intro Hout. apply Hends.
        destruct (promiseAll env (9 * 1) 0 _ s1 w0) as [[sh|e|] w1];
          cbn [fst] in *; congruence. }
    assert (Hrun : runTask (snd (settle task s1)) s1 = runTask task s1).
    { rewrite <- (runTask_settle task s1). unfold task.
      now rewrite (settle_processCover _ _ _ url). }
    unfold bind. rewrite Hrun.
    destruct (runTask task s1 w0) as [[r|e|] w1]; reflexivity. }
  destruct Hmain as (job0 & w0 & Hjob0 & Hid0 & Htick0 & Hissues0 & Hd0 & Hp0 & Hfl0
                     & ->).
  unfold bind, task. rewrite runTask_bind.
  destruct (processCover_alone jobId 0 record url job0 s1 w0 Hurl Htruthy Hjob0 Hid0)
    as [Hgood Hbad]; try (rewrite Htick0; now rewrite <- ?Nat.add_assoc).
  split; intro Hthird.
  - destruct Hgood as (path & name & w' & Hout & Hissues & Hd & Hp & Hfl).
    { rewrite Htick0, <- Nat.add_assoc. exact Hthird. }
    exists path, name, w'. rewrite Hout. cbn. repeat split; congruence || lia.
  - destruct Hbad as (issue & w' & Hout & Hissues & Htype & Hpid & Hfl & Hp & Hd).
    { rewrite Htick0, <- Nat.add_assoc. exact Hthird. }
    exists issue, w'. rewrite Hout. cbn. repeat split; congruence || lia.
Qed.

End PipelineFacts.

(** ** PDF layout: the claims *)

Lemma coversReadable_app readable l1 l2 :
  coversReadable readable (l1 ++ l2) <->
  coversReadable readable l1 /\ coversReadable readable l2.
Proof. apply Forall_app. Qed.

Lemma buildGroupedItems_setWatermarkEnabled b records settings :
  buildGroupedItems records (setWatermarkEnabled b settings)
  = buildGroupedItems records settings.
Proof. destruct settings. reflexivity. Qed.

(** C10: when [watermarkEnabled] is true but [watermarkText] is unset or
    the empty string, [buildPdf] returns exactly what it returns with the
    watermark disabled, and no page of its document carries a watermark
    text. *)
Theorem buildPdf_blank_watermark :
  forall (readable : string -> bool) (fuel : nat)
         (records : list ProductRecord) (settings : ExportSettings),
    watermarkEnabled settings = Some true ->
    watermarkText settings = None \/ watermarkText settings = Some "" ->
    buildPdf readable fuel records settings
    = buildPdf readable fuel records (setWatermarkEnabled (Some false) settings)
    /\ (forall pages,
          buildPdf readable fuel records settings = Some (Ok pages) ->
          Forall (fun p => watermarkTexts p = []) pages).
Proof.
  intros readable fuel records settings Hen Htext.
  assert (Heq : buildPdf readable fuel records settings
                = buildPdf readable fuel records (setWatermarkEnabled (Some false) settings)).
  { unfold buildPdf. rewrite buildGroupedItems_setWatermarkEnabled.
    unfold renderPages, pageDims, watermarkOf.
    cbn [setWatermarkEnabled pageSize layoutType gridColumns watermarkEnabled].
    rewrite Hen.
    set (w := {| wm_text := nullish (watermarkText settings) ""; wm_opacity := _ |}).
    assert (Hblank : forall page, drawWatermark page (Some w) = drawWatermark page None).
    { intro page. apply drawWatermark_blank. subst w. cbn [wm_text].
      destruct Htext as [-> | ->]; reflexivity. }
    destruct (nullish (pageSize settings) A4);
      destruct (nullish (layoutType settings) GRID);
      first [ apply layoutGrid_watermark_ext; exact Hblank
            | f_equal; apply layoutOnePerPage_watermark_ext; exact Hblank ]. }
  split; [exact Heq|].
  intros pages. rewrite Heq. unfold buildPdf, renderPages, pageDims, watermarkOf.
  cbn [setWatermarkEnabled pageSize layoutType gridColumns watermarkEnabled].
  destruct (nullish (pageSize settings) A4);
    destruct (nullish (layoutType settings) GRID); intro H;
    first [ eapply layoutGrid_unmarked; [constructor | exact H]
          | injection H as H; eapply layoutOnePerPage_unmarked; [constructor | exact H] ].
Qed.

(** C2: for every grouped item sequence whose cover files can be read.
    With layout ONE_PER_PAGE the document has exactly one page per item,
    the i-th page showing the i-th item (a header title or one product).
    With layout GRID and [c > 0] columns (the settings allow 2, 3 and 4) the
    layout ends; every header gets one page of its own, carrying its title
    and no product cell, between the pages of what precedes and what follows
    it; and every maximal run of [n] consecutive product items is laid out,
    in order, on exactly [ceil (n / (3 * c))] pages that carry product cells
    only. *)
Theorem buildPdf_page_counts :
  forall (readable : string -> bool) (settings : ExportSettings)
         (items : list GroupedItem),
    coversReadable readable items ->
    (layoutType settings = Some ONE_PER_PAGE ->
     forall fuel, exists pages,
       renderPages readable fuel settings items = Some (Ok pages)
       /\ List.length pages = List.length items
       /\ Forall2 showsItem items pages)
    /\
    (nullish (layoutType settings) GRID = GRID ->
     forall c, nullish (gridColumns settings) 3%nat = c -> (0 < c)%nat ->
       let pagesOf (l : list GroupedItem) (P : list Page) :=
         forall fuel, (List.length l <= fuel)%nat ->
                      renderPages readable fuel settings l = Some (Ok P) in
       (exists pages, pagesOf items pages)
       /\ (forall pre t post,
             items = pre ++ ItemHeader t :: post ->
             exists Ppre hp Ppost,
               pagesOf items (Ppre ++ hp :: Ppost)
               /\ pagesOf pre Ppre /\ pagesOf post Ppost
               /\ headerTitles hp = [t] /\ cellRecords hp = [])
       /\ (forall pre rs post,
             items = pre ++ map ItemProduct rs ++ post ->
             endsWithHeader pre -> startsSection post ->
             exists Ppre Prun Ppost,
               pagesOf items (Ppre ++ Prun ++ Ppost)
               /\ pagesOf pre Ppre /\ pagesOf post Ppost
               /\ Z.of_nat (List.length Prun)
                  = Qceiling (inject_Z (Z.of_nat (List.length rs))
                              / inject_Z (Z.of_nat (3 * c)))
               /\ flat_map cellRecords Prun = rs
               /\ Forall (fun p => headerTitles p = []) Prun)).
Proof.
  intros readable settings items Hread. split.
  - intros Hlayout fuel. unfold renderPages. rewrite Hlayout. cbn [nullish].
    destruct (pageDims settings) as [pw ph].
    destruct (layoutOnePerPage_spec readable pw ph (watermarkOf settings) items [] Hread)
      as (P & HP & Hall).
    exists P. cbn [app] in HP. rewrite HP.
    split; [reflexivity | split; [|assumption]].
    symmetry. eapply Forall2_length, Hall.
  - intros Hlayout c Hcols Hc pagesOf.
    assert (Hrender : forall l fuel,
               renderPages readable fuel settings l
               = layoutGrid readable (fst (pageDims settings)) (snd (pageDims settings))
                   (watermarkOf settings) l c fuel 0 []).
    { intros l fuel. unfold renderPages. rewrite Hlayout, Hcols.
      now destruct (pageDims settings). }
    set (pw := fst (pageDims settings)) in *.
    set (ph := snd (pageDims settings)) in *.
    set (wm := watermarkOf settings) in *.
    (* the pages of any readable list, at every sufficient fuel *)
    assert (Hpages : forall l, coversReadable readable l ->
               exists P, layoutGrid readable pw ph wm l c (List.length l) 0 [] = Some (Ok P)
                         /\ pagesOf l P).
    { intros l Hl.
      destruct (layoutGrid_total readable pw ph wm c Hc l (List.length l) 0%nat [] Hl)
        as [P HP]; try lia.
      exists P. split; [exact HP|]. intros fuel Hfuel. rewrite Hrender.
      eapply layoutGrid_fuel_mono; eassumption. }
    assert (Hof : forall l f P, coversReadable readable l ->
               layoutGrid readable pw ph wm l c f 0 [] = Some (Ok P) -> pagesOf l P).
    { intros l f P Hl HP. destruct (Hpages l Hl) as (P' & HP' & Hof').
      pose proof (layoutGrid_deterministic readable pw ph wm c Hc _ _ _ _ _ HP HP') as [= ->].
      exact Hof'. }
    split; [|split].
    + destruct (Hpages items Hread) as (P & _ & HP). now exists P.
    + intros pre t post ->.
      apply coversReadable_app in Hread. destruct Hread as [Hpre Hpost].
      pose proof (Forall_inv_tail Hpost) as Hpost'.
      destruct (Hpages pre Hpre) as (Ppre & Lpre & Opre).
      destruct (Hpages post Hpost') as (Ppost & Lpost & Opost).
      set (hp := drawHeaderPage (drawWatermark (addPage pw ph) wm) t).
      exists Ppre, hp, Ppost.
      pose proof (layoutGrid_header readable pw ph wm c t post (List.length post)) as Hh.
      rewrite Lpost in Hh. cbn [prependPages app] in Hh.
      pose proof (layoutGrid_app readable pw ph wm c Hc pre (ItemHeader t :: post)
                    _ _ _ _ eq_refl Lpre Hh) as Hall.
      split; [|split; [assumption | split; [assumption | apply header_page_shows]]].
      eapply Hof; [|exact Hall].
      apply coversReadable_app. split; assumption.
    + intros pre rs post -> Hends Hstarts.
      pose proof Hread as Hread0.
      apply coversReadable_app in Hread. destruct Hread as [Hpre Hrest].
      pose proof Hrest as Hrest0.
      apply coversReadable_app in Hrest. destruct Hrest as [Hrun Hpost].
      destruct (Hpages pre Hpre) as (Ppre & Lpre & Opre).
      destruct (Hpages post Hpost) as (Ppost & Lpost & Opost).
      destruct (layoutGrid_run readable pw ph wm c Hc rs (List.length rs) 0%nat [] Hrun)
        as (Prun & Lrun & Hlen & Hcells & Hhead); try lia.
      cbn [app] in Lrun.
      pose proof (layoutGrid_app readable pw ph wm c Hc (map ItemProduct rs) post
                    _ _ _ _ Hstarts Lrun Lpost) as Hrp.
      destruct (layoutGrid_app_header readable pw ph wm c Hc pre _ _ _ _ _
                  Hpre Hends Lpre Hrp) as [f Hall].
      exists Ppre, Prun, Ppost.
      split; [eapply Hof; eassumption|].
      split; [assumption | split; [assumption|]].
      split; [|split; assumption].
      rewrite Hlen, Nat.sub_0_r. apply ceilDiv_Qceiling. lia.
Qed.

Lemma buildPdf_blank_watermark_witness :
  watermarkEnabled sampleBlankWatermark = Some true
  /\ (watermarkText sampleBlankWatermark = None
      \/ watermarkText sampleBlankWatermark = Some "")
  /\ buildPdf allReadable 4 sampleRun sampleBlankWatermark
     = buildPdf allReadable 4 sampleRun
         (setWatermarkEnabled (Some false) sampleBlankWatermark).
Proof.
  split; [reflexivity | split; [right; reflexivity|]].
  apply (buildPdf_blank_watermark allReadable 4 sampleRun sampleBlankWatermark);
    [reflexivity | right; reflexivity].
Defined.

Example sampleItems_grid_pages :
  option_map (fun r => match r with
                       | Ok pages => map (fun p => (headerTitles p, map productId (cellRecords p))) pages
                       | Throw _ => []
                       end)
             (renderPages allReadable 10 sampleGridSettings sampleItems)
  = Some [ (["A"], []);
           ([], ["p1"; "p2"; "p3"; "p4"; "p5"; "p6"]);
           ([], ["p7"]);
           (["B"], []);
           ([], ["p8"]) ].
Proof. vm_compute. reflexivity. Qed.

Lemma sampleItems_readable : coversReadable allReadable sampleItems.
Proof. repeat constructor. Qed.

Lemma buildPdf_page_counts_witness :
  coversReadable allReadable sampleItems
  /\ nullish (layoutType sampleGridSettings) GRID = GRID
  /\ (0 < 2)%nat
  /\ exists Ppre Prun Ppost,
       (forall fuel, (List.length sampleItems <= fuel)%nat ->
          renderPages allReadable fuel sampleGridSettings sampleItems
          = Some (Ok (Ppre ++ Prun ++ Ppost)))
       /\ Z.of_nat (List.length Prun)
          = Qceiling (inject_Z (Z.of_nat (List.length sampleRun))
                      / inject_Z (Z.of_nat (3 * 2)))
       /\ flat_map cellRecords Prun = sampleRun.
Proof.
  split; [exact sampleItems_readable | split; [reflexivity | split; [lia|]]].
  destruct (buildPdf_page_counts allReadable sampleGridSettings sampleItems
              sampleItems_readable) as [_ Hgrid].
  destruct (Hgrid eq_refl 2%nat eq_refl ltac:(lia)) as (_ & _ & Hrun).
  destruct (Hrun [ItemHeader "A"] sampleRun
                 [ItemHeader "B"; ItemProduct (sampleRecord "p8")] eq_refl
                 (or_intror (ex_intro _ [] (ex_intro _ "A" eq_refl))) eq_refl)
    as (Ppre & Prun & Ppost & Hall & _ & _ & Hlen & Hcells & _).
  exists Ppre, Prun, Ppost. auto.
Defined.

(** ** Whole runs on the sample shop *)

Example shopRun_partial :
  runDigest (shopRun "COMPLETED" 0 sampleGridSettings)
  = (Returned tt, Some PARTIAL,
     Some (Some (mkCounts (Some 2%Z) (Some 2%Z) (Some 1%Z) (Some 1%Z))),
     checkpoints, [MISSING_COVER],
     [LogBulkStart; LogBulkComplete 2; LogImagesComplete 2 true;
      LogPdfComplete 2; LogZipComplete 39]).
Proof. vm_compute. reflexivity. Qed.

Example shopRun_after_failed_bulk :
  runDigest (shopRun "FAILED" 0 sampleGridSettings)
  = (Returned tt, Some COMPLETED,
     Some (Some (mkCounts (Some 2%Z) (Some 2%Z) (Some 2%Z) (Some 0%Z))),
     checkpoints, [],
     [LogBulkStart; LogBulkFailed "Bulk operation FAILED"; LogFallbackComplete 2;
      LogImagesComplete 2 false; LogPdfComplete 2; LogZipComplete 55]).
Proof. vm_compute. reflexivity. Qed.

(** A bulk operation that never leaves RUNNING: the polling loop gives up
    after the 10 minutes and the run goes on with the paginated query. *)
Example shopRun_after_bulk_timeout :
  runDigest (shopRun "RUNNING" 0 sampleGridSettings)
  = (Returned tt, Some COMPLETED,
     Some (Some (mkCounts (Some 2%Z) (Some 2%Z) (Some 2%Z) (Some 0%Z))),
     checkpoints, [],
     [LogBulkStart; LogBulkFailed "Bulk operation timed out"; LogFallbackComplete 2;
      LogImagesComplete 2 false; LogPdfComplete 2; LogZipComplete 55]).
Proof. vm_compute. reflexivity. Qed.

Lemma runCatalogJob_progress_checkpoints_witness :
  isReturned (fst (shopRun "COMPLETED" 0 sampleGridSettings)) = true
  /\ exists us,
       w_updates (snd (shopRun "COMPLETED" 0 sampleGridSettings))
       = w_updates (shopWorld sampleGridSettings) ++ us
       /\ progressWrites us = checkpoints.
Proof.
  split; [vm_compute; reflexivity|].
  destruct (runCatalogJob_progress_checkpoints
              (shopEnv "COMPLETED" 0) byteCompare shopMetadata shopComposite
              shopZip shopSavePdf decimalToNumber decimalToString shopStringify
              20 "job1" (shopWorld sampleGridSettings))
    as (us & Hu & _ & _ & Hret).
  exists us. split; [exact Hu|]. apply Hret. vm_compute. reflexivity.
Defined.

Lemma runCatalogJob_terminal_status_witness :
  isReturned (fst (shopRun "COMPLETED" 0 sampleGridSettings)) = true
  /\ exists (total : nat) (hasFailures : bool) (job' : Job),
       w_job (snd (shopRun "COMPLETED" 0 sampleGridSettings)) = Some job'
       /\ job_status job' = (if hasFailures then PARTIAL else COMPLETED)
       /\ In (LogImagesComplete total hasFailures)
             (w_console (snd (shopRun "COMPLETED" 0 sampleGridSettings))).
Proof.
  split; [vm_compute; reflexivity|].
  destruct (runCatalogJob_terminal_status
              (shopEnv "COMPLETED" 0) byteCompare shopMetadata shopComposite
              shopZip shopSavePdf decimalToNumber decimalToString shopStringify
              20 "job1" (shopWorld sampleGridSettings))
    as (us & evs & (_ & Hc & _) & _ & Hret & _).
  destruct Hret as (total & h & job' & Hes & Hjob & Hst); [vm_compute; reflexivity|].
  exists total, h, job'. split; [exact Hjob | split; [exact Hst|]].
  unfold shopRun. rewrite Hc. apply in_or_app. right.
  assert (Hin : In (total, h) (imagesCompleteEvents evs)) by (rewrite Hes; now left).
  unfold imagesCompleteEvents in Hin. apply in_flat_map in Hin.
  destruct Hin as (ev & Hev & Hin). destruct ev; try destruct Hin as [[= <- <-] | []];
    try contradiction. exact Hev.
Defined.

Example noSession_run_marked_failed :
  let handled :=
    handleMessage noSessionEnv byteCompare shopMetadata shopComposite shopZip
                  shopSavePdf decimalToNumber decimalToString shopStringify
                  20 (Some "job1") (shopWorld sampleGridSettings) in
  (fst handled,
   option_map job_status (w_job (snd handled)),
   option_map job_errorSummary (w_job (snd handled)),
   statusWrites (w_updates (snd handled)))
  = (Returned tt, Some FAILED,
     Some (Some "Missing offline session for demo.myshopify.com"), [FAILED]).
Proof. vm_compute. reflexivity. Qed.


(** ** Image acquisition: counts under interleaved workers *)

(** C3, on two records whose fetches each fail twice and succeed on the
    third attempt, with the two workers taking turns: both covers are
    stored, both records get their local path, no issue is recorded and
    [hasFailures] stays false, but the job row ends with [productsProcessed]
    and [imagesDownloaded] at 1, not 2.  Each worker read the counts before
    the other wrote them back, so the second write repeats the first. *)
Theorem downloadCovers_loses_count_updates :
  map (fun t => attemptFails (env_fetch turnsEnv t "https://cdn.example/mug.png"))
      [1; 3; 5]%nat = [true; true; false]
  /\ map (fun t => attemptFails (env_fetch turnsEnv t "https://cdn.example/bowl.jpg"))
         [2; 4; 6]%nat = [true; true; false]
  /\ fst turnsRun
     = Returned
         ([ withCover mugRecord "jobs/job1/images/products/mug/cover.png"
                      "images/mug.png";
            withCover bowlRecord "jobs/job1/images/products/bowl/cover.jpg"
                      "images/bowl.jpg" ],
          false)
  /\ w_issues (snd turnsRun) = []
  /\ w_storage (snd turnsRun)
     = [ ("jobs/job1/images/products/bowl/cover.jpg", "JPEG-bytes");
         ("jobs/job1/images/products/mug/cover.png", "PNG-bytes") ]
  /\ map u_countsJson (w_updates (snd turnsRun))
     = [ Some (mkCounts (Some 2%Z) (Some 0%Z) (Some 0%Z) (Some 0%Z));
         Some (mkCounts (Some 2%Z) (Some 1%Z) (Some 1%Z) (Some 0%Z));
         Some (mkCounts (Some 2%Z) (Some 1%Z) (Some 1%Z) (Some 0%Z)) ]
  /\ option_map job_countsJson (w_job (snd turnsRun))
     = Some (Some (mkCounts (Some 2%Z) (Some 1%Z) (Some 1%Z) (Some 0%Z))).
Proof. vm_compute. repeat split. Qed.

(** The whole pipeline on the shop whose bulk operation fails, so that the
    mug and the bowl come from the paginated query, with the two workers
    taking turns: the job is COMPLETED with both covers in the archive, and
    its counts say one product processed of two. *)
Example shopRun_in_turns_undercounts :
  runDigest (runCatalogJob (turnsShopEnv "FAILED" 0) byteCompare
               shopMetadata shopComposite shopZip shopSavePdf
               decimalToNumber decimalToString shopStringify
               20 "job1" (shopWorld sampleGridSettings))
  = (Returned tt, Some COMPLETED,
     Some (Some (mkCounts (Some 2%Z) (Some 1%Z) (Some 1%Z) (Some 0%Z))),
     checkpoints, [],
     [LogBulkStart; LogBulkFailed "Bulk operation FAILED"; LogFallbackComplete 2;
      LogImagesComplete 2 false; LogPdfComplete 2; LogZipComplete 55]).
Proof. vm_compute. reflexivity. Qed.

(** ** The helpers on small inputs *)

Example selectCollectionTitle_prefers_selected :
  let refs := [mkCollectionRef "c1" "Summer"; mkCollectionRef "c2" "Sale"] in
  selectCollectionTitle (collectedRecord refs) (withCollectionIds ["c2"]) = Some "Sale"
  /\ selectCollectionTitle (collectedRecord refs) (withCollectionIds ["c9"]) = Some "Summer"
  /\ selectCollectionTitle (collectedRecord refs) (withCollectionIds []) = Some "Summer"
  /\ selectCollectionTitle (collectedRecord refs) defaultSettings = Some "Summer"
  /\ selectCollectionTitle (collectedRecord []) (withCollectionIds ["c2"]) = None.
Proof. repeat split. Qed.

Example buildGroupedItems_by_vendor :
  buildGroupedItems
    [vendorRecord "p1" "Acme"; vendorRecord "p2" "Bolt"; vendorRecord "p3" "Acme"]
    (withGrouping VENDOR)
  = [ ItemHeader "Acme"; ItemProduct (vendorRecord "p1" "Acme");
      ItemProduct (vendorRecord "p3" "Acme");
      ItemHeader "Bolt"; ItemProduct (vendorRecord "p2" "Bolt") ].
Proof. reflexivity. Qed.

Example buildGroupedItems_unassigned :
  buildGroupedItems [collectedRecord []] (withGrouping COLLECTION)
  = [ItemHeader "Unassigned"; ItemProduct (collectedRecord [])]
  /\ buildGroupedItems [collectedRecord []] defaultSettings
     = [ItemProduct (collectedRecord [])].
Proof. split; reflexivity. Qed.

Example sortRecords_by_title :
  map productId
      (sortRecords byteCompare
         [vendorRecord "b" "1"; vendorRecord "a" "2"; vendorRecord "c" "3";
          vendorRecord "a" "4"]
         defaultSettings)
  = ["a"; "a"; "b"; "c"]
  /\ map vendor
       (sortRecords byteCompare
          [vendorRecord "b" "1"; vendorRecord "a" "2"; vendorRecord "c" "3";
           vendorRecord "a" "4"]
          defaultSettings)
     = [Some "2"; Some "4"; Some "1"; Some "3"].
Proof. split; reflexivity. Qed.

Example extname_of_cover_paths :
  extname "jobs/j1/images/p1.png" = ".png"
  /\ extname "jobs/j1/images/p1" = ""
  /\ extname "jobs/j.1/images/p1" = ""
  /\ extname "cover.final.JPG" = ".JPG".
Proof. repeat split. Qed.

Example fitFontSize_shrinks :
  fitFontSize "$19.99" 20 100 = 20%Z
  /\ fitFontSize "$19.99" 40 100 = 27%Z
  /\ fitFontSize "$1,000,000.00" 40 60 = 10%Z.
Proof. repeat split. Qed.

(* ===================================================================== *)
(** * Part III.  Further properties                                        *)
(* ===================================================================== *)

(** ** The selection predicate: escaping and ids *)

Lemma append_assoc (a b c : string) : (a ^^ b) ^^ c = a ^^ (b ^^ c).
Proof. induction a as [|ch a IH]; cbn; [reflexivity | now rewrite IH]. Qed.

Lemma replaceChar_app c by_ a b :
  replaceChar c by_ (a ^^ b) = replaceChar c by_ a ^^ replaceChar c by_ b.
Proof.
  induction a as [|ch a IH]; cbn [String.append replaceChar]; [reflexivity|].
  rewrite IH. destruct (Ascii.eqb ch c); [now rewrite append_assoc | reflexivity].
Qed.

Lemma escapeQuery_cons ch rest :
  escapeQuery (String ch rest)
  = (if Ascii.eqb ch backslashChar then String backslashChar (String backslashChar (escapeQuery rest))
     else if Ascii.eqb ch quoteChar then String backslashChar (String quoteChar (escapeQuery rest))
     else String ch (escapeQuery rest)).
Proof.
  unfold escapeQuery. cbn [replaceChar].
  destruct (Ascii.eqb ch backslashChar) eqn:Eb.
  - rewrite replaceChar_app. reflexivity.
  - cbn [replaceChar]. destruct (Ascii.eqb ch quoteChar); reflexivity.
Qed.

Lemma unescape_escape s : unescapeQuery (escapeQuery s) = s.
Proof.
  induction s as [|ch s IH]; [reflexivity|].
  rewrite escapeQuery_cons.
  destruct (Ascii.eqb ch backslashChar) eqn:Eb.
  - apply Ascii.eqb_eq in Eb. subst ch. cbn. now rewrite IH.
  - destruct (Ascii.eqb ch quoteChar) eqn:Eq.
    + apply Ascii.eqb_eq in Eq. subst ch. cbn. now rewrite IH.
    + cbn [unescapeQuery]. rewrite Eb. now rewrite IH.
Qed.

(** X1: [escapeQuery] loses nothing and leaves no quote unescaped: different
    values have different escaped forms, no double quote of the result stands
    without a backslash before it, and a value without backslash and without
    a bare double quote is left as it is. *)
Theorem escapeQuery_injective_and_quote_safe :
  (forall a b, escapeQuery a = escapeQuery b -> a = b)
  /\ (forall s, hasBareQuote (escapeQuery s) = false)
  /\ (forall s, hasBareQuote s = false ->
                (forall ch, In ch (list_ascii_of_string s) -> ch <> backslashChar) ->
                escapeQuery s = s).
Proof.
  split; [|split].
  - intros a b H. rewrite <- (unescape_escape a), <- (unescape_escape b). now rewrite H.
  - intro s. induction s as [|ch s IH]; [reflexivity|].
    rewrite escapeQuery_cons.
    destruct (Ascii.eqb ch backslashChar) eqn:Eb; [cbn; exact IH|].
    destruct (Ascii.eqb ch quoteChar) eqn:Eq; [cbn; exact IH|].
    cbn [hasBareQuote]. now rewrite Eb, Eq.
  - intro s. induction s as [|ch s IH]; intros Hq Hb; [reflexivity|].
    rewrite escapeQuery_cons.
    assert (Eb : Ascii.eqb ch backslashChar = false).
    { apply Ascii.eqb_neq. apply Hb. now left. }
    cbn [hasBareQuote] in Hq. rewrite Eb in *.
    destruct (Ascii.eqb ch quoteChar); [discriminate|].
    rewrite IH; [reflexivity | exact Hq |].
    intros c Hc. apply Hb. now right.
Qed.

Lemma append_nil_r (a : string) : a ^^ "" = a.
Proof. induction a as [|ch a IH]; cbn; [reflexivity | now rewrite IH]. Qed.

Lemma dropPrefix_spec p s rest : dropPrefix p s = Some rest -> s = p ^^ rest.
Proof.
  revert s. induction p as [|a p IH]; intros s H; cbn in *.
  - now injection H as ->.
  - destruct s as [|b s]; [discriminate|].
    destruct (Ascii.eqb a b) eqn:E; [|discriminate].
    apply Ascii.eqb_eq in E. subst b. now rewrite (IH s H).
Qed.

Lemma dropPrefix_app p s : dropPrefix p (p ^^ s) = Some s.
Proof. induction p as [|a p IH]; cbn; [reflexivity|]. now rewrite Ascii.eqb_refl. Qed.

Lemma takeDigits_split s :
  exists post, s = takeDigits s ^^ post /\ takeDigits post = "".
Proof.
  induction s as [|ch s (post & Hs & Hp)]; [exists ""; auto|].
  cbn [takeDigits]. destruct (isDigit ch) eqn:E.
  - exists post. cbn. now rewrite <- Hs.
  - exists (String ch s). cbn. now rewrite E.
Qed.

Lemma takeDigits_idem s : takeDigits (takeDigits s) = takeDigits s.
Proof.
  induction s as [|ch s IH]; [reflexivity|]. cbn [takeDigits].
  destruct (isDigit ch) eqn:E; [|reflexivity]. cbn [takeDigits]. now rewrite E, IH.
Qed.

Lemma takeDigits_app d post :
  takeDigits d = d -> takeDigits post = "" -> takeDigits (d ^^ post) = d.
Proof.
  induction d as [|ch d IH]; intros Hd Hp; [exact Hp|].
  cbn [takeDigits String.append] in *. destruct (isDigit ch); [|discriminate].
  injection Hd as Hd. now rewrite IH.
Qed.

Lemma extractLegacyProductId_unfold value :
  extractLegacyProductId value
  = match match dropPrefix gidPrefix value with
          | Some rest =>
              match takeDigits rest with
              | EmptyString => None
              | digits => Some digits
              end
          | None => None
          end with
    | Some digits => Some digits
    | None =>
        match value with
        | String _ rest => extractLegacyProductId rest
        | EmptyString => None
        end
    end.
Proof. destruct value; reflexivity. Qed.

(** X2: when [extractLegacyProductId] returns digits, they are a non-empty
    run of decimal digits that stands in the value right after
    "gid://shopify/Product/" and is followed by no further digit; on such a
    gid followed by anything but a digit it returns exactly these digits; and
    on a value that does not contain "gid://shopify/Product/" it returns
    null. *)
Theorem extractLegacyProductId_finds_numeric_id :
  (forall value digits,
     extractLegacyProductId value = Some digits ->
     digits <> "" /\ takeDigits digits = digits
     /\ exists before after,
          value = before ^^ "gid://shopify/Product/" ^^ digits ^^ after
          /\ takeDigits after = "")
  /\ (forall digits after,
        digits <> "" -> takeDigits digits = digits -> takeDigits after = "" ->
        extractLegacyProductId ("gid://shopify/Product/" ^^ digits ^^ after)
        = Some digits)
  /\ (forall value,
        (forall before after, value <> before ^^ "gid://shopify/Product/" ^^ after) ->
        extractLegacyProductId value = None).
Proof.
  fold gidPrefix. split; [|split].
  - intro value. induction value as [|ch value IH]; intros digits H;
      rewrite extractLegacyProductId_unfold in H.
    + discriminate.
    + destruct (dropPrefix gidPrefix (String ch value)) as [rest|] eqn:Edrop.
      * destruct (takeDigits rest) as [|d ds] eqn:Etake.
        -- destruct (IH _ H) as (Hne & Hd & before & after & Hv & Ha).
           split; [exact Hne | split; [exact Hd|]].
           exists (String ch before), after. cbn [String.append]. now rewrite <- Hv.
        -- injection H as <-. split; [discriminate|].
           split; [rewrite <- Etake; apply takeDigits_idem|].
           destruct (takeDigits_split rest) as (after & Hrest & Ha).
           rewrite Etake in Hrest. exists "", after. split; [|exact Ha].
           change ("" ^^ gidPrefix ^^ String d ds ^^ after)
             with (gidPrefix ^^ String d ds ^^ after).
           rewrite <- Hrest. exact (dropPrefix_spec _ _ _ Edrop).
      * destruct (IH _ H) as (Hne & Hd & before & after & Hv & Ha).
        split; [exact Hne | split; [exact Hd|]].
        exists (String ch before), after. cbn [String.append]. now rewrite <- Hv.
  - intros digits after Hne Hd Ha. rewrite extractLegacyProductId_unfold.
    rewrite dropPrefix_app, takeDigits_app by assumption.
    destruct digits; [contradiction | reflexivity].
  - intro value. induction value as [|ch value IH]; intro Hno;
      rewrite extractLegacyProductId_unfold.
    + reflexivity.
    + destruct (dropPrefix gidPrefix (String ch value)) as [rest|] eqn:Edrop.
      * exfalso. apply (Hno "" rest). apply (dropPrefix_spec _ _ _ Edrop).
      * apply IH. intros before after Hv. apply (Hno (String ch before) after).
        cbn [String.append]. now rewrite Hv.
Qed.

Lemma join_head sep a l : exists tail, join sep (a :: l) = a ^^ tail.
Proof.
  destruct l as [|b l].
  - exists "". cbn. now rewrite append_nil_r.
  - exists (sep ^^ join sep (b :: l)). reflexivity.
Qed.

Lemma buildOrClause_shape field values :
  match buildOrClause field values with
  | Some clause => nonEmptyList values = true /\ exists inner, clause = "(" ^^ inner ^^ ")"
  | None => nonEmptyList values = false
  end.
Proof.
  destruct values as [[|v vs]|]; cbn; auto. split; [reflexivity|]. eauto.
Qed.

Lemma join_after_status status inner cs :
  exists more,
    join " AND " (status :: ("(" ^^ inner ^^ ")") :: cs)
    = status ^^ " AND (" ^^ inner ^^ ")" ^^ more.
Proof.
  destruct (join_head " AND " ("(" ^^ inner ^^ ")") cs) as (tail & Htail).
  exists tail. change (join " AND " (status :: ("(" ^^ inner ^^ ")") :: cs))
    with (status ^^ " AND " ^^ join " AND " (("(" ^^ inner ^^ ")") :: cs)).
  rewrite Htail. cbn [String.append]. now rewrite append_assoc.
Qed.

(** X3: the query of [buildProductQuery] always begins with the status
    clause, "status:active" or, with drafts included,
    "(status:active OR status:draft)".  When the scope of the settings comes
    with no selection (scope ALL_PRODUCTS or none, COLLECTIONS without
    collection ids, PRODUCTS without product ids, FILTERS without a vendor,
    product type or tag) the query is the status clause alone; otherwise a
    parenthesised clause follows after " AND ". *)
Theorem buildProductQuery_status_clause_first :
  forall (settings : ExportSettings) (includeDrafts : bool),
    let status :=
      if includeDrafts then "(status:active OR status:draft)" else "status:active" in
    (restrictsProducts settings = false ->
     buildProductQuery settings includeDrafts = status)
    /\ (restrictsProducts settings = true ->
        exists clause more,
          buildProductQuery settings includeDrafts
          = status ^^ " AND (" ^^ clause ^^ ")" ^^ more).
Proof.
  intros settings d status. unfold buildProductQuery, restrictsProducts, isScope.
  cbv zeta. fold status.
  destruct (scopeType settings) as [[| | |]|]; cbn [app].
  - split; [reflexivity | discriminate].
  - destruct (collectionIds settings) as [[|id ids]|]; cbn [nonEmptyList app];
      (split; [try reflexivity; discriminate | try discriminate]).
    intros _. destruct (join_after_status status
      (join " OR " (map (fun id => "collection_id:" ^^ escapeQuery id) (id :: ids))) [])
      as (more & Hmore). eauto.
  - destruct (filters settings) as [f|]; [|split; [reflexivity | discriminate]].
    pose proof (buildOrClause_shape "vendor" (f_vendor f)) as Hv.
    pose proof (buildOrClause_shape "product_type" (f_productType f)) as Hp.
    pose proof (buildOrClause_shape "tag" (f_tag f)) as Ht.
    destruct (buildOrClause "vendor" (f_vendor f)) as [cv|];
      [destruct Hv as (-> & iv & ->) | rewrite Hv];
      (destruct (buildOrClause "product_type" (f_productType f)) as [cp|];
       [destruct Hp as (-> & ip & ->) | rewrite Hp]);
      (destruct (buildOrClause "tag" (f_tag f)) as [ct|];
       [destruct Ht as (-> & it & ->) | rewrite Ht]);
      cbn [optionToList app orb];
      (split; [try reflexivity; discriminate | try discriminate]); intros _;
      match goal with
      | |- exists clause more, join _ (_ :: ("(" ^^ ?inner ^^ ")") :: ?cs) = _ =>
          destruct (join_after_status status inner cs) as (more & Hmore); eauto
      end.
  - destruct (productIds settings) as [[|id ids]|]; cbn [nonEmptyList app];
      (split; [try reflexivity; discriminate | try discriminate]).
    intros _. destruct (join_after_status status
      (join " OR " (map (fun id => "id:" ^^ nullish (extractLegacyProductId id)
                                                    (escapeQuery id)) (id :: ids))) [])
      as (more & Hmore). eauto.
  - split; [reflexivity | discriminate].
Qed.

(** ** Price texts, font sizes, grouping and sorting *)

(** X4: the price text of a record built by [buildProductRecord].  In the
    modes DEFAULT_VARIANT_PRICE (also when the mode is unset) and
    VARIANT_TABLE, [formatPrice] shows the price of the first variant, as
    [formatPriceValue] formats it, and nothing when there is no first variant
    or its price is null or empty; in the mode MIN_MAX_RANGE it shows nothing
    exactly when no variant has a non-empty price.  Whenever there is a
    text, it begins with the currency prefix, "$" by default. *)
Theorem formatPrice_of_built_record :
  forall (toNumber : string -> JsNum) (toString : JsNum -> string)
         (product : ProductAccumulator) (settings : ExportSettings)
         (prefix : option string),
    let record := buildProductRecord toNumber toString product settings in
    (pricingMode settings <> Some MIN_MAX_RANGE ->
     formatPrice (price record) prefix
     = formatPriceValue (firstVariantPrice product) prefix)
    /\ (pricingMode settings = Some MIN_MAX_RANGE ->
        (formatPrice (price record) prefix = None
         <-> truthyPrices (acc_variants product) = []))
    /\ (forall text, formatPrice (price record) prefix = Some text ->
          exists amount, text = nullish prefix "$" ^^ amount).
Proof.
  intros toNumber toString product settings prefix record.
  subst record. unfold buildProductRecord, resolvePrice, firstVariantPrice.
  cbn [price].
  split; [|split].
  - intro Hmode.
    destruct (pricingMode settings) as [[| |]|]; cbn [nullish];
      try congruence;
      destruct (acc_variants product) as [|v vs]; cbn; try reflexivity;
      destruct (pv_price v) as [p|]; reflexivity.
  - intros ->. cbn [nullish].
    destruct (truthyPrices (acc_variants product)); cbn; split; congruence.
  - intros text.
    destruct (pricingMode settings) as [[| |]|]; cbn [nullish].
    + destruct (acc_variants product) as [|v vs]; cbn; [discriminate|].
      destruct (pv_price v) as [p|]; cbn; [|discriminate].
      destruct (truthyStr p); [|discriminate]. intros [= <-]. eauto.
    + destruct (truthyPrices (acc_variants product)); cbn; [discriminate|].
      intros [= <-]. eauto.
    + destruct (acc_variants product) as [|v vs]; cbn; [discriminate|].
      destruct (pv_price v) as [p|]; cbn; [|discriminate].
      destruct (truthyStr p); [|discriminate]. intros [= <-]. eauto.
    + destruct (acc_variants product) as [|v vs]; cbn; [discriminate|].
      destruct (pv_price v) as [p|]; cbn; [|discriminate].
      destruct (truthyStr p); [|discriminate]. intros [= <-]. eauto.
Qed.

Lemma fitFontSize_unfold text base maxWidth :
  fitFontSize text base maxWidth
  = if Qle_bool (estimatedWidth text base) (inject_Z maxWidth) then base
    else Z.max 10 (Qfloor (inject_Z base
                           * (inject_Z maxWidth / estimatedWidth text base))).
Proof.
  unfold fitFontSize, estimatedWidth.
  destruct (String.length text); reflexivity.
Qed.

Lemma estimatedWidth_pos text size : (0 < size)%Z -> 0 < estimatedWidth text size.
Proof.
  intro H. unfold estimatedWidth.
  apply Qmult_lt_0_compat; [apply Qmult_lt_0_compat|reflexivity].
  - change 0 with (inject_Z 0). rewrite <- Zlt_Qlt. exact H.
  - change 0 with (inject_Z 0). rewrite <- Zlt_Qlt. lia.
Qed.

Lemma estimatedWidth_scale text a b :
  estimatedWidth text a * inject_Z b == estimatedWidth text b * inject_Z a.
Proof. unfold estimatedWidth. ring. Qed.

(** X5: for a positive base font size and a non-negative width,
    [fitFontSize] returns a size between [min 10 base] and [max 10 base]; it
    returns the base size when the text, estimated at 0.6 of the font size
    per character, fits the width at that size; and whenever it returns more
    than the floor of 10, the text fits the width at the size returned. *)
Theorem fitFontSize_fits_or_floor :
  forall (text : string) (baseFontSize maxWidth : Z),
    (0 < baseFontSize)%Z -> (0 <= maxWidth)%Z ->
    let size := fitFontSize text baseFontSize maxWidth in
    (Z.min 10 baseFontSize <= size <= Z.max 10 baseFontSize)%Z
    /\ (estimatedWidth text baseFontSize <= inject_Z maxWidth -> size = baseFontSize)
    /\ ((10 < size)%Z -> estimatedWidth text size <= inject_Z maxWidth).
Proof.
  intros text base maxWidth Hbase Hmax size. subst size.
  rewrite fitFontSize_unfold.
  pose proof (estimatedWidth_pos text base Hbase) as Hest.
  destruct (Qle_bool (estimatedWidth text base) (inject_Z maxWidth)) eqn:E.
  - apply Qle_bool_iff in E. split; [lia | split; [reflexivity | intros _; exact E]].
  - assert (Hgt : inject_Z maxWidth < estimatedWidth text base).
    { apply Qnot_le_lt. intro H. apply Qle_bool_iff in H. congruence. }
    set (scaled := Qfloor (inject_Z base * (inject_Z maxWidth / estimatedWidth text base))).
    assert (Hfloor : inject_Z scaled
                     <= inject_Z base * (inject_Z maxWidth / estimatedWidth text base))
      by apply Qfloor_le.
    assert (Hle1 : inject_Z maxWidth / estimatedWidth text base <= 1).
    { apply Qle_shift_div_r; [exact Hest|]. rewrite Qmult_1_l. now apply Qlt_le_weak. }
    assert (Hscaled : (scaled <= base)%Z).
    { rewrite Zle_Qle. eapply Qle_trans; [exact Hfloor|].
      rewrite <- (Qmult_1_r (inject_Z base)) at 2.
      apply Qmult_le_l; [|exact Hle1].
      change 0 with (inject_Z 0). rewrite <- Zlt_Qlt. exact Hbase. }
    split; [lia | split].
    + intro H. exfalso. apply (Qlt_irrefl (inject_Z maxWidth)).
      eapply Qlt_le_trans; eassumption.
    + intro H10. replace (Z.max 10 scaled) with scaled by lia.
      assert (Hs : (0 < scaled)%Z) by lia.
      apply (Qmult_le_r _ _ (inject_Z base));
        [change 0 with (inject_Z 0); rewrite <- Zlt_Qlt; exact Hbase|].
      rewrite estimatedWidth_scale.
      eapply Qle_trans.
      * apply Qmult_le_l; [exact Hest | exact Hfloor].
      * apply Qle_lteq. right. field. intro H0. rewrite H0 in Hest.
        exact (Qlt_irrefl 0 Hest).
Qed.

Lemma fitFontSize_fits_or_floor_witness :
  (0 < 40)%Z /\ (0 <= 100)%Z
  /\ (Z.min 10 40 <= fitFontSize "$19.99" 40 100 <= Z.max 10 40)%Z.
Proof.
  split; [lia | split; [lia|]].
  apply (fitFontSize_fits_or_floor "$19.99" 40 100); lia.
Defined.

Lemma existsb_eqb_In k l : existsb (String.eqb k) l = true <-> In k l.
Proof.
  rewrite existsb_exists. split.
  - intros (x & Hx & E). apply String.eqb_eq in E. now subst.
  - intro H. exists k. split; [exact H | apply String.eqb_refl].
Qed.

Lemma existsb_eqb_not_In k l : existsb (String.eqb k) l = false <-> ~ In k l.
Proof.
  rewrite <- existsb_eqb_In. destruct (existsb (String.eqb k) l); split; congruence.
Qed.

Lemma bucketPush_known key seen titles r :
  NoDup titles -> In (key r) titles ->
  bucketPush (key r) r (bucketsOf key seen titles) = bucketsOf key (seen ++ [r]) titles.
Proof.
  intros Hnd Hin. induction titles as [|t ts IH]; [contradiction|].
  cbn [bucketsOf map bucketPush]. rewrite filter_app. cbn [filter].
  inversion Hnd as [|? ? Hnot Hnd']; subst.
  destruct (String.eqb_spec t (key r)) as [E|E].
  - subst t. rewrite String.eqb_refl. f_equal.
    apply map_ext_in. intros t Ht. rewrite filter_app. cbn [filter].
    destruct (String.eqb_spec (key r) t) as [E|E]; [subst; contradiction|].
    now rewrite app_nil_r.
  - destruct (String.eqb_spec (key r) t) as [E'|E']; [congruence|].
    rewrite app_nil_r. f_equal. apply IH; [assumption|].
    destruct Hin; [congruence | assumption].
Qed.

Lemma bucketPush_fresh key seen titles r :
  ~ In (key r) titles -> (forall r', In r' seen -> In (key r') titles) ->
  bucketPush (key r) r (bucketsOf key seen titles)
  = bucketsOf key (seen ++ [r]) (titles ++ [key r]).
Proof.
  intros Hnot Hall.
  assert (Hnone : filter (fun r' => String.eqb (key r') (key r)) seen = []).
  { clear - Hnot Hall. induction seen as [|x seen IH]; [reflexivity|]. cbn [filter].
    destruct (String.eqb_spec (key x) (key r)) as [E|E].
    - exfalso. apply Hnot. rewrite <- E. apply Hall. now left.
    - apply IH. intros r' H. apply Hall. now right. }
  clear Hall. induction titles as [|t ts IH].
  - cbn [bucketsOf map bucketPush app]. rewrite filter_app, Hnone. cbn [filter app].
    now rewrite String.eqb_refl.
  - cbn [bucketsOf map bucketPush app]. rewrite filter_app. cbn [filter].
    destruct (String.eqb_spec t (key r)) as [E|E];
      [exfalso; apply Hnot; now left|].
    destruct (String.eqb_spec (key r) t) as [E'|E']; [congruence|].
    rewrite app_nil_r. f_equal. apply IH. intro H. apply Hnot. now right.
Qed.

Lemma grouped_fold key rs :
  forall seen titles,
    NoDup titles -> (forall r', In r' seen -> In (key r') titles) ->
    let titles' :=
      fold_left (fun seen k => if existsb (String.eqb k) seen then seen else seen ++ [k])
                (map key rs) titles in
    fold_left (fun acc record => bucketPush (key record) record acc) rs
              (bucketsOf key seen titles)
    = bucketsOf key (seen ++ rs) titles'
    /\ NoDup titles'
    /\ (forall t, In t titles' <-> In t titles \/ In t (map key rs)).
Proof.
  induction rs as [|r rs IH]; intros seen titles Hnd Hall; cbn [fold_left map].
  - rewrite app_nil_r. cbn. split; [reflexivity | split; [assumption | tauto]].
  - destruct (existsb (String.eqb (key r)) titles) eqn:E.
    + apply existsb_eqb_In in E. rewrite bucketPush_known by assumption.
      destruct (IH (seen ++ [r]) titles Hnd) as (H1 & H2 & H3).
      { intros r' H. apply in_app_or in H. destruct H as [H|[<-|[]]]; auto. }
      rewrite <- app_assoc in H1. split; [exact H1 | split; [exact H2|]].
      intro t. rewrite H3. cbn [In]. split; [tauto|].
      intros [H|[<-|H]]; auto.
    + apply existsb_eqb_not_In in E. rewrite bucketPush_fresh by assumption.
      destruct (IH (seen ++ [r]) (titles ++ [key r])) as (H1 & H2 & H3).
      { apply NoDup_app; [assumption | repeat constructor; intros [] |].
        intros x Hx [<-|[]]. contradiction. }
      { intros r' H. apply in_or_app. apply in_app_or in H.
        destruct H as [H|[<-|[]]]; [left; auto | right; now left]. }
      rewrite <- app_assoc in H1. split; [exact H1 | split; [exact H2|]].
      intro t. rewrite H3, in_app_iff. cbn [In]. tauto.
Qed.

Lemma flat_map_filter_one key (r : ProductRecord) titles :
  NoDup titles -> In (key r) titles ->
  flat_map (fun t => if String.eqb (key r) t then [r] else []) titles = [r].
Proof.
  intros Hnd Hin. induction titles as [|t ts IH]; [contradiction|].
  inversion Hnd as [|? ? Hnot Hnd']; subst. cbn [flat_map].
  destruct (String.eqb_spec (key r) t) as [E|E].
  - subst t. cbn [app]. f_equal.
    clear - Hnot. induction ts as [|t ts IH]; [reflexivity|]. cbn [flat_map].
    destruct (String.eqb_spec (key r) t) as [E|E].
    + exfalso. apply Hnot. now left.
    + apply IH. intro H. apply Hnot. now right.
  - apply IH; [assumption|]. destruct Hin; [congruence | assumption].
Qed.

Lemma flat_map_split {A B} (f g : A -> list B) l :
  Permutation (flat_map (fun x => f x ++ g x) l) (flat_map f l ++ flat_map g l).
Proof.
  induction l as [|x l IH]; [constructor|]. cbn [flat_map].
  rewrite IH, <- !app_assoc. apply Permutation_app_head.
  rewrite !app_assoc. apply Permutation_app_tail, Permutation_app_comm.
Qed.

Lemma sections_permutation key titles (rs : list ProductRecord) :
  NoDup titles -> (forall r, In r rs -> In (key r) titles) ->
  Permutation (flat_map (fun t => filter (fun r => String.eqb (key r) t) rs) titles) rs.
Proof.
  intros Hnd. induction rs as [|r rs IH]; intro Hall.
  - cbn [filter]. clear. induction titles; [constructor | assumption].
  - cbn [filter].
    assert (E : flat_map (fun t => if String.eqb (key r) t
                                   then r :: filter (fun r' => String.eqb (key r') t) rs
                                   else filter (fun r' => String.eqb (key r') t) rs)
                         titles
                = flat_map (fun t => (if String.eqb (key r) t then [r] else [])
                                     ++ filter (fun r' => String.eqb (key r') t) rs)
                           titles).
    { apply flat_map_ext. intro t. now destruct (String.eqb (key r) t). }
    rewrite E, flat_map_split, flat_map_filter_one; [|assumption|apply Hall; now left].
    cbn [app]. constructor. apply IH. intros r' H. apply Hall. now right.
Qed.

Lemma productsOf_sections key records titles :
  productsOf (flat_map (sectionOf key records) titles)
  = flat_map (fun t => filter (fun r => String.eqb (key r) t) records) titles.
Proof.
  unfold productsOf. induction titles as [|t ts IH]; [reflexivity|].
  cbn [flat_map]. rewrite flat_map_app, IH. f_equal.
  unfold sectionOf. cbn [flat_map app].
  induction (filter (fun r => String.eqb (key r) t) records) as [|x l IHl];
    [reflexivity|]. cbn [map flat_map app]. now rewrite IHl.
Qed.

Lemma productsOf_products records : productsOf (map ItemProduct records) = records.
Proof.
  unfold productsOf. induction records as [|r rs IH]; [reflexivity|].
  cbn. now rewrite IH.
Qed.

(** X6: [buildGroupedItems] with grouping NONE (or unset) returns the records
    as product items in their order.  With any other grouping it returns, for
    each key in the order of first appearance among the records, a header
    with that key as title followed by the records of that key in their
    order; the titles are distinct, each of them is the key of some record
    (no section is empty), and in both cases the product items are a
    permutation of the records: none lost, none repeated. *)
Theorem buildGroupedItems_sections :
  forall (records : list ProductRecord) (settings : ExportSettings),
    let g := nullish (grouping settings) NONE in
    let key := groupKey g settings in
    let titles := firstSeen (map key records) in
    let items := buildGroupedItems records settings in
    (g = NONE -> items = map ItemProduct records)
    /\ (g <> NONE -> items = flat_map (sectionOf key records) titles)
    /\ NoDup titles
    /\ (forall t, In t titles <-> exists r, In r records /\ key r = t)
    /\ Permutation (productsOf items) records.
Proof.
  intros records settings g key titles items.
  destruct (grouped_fold key records [] [] (NoDup_nil _)) as (Hfold & Hnd & Hin);
    [intros r' []|].
  cbn [app bucketsOf map] in Hfold. fold (firstSeen (map key records)) in Hfold, Hnd, Hin.
  fold titles in Hfold, Hnd, Hin.
  assert (Hkeys : forall t, In t titles <-> exists r, In r records /\ key r = t).
  { intro t. rewrite Hin, in_map_iff. cbn [In]. split.
    - intros [[]|(r & E & H)]. eauto.
    - intros (r & H & E). right. eauto. }
  assert (Hitems : g <> NONE -> items = flat_map (sectionOf key records) titles).
  { intro Hg. subst items. unfold buildGroupedItems. fold g.
    assert (E : flat_map (fun '(title, group) => ItemHeader title :: map ItemProduct group)
                  (fold_left (fun acc record => bucketPush (key record) record acc)
                             records [])
                = flat_map (sectionOf key records) titles).
    { rewrite Hfold. unfold bucketsOf. rewrite flat_map_concat_map, map_map.
      rewrite <- flat_map_concat_map. reflexivity. }
    subst key. destruct g; [congruence | exact E | exact E | exact E]. }
  split; [|split; [exact Hitems | split; [exact Hnd | split; [exact Hkeys|]]]].
  - intro Hg. subst items. unfold buildGroupedItems. fold g. now rewrite Hg.
  - destruct (nullish (grouping settings) NONE) eqn:Eg.
    1: { subst items. unfold buildGroupedItems. rewrite Eg.
         rewrite productsOf_products. reflexivity. }
    all: rewrite Hitems by (subst g; congruence);
      rewrite productsOf_sections; apply sections_permutation; [exact Hnd|];
      intros r Hr; apply Hkeys; eauto.
Qed.

Lemma insertSorted_perm {A} (cmp : A -> A -> Z) x l :
  Permutation (insertSorted cmp x l) (x :: l).
Proof.
  induction l as [|y l IH]; cbn [insertSorted]; [reflexivity|].
  destruct (0 <? cmp y x)%Z; [reflexivity|].
  rewrite IH. apply perm_swap.
Qed.

Lemma stableSort_fold_perm {A} (cmp : A -> A -> Z) l acc :
  Permutation (fold_left (fun sorted x => insertSorted cmp x sorted) l acc) (acc ++ l).
Proof.
  revert acc. induction l as [|x l IH]; intro acc; cbn [fold_left].
  - now rewrite app_nil_r.
  - rewrite IH, insertSorted_perm. apply Permutation_middle.
Qed.

Lemma stableSort_perm {A} (cmp : A -> A -> Z) l : Permutation (stableSort cmp l) l.
Proof. unfold stableSort. now rewrite stableSort_fold_perm. Qed.

Lemma insertSorted_equal {A} (cmp : A -> A -> Z) x l :
  (forall y, cmp y x = 0%Z) -> insertSorted cmp x l = l ++ [x].
Proof.
  intro H. induction l as [|y l IH]; cbn [insertSorted app]; [reflexivity|].
  rewrite H. cbn. now rewrite IH.
Qed.

Lemma stableSort_equal {A} (l : list A) : stableSort (fun _ _ => 0%Z) l = l.
Proof.
  unfold stableSort.
  assert (H : forall acc, fold_left (fun sorted x => insertSorted (fun _ _ => 0%Z) x sorted)
                                    l acc = acc ++ l).
  { induction l as [|x l IH]; intro acc; cbn [fold_left]; [now rewrite app_nil_r|].
    rewrite IH, insertSorted_equal by reflexivity. now rewrite <- app_assoc. }
  apply H.
Qed.

Lemma sortRecords_stableSort localeCompare records settings :
  sortRecords localeCompare records settings
  = stableSort (recordCompare localeCompare settings) records.
Proof.
  unfold sortRecords, recordCompare.
  destruct (nullish (sortOrder settings) TITLE_ASC); try reflexivity.
  now rewrite stableSort_equal.
Qed.

(** X7: whatever the comparator, [sortRecords] returns a permutation of the
    records, of the same length, and with sort order COLLECTION_ORDER the
    records as they are. *)
Theorem sortRecords_permutation :
  forall (localeCompare : string -> string -> Z)
         (records : list ProductRecord) (settings : ExportSettings),
    Permutation (sortRecords localeCompare records settings) records
    /\ List.length (sortRecords localeCompare records settings) = List.length records
    /\ (sortOrder settings = Some COLLECTION_ORDER ->
        sortRecords localeCompare records settings = records).
Proof.
  intros lc records settings.
  assert (H : Permutation (sortRecords lc records settings) records)
    by (rewrite sortRecords_stableSort; apply stableSort_perm).
  split; [exact H | split; [now apply Permutation_length|]].
  intro E. unfold sortRecords. now rewrite E.
Qed.

Section SortedFacts.

Variable A : Type.
Variable cmp : A -> A -> Z.
Hypothesis cmp_sign : forall a b, (0 < cmp a b)%Z <-> (cmp b a < 0)%Z.
Hypothesis cmp_trans : forall a b c, (cmp a b <= 0)%Z -> (cmp b c <= 0)%Z -> (cmp a c <= 0)%Z.

Let before (a b : A) : Prop := (cmp a b <= 0)%Z.

Lemma insertSorted_sorted x l :
  StronglySorted before l -> StronglySorted before (insertSorted cmp x l).
Proof.
  intro Hs. induction Hs as [|y l Hs IH Hy]; cbn [insertSorted].
  - repeat constructor.
  - destruct (Z.ltb_spec 0 (cmp y x)) as [Hlt|Hle].
    + assert (Hxy : before x y) by (unfold before; apply cmp_sign in Hlt; lia).
      constructor; [constructor; assumption|].
      constructor; [exact Hxy|].
      eapply Forall_impl; [|exact Hy]. intros z Hz. exact (cmp_trans _ _ _ Hxy Hz).
    + constructor; [exact IH|].
      eapply Permutation_Forall.
      * symmetry. apply insertSorted_perm.
      * constructor; [exact Hle | assumption].
Qed.

Lemma stableSort_fold_sorted l acc :
  StronglySorted before acc ->
  StronglySorted before (fold_left (fun sorted x => insertSorted cmp x sorted) l acc).
Proof.
  revert acc. induction l as [|x l IH]; intros acc H; cbn [fold_left]; [exact H|].
  apply IH. now apply insertSorted_sorted.
Qed.

Lemma cmp_zero_sym a b : cmp a b = 0%Z -> cmp b a = 0%Z.
Proof.
  intro H. destruct (Z.lt_trichotomy (cmp b a) 0) as [Hlt|[E|Hgt]]; [|exact E|].
  - apply cmp_sign in Hlt. lia.
  - apply cmp_sign in Hgt. lia.
Qed.

Lemma cmp_ge a b : (0 <= cmp a b)%Z -> (cmp b a <= 0)%Z.
Proof.
  intro H. destruct (Z.lt_trichotomy (cmp b a) 0) as [Hlt|[E|Hgt]]; try lia.
  apply cmp_sign in Hgt. lia.
Qed.

(** Whether [r] compares equal to [k]. *)
Let tied (k r : A) : bool := (cmp r k =? 0)%Z.

Lemma tied_insert_other k x l : tied k x = false ->
  filter (tied k) (insertSorted cmp x l) = filter (tied k) l.
Proof.
  intro Hx. induction l as [|y l IH]; cbn [insertSorted filter].
  - now rewrite Hx.
  - destruct (0 <? cmp y x)%Z; cbn [filter]; [now rewrite Hx|].
    now rewrite IH.
Qed.

Lemma tied_insert_same k x l : tied k x = true -> StronglySorted before l ->
  filter (tied k) (insertSorted cmp x l) = filter (tied k) l ++ [x].
Proof.
  intros Hx Hs. unfold tied in Hx. apply Z.eqb_eq in Hx.
  induction Hs as [|y l Hs IH Hy]; cbn [insertSorted filter].
  - unfold tied. rewrite Hx. reflexivity.
  - destruct (Z.ltb_spec 0 (cmp y x)) as [Hlt|Hle].
    + (* nothing from [y] on is tied with [k] *)
      assert (Hnone : forall z, before y z -> tied k z = false).
      { intros z Hz. unfold tied. apply Z.eqb_neq. intro Hzk.
        assert (cmp y x <= 0)%Z; [|lia].
        apply (cmp_trans y z x); [exact Hz|].
        apply (cmp_trans z k x); [lia|].
        apply cmp_zero_sym in Hx. lia. }
      assert (Hy0 : tied k y = false).
      { apply Hnone. unfold before. destruct (Z.lt_trichotomy (cmp y y) 0) as [H|[H|H]];
          try lia. apply cmp_sign in H. lia. }
      cbn [filter]. unfold tied at 1. rewrite Hx. cbn [Z.eqb]. rewrite Hy0.
      assert (Hl : filter (tied k) l = []).
      { clear - Hy Hnone. induction Hy as [|z l Hz Hy IH]; [reflexivity|].
        cbn [filter]. rewrite (Hnone z Hz). exact IH. }
      rewrite Hl. reflexivity.
    + cbn [filter]. rewrite IH. destruct (tied k y); reflexivity.
Qed.

Lemma stableSort_fold_tied k l acc :
  StronglySorted before acc ->
  filter (tied k) (fold_left (fun sorted x => insertSorted cmp x sorted) l acc)
  = filter (tied k) acc ++ filter (tied k) l.
Proof.
  revert acc. induction l as [|x l IH]; intros acc Hs; cbn [fold_left filter].
  - now rewrite app_nil_r.
  - rewrite IH by now apply insertSorted_sorted.
    destruct (tied k x) eqn:E.
    + rewrite tied_insert_same by assumption. now rewrite <- app_assoc.
    + now rewrite tied_insert_other.
Qed.

Lemma stableSort_sorted_stable l :
  StronglySorted (fun a b => (cmp a b <= 0)%Z) (stableSort cmp l)
  /\ forall k, filter (fun r => (cmp r k =? 0)%Z) (stableSort cmp l)
               = filter (fun r => (cmp r k =? 0)%Z) l.
Proof.
  split.
  - apply stableSort_fold_sorted. constructor.
  - intro k. unfold stableSort. apply (stableSort_fold_tied k l []). constructor.
Qed.

End SortedFacts.

(** X8: when [localeCompare] is a consistent comparator (its sign flips when
    its arguments are swapped, and it is transitive), the result of
    [sortRecords] is sorted by the comparator of the sort order (title
    ascending, creation or update time descending, null compared as the empty
    string), and records that compare equal keep the order they had. *)
Theorem sortRecords_sorted_and_stable :
  forall (localeCompare : string -> string -> Z)
         (records : list ProductRecord) (settings : ExportSettings),
    (forall a b, (0 < localeCompare a b)%Z <-> (localeCompare b a < 0)%Z) ->
    (forall a b c, (localeCompare a b <= 0)%Z -> (localeCompare b c <= 0)%Z ->
                   (localeCompare a c <= 0)%Z) ->
    let cmp := recordCompare localeCompare settings in
    let sorted := sortRecords localeCompare records settings in
    StronglySorted (fun a b => (cmp a b <= 0)%Z) sorted
    /\ (forall k, filter (fun r => (cmp r k =? 0)%Z) sorted
                  = filter (fun r => (cmp r k =? 0)%Z) records).
Proof.
  intros lc records settings Hsign Htrans cmp sorted. subst sorted.
  rewrite sortRecords_stableSort. fold cmp.
  apply stableSort_sorted_stable; subst cmp; unfold recordCompare;
    destruct (nullish (sortOrder settings) TITLE_ASC); intros;
    try apply Hsign; try (eapply Htrans; eassumption); lia.
Qed.

Lemma sortRecords_sorted_and_stable_witness :
  let records := [vendorRecord "bb" "1"; vendorRecord "a" "2"; vendorRecord "cc" "3"] in
  StronglySorted
    (fun a b => (recordCompare lengthCompare defaultSettings a b <= 0)%Z)
    (sortRecords lengthCompare records defaultSettings)
  /\ map vendor (sortRecords lengthCompare records defaultSettings)
     = [Some "2"; Some "1"; Some "3"].
Proof.
  split; [|reflexivity].
  apply (sortRecords_sorted_and_stable lengthCompare
           [vendorRecord "bb" "1"; vendorRecord "a" "2"; vendorRecord "cc" "3"]
           defaultSettings); unfold lengthCompare; intros; lia.
Defined.

(** ** The overlay markup *)

Lemma escapeSvgText_cons ch rest :
  escapeSvgText (String ch rest) = escapeSvgChar ch ^^ escapeSvgText rest.
Proof.
  unfold escapeSvgText, escapeSvgChar. cbn [replaceChar].
  destruct (Ascii.eqb ch "&"%char) eqn:E1.
  { now rewrite !replaceChar_app. }
  cbn [replaceChar]. destruct (Ascii.eqb ch "<"%char) eqn:E2.
  { now rewrite !replaceChar_app. }
  cbn [replaceChar]. destruct (Ascii.eqb ch ">"%char) eqn:E3.
  { now rewrite !replaceChar_app. }
  cbn [replaceChar]. destruct (Ascii.eqb ch quoteChar) eqn:E4.
  { now rewrite !replaceChar_app. }
  cbn [replaceChar]. destruct (Ascii.eqb ch "'"%char) eqn:E5; reflexivity.
Qed.

Lemma unescapeSvgFrom_skip (e s : string) :
  unescapeSvgFrom (String.length e) (e ^^ s) = unescapeSvgFrom 0 s.
Proof. induction e as [|ch e IH]; [reflexivity | exact IH]. Qed.

Lemma length_append (a b : string) :
  String.length (a ^^ b) = (String.length a + String.length b)%nat.
Proof. induction a as [|ch a IH]; cbn; [reflexivity | now rewrite IH]. Qed.

Lemma unescapeSvgText_entity (name s : string) (ch : ascii) :
  readEntity (name ^^ s) = Some (ch, s) ->
  unescapeSvgFrom 0 (String "&"%char (name ^^ s)) = String ch (unescapeSvgFrom 0 s).
Proof.
  intro H. cbn [unescapeSvgFrom]. rewrite Ascii.eqb_refl, H. f_equal.
  rewrite length_append.
  replace (String.length name + String.length s - String.length s)%nat
    with (String.length name) by lia.
  apply unescapeSvgFrom_skip.
Qed.

Lemma unescape_escape_svg s : unescapeSvgText (escapeSvgText s) = s.
Proof.
  unfold unescapeSvgText. induction s as [|ch s IH]; [reflexivity|].
  rewrite escapeSvgText_cons. unfold escapeSvgChar.
  destruct (Ascii.eqb ch "&"%char) eqn:E1.
  { apply Ascii.eqb_eq in E1. subst ch.
    change ("&amp;" ^^ escapeSvgText s) with (String "&"%char ("amp;" ^^ escapeSvgText s)).
    rewrite (unescapeSvgText_entity "amp;" _ "&"%char), IH; [reflexivity|].
    unfold readEntity. now rewrite dropPrefix_app. }
  destruct (Ascii.eqb ch "<"%char) eqn:E2.
  { apply Ascii.eqb_eq in E2. subst ch.
    change ("&lt;" ^^ escapeSvgText s) with (String "&"%char ("lt;" ^^ escapeSvgText s)).
    rewrite (unescapeSvgText_entity "lt;" _ "<"%char), IH; [reflexivity|].
    unfold readEntity. rewrite dropPrefix_app. reflexivity. }
  destruct (Ascii.eqb ch ">"%char) eqn:E3.
  { apply Ascii.eqb_eq in E3. subst ch.
    change ("&gt;" ^^ escapeSvgText s) with (String "&"%char ("gt;" ^^ escapeSvgText s)).
    rewrite (unescapeSvgText_entity "gt;" _ ">"%char), IH; [reflexivity|].
    unfold readEntity. rewrite dropPrefix_app. reflexivity. }
  destruct (Ascii.eqb ch quoteChar) eqn:E4.
  { apply Ascii.eqb_eq in E4. subst ch.
    change ("&quot;" ^^ escapeSvgText s) with (String "&"%char ("quot;" ^^ escapeSvgText s)).
    rewrite (unescapeSvgText_entity "quot;" _ quoteChar), IH; [reflexivity|].
    unfold readEntity. rewrite dropPrefix_app. reflexivity. }
  destruct (Ascii.eqb ch "'"%char) eqn:E5.
  { apply Ascii.eqb_eq in E5. subst ch.
    change ("&apos;" ^^ escapeSvgText s) with (String "&"%char ("apos;" ^^ escapeSvgText s)).
    rewrite (unescapeSvgText_entity "apos;" _ "'"%char), IH; [reflexivity|].
    unfold readEntity. rewrite dropPrefix_app. reflexivity. }
  cbn [String.append unescapeSvgFrom]. rewrite E1, IH. reflexivity.
Qed.

(** X9: [escapeSvgText] can be undone and its result is plain character
    data: decoding the five entities gives back the value; the result
    contains no "<", ">", double or single quote, and each of its ampersands
    begins one of the entities amp, lt, gt, quot, apos; and a value without
    the five special characters is left as it is. *)
Theorem escapeSvgText_round_trip_and_safe :
  (forall s, unescapeSvgText (escapeSvgText s) = s)
  /\ (forall s, isSvgTextData (escapeSvgText s) = true)
  /\ (forall s, (forall ch, In ch (list_ascii_of_string s) -> isSvgSpecial ch = false) ->
                escapeSvgText s = s).
Proof.
  split; [exact unescape_escape_svg | split].
  - intro s. induction s as [|ch s IH]; [reflexivity|].
    rewrite escapeSvgText_cons. unfold escapeSvgChar.
    destruct (Ascii.eqb ch "&"%char) eqn:E1.
    { change ("&amp;" ^^ escapeSvgText s) with (String "&"%char ("amp;" ^^ escapeSvgText s)).
      cbn [isSvgTextData]. rewrite Ascii.eqb_refl. unfold readEntity.
      rewrite dropPrefix_app. cbn. exact IH. }
    destruct (Ascii.eqb ch "<"%char) eqn:E2.
    { change ("&lt;" ^^ escapeSvgText s) with (String "&"%char ("lt;" ^^ escapeSvgText s)).
      cbn [isSvgTextData]. rewrite Ascii.eqb_refl. unfold readEntity.
      rewrite dropPrefix_app. cbn. exact IH. }
    destruct (Ascii.eqb ch ">"%char) eqn:E3.
    { change ("&gt;" ^^ escapeSvgText s) with (String "&"%char ("gt;" ^^ escapeSvgText s)).
      cbn [isSvgTextData]. rewrite Ascii.eqb_refl. unfold readEntity.
      rewrite dropPrefix_app. cbn. exact IH. }
    destruct (Ascii.eqb ch quoteChar) eqn:E4.
    { change ("&quot;" ^^ escapeSvgText s) with (String "&"%char ("quot;" ^^ escapeSvgText s)).
      cbn [isSvgTextData]. rewrite Ascii.eqb_refl. unfold readEntity.
      rewrite dropPrefix_app. cbn. exact IH. }
    destruct (Ascii.eqb ch "'"%char) eqn:E5.
    { change ("&apos;" ^^ escapeSvgText s) with (String "&"%char ("apos;" ^^ escapeSvgText s)).
      cbn [isSvgTextData]. rewrite Ascii.eqb_refl. unfold readEntity.
      rewrite dropPrefix_app. cbn. exact IH. }
    cbn [String.append isSvgTextData]. rewrite E1. unfold isSvgSpecial.
    now rewrite E1, E2, E3, E4, E5, IH.
  - intro s. induction s as [|ch s IH]; intro H; [reflexivity|].
    rewrite escapeSvgText_cons. unfold escapeSvgChar.
    assert (Hch : isSvgSpecial ch = false) by (apply H; now left).
    unfold isSvgSpecial in Hch. rewrite !orb_false_iff in Hch.
    destruct Hch as ((((-> & ->) & ->) & ->) & ->).
    cbn [String.append]. rewrite IH; [reflexivity|].
    intros c Hc. apply H. now right.
Qed.

Lemma hexDigitValue_range ch d : hexDigitValue ch = Some d -> (0 <= d <= 15)%Z.
Proof.
  unfold hexDigitValue. cbv zeta. generalize (Z.of_nat (nat_of_ascii ch)). intro n.
  repeat match goal with
         | |- context [(?a <=? ?b)%Z] => destruct (Z.leb_spec a b)
         end; cbn [andb]; intros [= <-]; lia.
Qed.

Lemma hexDigits_range s ds :
  hexDigits s = Some ds -> Forall (fun d => (0 <= d <= 15)%Z) ds.
Proof.
  revert ds. induction s as [|ch s IH]; intros ds H; cbn [hexDigits] in H.
  - injection H as <-. constructor.
  - destruct (hexDigitValue ch) as [d|] eqn:Ed; [|discriminate].
    destruct (hexDigits s) as [ds'|]; [|discriminate]. injection H as <-.
    constructor; [eapply hexDigitValue_range; eassumption | now apply IH].
Qed.

Lemma channel_of_pairs (a b c d e f : Z) :
  (0 <= a <= 15)%Z -> (0 <= b <= 15)%Z -> (0 <= c <= 15)%Z ->
  (0 <= d <= 15)%Z -> (0 <= e <= 15)%Z -> (0 <= f <= 15)%Z ->
  let intVal := parseHex [a; b; c; d; e; f] in
  Z.land (Z.shiftr intVal 16) 255 = (16 * a + b)%Z
  /\ Z.land (Z.shiftr intVal 8) 255 = (16 * c + d)%Z
  /\ Z.land intVal 255 = (16 * e + f)%Z.
Proof.
  intros Ha Hb Hc Hd He Hf intVal.
  change 255%Z with (Z.ones 8). rewrite !Z.land_ones, !Z.shiftr_div_pow2 by lia.
  subst intVal. unfold parseHex. cbn [fold_left].
  change (2 ^ 16)%Z with 65536%Z. change (2 ^ 8)%Z with 256%Z.
  repeat split.
  - assert (E : (((((((0 * 16 + a) * 16 + b) * 16 + c) * 16 + d) * 16 + e) * 16 + f)
                 / 65536 = 16 * a + b)%Z).
    { symmetry. apply (Z.div_unique _ _ _ (((c * 16 + d) * 16 + e) * 16 + f)); lia. }
    rewrite E. apply Z.mod_small. lia.
  - assert (E : (((((((0 * 16 + a) * 16 + b) * 16 + c) * 16 + d) * 16 + e) * 16 + f)
                 / 256 = (16 * a + b) * 256 + (16 * c + d))%Z).
    { symmetry. apply (Z.div_unique _ _ _ (e * 16 + f)); lia. }
    rewrite E. symmetry. apply (Z.mod_unique _ _ (16 * a + b)); lia.
  - symmetry. apply (Z.mod_unique _ _ ((16 * a + b) * 256 + (16 * c + d))); lia.
Qed.

(** X10: [hexToRgb], after trimming and dropping one leading "#", accepts
    exactly three or six hexadecimal digits.  For six digits the channels
    are the values of the three digit pairs; for three digits each channel is
    its digit doubled (17 times the digit); anything else gives null.  Every
    channel returned lies between 0 and 255. *)
Theorem hexToRgb_channels :
  forall (trim : string -> string) (hex : string),
    hexToRgb trim hex
    = match hexDigits (stripHash (trim hex)) with
      | Some [a; b; c] =>
          Some (mkRgb (17 * a) (17 * b) (17 * c))
      | Some [a; b; c; d; e; f] =>
          Some (mkRgb (16 * a + b) (16 * c + d) (16 * e + f))
      | _ => None
      end
    /\ (forall color, hexToRgb trim hex = Some color ->
          (0 <= rgb_r color <= 255)%Z /\ (0 <= rgb_g color <= 255)%Z
          /\ (0 <= rgb_b color <= 255)%Z).
Proof.
  intros trim hex.
  assert (H : hexToRgb trim hex
              = match hexDigits (stripHash (trim hex)) with
                | Some [a; b; c] => Some (mkRgb (17 * a) (17 * b) (17 * c))
                | Some [a; b; c; d; e; f] =>
                    Some (mkRgb (16 * a + b) (16 * c + d) (16 * e + f))
                | _ => None
                end
              /\ forall ds, hexDigits (stripHash (trim hex)) = Some ds ->
                            Forall (fun d => (0 <= d <= 15)%Z) ds).
  { split; [|apply hexDigits_range].
    unfold hexToRgb.
    pose proof (hexDigits_range (stripHash (trim hex))) as Hr.
    destruct (hexDigits (stripHash (trim hex))) as [ds|]; [|reflexivity].
    specialize (Hr ds eq_refl).
    destruct ds as [|a [|b [|c [|d [|e [|f [|g ds]]]]]]]; try reflexivity.
    - inversion Hr as [|? ? Ha Hr1]; subst. inversion Hr1 as [|? ? Hb Hr2]; subst.
      inversion Hr2 as [|? ? Hc _]; subst.
      cbn [List.length Nat.eqb orb flat_map app].
      destruct (channel_of_pairs a a b b c c Ha Ha Hb Hb Hc Hc) as (-> & -> & ->).
      f_equal. f_equal; lia.
    - inversion Hr as [|? ? Ha Hr1]; subst. inversion Hr1 as [|? ? Hb Hr2]; subst.
      inversion Hr2 as [|? ? Hc Hr3]; subst. inversion Hr3 as [|? ? Hd Hr4]; subst.
      inversion Hr4 as [|? ? He Hr5]; subst. inversion Hr5 as [|? ? Hf _]; subst.
      cbn [List.length Nat.eqb orb].
      destruct (channel_of_pairs a b c d e f Ha Hb Hc Hd He Hf) as (-> & -> & ->).
      reflexivity. }
  destruct H as [Heq Hrange]. split; [exact Heq|].
  intros color. rewrite Heq.
  destruct (hexDigits (stripHash (trim hex))) as [ds|]; [|discriminate].
  specialize (Hrange ds eq_refl).
  destruct ds as [|a [|b [|c [|d [|e [|f [|g ds]]]]]]]; try discriminate;
    intro E;
    match type of E with
    | Some ?v = Some _ => assert (Ec : color = v) by congruence
    end;
    subst color; cbn [rgb_r rgb_g rgb_b];
    repeat match goal with
           | H : Forall _ (_ :: _) |- _ => inversion H; subst; clear H
           end; lia.
Qed.

(** ** PDF layout: what every page looks like *)

Section LayoutShape.

Variable readable : string -> bool.
Variables pw ph : Z.
Variable wm : option Watermark.
Variable c : nat.
Variable items : list GroupedItem.

Lemma drawWatermark_calls :
  drawWatermark (addPage pw ph) wm = mkPage pw ph (watermarkCalls wm).
Proof.
  unfold drawWatermark, watermarkCalls, addPage, draw.
  destruct wm as [w|]; [|reflexivity]. destruct (truthyStr (wm_text w)); reflexivity.
Qed.

Lemma gridCellCalls_app from r1 r2 :
  gridCellCalls pw ph c from (r1 ++ r2)
  = gridCellCalls pw ph c from r1
    ++ gridCellCalls pw ph c (from + List.length r1) r2.
Proof.
  revert from. induction r1 as [|r r1 IH]; intro from; cbn [gridCellCalls app List.length].
  - now rewrite Nat.add_0_r.
  - rewrite IH. do 3 f_equal. lia.
Qed.

Lemma pageItems_cells from recs :
  flat_map itemsOfCall (gridCellCalls pw ph c from recs) = map ItemProduct recs.
Proof.
  revert from. induction recs as [|r recs IH]; intro from; [reflexivity|].
  cbn [gridCellCalls flat_map map]. unfold gridCellCall at 1. cbn [itemsOfCall app].
  now rewrite IH.
Qed.

Lemma pageItems_watermark : flat_map itemsOfCall (watermarkCalls wm) = [].
Proof.
  unfold watermarkCalls. destruct wm as [w|]; [|reflexivity].
  destruct (truthyStr (wm_text w)); reflexivity.
Qed.

Lemma atProduct_firstn i recs :
  atProduct items i = false ->
  firstn (List.length recs) (skipn i items) = map ItemProduct recs -> recs = [].
Proof.
  unfold atProduct. intros Hat H. destruct recs as [|r recs]; [reflexivity|].
  exfalso. cbn [List.length firstn map] in H.
  destruct (skipn i items) as [|x l] eqn:E; [discriminate|].
  injection H as -> _.
  assert (nth_error items i = Some (ItemProduct r)).
  { rewrite <- (firstn_skipn i items) at 1.
    destruct (Nat.le_gt_cases (List.length items) i) as [Hle|Hlt].
    - rewrite skipn_all2 in E by exact Hle. discriminate.
    - rewrite nth_error_app2; rewrite length_firstn, Nat.min_l by lia; [|lia].
      rewrite Nat.sub_diag, E. reflexivity. }
  rewrite H in Hat. discriminate.
Qed.

Lemma skipn_product i r :
  nth_error items i = Some (ItemProduct r) ->
  skipn i items = ItemProduct r :: skipn (S i) items.
Proof.
  revert i. induction items as [|x l IH]; intros [|i] H; try discriminate.
  - injection H as ->. reflexivity.
  - cbn [skipn]. apply IH. exact H.
Qed.

(** The column loop, whatever the covers. *)
Lemma gridColLoop_shape n col row i page :
  (col + n <= c)%nat ->
  match gridColLoop readable pw ph items c n col row i page with
  | Ok (i', page') =>
      exists recs,
        i' = (i + List.length recs)%nat /\ (List.length recs <= n)%nat
        /\ firstn (List.length recs) (skipn i items) = map ItemProduct recs
        /\ Forall (fun r => coverReadFails readable r = false) recs
        /\ page' = mkPage (page_width page) (page_height page)
                     (page_calls page ++ gridCellCalls pw ph c (row * c + col) recs)
        /\ (List.length recs = n \/ atProduct items i' = false)
  | Throw e => e = readError /\ hasUnreadableCover readable items
  end.
Proof.
  revert col i page. induction n as [|n IH]; intros col i page Hcol;
    cbn [gridColLoop].
  - exists []. cbn [List.length gridCellCalls firstn map].
    rewrite Nat.add_0_r, app_nil_r. destruct page. repeat split; auto.
  - assert (Hstop : atProduct items i = false ->
              exists recs : list ProductRecord,
                i = (i + List.length recs)%nat /\ (List.length recs <= S n)%nat
                /\ firstn (List.length recs) (skipn i items) = map ItemProduct recs
                /\ Forall (fun r => coverReadFails readable r = false) recs
                /\ page = mkPage (page_width page) (page_height page)
                            (page_calls page ++ gridCellCalls pw ph c (row * c + col) recs)
                /\ (List.length recs = S n \/ atProduct items i = false)).
    { intro Hat. exists []. cbn [List.length gridCellCalls firstn map].
      rewrite Nat.add_0_r, app_nil_r. destruct page. repeat split; auto; lia. }
    destruct (Nat.leb_spec (List.length items) i) as [Hle|Hlt].
    + apply Hstop. unfold atProduct.
      now rewrite (proj2 (nth_error_None items i) Hle).
    + destruct (nth_error items i) as [[t|r]|] eqn:E;
        try (apply Hstop; unfold atProduct; now rewrite E).
      unfold drawGridCell. destruct (coverReadFails readable r) eqn:Er.
      * split; [reflexivity|]. exists r. split; [|exact Er].
        eapply nth_error_In; eassumption.
      * specialize (IH (col + 1)%nat (i + 1)%nat
                       (draw page (CallGridCell r
                          (inject_Z (Z.of_nat col) * cellWidth pw c)
                          (inject_Z ph - inject_Z (Z.of_nat (row + 1)) * cellHeight ph)
                          (cellWidth pw c) (cellHeight ph)))).
        destruct (gridColLoop readable pw ph items c n (col + 1) row (i + 1) _)
          as [[i' page']|e]; [|apply IH; lia].
        destruct IH as (recs & -> & Hlen & Hitems & Hread & -> & Hend); [lia|].
        exists (r :: recs). cbn [List.length].
        split; [lia | split; [lia | split; [|split; [|split]]]].
        -- rewrite (skipn_product i r E). cbn [firstn map]. f_equal.
           rewrite <- Hitems. now rewrite Nat.add_1_r.
        -- now constructor.
        -- cbn [draw page_width page_height page_calls gridCellCalls].
           f_equal. rewrite <- app_assoc. cbn [app]. do 2 f_equal.
           ++ unfold gridCellCall.
              assert (Hmod : ((row * c + col) mod c = col)%nat).
              { rewrite Nat.add_comm, Nat.Div0.mod_add. apply Nat.mod_small. lia. }
              assert (Hdiv : ((row * c + col) / c = row)%nat).
              { rewrite Nat.add_comm, Nat.div_add by lia.
                rewrite Nat.div_small by lia. reflexivity. }
              now rewrite Hmod, Hdiv.
           ++ f_equal. lia.
        -- replace (i + S (List.length recs))%nat
             with (i + 1 + List.length recs)%nat by lia.
           destruct Hend as [Hend|Hend]; [left; lia | right; exact Hend].
Qed.

Lemma gridRowLoop_shape n row i page :
  match gridRowLoop readable pw ph items c n row i page with
  | Ok (i', page') =>
      exists recs,
        i' = (i + List.length recs)%nat /\ (List.length recs <= n * c)%nat
        /\ firstn (List.length recs) (skipn i items) = map ItemProduct recs
        /\ Forall (fun r => coverReadFails readable r = false) recs
        /\ page' = mkPage (page_width page) (page_height page)
                     (page_calls page ++ gridCellCalls pw ph c (row * c) recs)
        /\ (List.length recs = (n * c)%nat \/ atProduct items i' = false)
  | Throw e => e = readError /\ hasUnreadableCover readable items
  end.
Proof.
  revert row i page. induction n as [|n IH]; intros row i page; cbn [gridRowLoop].
  - exists []. cbn [List.length gridCellCalls firstn map].
    rewrite Nat.add_0_r, app_nil_r. destruct page. repeat split; auto.
  - pose proof (gridColLoop_shape c 0 row i page (Nat.le_refl _)) as Hcol.
    destruct (gridColLoop readable pw ph items c c 0 row i page) as [[i1 p1]|e];
      [|exact Hcol].
    destruct Hcol as (r1 & -> & Hlen1 & Hitems1 & Hread1 & -> & Hend1).
    specialize (IH (row + 1)%nat (i + List.length r1)%nat
                   (mkPage (page_width page) (page_height page)
                      (page_calls page ++ gridCellCalls pw ph c (row * c + 0) r1))).
    destruct (gridRowLoop readable pw ph items c n (row + 1) (i + List.length r1) _)
      as [[i2 p2]|e]; [|exact IH].
    destruct IH as (r2 & -> & Hlen2 & Hitems2 & Hread2 & -> & Hend2).
    cbn [page_width page_height page_calls].
    assert (Hr2 : List.length r1 = c \/ r2 = []).
    { destruct Hend1 as [H|H]; [now left | right].
      eapply atProduct_firstn; eassumption. }
    exists (r1 ++ r2). rewrite length_app.
    split; [lia | split; [cbn; lia | split; [|split; [|split]]]].
    + replace (List.length r1 + List.length r2)%nat
        with (i + List.length r1 + List.length r2 - i)%nat by lia.
      rewrite (firstn_skipn_split items i (i + List.length r1)) by lia.
      replace (i + List.length r1 - i)%nat with (List.length r1) by lia.
      replace (i + List.length r1 + List.length r2 - (i + List.length r1))%nat
        with (List.length r2) by lia.
      now rewrite Hitems1, Hitems2, map_app.
    + apply Forall_app. now split.
    + f_equal. rewrite <- app_assoc. f_equal. rewrite gridCellCalls_app, Nat.add_0_r.
      f_equal. destruct Hr2 as [-> | ->]; [f_equal; lia | reflexivity].
    + destruct Hr2 as [Hc | ->].
      * destruct Hend2 as [H|H]; [left; cbn; lia | right; exact H].
      * cbn [List.length] in *. rewrite !Nat.add_0_r in *.
        destruct Hend1 as [H|H]; [|right; exact H].
        destruct Hend2 as [H2|H2]; [left; cbn; lia | right; exact H2].
Qed.

(** The pages the grid loop adds, whatever the covers and the fuel. *)
Lemma layoutGrid_shape fuel i pdf :
  match layoutGrid readable pw ph wm items c fuel i pdf with
  | Some (Ok pages) =>
      exists P, pages = pdf ++ P
                /\ flat_map pageItems P = skipn i items
                /\ Forall (isGridPage pw ph wm c) P
                /\ coversReadable readable (skipn i items)
  | Some (Throw e) => e = readError /\ hasUnreadableCover readable items
  | None => (0 < c)%nat -> (fuel < List.length items - i)%nat
  end.
Proof.
  revert i pdf. induction fuel as [|fuel IH]; intros i pdf; cbn [layoutGrid];
    destruct (Nat.ltb_spec i (List.length items)) as [Hlt|Hge];
    try (exists []; rewrite app_nil_r, skipn_all2 by lia;
         repeat split; constructor); [lia|].
  rewrite drawWatermark_calls.
  destruct (nth_error items i) as [[t|r]|] eqn:E.
  - specialize (IH (i + 1)%nat (pdf ++ [drawHeaderPage (mkPage pw ph (watermarkCalls wm)) t])).
    destruct (layoutGrid readable pw ph wm items c fuel (i + 1) _) as [[pages|e]|];
      [|exact IH|intro Hc; specialize (IH Hc); lia].
    destruct IH as (P & -> & Hitems & Hshape & Hcovers).
    exists (drawHeaderPage (mkPage pw ph (watermarkCalls wm)) t :: P).
    rewrite <- app_assoc. split; [reflexivity | split; [|split]].
    + cbn [flat_map]. rewrite Hitems, (skipn_nth_error_cons _ _ _ E), Nat.add_1_r.
      unfold pageItems at 1, drawHeaderPage, draw. cbn [page_calls].
      rewrite flat_map_app, pageItems_watermark. reflexivity.
    + constructor; [|exact Hshape].
      split; [reflexivity | split; [reflexivity | left]]. now exists t.
    + rewrite (skipn_nth_error_cons _ _ _ E). constructor; [exact I|].
      now rewrite <- Nat.add_1_r.
  - pose proof (gridRowLoop_shape rows 0 i (mkPage pw ph (watermarkCalls wm))) as Hrow.
    destruct (gridRowLoop readable pw ph items c rows 0 i _) as [[i' page']|e];
      [|exact Hrow].
    destruct Hrow as (recs & -> & Hlen & Hfirst & Hread & -> & Hend).
    cbn [page_width page_height page_calls] in *.
    assert (Hne : (0 < c)%nat -> recs <> []).
    { intros Hc ->. cbn [List.length] in Hend. rewrite Nat.add_0_r in Hend.
      destruct Hend as [H|H]; [unfold rows in H; lia|].
      unfold atProduct in H. rewrite E in H. discriminate. }
    specialize (IH (i + List.length recs)%nat
                   (pdf ++ [mkPage pw ph (watermarkCalls wm
                                          ++ gridCellCalls pw ph c (0 * c) recs)])).
    destruct (layoutGrid readable pw ph wm items c fuel (i + List.length recs) _)
      as [[pages|e]|]; [|exact IH|].
    + destruct IH as (P & -> & Hitems & Hshape & Hcovers).
      assert (Hsplit : skipn i items
                       = map ItemProduct recs ++ skipn (i + List.length recs) items).
      { rewrite <- Hfirst.
        replace (skipn (i + List.length recs) items)
          with (skipn (List.length recs) (skipn i items))
          by (rewrite skipn_skipn; f_equal; lia).
        symmetry. apply firstn_skipn. }
      eexists (_ :: P). rewrite <- app_assoc. split; [reflexivity | split; [|split]].
      * cbn [flat_map]. rewrite Hitems. unfold pageItems at 1. cbn [page_calls].
        rewrite flat_map_app, pageItems_watermark, pageItems_cells. cbn [app].
        now rewrite Hsplit.
      * constructor; [|exact Hshape].
        split; [reflexivity | split; [reflexivity | right]].
        exists recs. unfold rows in Hlen. cbn [Nat.mul] in *. repeat split; auto.
      * rewrite Hsplit. apply Forall_app. split; [|exact Hcovers].
        apply Forall_map. exact Hread.
    + intro Hc. specialize (IH Hc). specialize (Hne Hc).
      destruct recs; [congruence | cbn [List.length] in IH; lia].
  - apply nth_error_None in E. lia.
Qed.

(** The pages of the layout with one item per page. *)
Lemma layoutOnePerPage_shape its pdf :
  match layoutOnePerPage readable pw ph wm its pdf with
  | Ok pages =>
      exists P, pages = pdf ++ P
                /\ flat_map pageItems P = its
                /\ Forall (isSinglePage pw ph wm) P
                /\ ~ hasUnreadableCover readable its
  | Throw e => e = readError /\ hasUnreadableCover readable its
  end.
Proof.
  revert pdf. induction its as [|item its IH]; intro pdf; cbn [layoutOnePerPage].
  - exists []. rewrite app_nil_r. repeat split; try constructor.
    intros (r & [] & _).
  - rewrite drawWatermark_calls. destruct item as [t|r].
    + specialize (IH (pdf ++ [drawHeaderPage (mkPage pw ph (watermarkCalls wm)) t])).
      destruct (layoutOnePerPage readable pw ph wm its _) as [pages|e].
      * destruct IH as (P & -> & Hitems & Hshape & Hnone).
        eexists (_ :: P). rewrite <- app_assoc.
        split; [reflexivity | split; [|split]].
        -- cbn [flat_map]. rewrite Hitems.
           unfold pageItems at 1, drawHeaderPage, draw. cbn [page_calls].
           rewrite flat_map_app, pageItems_watermark. reflexivity.
        -- constructor; [|exact Hshape].
           split; [reflexivity | split; [reflexivity | left]]. now exists t.
        -- intros (r & [Hr|Hr] & Hf); [discriminate|]. apply Hnone. now exists r.
      * destruct IH as (-> & r & Hr & Hf). split; [reflexivity|].
        exists r. split; [now right | exact Hf].
    + unfold drawOnePerPage. destruct (coverReadFails readable r) eqn:Er.
      * split; [reflexivity|]. exists r. split; [now left | exact Er].
      * specialize (IH (pdf ++ [draw (mkPage pw ph (watermarkCalls wm)) (CallOnePerPage r)])).
        destruct (layoutOnePerPage readable pw ph wm its _) as [pages|e].
        -- destruct IH as (P & -> & Hitems & Hshape & Hnone).
           eexists (_ :: P). rewrite <- app_assoc.
           split; [reflexivity | split; [|split]].
           ++ cbn [flat_map]. rewrite Hitems.
              unfold pageItems at 1, draw. cbn [page_calls].
              rewrite flat_map_app, pageItems_watermark. reflexivity.
           ++ constructor; [|exact Hshape].
              split; [reflexivity | split; [reflexivity | right]]. now exists r.
           ++ intros (r' & [Hr|Hr] & Hf); [injection Hr as ->; congruence|].
              apply Hnone. now exists r'.
        -- destruct IH as (-> & r' & Hr & Hf). split; [reflexivity|].
           exists r'. split; [now right | exact Hf].
Qed.

End LayoutShape.

Lemma renderPages_shape readable fuel settings items :
  match renderPages readable fuel settings items with
  | Some (Ok pages) =>
      flat_map pageItems pages = items
      /\ Forall (isPageOf settings) pages
      /\ coversReadable readable items
  | Some (Throw e) => e = readError /\ hasUnreadableCover readable items
  | None =>
      nullish (layoutType settings) GRID = GRID
      /\ ((0 < nullish (gridColumns settings) 3)%nat -> (fuel < List.length items)%nat)
  end.
Proof.
  unfold renderPages, isPageOf.
  destruct (pageDims settings) as [pw ph]. cbn [fst snd].
  destruct (nullish (layoutType settings) GRID).
  - pose proof (layoutGrid_shape readable pw ph (watermarkOf settings)
                  (nullish (gridColumns settings) 3%nat) items fuel 0 []) as H.
    destruct (layoutGrid _ _ _ _ _ _ _ _ _) as [[pages|e]|].
    + destruct H as (P & -> & Hitems & Hshape & Hcovers). cbn [app skipn] in *. auto.
    + exact H.
    + split; [reflexivity|]. intro Hc. specialize (H Hc). lia.
  - pose proof (layoutOnePerPage_shape readable pw ph (watermarkOf settings) items [])
      as H.
    destruct (layoutOnePerPage _ _ _ _ _ _) as [pages|e]; [|exact H].
    destruct H as (P & -> & Hitems & Hshape & Hnone). cbn [app].
    split; [exact Hitems | split; [exact Hshape|]].
    apply Forall_forall. intros [t|r] Hin; [exact I|].
    destruct (coverReadFails readable r) eqn:E; [|reflexivity].
    exfalso. apply Hnone. now exists r.
Qed.

Lemma hasUnreadable_not_readable readable items :
  hasUnreadableCover readable items -> coversReadable readable items -> False.
Proof.
  intros (r & Hin & Hf) Hall. unfold coversReadable in Hall.
  rewrite Forall_forall in Hall. specialize (Hall _ Hin). cbn in Hall. congruence.
Qed.

Lemma not_readable_hasUnreadable readable items :
  ~ coversReadable readable items -> hasUnreadableCover readable items.
Proof.
  intro H. induction items as [|item items IH]; [exfalso; apply H; constructor|].
  destruct item as [t|r].
  - destruct IH as (r & Hin & Hf).
    + intro Hall. apply H. now constructor.
    + exists r. split; [now right | exact Hf].
  - destruct (coverReadFails readable r) eqn:E.
    + exists r. split; [now left | exact E].
    + destruct IH as (r' & Hin & Hf).
      * intro Hall. apply H. now constructor.
      * exists r'. split; [now right | exact Hf].
Qed.

Lemma length_sections key (records : list ProductRecord) titles :
  List.length (flat_map (sectionOf key records) titles)
  = (List.length titles
     + List.length (flat_map (fun t => filter (fun r => String.eqb (key r) t) records)
                             titles))%nat.
Proof.
  induction titles as [|t ts IH]; [reflexivity|].
  cbn [flat_map List.length]. rewrite !length_app, IH. unfold sectionOf.
  cbn [List.length]. rewrite length_map. lia.
Qed.

Lemma buildGroupedItems_length records settings :
  (List.length (buildGroupedItems records settings) <= 2 * List.length records)%nat.
Proof.
  destruct (buildGroupedItems_sections records settings)
    as (Hnone & Hsome & Hnd & Hkeys & Hperm).
  cbv zeta in *.
  destruct (nullish (grouping settings) NONE) eqn:Eg.
  1: { rewrite Hnone by reflexivity. rewrite length_map. lia. }
  all: rewrite Hsome in * by discriminate;
    rewrite length_sections;
    rewrite productsOf_sections in Hperm;
    rewrite (Permutation_length Hperm);
    match goal with
    | |- (List.length ?ts + _ <= _)%nat =>
        assert (List.length ts <= List.length records)%nat; [|lia]
    end;
    match goal with
    | |- (List.length (firstSeen (map ?k _)) <= _)%nat =>
        rewrite <- (length_map k records)
    end;
    apply NoDup_incl_length; [exact Hnd|];
    intros t Ht; apply Hkeys in Ht; destruct Ht as (r & Hr & <-);
    now apply in_map.
Qed.

Lemma In_buildGroupedItems records settings r :
  In (ItemProduct r) (buildGroupedItems records settings) <-> In r records.
Proof.
  destruct (buildGroupedItems_sections records settings) as (_ & _ & _ & _ & Hperm).
  cbv zeta in Hperm.
  assert (H : forall items, In (ItemProduct r) items <-> In r (productsOf items)).
  { intro items. unfold productsOf. rewrite in_flat_map. split.
    - intro Hin. exists (ItemProduct r). split; [exact Hin | now left].
    - intros ([t|r'] & Hin & Hr); [destruct Hr|].
      destruct Hr as [->|[]]. exact Hin. }
  rewrite H. split; intro Hin.
  - eapply Permutation_in; eassumption.
  - eapply Permutation_in; [symmetry|]; eassumption.
Qed.

(** X11: with a positive column count and fuel for every grouped item,
    [buildPdf] throws the read error as soon as one record names a cover
    file that cannot be read, in both layouts and wherever the record
    stands; and it returns its pages when every record's cover file, if it
    names one, can be read.  [drawImageOrPlaceholder] reads the file outside
    its [try]. *)
Theorem buildPdf_fails_on_unreadable_cover :
  forall (readable : string -> bool) (fuel : nat)
         (records : list ProductRecord) (settings : ExportSettings),
    (0 < nullish (gridColumns settings) 3)%nat ->
    (2 * List.length records <= fuel)%nat ->
    ((exists r, In r records /\ coverReadFails readable r = true) ->
     buildPdf readable fuel records settings = Some (Throw readError))
    /\ ((forall r, In r records -> coverReadFails readable r = false) ->
        exists pages, buildPdf readable fuel records settings = Some (Ok pages)).
Proof.
  intros readable fuel records settings Hc Hfuel. unfold buildPdf.
  pose proof (renderPages_shape readable fuel settings
                (buildGroupedItems records settings)) as H.
  pose proof (buildGroupedItems_length records settings) as Hlen.
  split.
  - intros (r & Hin & Hf).
    assert (Hbad : hasUnreadableCover readable (buildGroupedItems records settings)).
    { exists r. split; [now apply In_buildGroupedItems | exact Hf]. }
    destruct (renderPages _ _ _ _) as [[pages|e]|].
    + exfalso. eapply hasUnreadable_not_readable; [exact Hbad | apply H].
    + destruct H as [-> _]. reflexivity.
    + destruct H as [_ H]. specialize (H Hc). lia.
  - intro Hall. destruct (renderPages _ _ _ _) as [[pages|e]|].
    + now exists pages.
    + exfalso. destruct H as (_ & r & Hin & Hf).
      apply In_buildGroupedItems in Hin. rewrite (Hall r Hin) in Hf. discriminate.
    + destruct H as [_ H]. specialize (H Hc). lia.
Qed.

Lemma cellRecords_pageItems pages :
  flat_map cellRecords pages = productsOf (flat_map pageItems pages).
Proof.
  unfold productsOf. induction pages as [|p pages IH]; [reflexivity|].
  cbn [flat_map]. rewrite flat_map_app, IH. f_equal.
  unfold cellRecords, pageItems.
  induction (page_calls p) as [|call calls IHc]; [reflexivity|].
  cbn [flat_map]. rewrite flat_map_app, IHc. f_equal.
  destruct call; reflexivity.
Qed.

(** X12: when [buildPdf] returns its pages, the headers and products drawn
    on them, page after page and in drawing order, are exactly the grouped
    items; so the products drawn are a permutation of the records, and
    without grouping they are the records in their order. *)
Theorem buildPdf_shows_every_record_once :
  forall (readable : string -> bool) (fuel : nat)
         (records : list ProductRecord) (settings : ExportSettings)
         (pages : list Page),
    buildPdf readable fuel records settings = Some (Ok pages) ->
    flat_map pageItems pages = buildGroupedItems records settings
    /\ Permutation (flat_map cellRecords pages) records
    /\ (nullish (grouping settings) NONE = NONE -> flat_map cellRecords pages = records).
Proof.
  intros readable fuel records settings pages Hrun. unfold buildPdf in Hrun.
  pose proof (renderPages_shape readable fuel settings
                (buildGroupedItems records settings)) as H.
  rewrite Hrun in H. destruct H as (Hitems & _ & _).
  destruct (buildGroupedItems_sections records settings) as (Hnone & _ & _ & _ & Hperm).
  cbv zeta in *.
  split; [exact Hitems | split].
  - rewrite cellRecords_pageItems, Hitems. exact Hperm.
  - intro Hg. rewrite cellRecords_pageItems, Hitems, (Hnone Hg).
    apply productsOf_products.
Qed.















Lemma watermarkTexts_cells pw ph c from recs :
  flat_map watermarkTextsOfCall (gridCellCalls pw ph c from recs) = [].
Proof.
  revert from. induction recs as [|r recs IH]; intro from; [reflexivity|].
  cbn [gridCellCalls flat_map]. now rewrite IH.
Qed.

(** X14: with the watermark enabled and a non-empty text, every page
    [buildPdf] returns, header page or product page, in both layouts, has the
    watermark text as its first drawing and only once, with opacity 0.35 for
    HEAVY, 0.2 for MEDIUM and 0.12 otherwise. *)
Theorem buildPdf_watermark_on_every_page :
  forall (readable : string -> bool) (fuel : nat)
         (records : list ProductRecord) (settings : ExportSettings)
         (pages : list Page) (text : string),
    watermarkEnabled settings = Some true ->
    watermarkText settings = Some text -> text <> "" ->
    buildPdf readable fuel records settings = Some (Ok pages) ->
    let opacity :=
      match watermarkOpacity settings with
      | Some HEAVY => 35 # 100
      | Some MEDIUM => 2 # 10
      | _ => 12 # 100
      end in
    Forall (fun p => hd_error (page_calls p) = Some (CallWatermarkText text opacity)
                     /\ watermarkTexts p = [text]) pages.
Proof.
  intros readable fuel records settings pages text Hen Htext Hne Hrun opacity.
  unfold buildPdf in Hrun.
  pose proof (renderPages_shape readable fuel settings
                (buildGroupedItems records settings)) as H.
  rewrite Hrun in H. destruct H as (_ & Hshape & _).
  assert (Hwm : watermarkCalls (watermarkOf settings) = [CallWatermarkText text opacity]).
  { unfold watermarkCalls, watermarkOf. rewrite Hen, Htext. cbn [nullish wm_text wm_opacity].
    destruct text; [congruence | reflexivity]. }
  eapply Forall_impl; [|exact Hshape].
  intros p Hp. unfold isPageOf in Hp. unfold watermarkTexts.
  destruct (nullish (layoutType settings) GRID);
    destruct Hp as (_ & _ & [(t & ->) | (x & Hx)]);
    try (destruct Hx as (_ & _ & ->)); try rewrite Hx;
    rewrite Hwm; cbn [app hd_error flat_map watermarkTextsOfCall];
    rewrite ?watermarkTexts_cells; split; reflexivity.
Qed.

Lemma buildPdf_fails_on_unreadable_cover_witness :
  (0 < nullish (gridColumns sampleGridSettings) 3)%nat
  /\ (2 * List.length [storedMug; bowlRecord] <= 4)%nat
  /\ buildPdf noneReadable 4 [storedMug; bowlRecord] sampleGridSettings
     = Some (Throw readError).
Proof.
  split; [cbn; lia | split; [cbn; lia|]].
  apply (buildPdf_fails_on_unreadable_cover noneReadable 4 [storedMug; bowlRecord]
           sampleGridSettings); [cbn; lia | cbn; lia|].
  exists storedMug. split; [now left | reflexivity].
Defined.

Lemma buildPdf_shows_every_record_once_witness :
  buildPdf allReadable 4 sampleRun sampleGridSettings
  = Some (Ok (pagesOrNone (buildPdf allReadable 4 sampleRun sampleGridSettings)))
  /\ Permutation
       (flat_map cellRecords
                 (pagesOrNone (buildPdf allReadable 4 sampleRun sampleGridSettings)))
       sampleRun.
Proof.
  assert (H : buildPdf allReadable 4 sampleRun sampleGridSettings
              = Some (Ok (pagesOrNone (buildPdf allReadable 4 sampleRun sampleGridSettings))))
    by (vm_compute; reflexivity).
  split; [exact H|].
  apply (buildPdf_shows_every_record_once allReadable 4 sampleRun sampleGridSettings
           _ H).
Defined.


Lemma buildPdf_watermark_on_every_page_witness :
  watermarkEnabled sampleDraftWatermark = Some true
  /\ watermarkText sampleDraftWatermark = Some "DRAFT"
  /\ Forall (fun p => watermarkTexts p = ["DRAFT"])
            (pagesOrNone (buildPdf allReadable 4 sampleRun sampleDraftWatermark)).
Proof.
  split; [reflexivity | split; [reflexivity|]].
  assert (H : buildPdf allReadable 4 sampleRun sampleDraftWatermark
              = Some (Ok (pagesOrNone (buildPdf allReadable 4 sampleRun sampleDraftWatermark))))
    by (vm_compute; reflexivity).
  eapply Forall_impl;
    [|apply (buildPdf_watermark_on_every_page allReadable 4 sampleRun
               sampleDraftWatermark _ "DRAFT" eq_refl eq_refl ltac:(discriminate) H)].
  cbn beta. intros p [_ Hp]. exact Hp.
Defined.
